(** * z80dismblr: the analysis pipeline of the Z80 disassembler

    A shallow embedding of [src/basememory.ts], [src/memory.ts] and
    [src/disassembler/disasm.ts] (with the [NumberType] enumeration that
    belongs to it), followed by the properties of the specification that
    were checked against it.

    Conventions of the embedding.
    - A JavaScript [number] that holds an address, a length or a counter is
      a [Z]; [x & (MAX_MEM_SIZE-1)] is [Z.land x 0xFFFF].
    - A JavaScript [Map] iterates in insertion order and the passes of the
      disassembler iterate over [labels]; it is an association list that
      keeps the insertion order ([JsMap]).
    - A JavaScript [Set<number>] that is only tested for membership and
      unioned is a [gset Z].
    - An [assert] that fails, and a loop that runs out of fuel, are made
      explicit in the result type.
    - [emit('warning', msg)] appends to the [events] of the disassembler. *)

From Stdlib Require Import ZArith String Ascii DecimalString HexadecimalString.
From Stdlib Require PrimFloat Uint63 FloatOps SpecFloat Sorted DecimalZ DecimalPos.
From stdpp Require Import base decidable numbers option list gmap sets strings.
From Equations Require Import Equations.

Open Scope Z_scope.

#[local] Set Warnings "-clear-no-such-hyp".

(* ===================================================================== *)
(** * Part I: the program                                                 *)
(* ===================================================================== *)

(** [MAX_MEM_SIZE] of basememory.ts. *)
Definition MAX_MEM_SIZE : Z := 0x10000.

(** [address & (MAX_MEM_SIZE-1)]. *)
Definition mask16 (address : Z) : Z := Z.land address (MAX_MEM_SIZE - 1).

(** ** basememory.ts *)
Module BaseMemory.

(** [memory] is the [Uint8Array]; every element is a byte. *)
Record t : Type := mk {
  memory : list Z;
  startAddress : Z;
  size : Z
}.

(** [new BaseMemory(startAddress, size)]: a zero-filled array. *)
Definition new (startAddress size : Z) : t :=
  {| memory := replicate (Z.to_nat size) 0;
     startAddress := startAddress;
     size := size |}.

(** [this.memory[index] = value]: a [Uint8Array] keeps the low eight
    bits and ignores an index outside the array. *)
Definition setValueAtIndex (m : t) (index value : Z) : t :=
  if bool_decide (0 <= index)
  then {| memory := <[Z.to_nat index := value `mod` 256]> (memory m);
          startAddress := startAddress m;
          size := size m |}
  else m.

(** [getValueAt]: [None] is a failed [assert]. *)
Definition getValueAt (m : t) (address : Z) : option Z :=
  let address := mask16 address in
  let index := address - startAddress m in
  if bool_decide (index >= 0) then
    if bool_decide (index < size m) then memory m !! Z.to_nat index
    else None
  else None.

Definition getWordValueAt (m : t) (address : Z) : option Z :=
  lo ← getValueAt m address;
  hi ← getValueAt m (address + 1);
  Some (lo + 256 * hi).

Definition getBigEndianWordValueAt (m : t) (address : Z) : option Z :=
  hi ← getValueAt m address;
  lo ← getValueAt m (address + 1);
  Some (256 * hi + lo).

(** What the constructor establishes and [setValueAtIndex] keeps. *)
Definition wf (m : t) : Prop :=
  length (memory m) = Z.to_nat (size m) ∧
  Forall (λ b, 0 <= b < 256) (memory m).

End BaseMemory.

(** ** memory.ts (the [Memory] class of the [src] directory) *)
Module Memory.

Inductive MemAttribute : Type := UNUSED | ASSIGNED.

Record t : Type := mk {
  memory : list Z;
  memoryAttr : list MemAttribute
}.

(** The constructor: both arrays have [MAX_MEM_SIZE] entries. *)
Definition new : t :=
  {| memory := replicate (Z.to_nat MAX_MEM_SIZE) 0;
     memoryAttr := replicate (Z.to_nat MAX_MEM_SIZE) UNUSED |}.

(** The body of the loop of [setMemory] for the [i]-th byte. *)
Definition setMemory_step (origin : Z) (m : t) (i : nat) (b : Z) : t :=
  let addr := mask16 (origin + Z.of_nat i) in
  {| memory := <[Z.to_nat addr := b `mod` 256]> (memory m);
     memoryAttr := <[Z.to_nat addr := ASSIGNED]> (memoryAttr m) |}.

Definition setMemory (m : t) (origin : Z) (bytes : list Z) : t :=
  foldl (λ m ib, setMemory_step origin m (fst ib) (snd ib)) m
        (imap (λ i b, (i, b)) bytes).

(** [this.memory[address&(MAX_MEM_SIZE-1)]]; the index is inside the
    array, whose entries the constructor has set. *)
Definition getValueAt (m : t) (address : Z) : Z :=
  default 0 (memory m !! Z.to_nat (mask16 address)).

(** [this.memory[a] * 256*this.memory[a]] with [a] the masked address,
    as written in the source. *)
Definition getWordValueAt (m : t) (address : Z) : Z :=
  default 0 (memory m !! Z.to_nat (mask16 address))
  * 256 * default 0 (memory m !! Z.to_nat (mask16 address)).

End Memory.

(** The little-endian word of the specification,
    [byte(addr) + 256·byte(addr+1)], over a byte reader. *)
Definition read_word_le (byte : Z → Z) (addr : Z) : Z :=
  byte addr + 256 * byte (addr + 1).

(** ** numbertype.ts *)

(** [NumberType]: the enumeration in its declared order; the declared
    value of a constructor is its position, [NONE = 0]. *)
Inductive NumberType : Type :=
  | NONE
  | CODE_LOCAL_LBL
  | CODE_LOCAL_LOOP
  | CODE_LBL
  | CODE_SUB
  | CODE_RST
  | RELATIVE_INDEX
  | NUMBER_BYTE
  | NUMBER_WORD
  | NUMBER_WORD_BIG_ENDIAN
  | DATA_LBL
  | PORT_LBL.

#[global] Instance NumberType_eq_dec : EqDecision NumberType.
Proof. solve_decision. Defined.

(** The numeric value of the enumeration constant. *)
Definition NumberType_value (t : NumberType) : Z :=
  match t with
  | NONE => 0
  | CODE_LOCAL_LBL => 1
  | CODE_LOCAL_LOOP => 2
  | CODE_LBL => 3
  | CODE_SUB => 4
  | CODE_RST => 5
  | RELATIVE_INDEX => 6
  | NUMBER_BYTE => 7
  | NUMBER_WORD => 8
  | NUMBER_WORD_BIG_ENDIAN => 9
  | DATA_LBL => 10
  | PORT_LBL => 11
  end.

(** [a < b] on two enumeration values, as the code compares them. *)
Definition NumberType_ltb (a b : NumberType) : bool :=
  NumberType_value a <? NumberType_value b.

(** The higher-ranked of two types (the [max] of the specification). *)
Definition NumberType_max (a b : NumberType) : NumberType :=
  if NumberType_ltb a b then b else a.

(** ** The memory of the disassembler *)

(** Modelled from the spec: [src/disassembler/memory.ts], the [Memory] with
    per-byte attribute flags that disasm.ts imports, is not among the
    sources. Section 3 and 4.1 of the specification give it: a flat array
    of 65536 bytes, a parallel array of attribute flags that are a bitwise
    union of [ASSIGNED], [CODE], [CODE_FIRST] and [DATA], the reads
    [attribute(addr)] with the address masked to 16 bits, and
    [or_attribute(addr, len, flags)]. The flags are distinct single bits;
    the write of [or_attribute] masks the address like the reads do. *)
Module MemAttribute.
Definition UNUSED : Z := 0.
Definition ASSIGNED : Z := 0x01.
Definition CODE : Z := 0x02.
Definition CODE_FIRST : Z := 0x04.
Definition DATA : Z := 0x10.
End MemAttribute.

(** [attr & flag] used as a condition. *)
Definition hasAttr (attr flag : Z) : bool := negb (Z.land attr flag =? 0).

Module DisMemory.

(** Modelled from the spec: the byte array and the attribute array, both
    total over the 16-bit address space. *)
Record t : Type := mk {
  memory : Z → Z;
  memoryAttr : Z → Z
}.

(** Modelled from the spec: [read_byte]. *)
Definition getValueAt (m : t) (address : Z) : Z := memory m (mask16 address).

(** Modelled from the spec: [attribute(addr)]. *)
Definition getAttributeAt (m : t) (address : Z) : Z :=
  memoryAttr m (mask16 address).

(** Modelled from the spec: [or_attribute(addr, len, flags)], one byte
    after the other. *)
Fixpoint orAttributes (n : nat) (attrs : Z → Z) (address flags : Z) : Z → Z :=
  match n with
  | O => attrs
  | S n' =>
      let a := mask16 address in
      orAttributes n'
        (λ x, if bool_decide (x = a) then Z.lor (attrs x) flags else attrs x)
        (address + 1) flags
  end.

Definition addAttributeAt (m : t) (address length attr : Z) : t :=
  {| memory := memory m;
     memoryAttr := orAttributes (Z.to_nat length) (memoryAttr m) address attr |}.

End DisMemory.

(** ** The opcode decoder *)

(** Modelled from the spec: [src/disassembler/opcode.ts] is not among the
    sources. Section 4.2 gives the instruction record that
    [Opcode.getOpcodeAt] returns: the mnemonic ([name]), the [length] in
    bytes, the resolved immediate [value], its kind ([valueType]) and a set
    of [flags]; [opcode.flags & OpcodeFlag.F] is [hasFlag F opcode]. *)
Inductive OpcodeFlag : Type := BRANCH_ADDRESS | CALL | STOP.

#[global] Instance OpcodeFlag_eq_dec : EqDecision OpcodeFlag.
Proof. solve_decision. Defined.

Record Opcode : Type := mkOpcode {
  name : string;
  length : Z;
  value : Z;
  valueType : NumberType;
  flags : list OpcodeFlag
}.

Definition hasFlag (f : OpcodeFlag) (opcode : Opcode) : bool :=
  bool_decide (f ∈ flags opcode).

(** The decoder is the interface the passes consume; the opcode table
    itself stays abstract. *)
Class OpcodeTable : Type :=
  getOpcodeAt : DisMemory.t → Z → Opcode.

(** ** Labels *)

(** Modelled from the spec: [src/disassembler/dislabel.ts] is not among the
    sources. Section 3 gives the record: type, optional name, the set of
    referrers, the callees, and the three flags; [new DisLabel(type)] sets
    the type and leaves the rest empty and false. A callee is a label
    object; it is referred to by the address it is stored under. *)
Record DisLabel : Type := mkDisLabel {
  type : NumberType;
  labelName : option string;
  references : gset Z;
  calls : list Z;
  isEqu : bool;
  isFixed : bool;
  belongsToInterrupt : bool
}.

Definition newDisLabel (type : NumberType) : DisLabel :=
  {| type := type; labelName := None; references := ∅; calls := [];
     isEqu := false; isFixed := false; belongsToInterrupt := false |}.

Definition set_type (t : NumberType) (l : DisLabel) : DisLabel :=
  {| type := t; labelName := labelName l; references := references l;
     calls := calls l; isEqu := isEqu l; isFixed := isFixed l;
     belongsToInterrupt := belongsToInterrupt l |}.

Definition set_isEqu (b : bool) (l : DisLabel) : DisLabel :=
  {| type := type l; labelName := labelName l; references := references l;
     calls := calls l; isEqu := b; isFixed := isFixed l;
     belongsToInterrupt := belongsToInterrupt l |}.

Definition set_references (r : gset Z) (l : DisLabel) : DisLabel :=
  {| type := type l; labelName := labelName l; references := r;
     calls := calls l; isEqu := isEqu l; isFixed := isFixed l;
     belongsToInterrupt := belongsToInterrupt l |}.

(** ** A JavaScript [Map] with number keys *)
Module JsMap.

(** The entries in insertion order; a key occurs at most once. *)
Definition t (V : Type) : Type := list (Z * V).

Fixpoint get {V} (k : Z) (m : t V) : option V :=
  match m with
  | [] => None
  | (k', v) :: m' => if bool_decide (k' = k) then Some v else get k m'
  end.

(** [set]: an existing key keeps its place, a new key goes last. *)
Fixpoint set {V} (k : Z) (v : V) (m : t V) : t V :=
  match m with
  | [] => [(k, v)]
  | (k', v') :: m' =>
      if bool_decide (k' = k) then (k, v) :: m' else (k', v') :: set k v m'
  end.

Fixpoint delete {V} (k : Z) (m : t V) : t V :=
  match m with
  | [] => []
  | (k', v') :: m' =>
      if bool_decide (k' = k) then delete k m' else (k', v') :: delete k m'
  end.

Definition keys {V} (m : t V) : list Z := map fst m.

End JsMap.

(** ** Results of code that can fail *)

(** [Ok] is a normal return, [AssertionError] a failed [assert] (the
    exception leaves the disassembler), [OutOfFuel] a loop that was cut
    off by the bound of the model. *)
Inductive result (A : Type) : Type :=
  | Ok (a : A)
  | AssertionError (msg : string)
  | OutOfFuel.
Arguments Ok {A} a.
Arguments AssertionError {A} msg.
Arguments OutOfFuel {A}.

#[global] Instance result_bind : MBind result :=
  λ A B (k : A → result B) (r : result A),
    match r with
    | Ok a => k a
    | AssertionError msg => AssertionError msg
    | OutOfFuel => OutOfFuel
    end.

(** ** disasm.ts: the state of a [Disassembler] *)

Record SubroutineStatistics : Type := mkStats {
  sizeInBytes : Z;
  countOfInstructions : Z;
  CyclomaticComplexity : Z
}.

(** [Number.MAX_SAFE_INTEGER]. *)
Definition MAX_SAFE_INTEGER : Z := 2 ^ 53 - 1.

(** The fields of the class that the passes below read or write. A
    [DisLabel] used as a key ([subroutineStatistics]) is given by the
    address it is stored under in [labels]. [disassembledLines] is
    [None] while the field is undefined. [events] collects what [emit]
    sent, oldest first. *)
Record Disassembler : Type := mkDisassembler {
  memory : DisMemory.t;
  labels : JsMap.t DisLabel;
  offsetLabels : gmap Z Z;
  addressQueue : list Z;
  subroutineStatistics : gmap Z SubroutineStatistics;
  statisticsMax : SubroutineStatistics;
  statisticsMin : SubroutineStatistics;
  disassembledLines : option (list string);
  snaStartAddress : Z;
  events : list (string * string)
}.

(** The field initialisers of the class on a given memory. *)
Definition newDisassembler (m : DisMemory.t) : Disassembler :=
  {| memory := m;
     labels := [];
     offsetLabels := ∅;
     addressQueue := [];
     subroutineStatistics := ∅;
     statisticsMax := mkStats 0 0 0;
     statisticsMin := mkStats MAX_SAFE_INTEGER MAX_SAFE_INTEGER MAX_SAFE_INTEGER;
     disassembledLines := None;
     snaStartAddress := -1;
     events := [] |}.

Definition with_memory (m : DisMemory.t) (d : Disassembler) : Disassembler :=
  {| memory := m; labels := labels d; offsetLabels := offsetLabels d;
     addressQueue := addressQueue d;
     subroutineStatistics := subroutineStatistics d;
     statisticsMax := statisticsMax d; statisticsMin := statisticsMin d;
     disassembledLines := disassembledLines d;
     snaStartAddress := snaStartAddress d; events := events d |}.

Definition with_labels (l : JsMap.t DisLabel) (d : Disassembler) : Disassembler :=
  {| memory := memory d; labels := l; offsetLabels := offsetLabels d;
     addressQueue := addressQueue d;
     subroutineStatistics := subroutineStatistics d;
     statisticsMax := statisticsMax d; statisticsMin := statisticsMin d;
     disassembledLines := disassembledLines d;
     snaStartAddress := snaStartAddress d; events := events d |}.

Definition with_offsetLabels (o : gmap Z Z) (d : Disassembler) : Disassembler :=
  {| memory := memory d; labels := labels d; offsetLabels := o;
     addressQueue := addressQueue d;
     subroutineStatistics := subroutineStatistics d;
     statisticsMax := statisticsMax d; statisticsMin := statisticsMin d;
     disassembledLines := disassembledLines d;
     snaStartAddress := snaStartAddress d; events := events d |}.

Definition with_addressQueue (q : list Z) (d : Disassembler) : Disassembler :=
  {| memory := memory d; labels := labels d; offsetLabels := offsetLabels d;
     addressQueue := q;
     subroutineStatistics := subroutineStatistics d;
     statisticsMax := statisticsMax d; statisticsMin := statisticsMin d;
     disassembledLines := disassembledLines d;
     snaStartAddress := snaStartAddress d; events := events d |}.

Definition with_statistics (s : gmap Z SubroutineStatistics)
    (smax smin : SubroutineStatistics) (d : Disassembler) : Disassembler :=
  {| memory := memory d; labels := labels d; offsetLabels := offsetLabels d;
     addressQueue := addressQueue d;
     subroutineStatistics := s;
     statisticsMax := smax; statisticsMin := smin;
     disassembledLines := disassembledLines d;
     snaStartAddress := snaStartAddress d; events := events d |}.

(** [this.emit(event, msg)]. *)
Definition emit (event msg : string) (d : Disassembler) : Disassembler :=
  {| memory := memory d; labels := labels d; offsetLabels := offsetLabels d;
     addressQueue := addressQueue d;
     subroutineStatistics := subroutineStatistics d;
     statisticsMax := statisticsMax d; statisticsMin := statisticsMin d;
     disassembledLines := disassembledLines d;
     snaStartAddress := snaStartAddress d;
     events := events d ++ [(event, msg)] |}.

(** [Array.prototype.join] for an array of strings. *)
Fixpoint join (sep : string) (lines : list string) : string :=
  match lines with
  | [] => ""
  | [l] => l
  | l :: ls => l +:+ sep +:+ join sep ls
  end.

(** The line feed of ['\n']. *)
Definition LF : ascii := ascii_of_nat 10.

(** [getDisassembly]: the state after the call and the returned string. *)
Definition getDisassembly (d : Disassembler) : Disassembler * string :=
  match disassembledLines d with
  | None => (emit "warning" "No disassembly was done." d, "")
  | Some lines => (d, join (String LF "") lines)
  end.

(** [n.toString(16)] and [n.toString()] for an integer. *)
Definition toString16 (n : Z) : string :=
  HexadecimalString.NilZero.string_of_int (Z.to_hex_int n).

Definition toString10 (n : Z) : string :=
  DecimalString.NilZero.string_of_int (Z.to_int n).

(** [setFoundLabel] on the label store. The label object found or created
    is updated in place, so an existing key keeps its position. The loop
    over [referenceAddresses] adds every referrer but the address itself. *)
Definition addReferences (address : Z) (referenceAddresses : gset Z)
    (label : DisLabel) : DisLabel :=
  foldl (λ label ref,
           if bool_decide (ref ≠ address)
           then set_references ({[ref]} ∪ references label) label
           else label)
        label (elements referenceAddresses).

Definition setFoundLabel (labels : JsMap.t DisLabel) (address : Z)
    (referenceAddresses : gset Z) (type' : NumberType) (attr : Z)
    : JsMap.t DisLabel :=
  let label :=
    match JsMap.get address labels with
    | Some label =>
        if NumberType_ltb (type label) type' then set_type type' label
        else label
    | None =>
        let label := newDisLabel type' in
        if negb (hasAttr attr MemAttribute.ASSIGNED)
        then set_isEqu true label else label
    end in
  JsMap.set address (addReferences address referenceAddresses label) labels.

(** The double quote inside the messages. *)
Definition DQ : string := String (ascii_of_nat 34) "".

(** The search for the first byte of the opcode that covers [address],
    written twice in disasm.ts ([disassembleForLabel] and
    [adjustSelfModifyingLabels]):
    [do { addrStart--; assert(address - addrStart <= 4); } while(!(attr(addrStart) & CODE_FIRST))].
    [None] is the failed assertion. The fifth iteration fails the
    assertion at the latest, so five rounds are all there can be. *)
Fixpoint findStartOfOpcode_loop (rounds : nat) (m : DisMemory.t)
    (address addrStart : Z) : option Z :=
  match rounds with
  | O => None
  | S rounds' =>
      let addrStart := addrStart - 1 in
      if bool_decide (address - addrStart > 4) then None
      else if hasAttr (DisMemory.getAttributeAt m addrStart) MemAttribute.CODE_FIRST
           then Some addrStart
           else findStartOfOpcode_loop rounds' m address addrStart
  end.

Definition findStartOfOpcode (m : DisMemory.t) (address : Z) : option Z :=
  findStartOfOpcode_loop 5 m address address.

Section Pass1.
Context {table : OpcodeTable}.

(** The type given to the target of a branch in [disassembleForLabel]. *)
Definition branchLabelType (opcodeAddress : Z) (opcode : Opcode) (attr : Z)
    : NumberType :=
  let branchAddress := value opcode in
  let vType := valueType opcode in
  if bool_decide (vType = CODE_LOCAL_LBL) then
    if bool_decide (branchAddress <= opcodeAddress) then CODE_LOCAL_LOOP
    else vType
  else if bool_decide (vType = CODE_LBL) then
    if negb (hasAttr attr MemAttribute.ASSIGNED) then CODE_SUB else vType
  else vType.

Definition msgBranchIntoOpcode (opcode : Opcode) (opcodeAddress : Z)
    (branchOpcode : Opcode) (branchOpcodeAddress : Z) : string :=
  "Aborting disassembly: Ambiguous disassembly: encountered branch instruction into the middle of an opcode. Opcode "
  +:+ DQ +:+ name opcode +:+ DQ +:+ " at address 0x" +:+ toString16 opcodeAddress
  +:+ " would branch into " +:+ DQ +:+ name branchOpcode +:+ DQ
  +:+ " at address 0x" +:+ toString16 branchOpcodeAddress +:+ ".".

(** [disassembleForLabel]: the new state and the returned boolean. *)
Definition disassembleForLabel (d : Disassembler) (opcodeAddress : Z)
    (opcode : Opcode) : result (Disassembler * bool) :=
  if hasFlag BRANCH_ADDRESS opcode then
    let branchAddress := value opcode in
    let attr := DisMemory.getAttributeAt (memory d) branchAddress in
    let vType := branchLabelType opcodeAddress opcode attr in
    let d := with_labels
               (setFoundLabel (labels d) branchAddress {[opcodeAddress]} vType attr) d in
    if hasAttr attr MemAttribute.CODE then
      if negb (hasAttr attr MemAttribute.CODE_FIRST) then
        match findStartOfOpcode (memory d) branchAddress with
        | None => AssertionError "Internal error: Could not find start of opcode."
        | Some branchOpcodeAddress =>
            let branchOpcode := getOpcodeAt (memory d) branchOpcodeAddress in
            Ok (emit "warning"
                  (msgBranchIntoOpcode opcode opcodeAddress
                     branchOpcode branchOpcodeAddress) d,
                false)
        end
      else Ok (d, true)
    else
      if hasAttr attr MemAttribute.ASSIGNED
      then Ok (with_addressQueue (addressQueue d ++ [branchAddress]) d, true)
      else Ok (d, true)
  else if bool_decide (valueType opcode = DATA_LBL) then
    let address := value opcode in
    let attr := DisMemory.getAttributeAt (memory d) address in
    Ok (with_labels
          (setFoundLabel (labels d) address {[opcodeAddress]} (valueType opcode) attr) d,
        true)
  else Ok (d, true).

(** The loop [for(let i=1; i<len; i++)] of [collectLabels] that looks
    for a byte of the instruction that is already code: the address of
    the first such byte and its attribute, if there is one. [memAddress]
    is the address checked last. *)
Fixpoint findPartlyDisassembled (rounds : nat) (m : DisMemory.t)
    (memAddress : Z) : option (Z * Z) :=
  match rounds with
  | O => None
  | S rounds' =>
      let memAddress := memAddress + 1 in
      let attr := DisMemory.getAttributeAt m memAddress in
      if hasAttr attr MemAttribute.CODE then Some (memAddress, attr)
      else findPartlyDisassembled rounds' m memAddress
  end.

Definition msgUnassigned (address : Z) : string :=
  "Trying to disassemble unassigned memory area at 0x" +:+ toString16 address +:+ ".".

Definition msgAmbiguous (opcode : Opcode) (address memAddress : Z)
    (otherOpcode : Opcode) : string :=
  "Aborting disassembly: Ambiguous disassembly: Trying to disassemble opcode "
  +:+ DQ +:+ name opcode +:+ DQ +:+ " at address 0x" +:+ toString16 address
  +:+ " but address 0x" +:+ toString16 memAddress
  +:+ " alrady contains opcode " +:+ DQ +:+ name otherOpcode +:+ DQ +:+ ".".

(** How one round of the inner [do ... while] of [collectLabels] ends. *)
Inductive TraceStep : Type :=
  | StepNext (d : Disassembler) (address : Z)
      (** the loop goes on at the next instruction *)
  | StepBreak (d : Disassembler)
      (** the loop is left; the next queued address is taken *)
  | StepReturn (d : Disassembler).
      (** [return]: [collectLabels] is left *)

(** One round of the inner loop at [address]. *)
Definition collectLabels_step (d : Disassembler) (address : Z)
    : result TraceStep :=
  let attr := DisMemory.getAttributeAt (memory d) address in
  if hasAttr attr MemAttribute.CODE then Ok (StepBreak d)
  else if negb (hasAttr attr MemAttribute.ASSIGNED) then
    Ok (StepBreak (emit "warning" (msgUnassigned address) d))
  else
    let opcode := getOpcodeAt (memory d) address in
    let len := length opcode in
    match findPartlyDisassembled (Z.to_nat (len - 1)) (memory d) address with
    | Some (memAddress, attr) =>
        if hasAttr attr MemAttribute.CODE_FIRST then
          let otherOpcode := getOpcodeAt (memory d) memAddress in
          Ok (StepReturn
                (emit "warning" (msgAmbiguous opcode address memAddress otherOpcode) d))
        else AssertionError "Internal error: Expected CODE_FIRST"
    | None =>
        let m := DisMemory.addAttributeAt (memory d) address 1 MemAttribute.CODE_FIRST in
        let m := DisMemory.addAttributeAt m address (length opcode) MemAttribute.CODE in
        let d := with_memory m d in
        '(d, ok) ← disassembleForLabel d address opcode;
        if negb ok then Ok (StepReturn d)
        else if hasFlag STOP opcode then Ok (StepBreak d)
        else Ok (StepNext d (address + length opcode))
    end.

(** How [collectLabels] ends: the queue ran empty, or it returned from
    inside the loops. *)
Inductive CollectEnd : Type :=
  | Finished (d : Disassembler)
  | Aborted (d : Disassembler).

(** The inner loop from [address] on; the boolean tells whether the
    outer loop goes on ([break], or the loop condition) or [collectLabels]
    returned. *)
Fixpoint collectLabels_trace (fuel : nat) (d : Disassembler) (address : Z)
    : result (Disassembler * bool) :=
  match fuel with
  | O => OutOfFuel
  | S fuel' =>
      step ← collectLabels_step d address;
      match step with
      | StepNext d' address' => collectLabels_trace fuel' d' address'
      | StepBreak d' => Ok (d', true)
      | StepReturn d' => Ok (d', false)
      end
  end.

(** [collectLabels]: [while((address = this.addressQueue.shift()) != undefined)]. *)
Fixpoint collectLabels (fuel : nat) (d : Disassembler) : result CollectEnd :=
  match fuel with
  | O => OutOfFuel
  | S fuel' =>
      match addressQueue d with
      | [] => Ok (Finished d)
      | address :: queue =>
          '(d', goOn) ← collectLabels_trace fuel' (with_addressQueue queue d) address;
          if (goOn : bool) then collectLabels fuel' d' else Ok (Aborted d')
      end
  end.

End Pass1.

(** A loop over a list whose body can fail. *)
Fixpoint foldM {A B} (f : A → B → result A) (a : A) (l : list B) : result A :=
  match l with
  | [] => Ok a
  | b :: l' => a' ← f a b; foldM f a' l'
  end.

(** ** Pass 5: [adjustSelfModifyingLabels] *)

(** The test of the first loop: a [DATA_LBL] in the middle of an opcode. *)
Definition pointsIntoOpcode (m : DisMemory.t) (entry : Z * DisLabel) : bool :=
  let '(address, label) := entry in
  bool_decide (type label = DATA_LBL)
  && (let memAttr := DisMemory.getAttributeAt m address in
      hasAttr memAttr MemAttribute.CODE
      && negb (hasAttr memAttr MemAttribute.CODE_FIRST)).

(** The body of the second loop for the entry of [changeMap] at [address].
    [changeMap] holds the label object itself; it is the one still stored
    under [address]. *)
Definition adjustSelfModifyingLabels_step (d : Disassembler) (address : Z)
    : result Disassembler :=
  match JsMap.get address (labels d) with
  | None => Ok d
  | Some label =>
      match findStartOfOpcode (memory d) address with
      | None => AssertionError "adjustSelfModifyingLabels"
      | Some addrStart =>
          let attr := DisMemory.getAttributeAt (memory d) addrStart in
          let labels' :=
            setFoundLabel (labels d) addrStart (references label) (type label) attr in
          let labels' := JsMap.delete address labels' in
          let offs := addrStart - address in
          Ok (with_offsetLabels (<[address := offs]> (offsetLabels d))
                (with_labels labels' d))
      end
  end.

Definition adjustSelfModifyingLabels (d : Disassembler) : result Disassembler :=
  let changeMap := filter (λ e, pointsIntoOpcode (memory d) e = true) (labels d) in
  foldM adjustSelfModifyingLabels_step d (JsMap.keys changeMap).

(** [label.name] used in a string concatenation. *)
Definition nameString (l : DisLabel) : string :=
  default "undefined" (labelName l).

(** The handler that the constructor installs with
    [Opcode.setConvertToLabelHandler]; [None] is [undefined]. *)
Definition convertToLabel (d : Disassembler) (value : Z) : option string :=
  let found :=
    match JsMap.get value (labels d) with
    | Some label => Some (label, "")
    | None =>
        match offsetLabels d !! value with
        | Some offs =>
            if bool_decide (offs ≠ 0) then
              match JsMap.get (value + offs) (labels d) with
              | Some label =>
                  Some (label,
                        if bool_decide (offs > 0) then "" +:+ toString10 (- offs)
                        else "+" +:+ toString10 (- offs))
              | None => None
              end
            else None
        | None => None
        end
    end in
  match found with
  | Some (label, offsString) => Some (nameString label +:+ offsString)
  | None => None
  end.

(** ** Pass 8: [findLocalLabelsInSubroutines] *)

Definition isSubOrRstOrLbl (t : NumberType) : bool :=
  bool_decide (t = CODE_LBL) || bool_decide (t = CODE_SUB) || bool_decide (t = CODE_RST).

Section Walks.
Context {table : OpcodeTable}.

(** [getSubroutineAddresses]: the array after the call. *)
Fixpoint getSubroutineAddresses (fuel : nat) (m : DisMemory.t) (address : Z)
    (addrsArray : list Z) : result (list Z) :=
  match fuel with
  | O => OutOfFuel
  | S fuel' =>
      let memAttr := DisMemory.getAttributeAt m address in
      if negb (hasAttr memAttr MemAttribute.ASSIGNED) then Ok addrsArray
      else if bool_decide (address ∈ addrsArray) then Ok addrsArray
      else
        let opcode := getOpcodeAt m address in
        let addrsArray := addrsArray ++ [address] in
        addrsArray ←
          (if hasFlag BRANCH_ADDRESS opcode && negb (hasFlag CALL opcode)
           then getSubroutineAddresses fuel' m (value opcode) addrsArray
           else Ok addrsArray);
        let address := address + length opcode in
        if hasFlag STOP opcode then Ok addrsArray
        else getSubroutineAddresses fuel' m address addrsArray
  end.

(** The body of [for(let addr of addrsArray)]. *)
Definition localizeLabel (address : Z) (addrsArray : list Z)
    (labels : JsMap.t DisLabel) (addr : Z) : JsMap.t DisLabel :=
  if bool_decide (addr = address) then labels
  else
    match JsMap.get addr labels with
    | None => labels
    | Some addrLabel =>
        if bool_decide (type addrLabel ≠ CODE_LBL)
           && bool_decide (type addrLabel ≠ CODE_SUB) then labels
        else if isFixed addrLabel then labels
        else
          let refs := elements (references addrLabel) in
          let outsideFound :=
            existsb (λ ref, negb (bool_decide (ref ∈ addrsArray))) refs in
          if negb outsideFound then
            let loop :=
              existsb (λ ref, let diff := ref - addr in
                              bool_decide (diff >= 0) && bool_decide (diff <= 128))
                      refs in
            JsMap.set addr
              (set_type (if loop then CODE_LOCAL_LOOP else CODE_LOCAL_LBL) addrLabel)
              labels
          else labels
    end.

(** The body of the outer loop for the entry stored under [address]. *)
Definition findLocalLabels_body (fuel : nat) (m : DisMemory.t)
    (labels : JsMap.t DisLabel) (address : Z) : result (JsMap.t DisLabel) :=
  match JsMap.get address labels with
  | None => Ok labels
  | Some label =>
      if isSubOrRstOrLbl (type label) then
        addrsArray ← getSubroutineAddresses fuel m address [];
        Ok (foldl (localizeLabel address addrsArray) labels addrsArray)
      else Ok labels
  end.

Definition findLocalLabelsInSubroutines (fuel : nat) (d : Disassembler)
    : result Disassembler :=
  labels' ← foldM (findLocalLabels_body fuel (memory d)) (labels d)
                  (JsMap.keys (labels d));
  Ok (with_labels labels' d).

(** ** Pass 10: [countStatistics] *)

(** [s.indexOf(',') >= 0]. *)
Fixpoint containsComma (s : string) : bool :=
  match s with
  | EmptyString => false
  | String c s' => if Ascii.eqb c "," then true else containsComma s'
  end.

(** [s.toUpperCase()] on the letters a to z. *)
Definition toUpperChar (c : ascii) : ascii :=
  let n := nat_of_ascii c in
  if (97 <=? n)%nat && (n <=? 122)%nat then ascii_of_nat (n - 32) else c.

Fixpoint toUpperCase (s : string) : string :=
  match s with
  | EmptyString => EmptyString
  | String c s' => String (toUpperChar c) (toUpperCase s')
  end.

(** What one instruction adds to the cyclomatic complexity. *)
Definition complexityOf (opcode : Opcode) : Z :=
  if hasFlag BRANCH_ADDRESS opcode then
    if containsComma (name opcode) then 1 else 0
  else if String.prefix "RET " (toUpperCase (name opcode)) then 1 else 0.

(** The loop of [countAddressStatistic] with the statistics gathered so
    far; the recursive call for a branch starts from zero and its result
    is added. *)
Fixpoint countAddressStatistic_loop (fuel : nat) (m : DisMemory.t)
    (labels : JsMap.t DisLabel) (address : Z) (addresses : list Z)
    (statistics : SubroutineStatistics)
    : result (SubroutineStatistics * list Z) :=
  match fuel with
  | O => OutOfFuel
  | S fuel' =>
      let memAttr := DisMemory.getAttributeAt m address in
      if negb (hasAttr memAttr MemAttribute.ASSIGNED) then Ok (statistics, addresses)
      else if bool_decide (address ∈ addresses) then Ok (statistics, addresses)
      else
        let addresses := addresses ++ [address] in
        let opcode := getOpcodeAt m address in
        let statistics :=
          {| sizeInBytes := sizeInBytes statistics + length opcode;
             countOfInstructions := countOfInstructions statistics + 1;
             CyclomaticComplexity :=
               CyclomaticComplexity statistics + complexityOf opcode |} in
        '(statistics, addresses) ←
          (if hasFlag BRANCH_ADDRESS opcode && negb (hasFlag CALL opcode) then
             let branchAddress := value opcode in
             let isSUB :=
               match JsMap.get branchAddress labels with
               | Some branchLabel =>
                   bool_decide (type branchLabel = CODE_SUB)
                   || bool_decide (type branchLabel = CODE_RST)
               | None => false
               end in
             if negb isSUB then
               '(addStat, addresses) ←
                 countAddressStatistic_loop fuel' m labels branchAddress addresses
                   (mkStats 0 0 0);
               Ok ({| sizeInBytes := sizeInBytes statistics + sizeInBytes addStat;
                      countOfInstructions :=
                        countOfInstructions statistics + countOfInstructions addStat;
                      CyclomaticComplexity :=
                        CyclomaticComplexity statistics + CyclomaticComplexity addStat |},
                   addresses)
             else Ok (statistics, addresses)
           else Ok (statistics, addresses));
        let address := address + length opcode in
        let enteringSub :=
          match JsMap.get address labels with
          | Some nextLabel =>
              bool_decide (type nextLabel = CODE_SUB)
              || bool_decide (type nextLabel = CODE_RST)
          | None => false
          end in
        if enteringSub then Ok (statistics, addresses)
        else if hasFlag STOP opcode then Ok (statistics, addresses)
        else countAddressStatistic_loop fuel' m labels address addresses statistics
  end.

Definition countAddressStatistic (fuel : nat) (d : Disassembler) (address : Z)
    (addresses : list Z) : result (SubroutineStatistics * list Z) :=
  countAddressStatistic_loop fuel (memory d) (labels d) address addresses
    (mkStats 0 0 0).

(** The maximum and minimum kept by [countStatistics]. *)
Definition updateMax (smax s : SubroutineStatistics) : SubroutineStatistics :=
  {| sizeInBytes :=
       if bool_decide (sizeInBytes s > sizeInBytes smax)
       then sizeInBytes s else sizeInBytes smax;
     countOfInstructions :=
       if bool_decide (countOfInstructions s > countOfInstructions smax)
       then countOfInstructions s else countOfInstructions smax;
     CyclomaticComplexity :=
       if bool_decide (CyclomaticComplexity s > CyclomaticComplexity smax)
       then CyclomaticComplexity s else CyclomaticComplexity smax |}.

Definition updateMin (smin s : SubroutineStatistics) : SubroutineStatistics :=
  {| sizeInBytes :=
       if bool_decide (sizeInBytes s < sizeInBytes smin)
       then sizeInBytes s else sizeInBytes smin;
     countOfInstructions :=
       if bool_decide (countOfInstructions s < countOfInstructions smin)
       then countOfInstructions s else countOfInstructions smin;
     CyclomaticComplexity :=
       if bool_decide (CyclomaticComplexity s < CyclomaticComplexity smin)
       then CyclomaticComplexity s else CyclomaticComplexity smin |}.

(** The body of the loop of [countStatistics] for one entry of [labels]. *)
Definition countStatistics_body (fuel : nat) (d : Disassembler)
    (entry : Z * DisLabel) : result Disassembler :=
  let '(address, label) := entry in
  if isEqu label then Ok d
  else if isSubOrRstOrLbl (type label) then
    '(statistics, _) ← countAddressStatistic fuel d address [];
    let statistics :=
      {| sizeInBytes := sizeInBytes statistics;
         countOfInstructions := countOfInstructions statistics;
         CyclomaticComplexity := CyclomaticComplexity statistics + 1 |} in
    Ok (with_statistics
          (<[address := statistics]> (subroutineStatistics d))
          (updateMax (statisticsMax d) statistics)
          (updateMin (statisticsMin d) statistics) d)
  else Ok d.

Definition countStatistics (fuel : nat) (d : Disassembler) : result Disassembler :=
  foldM (countStatistics_body fuel) d (labels d).

End Walks.

(** ** [getCallGraph]: the font size of a node *)

(** A JavaScript number that is not known to be an integer is an IEEE 754
    double, the primitive [float]. *)
Module JsNumber.

(** The double of an integer below [2^53] in absolute value (exact). *)
Definition of_Z (z : Z) : PrimFloat.float :=
  if z <? 0 then PrimFloat.opp (PrimFloat.of_uint63 (Uint63.of_Z (- z)))
  else PrimFloat.of_uint63 (Uint63.of_Z z).

(** [Math.round]: the nearest integer, a tie going up; [NaN], the
    infinities and the zeros are returned as they are. *)
Definition round (x : PrimFloat.float) : PrimFloat.float :=
  match FloatOps.Prim2SF x with
  | SpecFloat.S754_finite s m e =>
      if e <? 0 then
        let d := 2 ^ (- e) in
        let n := if s then - Z.pos m else Z.pos m in
        of_Z ((2 * n + d) `div` (2 * d))
      else x
  | _ => x
  end.

(** The integer a double holds, if it holds one. *)
Definition to_Z (x : PrimFloat.float) : option Z :=
  match FloatOps.Prim2SF x with
  | SpecFloat.S754_zero _ => Some 0
  | SpecFloat.S754_finite s m e =>
      let n := if s then - Z.pos m else Z.pos m in
      if e <? 0 then
        if bool_decide (n `mod` 2 ^ (- e) = 0) then Some (n `div` 2 ^ (- e)) else None
      else Some (n * 2 ^ e)
  | _ => None
  end.

(** The text of a number in a string concatenation, for the values
    [Math.round] returns. *)
Definition toString (x : PrimFloat.float) : string :=
  match to_Z x with
  | Some n => toString10 n
  | None =>
      if PrimFloat.is_nan x then "NaN"
      else if PrimFloat.ltb x PrimFloat.zero then "-Infinity" else "Infinity"
  end.

End JsNumber.

Definition fontSizeMin : Z := 13.
Definition fontSizeMax : Z := 40.

(** [fontSizeFactor] of [getCallGraph]. *)
Definition fontSizeFactor (d : Disassembler) : PrimFloat.float :=
  let min := CyclomaticComplexity (statisticsMin d) in
  PrimFloat.div (JsNumber.of_Z (fontSizeMax - fontSizeMin))
                (JsNumber.of_Z (CyclomaticComplexity (statisticsMax d) - min)).

(** [fontSize] of a node that is not an EQU label. *)
Definition fontSize (d : Disassembler) (stats : SubroutineStatistics)
    : PrimFloat.float :=
  let min := CyclomaticComplexity (statisticsMin d) in
  PrimFloat.add (JsNumber.of_Z fontSizeMin)
    (PrimFloat.mul (fontSizeFactor d)
                   (JsNumber.of_Z (CyclomaticComplexity stats - min))).

(** The first line [getCallGraph] writes for such a node. *)
Definition fontSizeLine (d : Disassembler) (label : DisLabel)
    (stats : SubroutineStatistics) : string :=
  nameString label +:+ " [fontsize=" +:+ DQ
  +:+ JsNumber.toString (JsNumber.round (fontSize d stats))
  +:+ DQ +:+ "];" +:+ String LF "".

(** ** [useMameTraceFile] *)

(** The characters [parseInt] skips at the start of its argument, among
    the code units below 256. *)
Definition isWhiteSpace (c : ascii) : bool :=
  let n := nat_of_ascii c in
  ((9 <=? n) && (n <=? 13) || (n =? 32) || (n =? 160))%nat.

Definition hexDigit (c : ascii) : option Z :=
  let n := nat_of_ascii c in
  if (48 <=? n)%nat && (n <=? 57)%nat then Some (Z.of_nat n - 48)
  else if (97 <=? n)%nat && (n <=? 102)%nat then Some (Z.of_nat n - 87)
  else if (65 <=? n)%nat && (n <=? 70)%nat then Some (Z.of_nat n - 55)
  else None.

Fixpoint skipWhiteSpace (s : string) : string :=
  match s with
  | String c s' => if isWhiteSpace c then skipWhiteSpace s' else s
  | EmptyString => s
  end.

(** The longest run of hexadecimal digits at the start of [s], read as a
    number after the digits [acc] read before; [seen] tells whether any
    digit was read. *)
Fixpoint hexDigits (s : string) (acc : Z) (seen : bool) : option Z :=
  match s with
  | String c s' =>
      match hexDigit c with
      | Some v => hexDigits s' (16 * acc + v) true
      | None => if seen then Some acc else None
      end
  | EmptyString => if seen then Some acc else None
  end.

(** [parseInt(s, 16)]; [None] is [NaN]. *)
Definition parseInt16 (s : string) : option Z :=
  let s := skipWhiteSpace s in
  let '(sign, s) :=
    match s with
    | String "-" s' => (-1, s')
    | String "+" s' => (1, s')
    | _ => (1, s)
    end in
  let s :=
    match s with
    | String "0" (String "x" s') => s'
    | String "0" (String "X" s') => s'
    | _ => s
    end in
  n ← hexDigits s 0 false;
  Some (sign * n).

(** The test [addressString.length == 5 && addressString[4] == ':']. *)
Definition isAddressField (addressString : string) : bool :=
  bool_decide (String.length addressString = 5%nat)
  && bool_decide (String.get 4 addressString = Some ":"%char).

(** [buffer[addr] = true]: only an integer index can be read back by the
    loop that follows, [NaN] sets a property that it never reads. *)
Definition setBuffer (buffer : gset Z) (addr : option Z) : gset Z :=
  match addr with
  | Some a => {[a]} ∪ buffer
  | None => buffer
  end.

(** [trace.indexOf('\n', k)] of the string library: the position is at
    least [k] and inside the string. *)
Lemma index_bounds (c : ascii) (s : string) (k m : nat) :
  String.index k (String c "") s = Some m → (k ≤ m < String.length s)%nat.
Proof.
  revert k m. induction s as [|b s IH]; intros k m; simpl.
  - destruct k; discriminate.
  - destruct k as [|k].
    + destruct (Ascii.ascii_dec c b) as [->|Hne].
      * destruct s; intros [= <-]; simpl; lia.
      * destruct (String.index 0 (String c "") s) as [n|] eqn:E; [|discriminate].
        intros [= <-]. apply IH in E. lia.
    + destruct (String.index k (String c "") s) as [n|] eqn:E; [|discriminate].
      intros [= <-]. apply IH in E. lia.
Qed.

(** A value together with the equation that it is the value of [a]. *)
Definition inspect {A} (a : A) : {b : A | a = b} := exist _ a eq_refl.

(** The [if] block of the loop at the position [k]: [buffer] after it, and
    [k] after it. *)
Definition bufferAfterField (trace : string) (k : nat) (buffer : gset Z) : gset Z :=
  let addressString := String.substring k 5 trace in
  if isAddressField addressString
  then setBuffer buffer (parseInt16 addressString)
  else buffer.

Definition positionAfterField (trace : string) (k : nat) : nat :=
  let addressString := String.substring k 5 trace in
  if isAddressField addressString then (k + 5)%nat else k.

Lemma positionAfterField_ge (trace : string) (k : nat) :
  (k ≤ positionAfterField trace k)%nat.
Proof. unfold positionAfterField. cbv zeta. destruct (isAddressField _); lia. Qed.

(** The [do ... while(k != 0)] loop; the result is [buffer] after it. *)
Equations? scanTrace (trace : string) (k : nat) (buffer : gset Z) : gset Z
  by wf (String.length trace - k)%nat lt :=
  scanTrace trace k buffer
    with inspect (String.index (positionAfterField trace k) (String LF "") trace) := {
    | exist _ (Some idx) Hidx := scanTrace trace (S idx) (bufferAfterField trace k buffer)
    | exist _ None _ := bufferAfterField trace k buffer
  }.
Proof.
  apply index_bounds in Hidx.
  pose proof (positionAfterField_ge trace k). lia.
Qed.

(** The loop [for(let addr=0; addr<MAX_MEM_SIZE; addr++)] from [addr] on,
    with [rounds] rounds to go: the addresses it pushes, in this order. *)
Fixpoint pushBuffer (rounds : nat) (addr : Z) (buffer : gset Z) : list Z :=
  match rounds with
  | O => []
  | S rounds' =>
      if bool_decide (addr ∈ buffer)
      then addr :: pushBuffer rounds' (addr + 1) buffer
      else pushBuffer rounds' (addr + 1) buffer
  end.

(** [useMameTraceFile] on the text of the file: the addresses pushed. *)
Definition traceAddresses (trace : string) : list Z :=
  if bool_decide (String.length trace < 5)%nat then []
  else
    let buffer := scanTrace trace 0 ∅ in
    pushBuffer (Z.to_nat MAX_MEM_SIZE) 0 buffer.

Definition useMameTraceFile (d : Disassembler) (trace : string) : Disassembler :=
  with_addressQueue (addressQueue d ++ traceAddresses trace) d.

(** ** Inputs for the examples *)

Module Sample.

(** Modelled from the spec: the constructor of the disassembler's
    [Memory] (all bytes zero, no attribute) and [set_bytes(origin, bytes)]
    of section 4.1, which stores the bytes and marks each [ASSIGNED]. *)
Definition emptyMemory : DisMemory.t :=
  {| DisMemory.memory := λ _, 0; DisMemory.memoryAttr := λ _, 0 |}.

Fixpoint setMemory (m : DisMemory.t) (origin : Z) (bytes : list Z) : DisMemory.t :=
  match bytes with
  | [] => m
  | b :: bytes' =>
      let addr := mask16 origin in
      setMemory
        {| DisMemory.memory :=
             λ x, if bool_decide (x = addr) then b `mod` 256 else DisMemory.memory m x;
           DisMemory.memoryAttr :=
             λ x, if bool_decide (x = addr)
                  then Z.lor (DisMemory.memoryAttr m x) MemAttribute.ASSIGNED
                  else DisMemory.memoryAttr m x |}
        (origin + 1) bytes'
  end.

(** The displacement byte of [JR] and [DJNZ] as a signed number. *)
Definition signed8 (n : Z) : Z := if n <? 128 then n else n - 256.

(** Modelled from the spec: the opcode table of [opcode.ts] is not among
    the sources. These are the entries for the instructions that the
    scenarios of section 8 use, with the flags, kinds and targets that
    section 4.2 gives them; every other byte is read as a one-byte
    [NOP]. *)
Definition table : OpcodeTable := λ m address,
  let b := DisMemory.getValueAt m address in
  let n := DisMemory.getValueAt m (address + 1) in
  let nn := n + 256 * DisMemory.getValueAt m (address + 2) in
  let rel := mask16 (address + 2 + signed8 n) in
  if b =? 0x3E then mkOpcode "LD A,#n" 2 n NUMBER_BYTE []
  else if b =? 0x06 then mkOpcode "LD B,#n" 2 n NUMBER_BYTE []
  else if b =? 0x3A then mkOpcode "LD A,(#nn)" 3 nn DATA_LBL []
  else if b =? 0xC9 then mkOpcode "RET" 1 0 NONE [STOP]
  else if b =? 0xC0 then mkOpcode "RET NZ" 1 0 NONE []
  else if b =? 0xC3 then mkOpcode "JP #nn" 3 nn CODE_LBL [BRANCH_ADDRESS; STOP]
  else if b =? 0xC2 then mkOpcode "JP NZ,#nn" 3 nn CODE_LBL [BRANCH_ADDRESS]
  else if b =? 0xCD then mkOpcode "CALL #nn" 3 nn CODE_SUB [BRANCH_ADDRESS; CALL]
  else if b =? 0x10 then mkOpcode "DJNZ #n" 2 rel CODE_LOCAL_LBL [BRANCH_ADDRESS]
  else if b =? 0x18 then mkOpcode "JR #n" 2 rel CODE_LOCAL_LBL [BRANCH_ADDRESS; STOP]
  else mkOpcode "NOP" 1 0 NONE [].

End Sample.

(** ** disasm.ts: the remaining passes and entry points *)

(** [getNumberTypeAsString] of numbertype.ts; [AssertionError] is the
    [assert(false)] after the [switch]. *)
Definition getNumberTypeAsString (type : NumberType) : result string :=
  match type with
  | NONE => Ok "NONE"
  | CODE_LOCAL_LBL => Ok "CODE_RELATIVE_LBL"
  | CODE_LOCAL_LOOP => Ok "CODE_RELATIVE_LOOP"
  | CODE_LBL => Ok "CODE_LBL"
  | CODE_SUB => Ok "CODE_SUB"
  | CODE_RST => Ok "CODE_RST"
  | RELATIVE_INDEX => Ok "RELATIVE_INDEX"
  | NUMBER_BYTE => Ok "NUMBER_BYTE"
  | NUMBER_WORD => Ok "NUMBER_WORD"
  | NUMBER_WORD_BIG_ENDIAN => Ok "NUMBER_WORD_BIG_ENDIAN"
  | DATA_LBL => Ok "DATA_LBL"
  | PORT_LBL => Ok "PORT_LBL"
  end.

(** [entries.sort(([a], [b]) => a-b)]: the sort of an array is stable, so
    of two entries with the same key the one that came first stays first.
    [insertEntry] puts an entry in front of a sorted list. *)
Fixpoint insertEntry {V} (e : Z * V) (sorted : list (Z * V)) : list (Z * V) :=
  match sorted with
  | [] => [e]
  | e' :: sorted' =>
      if bool_decide (fst e - fst e' <= 0) then e :: sorted
      else e' :: insertEntry e sorted'
  end.

Definition sortEntries {V} (entries : list (Z * V)) : list (Z * V) :=
  foldr insertEntry [] entries.

(** [sortLabels]: a new [Map] from the sorted entries. *)
Definition sortLabels (d : Disassembler) : Disassembler :=
  with_labels (sortEntries (labels d)) d.

(** [label.name = name] and [label.isFixed = true]. *)
Definition set_labelName (n : option string) (l : DisLabel) : DisLabel :=
  {| type := type l; labelName := n; references := references l;
     calls := calls l; isEqu := isEqu l; isFixed := isFixed l;
     belongsToInterrupt := belongsToInterrupt l |}.

Definition set_isFixed (b : bool) (l : DisLabel) : DisLabel :=
  {| type := type l; labelName := labelName l; references := references l;
     calls := calls l; isEqu := isEqu l; isFixed := b;
     belongsToInterrupt := belongsToInterrupt l |}.

(** The types for which [setLabel] queues the address. *)
Definition isCodeLabelType (t : NumberType) : bool :=
  bool_decide (t = CODE_LBL) || bool_decide (t = CODE_LOCAL_LBL)
  || bool_decide (t = CODE_LOCAL_LOOP) || bool_decide (t = CODE_RST)
  || bool_decide (t = CODE_SUB).

(** [setLabel(address, name, type)]; [name] is [None] for [undefined]. *)
Definition setLabel (d : Disassembler) (address : Z) (name : option string)
    (type' : NumberType) : Disassembler :=
  let label := set_labelName name (newDisLabel type') in
  let attr := DisMemory.getAttributeAt (memory d) address in
  if hasAttr attr MemAttribute.ASSIGNED then
    let d := with_labels (JsMap.set address label (labels d)) d in
    if isCodeLabelType type'
    then with_addressQueue (addressQueue d ++ [address]) d
    else d
  else
    with_labels (JsMap.set address (set_isEqu true label) (labels d)) d.

(** [setFixedCodeLabel(address, name)]. *)
Definition setFixedCodeLabel (d : Disassembler) (address : Z) (name : option string)
    : Disassembler :=
  let label := set_labelName name (newDisLabel CODE_LBL) in
  let attr := DisMemory.getAttributeAt (memory d) address in
  if hasAttr attr MemAttribute.ASSIGNED then
    with_addressQueue (addressQueue d ++ [address])
      (with_labels (JsMap.set address (set_isFixed true label) (labels d)) d)
  else
    with_labels
      (JsMap.set address (set_isFixed true (set_isEqu true label)) (labels d)) d.

(** [addAddress0000]. *)
Definition addAddress0000 (d : Disassembler) : Disassembler :=
  if hasAttr (DisMemory.getAttributeAt (memory d) 0) MemAttribute.ASSIGNED then
    let d :=
      match JsMap.get 0 (labels d) with
      | None => setFixedCodeLabel d 0 (Some "ORG_0000")
      | Some label0 =>
          with_labels (JsMap.set 0 (set_type CODE_LBL label0) (labels d)) d
      end in
    with_addressQueue (addressQueue d ++ [0]) d
  else d.

(** [clearLabels]. *)
Definition clearLabels (d : Disassembler) : Disassembler :=
  with_addressQueue [] (with_offsetLabels ∅ (with_labels [] d)).

(** Modelled from the spec: [read_word(addr)] of the disassembler's
    [Memory], [byte(addr) + 256·byte(addr+1)] (section 4.1). *)
Definition DisMemory_getWordValueAt (m : DisMemory.t) (address : Z) : Z :=
  DisMemory.getValueAt m address + 256 * DisMemory.getValueAt m (address + 1).

(** [setJmpTable(address, count)]: the loop with [rounds] rounds to go. *)
Fixpoint setJmpTable_loop (rounds : nat) (d : Disassembler) (address : Z)
    : Disassembler :=
  match rounds with
  | O => d
  | S rounds' =>
      let jmpAddress := DisMemory_getWordValueAt (memory d) address in
      setJmpTable_loop rounds' (setFixedCodeLabel d jmpAddress None) (address + 2)
  end.

Definition setJmpTable (d : Disassembler) (address count : Z) : Disassembler :=
  setJmpTable_loop (Z.to_nat count) d address.

(** Modelled from the spec: [src/disassembler/format.ts] is not among the
    sources; the listing formatter is an external collaborator (section 1).
    [getHexString] is its rendering of a number in hexadecimal, with the
    default number of digits. *)
Class FormatLib : Type :=
  getHexString : Z → string.

Section SpecialLabels.
Context {format : FormatLib}.

(** The loop of [setSpecialLabels] over the memory from [addr] on, with
    [rounds] rounds to go. *)
Fixpoint setSpecialLabels_loop (rounds : nat) (d : Disassembler) (addr prevAttr : Z)
    : Disassembler :=
  match rounds with
  | O => d
  | S rounds' =>
      let memAttr := DisMemory.getAttributeAt (memory d) addr in
      let d :=
        if hasAttr (Z.lxor prevAttr memAttr) MemAttribute.ASSIGNED then
          if hasAttr memAttr MemAttribute.ASSIGNED then
            match JsMap.get addr (labels d) with
            | None =>
                setLabel d addr
                  (Some ("BIN_START_" +:+ toUpperCase (getHexString addr))) DATA_LBL
            | Some _ => d
            end
          else d
        else d in
      setSpecialLabels_loop rounds' d (addr + 1) memAttr
  end.

Definition setSpecialLabels (d : Disassembler) : Disassembler :=
  let d :=
    if bool_decide (snaStartAddress d >= 0) then
      match JsMap.get (snaStartAddress d) (labels d) with
      | None =>
          setLabel d (snaStartAddress d)
            (Some ("SNA_LBL_MAIN_START_"
                   +:+ toUpperCase (toString16 (snaStartAddress d))))
            CODE_LBL
      | Some _ => d
      end
    else d in
  setSpecialLabels_loop (Z.to_nat MAX_MEM_SIZE) d 0 0.

End SpecialLabels.

Section MorePasses.
Context {table : OpcodeTable}.






(** [findRET]: the returned boolean and the array after the call. The
    calls of [DelayedLog] only write a log. *)
Fixpoint findRET (fuel : nat) (m : DisMemory.t) (labels : JsMap.t DisLabel)
    (address : Z) (addrsArray : list Z) : result (bool * list Z) :=
  match fuel with
  | O => OutOfFuel
  | S fuel' =>
      let memAttr := DisMemory.getAttributeAt m address in
      if negb (hasAttr memAttr MemAttribute.ASSIGNED) then Ok (false, addrsArray)
      else if bool_decide (address ∈ addrsArray) then Ok (false, addrsArray)
      else
        let isSub :=
          match JsMap.get address labels with
          | Some addrLabel =>
              bool_decide (type addrLabel = CODE_SUB)
              || bool_decide (type addrLabel = CODE_RST)
          | None => false
          end in
        if isSub then Ok (true, addrsArray)
        else
          let opcode := getOpcodeAt m address in
          if String.prefix "RET" (toUpperCase (name opcode)) then Ok (true, addrsArray)
          else
            let addrsArray := addrsArray ++ [address] in
            '(res, addrsArray) ←
              (if hasFlag BRANCH_ADDRESS opcode && negb (hasFlag CALL opcode)
               then findRET fuel' m labels (value opcode) addrsArray
               else Ok (false, addrsArray));
            if (res : bool) then Ok (true, addrsArray)
            else
              let address := address + length opcode in
              if hasFlag STOP opcode then Ok (false, addrsArray)
              else findRET fuel' m labels address addrsArray
  end.

(** The body of the loop of [turnLBLintoSUB] for the entry stored under
    [address]. *)
Definition turnLBLintoSUB_body (fuel : nat) (m : DisMemory.t)
    (labels : JsMap.t DisLabel) (address : Z) : result (JsMap.t DisLabel) :=
  match JsMap.get address labels with
  | None => Ok labels
  | Some label =>
      if bool_decide (type label = CODE_LBL) then
        '(retFound, _) ← findRET fuel m labels address [];
        if (retFound : bool)
        then Ok (JsMap.set address (set_type CODE_SUB label) labels)
        else Ok labels
      else Ok labels
  end.

Definition turnLBLintoSUB (fuel : nat) (d : Disassembler) : result Disassembler :=
  labels' ← foldM (turnLBLintoSUB_body fuel (memory d)) (labels d)
                  (JsMap.keys (labels d));
  Ok (with_labels labels' d).

End MorePasses.

(** ** Passes 8 and 9: [addParentReferences], [addCallsListToLabels] *)

(** Modelled from the spec: [Format.getHexString(value, digits)] of the
    formatter, which is not among the sources. *)
Class FormatDigits : Type :=
  getHexStringDigits : Z → Z → string.

(** [type == CODE_SUB || type == CODE_RST || type == CODE_LBL]. *)
Definition isSubroutineLabelType (t : NumberType) : bool :=
  bool_decide (t = CODE_SUB) || bool_decide (t = CODE_RST)
  || bool_decide (t = CODE_LBL).

Definition set_calls (c : list Z) (l : DisLabel) : DisLabel :=
  {| type := type l; labelName := labelName l; references := references l;
     calls := c; isEqu := isEqu l; isFixed := isFixed l;
     belongsToInterrupt := belongsToInterrupt l |}.

(** The fields [addressParents] and [dotMarkedLabels]. Both hold label
    objects; a label object is stored under one key of [labels] only, and
    is named by that key here. [addressParents] is indexed with the
    unmasked address. *)
Record Parents : Type := mkParents {
  addressParents : gmap Z Z;
  dotMarkedLabels : gmap Z string
}.

Definition dotWarningMark : string := "lightblue".

Section ParentPasses.
Context {table : OpcodeTable} {format : FormatDigits}.

(** [setSubroutineParent(address, parentLabel)] with the parent label
    stored under [parentAddress]; the result is [addressParents] after the
    call. The fuel bounds the rounds of the loop and the recursion. The
    calls of [DelayedLog] only write a log. *)
Fixpoint setSubroutineParent (fuel : nat) (m : DisMemory.t) (labels : JsMap.t DisLabel)
    (parents : gmap Z Z) (address parentAddress : Z) : result (gmap Z Z) :=
  match fuel with
  | O => OutOfFuel
  | S fuel' =>
      let memAttr := DisMemory.getAttributeAt m address in
      if negb (hasAttr memAttr MemAttribute.ASSIGNED) then Ok parents
      else
        match parents !! address with
        | Some _ => Ok parents
        | None =>
            let stop :=
              match JsMap.get address labels with
              | Some label =>
                  bool_decide (address ≠ parentAddress)
                  && isSubroutineLabelType (type label)
              | None => false
              end in
            if stop then Ok parents
            else
              let opcode := getOpcodeAt m address in
              let parents := <[address := parentAddress]> parents in
              parents ←
                (if hasFlag BRANCH_ADDRESS opcode
                 then setSubroutineParent fuel' m labels parents (value opcode)
                        parentAddress
                 else Ok parents);
              let address := address + length opcode in
              if hasFlag STOP opcode then Ok parents
              else setSubroutineParent fuel' m labels parents address parentAddress
        end
  end.

(** The body of the first loop of [addParentReferences] for the entry
    stored under [address]. *)
Definition addParentReferences_parent (fuel : nat) (m : DisMemory.t)
    (labels : JsMap.t DisLabel) (parents : gmap Z Z) (address : Z)
    : result (gmap Z Z) :=
  match JsMap.get address labels with
  | None => Ok parents
  | Some label =>
      if isSubroutineLabelType (type label)
      then setSubroutineParent fuel m labels parents address address
      else Ok parents
  end.

(** One round of the loop over the references of the label stored under
    [address]: the set after the round and [anyRefOutside]. An [assert]
    without a message fails with the empty message here. *)
Definition removeSelfReference (m : DisMemory.t) (parents : gmap Z Z) (address : Z)
    (acc : gset Z * bool) (ref : Z) : result (gset Z * bool) :=
  let '(refs, anyRefOutside) := acc in
  if bool_decide (parents !! ref = Some address) then
    let memAttr := DisMemory.getAttributeAt m ref in
    if negb (hasAttr memAttr MemAttribute.ASSIGNED) then AssertionError ""
    else if negb (hasAttr memAttr MemAttribute.CODE) then AssertionError ""
    else if negb (hasAttr memAttr MemAttribute.CODE_FIRST) then AssertionError ""
    else
      let opcode := getOpcodeAt m ref in
      if negb (hasFlag CALL opcode) then Ok (refs ∖ {[ref]}, anyRefOutside)
      else Ok (refs, anyRefOutside)
  else Ok (refs, true).

(** The body of the second loop of [addParentReferences] for the entry
    stored under [address]. The references are visited in the order of
    [elements]; a round depends on its own reference only. *)
Definition addParentReferences_body (parents : gmap Z Z)
    (acc : Disassembler * gmap Z string) (address : Z)
    : result (Disassembler * gmap Z string) :=
  let '(d, dots) := acc in
  match JsMap.get address (labels d) with
  | None => Ok (d, dots)
  | Some label =>
      '(refs, anyRefOutside) ←
        foldM (removeSelfReference (memory d) parents address)
              (references label, false) (elements (references label));
      let d := with_labels (JsMap.set address (set_references refs label) (labels d)) d in
      if negb anyRefOutside
         && (bool_decide (type label = CODE_SUB) || bool_decide (type label = CODE_RST))
         && bool_decide (Z.of_nat (size refs) > 0)
      then
        Ok (emit "warning"
              ("Address: " +:+ getHexStringDigits address 4
               +:+ "h. A subroutine was found that calls itself recursively but is not called from any other location.")
              d,
            <[address := dotWarningMark]> dots)
      else Ok (d, dots)
  end.

Definition addParentReferences (fuel : nat) (d : Disassembler) (p : Parents)
    : result (Disassembler * Parents) :=
  parents ← foldM (addParentReferences_parent fuel (memory d) (labels d))
                  (addressParents p) (JsMap.keys (labels d));
  '(d, dots) ← foldM (addParentReferences_body parents) (d, dotMarkedLabels p)
                     (JsMap.keys (labels d));
  Ok (d, {| addressParents := parents; dotMarkedLabels := dots |}).

(** [parent.calls.push(label)] for the label stored under [callee] and the
    parent stored under [parent]. *)
Definition push_call (callee parent : Z) (labels : JsMap.t DisLabel)
    : JsMap.t DisLabel :=
  match JsMap.get parent labels with
  | Some parentLabel =>
      JsMap.set parent (set_calls (calls parentLabel ++ [callee]) parentLabel) labels
  | None => labels
  end.

(** The body of the loop of [addCallsListToLabels] for the entry stored
    under [address]. The references are visited in the order of
    [elements], so that [calls] is modelled up to the order in which the
    references of one label add to it. *)
Definition addCallsListToLabels_body (parents : gmap Z Z) (labels : JsMap.t DisLabel)
    (address : Z) : JsMap.t DisLabel :=
  match JsMap.get address labels with
  | None => labels
  | Some label =>
      if isSubroutineLabelType (type label) then
        foldl (λ labels ref,
                 match parents !! ref with
                 | Some parent => push_call address parent labels
                 | None => labels
                 end)
              labels (elements (references label))
      else labels
  end.

Definition addCallsListToLabels (d : Disassembler) (p : Parents) : Disassembler :=
  with_labels
    (foldl (addCallsListToLabels_body (addressParents p)) (labels d)
           (JsMap.keys (labels d)))
    d.

End ParentPasses.

(** ** Pass 2: [findInterruptLabels] *)

(** [label.name += n]: the decimal digits of the number behind the name;
    [undefined + n] is [NaN], which reads "NaN" as a text. *)
Definition addNumberToName (name : option string) (n : Z) : string :=
  match name with
  | Some s => s +:+ toString10 n
  | None => "NaN"
  end.

Section InterruptLabels.
Context {table : OpcodeTable}.

(** The public field [labelIntrptPrefix], "INTRPT" unless the caller
    changes it. *)
Variable labelIntrptPrefix : string.

(** The first loop of [findInterruptLabels] from [address] on, with
    [rounds] rounds to go: the disassembler and [foundInterrupts]. *)
Fixpoint findInterruptLabels_loop (rounds : nat) (d : Disassembler)
    (address prevAttr prevCodeAddr : Z) (foundInterrupts : list Z)
    : Disassembler * list Z :=
  match rounds with
  | O => (d, foundInterrupts)
  | S rounds' =>
      let memAttr := DisMemory.getAttributeAt (memory d) address in
      let '(d, foundInterrupts) :=
        if bool_decide (address ≠ snaStartAddress d) then
          if hasAttr memAttr MemAttribute.CODE_FIRST
             && hasAttr memAttr MemAttribute.ASSIGNED then
            match JsMap.get address (labels d) with
            | Some _ => (d, foundInterrupts)
            | None =>
                if negb (hasAttr prevAttr MemAttribute.ASSIGNED)
                   || negb (hasAttr prevAttr MemAttribute.CODE) then
                  if bool_decide (address ≠ snaStartAddress d) then
                    (setFixedCodeLabel d address (Some labelIntrptPrefix),
                     foundInterrupts ++ [address])
                  else (d, foundInterrupts)
                else if bool_decide (prevCodeAddr >= 0) then
                  let opcode := getOpcodeAt (memory d) prevCodeAddr in
                  if hasFlag STOP opcode then
                    (setFixedCodeLabel d address (Some labelIntrptPrefix),
                     foundInterrupts ++ [address])
                  else (d, foundInterrupts)
                else (d, foundInterrupts)
            end
          else (d, foundInterrupts)
        else (d, foundInterrupts) in
      let prevAttr := memAttr in
      let prevCodeAddr :=
        if negb (hasAttr memAttr MemAttribute.CODE) then -1 else prevCodeAddr in
      let prevCodeAddr :=
        if hasAttr memAttr MemAttribute.CODE_FIRST then address else prevCodeAddr in
      findInterruptLabels_loop rounds' d (address + 1) prevAttr prevCodeAddr
        foundInterrupts
  end.

(** The second loop, from [index] on over the rest of [foundInterrupts]. *)
Fixpoint findInterruptLabels_number (labels : JsMap.t DisLabel) (rest : list Z)
    (index : Z) : result (JsMap.t DisLabel) :=
  match rest with
  | [] => Ok labels
  | addr :: rest' =>
      match JsMap.get addr labels with
      | None => AssertionError "findInterruptLabels"
      | Some label =>
          let label :=
            set_labelName (Some (addNumberToName (labelName label) (index + 1))) label in
          findInterruptLabels_number (JsMap.set addr label labels) rest' (index + 1)
      end
  end.

Definition findInterruptLabels (d : Disassembler) : result Disassembler :=
  let '(d, foundInterrupts) :=
    findInterruptLabels_loop (Z.to_nat MAX_MEM_SIZE) d 0 0 (-1) [] in
  let count := Z.of_nat (List.length foundInterrupts) in
  if bool_decide (count > 1) then
    labels' ← findInterruptLabels_number (labels d) foundInterrupts 0;
    Ok (with_labels labels' d)
  else Ok d.

End InterruptLabels.

(** ** [getIndex] *)

(** [count] copies of [s], one behind the other. *)
Fixpoint copies (s : string) (count : nat) : string :=
  match count with
  | O => ""
  | S count' => s +:+ copies s count'
  end.

(** [s.repeat(count)]; [None] is the [RangeError] that a negative count
    throws. *)
Definition repeatString (s : string) (count : Z) : option string :=
  if bool_decide (count < 0) then None else Some (copies s (Z.to_nat count)).

(** [getIndex(index, countDigits)]. *)
Definition getIndex (index countDigits : Z) : option string :=
  let str := toString10 index in
  match repeatString "0" (countDigits - Z.of_nat (String.length str)) with
  | Some zeros => Some (zeros +:+ str)
  | None => None
  end.

(* ===================================================================== *)
(** * Part II: properties                                                 *)
(* ===================================================================== *)

(** ** Basic facts: masking, attributes, maps *)

Lemma mask16_mod (a : Z) : mask16 a = a `mod` 65536.
Proof.
  unfold mask16, MAX_MEM_SIZE.
  change (65536 - 1) with (Z.ones 16). rewrite Z.land_ones by lia. reflexivity.
Qed.

Lemma mask16_range (a : Z) : 0 <= mask16 a < 65536.
Proof. rewrite mask16_mod. apply Z.mod_pos_bound. lia. Qed.

Lemma mask16_small (a : Z) : 0 <= a < 65536 → mask16 a = a.
Proof. intros. rewrite mask16_mod. apply Z.mod_small. lia. Qed.

Lemma mask16_idemp (a : Z) : mask16 (mask16 a) = mask16 a.
Proof. apply mask16_small, mask16_range. Qed.

Lemma mask16_add (a k : Z) : mask16 (mask16 a + k) = mask16 (a + k).
Proof. rewrite !mask16_mod. rewrite Zplus_mod_idemp_l. reflexivity. Qed.

Module JsMapFacts.
Import JsMap.

Lemma get_set_eq {V} (k : Z) (v : V) (m : t V) : get k (set k v m) = Some v.
Proof.
  induction m as [|[k' v'] m IH]; simpl.
  - rewrite bool_decide_eq_true_2; done.
  - destruct (bool_decide (k' = k)) eqn:E; simpl.
    + rewrite bool_decide_eq_true_2; done.
    + rewrite E. exact IH.
Qed.

Lemma get_set_ne {V} (k j : Z) (v : V) (m : t V) :
  k ≠ j → get j (set k v m) = get j m.
Proof.
  intros Hne. induction m as [|[k' v'] m IH]; simpl.
  - rewrite bool_decide_eq_false_2; done.
  - destruct (bool_decide (k' = k)) eqn:E; simpl.
    + apply bool_decide_eq_true_1 in E. subst k'.
      rewrite !bool_decide_eq_false_2; done.
    + destruct (bool_decide (k' = j)); [done | exact IH].
Qed.

Lemma get_delete_eq {V} (k : Z) (m : t V) : get k (delete k m) = None.
Proof.
  induction m as [|[k' v'] m IH]; simpl; [done|].
  destruct (bool_decide (k' = k)) eqn:E; simpl; [exact IH|].
  rewrite E. exact IH.
Qed.

Lemma get_delete_ne {V} (k j : Z) (m : t V) :
  k ≠ j → get j (delete k m) = get j m.
Proof.
  intros Hne. induction m as [|[k' v'] m IH]; simpl; [done|].
  destruct (bool_decide (k' = k)) eqn:E; simpl.
  - apply bool_decide_eq_true_1 in E. subst k'.
    rewrite bool_decide_eq_false_2; done.
  - destruct (bool_decide (k' = j)); [done | exact IH].
Qed.

Lemma get_Some_elem {V} (k : Z) (v : V) (m : t V) :
  get k m = Some v → (k, v) ∈ m.
Proof.
  induction m as [|[k' v'] m IH]; simpl; [done|].
  destruct (bool_decide (k' = k)) eqn:E.
  - apply bool_decide_eq_true_1 in E. intros [= <-]. subst. left.
  - intros H. right. auto.
Qed.

Lemma keys_set {V} (k : Z) (v : V) (m : t V) :
  is_Some (get k m) → keys (set k v m) = keys m.
Proof.
  unfold keys. induction m as [|[k' v'] m IH]; simpl.
  - intros [? [=]].
  - destruct (bool_decide (k' = k)) eqn:E; simpl.
    + apply bool_decide_eq_true_1 in E. by subst.
    + intros H. by rewrite IH.
Qed.

End JsMapFacts.

(** ** C10: [getDisassembly] before [disassemble] *)

(** C10. If [getDisassembly] is called while [disassembledLines] is still
    undefined, it emits one ['warning'] event, returns the empty string and
    leaves every field of the disassembler as it was. *)
Theorem getDisassembly_before_disassemble (d : Disassembler) :
  disassembledLines d = None →
  let d' := fst (getDisassembly d) in
  snd (getDisassembly d) = ""
  ∧ events d' = events d ++ [("warning", "No disassembly was done.")]
  ∧ memory d' = memory d
  ∧ labels d' = labels d
  ∧ offsetLabels d' = offsetLabels d
  ∧ addressQueue d' = addressQueue d
  ∧ subroutineStatistics d' = subroutineStatistics d
  ∧ statisticsMax d' = statisticsMax d
  ∧ statisticsMin d' = statisticsMin d
  ∧ disassembledLines d' = disassembledLines d
  ∧ snaStartAddress d' = snaStartAddress d.
Proof.
  intros Hnone. unfold getDisassembly. rewrite Hnone. simpl.
  repeat split; try reflexivity. exact Hnone.
Qed.

Lemma getDisassembly_before_disassemble_witness :
  let d := newDisassembler Sample.emptyMemory in
  snd (getDisassembly d) = ""
  ∧ events (fst (getDisassembly d)) = [("warning", "No disassembly was done.")]
  ∧ labels (fst (getDisassembly d)) = [].
Proof.
  pose proof (getDisassembly_before_disassemble
                (newDisassembler Sample.emptyMemory) eq_refl) as H.
  cbv zeta in H. destruct H as (H1 & H2 & _ & H3 & _).
  split; [exact H1|]. split; [exact H2 | exact H3].
Defined.

(** After [disassemble] has set the lines, they are joined and nothing is
    emitted. *)
Lemma getDisassembly_after_disassemble (d : Disassembler) (lines : list string) :
  disassembledLines d = Some lines →
  getDisassembly d = (d, join (String LF "") lines).
Proof. intros H. unfold getDisassembly. by rewrite H. Qed.

(** ** C1: the word read *)

(** The bytes of a [BaseMemory] that covers the whole address space. *)
Definition BaseMemory_byte (m : BaseMemory.t) (a : Z) : Z :=
  default 0 (BaseMemory.memory m !! Z.to_nat (mask16 a)).

Lemma BaseMemory_getValueAt_full (m : BaseMemory.t) (a : Z) :
  BaseMemory.wf m → BaseMemory.startAddress m = 0 →
  BaseMemory.size m = MAX_MEM_SIZE →
  BaseMemory.getValueAt m a = Some (BaseMemory_byte m a).
Proof.
  intros [Hlen _] Hstart Hsize. unfold BaseMemory.getValueAt, BaseMemory_byte.
  rewrite Hstart, Hsize, Z.sub_0_r.
  pose proof (mask16_range a) as Hr.
  rewrite bool_decide_eq_true_2 by lia.
  rewrite bool_decide_eq_true_2 by (unfold MAX_MEM_SIZE; lia).
  destruct (BaseMemory.memory m !! Z.to_nat (mask16 a)) as [b|] eqn:E; [done|].
  apply lookup_ge_None in E. rewrite Hlen, Hsize in E.
  unfold MAX_MEM_SIZE in E. lia.
Qed.

(** [BaseMemory.getWordValueAt] is the little-endian word, with both
    addresses masked to 16 bits. *)
Lemma BaseMemory_getWordValueAt_little_endian (m : BaseMemory.t) (a : Z) :
  BaseMemory.wf m → BaseMemory.startAddress m = 0 →
  BaseMemory.size m = MAX_MEM_SIZE →
  BaseMemory.getWordValueAt m a = Some (read_word_le (BaseMemory_byte m) a).
Proof.
  intros Hwf Hstart Hsize. unfold BaseMemory.getWordValueAt.
  rewrite !BaseMemory_getValueAt_full by done. reflexivity.
Qed.

(** Whatever the memory, [Memory.getWordValueAt] is 256 times the square
    of the byte at the address; the byte after it is not read. *)
Lemma Memory_getWordValueAt_square (m : Memory.t) (a : Z) :
  Memory.getWordValueAt m a = 256 * (Memory.getValueAt m a * Memory.getValueAt m a).
Proof. unfold Memory.getWordValueAt, Memory.getValueAt. lia. Qed.

(** C1. With the bytes 1 and 2 stored at the addresses 0 and 1,
    [Memory.getWordValueAt(0)] is 256, while the little-endian word of
    these bytes, which [BaseMemory.getWordValueAt] returns for the same
    contents, is 513. *)
Theorem Memory_getWordValueAt_differs :
  let m := Memory.setMemory Memory.new 0 [1; 2] in
  let b := foldl (λ b iv, BaseMemory.setValueAtIndex b (fst iv) (snd iv))
                 (BaseMemory.new 0 MAX_MEM_SIZE) [(0, 1); (1, 2)] in
  Memory.getValueAt m 0 = 1
  ∧ Memory.getValueAt m 1 = 2
  ∧ Memory.getWordValueAt m 0 = 256
  ∧ read_word_le (Memory.getValueAt m) 0 = 513
  ∧ BaseMemory.getWordValueAt b 0 = Some 513.
Proof. vm_compute. repeat split; reflexivity. Qed.

(** ** C2: [setFoundLabel] *)

Lemma set_references_id (l : DisLabel) : set_references (references l) l = l.
Proof. by destruct l. Qed.

(** The loop that adds the referrers, in closed form. *)
Lemma addReferences_union (address : Z) (refs : gset Z) (label : DisLabel) :
  addReferences address refs label
  = set_references (references label ∪ (refs ∖ {[address]})) label.
Proof.
  unfold addReferences.
  rewrite <- (list_to_set_elements_L refs) at 2.
  generalize (elements refs) as l. intros l. revert label.
  induction l as [|r l IH]; intros label; simpl.
  - rewrite <- (set_references_id label) at 1. f_equal. set_solver.
  - rewrite IH. case_bool_decide as Hr.
    + destruct label; unfold set_references; simpl. f_equal. set_solver.
    + subst r. f_equal. set_solver.
Qed.

(** The label that [setFoundLabel] stores under [address]. *)
Definition foundLabel (old : option DisLabel) (address : Z) (refs : gset Z)
    (type' : NumberType) (attr : Z) : DisLabel :=
  match old with
  | None =>
      {| type := type'; labelName := None;
         references := refs ∖ {[address]}; calls := [];
         isEqu := negb (hasAttr attr MemAttribute.ASSIGNED);
         isFixed := false; belongsToInterrupt := false |}
  | Some l =>
      {| type := NumberType_max (type l) type'; labelName := labelName l;
         references := references l ∪ (refs ∖ {[address]}); calls := calls l;
         isEqu := isEqu l; isFixed := isFixed l;
         belongsToInterrupt := belongsToInterrupt l |}
  end.

Lemma setFoundLabel_eq (labels : JsMap.t DisLabel) (address : Z)
    (refs : gset Z) (type' : NumberType) (attr : Z) :
  setFoundLabel labels address refs type' attr
  = JsMap.set address
      (foundLabel (JsMap.get address labels) address refs type' attr) labels.
Proof.
  unfold setFoundLabel. f_equal. rewrite addReferences_union.
  destruct (JsMap.get address labels) as [l|]; simpl.
  - unfold NumberType_max. destruct (NumberType_ltb (type l) type'); by destruct l.
  - destruct (hasAttr attr MemAttribute.ASSIGNED); simpl;
      unfold set_references; simpl; f_equal; set_solver.
Qed.

Lemma setFoundLabel_get_eq labels address refs type' attr :
  JsMap.get address (setFoundLabel labels address refs type' attr)
  = Some (foundLabel (JsMap.get address labels) address refs type' attr).
Proof. rewrite setFoundLabel_eq. apply JsMapFacts.get_set_eq. Qed.

Lemma setFoundLabel_get_ne labels address refs type' attr k :
  k ≠ address →
  JsMap.get k (setFoundLabel labels address refs type' attr) = JsMap.get k labels.
Proof. intros H. rewrite setFoundLabel_eq. by apply JsMapFacts.get_set_ne. Qed.

(** The claim as it is worded, for one call: a label is stored under the
    address; a new label has the given type, an existing one the higher of
    the two types and its other fields; the referrers are the old ones and
    the given ones without the address, so the address is no referrer; and
    [isEqu] is set when [attr] lacks [ASSIGNED]. *)
Definition setFoundLabel_as_worded (labels : JsMap.t DisLabel) (address : Z)
    (refs : gset Z) (type' : NumberType) (attr : Z) : Prop :=
  ∃ l', JsMap.get address (setFoundLabel labels address refs type' attr) = Some l'
    ∧ (match JsMap.get address labels with
       | None => type l' = type' ∧ references l' = refs ∖ {[address]}
       | Some l =>
           type l' = NumberType_max (type l) type'
           ∧ labelName l' = labelName l ∧ calls l' = calls l
           ∧ isFixed l' = isFixed l
           ∧ belongsToInterrupt l' = belongsToInterrupt l
           ∧ references l' = references l ∪ (refs ∖ {[address]})
       end)
    ∧ (address ∉ references l')
    ∧ (hasAttr attr MemAttribute.ASSIGNED = false → isEqu l' = true).

(** A label at address 5 that is no EQU and has itself as a referrer. *)
Definition selfReferringLabel : DisLabel :=
  {| type := CODE_LBL; labelName := None; references := {[5]}; calls := [];
     isEqu := false; isFixed := false; belongsToInterrupt := false |}.

(** C2, counterexample. For a label that exists already, a call with an
    [attr] without [ASSIGNED] does not set [isEqu], and a referrer equal to
    the address that the label had before stays. *)
Lemma setFoundLabel_as_worded_fails :
  let labels' := setFoundLabel [(5, selfReferringLabel)] 5 ∅ CODE_LBL 0 in
  (∃ l', JsMap.get 5 labels' = Some l' ∧ isEqu l' = false ∧ 5 ∈ references l')
  ∧ ¬ setFoundLabel_as_worded [(5, selfReferringLabel)] 5 ∅ CODE_LBL 0.
Proof.
  cbv zeta. split.
  - eexists. split; [apply setFoundLabel_get_eq|]. split; [reflexivity|].
    simpl. set_solver.
  - intros (l' & Hget & _ & _ & Hequ).
    rewrite setFoundLabel_get_eq in Hget. injection Hget as <-.
    specialize (Hequ eq_refl). discriminate Hequ.
Qed.

(** C2, amended. [setFoundLabel] stores one label under the address and
    leaves every other entry alone. A new label has the given type, the
    given referrers without the address, and is an EQU exactly when [attr]
    lacks [ASSIGNED]. An existing label gets the higher of the two types
    and the given referrers without the address in addition to its own;
    its name, callees and flags, [isEqu] among them, stay. No referrer
    equal to the address is added. *)
Theorem setFoundLabel_spec (labels : JsMap.t DisLabel) (address : Z)
    (refs : gset Z) (type' : NumberType) (attr : Z) :
  let labels' := setFoundLabel labels address refs type' attr in
  JsMap.get address labels'
  = Some (foundLabel (JsMap.get address labels) address refs type' attr)
  ∧ (∀ k, k ≠ address → JsMap.get k labels' = JsMap.get k labels)
  ∧ (∀ l', JsMap.get address labels' = Some l' →
       (∀ r, r ∈ references l' →
          r ≠ address ∨ ∃ l, JsMap.get address labels = Some l ∧ r ∈ references l)).
Proof.
  cbv zeta. split; [apply setFoundLabel_get_eq|].
  split; [intros k Hk; by apply setFoundLabel_get_ne|].
  intros l' Hget r Hr. rewrite setFoundLabel_get_eq in Hget. injection Hget as <-.
  destruct (decide (r = address)) as [->|Hne]; [|by left].
  right. destruct (JsMap.get address labels) as [l|]; simpl in Hr.
  - exists l. split; [done|]. set_solver.
  - set_solver.
Qed.

(** The invariant of the specification: if the address was no referrer of
    the label before (or there was no label), it is none afterwards. *)
Lemma setFoundLabel_no_self_reference labels address refs type' attr l' :
  (∀ l, JsMap.get address labels = Some l → address ∉ references l) →
  JsMap.get address (setFoundLabel labels address refs type' attr) = Some l' →
  address ∉ references l'.
Proof.
  intros Hold Hget. rewrite setFoundLabel_get_eq in Hget. injection Hget as <-.
  destruct (JsMap.get address labels) as [l|] eqn:E; simpl.
  - specialize (Hold l eq_refl). set_solver.
  - set_solver.
Qed.

(** For a new label the four parts of the claim hold as worded. *)
Lemma setFoundLabel_new labels address refs type' attr :
  JsMap.get address labels = None →
  setFoundLabel_as_worded labels address refs type' attr.
Proof.
  intros Hnone. unfold setFoundLabel_as_worded.
  rewrite setFoundLabel_get_eq, Hnone. eexists. split; [reflexivity|]. simpl.
  repeat split; [set_solver|].
  intros ->. reflexivity.
Qed.

(** ** C9: the font size of a node of the call graph *)

(** When the largest and the smallest cyclomatic complexity are equal,
    the factor is a division by zero and the font size of every node with
    that complexity is [NaN]. *)
Lemma fontSize_equal_complexities (d : Disassembler) (stats : SubroutineStatistics) :
  CyclomaticComplexity (statisticsMax d) = CyclomaticComplexity (statisticsMin d) →
  CyclomaticComplexity stats = CyclomaticComplexity (statisticsMin d) →
  PrimFloat.is_nan (fontSize d stats) = true
  ∧ JsNumber.toString (JsNumber.round (fontSize d stats)) = "NaN".
Proof.
  intros Hmax Hstats. unfold fontSize, fontSizeFactor.
  rewrite Hmax, Hstats, Z.sub_diag. vm_compute. split; reflexivity.
Qed.

(** The label store and the memory of scenario 1 of the specification
    before pass 10: the bytes [3E 05 C9] at address 0 and one subroutine
    label, named [SUB1], at address 0. *)
Definition scenario1 : Disassembler :=
  with_labels
    [(0, {| type := CODE_SUB; labelName := Some "SUB1"; references := ∅;
            calls := []; isEqu := false; isFixed := false;
            belongsToInterrupt := false |})]
    (newDisassembler (Sample.setMemory Sample.emptyMemory 0 [0x3E; 0x05; 0xC9])).

(** C9. For the single subroutine of scenario 1, [countStatistics] finds
    the cyclomatic complexity 1 as the minimum and as the maximum, and the
    node of the call graph gets the font size [NaN], which is no number
    between 13 and 40. *)
Theorem fontSize_single_subroutine :
  ∃ d stats label,
    countStatistics (table := Sample.table) 10 scenario1 = Ok d
    ∧ subroutineStatistics d !! 0 = Some stats
    ∧ JsMap.get 0 (labels d) = Some label
    ∧ CyclomaticComplexity (statisticsMin d) = 1
    ∧ CyclomaticComplexity (statisticsMax d) = 1
    ∧ CyclomaticComplexity stats = 1
    ∧ PrimFloat.is_nan (fontSize d stats) = true
    ∧ fontSizeLine d label stats
      = "SUB1 [fontsize=" +:+ DQ +:+ "NaN" +:+ DQ +:+ "];" +:+ String LF "".
Proof.
  eexists _, _, _. split; [vm_compute; reflexivity|].
  split; [vm_compute; reflexivity|].
  split; [vm_compute; reflexivity|].
  vm_compute. repeat split; reflexivity.
Qed.

(** Between two different bounds the interpolation is as the
    specification says, for instance half way. *)
Example fontSize_interpolates :
  let d := with_statistics ∅ (mkStats 0 0 5) (mkStats 0 0 1)
             (newDisassembler Sample.emptyMemory) in
  JsNumber.toString (JsNumber.round (fontSize d (mkStats 0 0 1))) = "13"
  ∧ JsNumber.toString (JsNumber.round (fontSize d (mkStats 0 0 3))) = "27"
  ∧ JsNumber.toString (JsNumber.round (fontSize d (mkStats 0 0 5))) = "40".
Proof. vm_compute. repeat split; reflexivity. Qed.

(** ** Attribute flags *)

Lemma hasAttr_lor_same (a f : Z) : f ≠ 0 → hasAttr (Z.lor a f) f = true.
Proof.
  intros Hf. unfold hasAttr. rewrite Z.land_lor_distr_l, Z.land_diag.
  apply negb_true_iff, Z.eqb_neq. intros H. apply Z.lor_eq_0_iff in H. tauto.
Qed.

Lemma hasAttr_lor_other (a f g : Z) :
  Z.land f g = 0 → hasAttr (Z.lor a f) g = hasAttr a g.
Proof.
  intros H. unfold hasAttr. by rewrite Z.land_lor_distr_l, H, Z.lor_0_r.
Qed.

Lemma hasAttr_lor_mono (a f g : Z) :
  hasAttr a g = true → hasAttr (Z.lor a f) g = true.
Proof.
  unfold hasAttr. rewrite Z.land_lor_distr_l.
  rewrite !negb_true_iff, !Z.eqb_neq. intros H1 H2.
  apply Z.lor_eq_0_iff in H2. tauto.
Qed.

(** Whether [or_attribute(address, n, _)] touches the masked address [x]. *)
Fixpoint coveredb (n : nat) (address x : Z) : bool :=
  match n with
  | O => false
  | S n' => bool_decide (x = mask16 address) || coveredb n' (address + 1) x
  end.

Lemma coveredb_true (n : nat) (address x : Z) :
  coveredb n address x = true
  ↔ ∃ i, 0 <= i < Z.of_nat n ∧ x = mask16 (address + i).
Proof.
  revert address. induction n as [|n IH]; intros address; simpl.
  - split; [done | intros (i & ? & _); lia].
  - rewrite orb_true_iff, bool_decide_eq_true, IH. split.
    + intros [->|(i & Hi & ->)].
      * exists 0. split; [lia|]. by rewrite Z.add_0_r.
      * exists (i + 1). split; [lia|]. f_equal. lia.
    + intros (i & Hi & ->). destruct (decide (i = 0)) as [->|Hne].
      * left. by rewrite Z.add_0_r.
      * right. exists (i - 1). split; [lia|]. f_equal. lia.
Qed.

Lemma orAttributes_spec (n : nat) (attrs : Z → Z) (address flags x : Z) :
  DisMemory.orAttributes n attrs address flags x
  = if coveredb n address x then Z.lor (attrs x) flags else attrs x.
Proof.
  revert attrs address. induction n as [|n IH]; intros attrs address; simpl; [done|].
  rewrite IH. case_bool_decide as Hx; simpl.
  - destruct (coveredb n (address + 1) x); [|done].
    by rewrite <- Z.lor_assoc, Z.lor_diag.
  - done.
Qed.

(** Reading an attribute after [addAttributeAt]. *)
Lemma getAttributeAt_addAttributeAt (m : DisMemory.t) (address len flags a : Z) :
  DisMemory.getAttributeAt (DisMemory.addAttributeAt m address len flags) a
  = if coveredb (Z.to_nat len) address (mask16 a)
    then Z.lor (DisMemory.getAttributeAt m a) flags
    else DisMemory.getAttributeAt m a.
Proof.
  unfold DisMemory.getAttributeAt, DisMemory.addAttributeAt. simpl.
  apply orAttributes_spec.
Qed.

Lemma hasAttr_addAttributeAt_other m address len flags a g :
  Z.land flags g = 0 →
  hasAttr (DisMemory.getAttributeAt (DisMemory.addAttributeAt m address len flags) a) g
  = hasAttr (DisMemory.getAttributeAt m a) g.
Proof.
  intros H. rewrite getAttributeAt_addAttributeAt.
  destruct (coveredb _ _ _); [by apply hasAttr_lor_other | done].
Qed.

Lemma hasAttr_addAttributeAt_mono m address len flags a g :
  hasAttr (DisMemory.getAttributeAt m a) g = true →
  hasAttr (DisMemory.getAttributeAt (DisMemory.addAttributeAt m address len flags) a) g
  = true.
Proof.
  intros H. rewrite getAttributeAt_addAttributeAt.
  destruct (coveredb _ _ _); [by apply hasAttr_lor_mono | done].
Qed.

Lemma hasAttr_addAttributeAt_same m address len flags a :
  flags ≠ 0 →
  hasAttr (DisMemory.getAttributeAt (DisMemory.addAttributeAt m address len flags) a)
          flags = true
  ↔ hasAttr (DisMemory.getAttributeAt m a) flags = true
    ∨ ∃ i, 0 <= i < len ∧ mask16 a = mask16 (address + i).
Proof.
  intros Hf. rewrite getAttributeAt_addAttributeAt.
  destruct (coveredb _ _ _) eqn:E.
  - apply coveredb_true in E as (i & Hi & E).
    rewrite hasAttr_lor_same by done. split; [|done]. intros _. right.
    exists i. split; [lia | done].
  - split; [by left|]. intros [H|(i & Hi & Hx)]; [done|].
    assert (coveredb (Z.to_nat len) address (mask16 a) = true) as E'.
    { apply coveredb_true. exists i. split; [lia | done]. }
    congruence.
Qed.

(** The attributes after an instruction of [len] bytes at [address] has
    been marked as in [collectLabels]. *)
Definition markInstruction (m : DisMemory.t) (address len : Z) : DisMemory.t :=
  DisMemory.addAttributeAt
    (DisMemory.addAttributeAt m address 1 MemAttribute.CODE_FIRST)
    address len MemAttribute.CODE.

Lemma markInstruction_CODE m address len a :
  hasAttr (DisMemory.getAttributeAt (markInstruction m address len) a) MemAttribute.CODE
  = true
  ↔ hasAttr (DisMemory.getAttributeAt m a) MemAttribute.CODE = true
    ∨ ∃ i, 0 <= i < len ∧ mask16 a = mask16 (address + i).
Proof.
  unfold markInstruction. rewrite hasAttr_addAttributeAt_same by done.
  by rewrite hasAttr_addAttributeAt_other by done.
Qed.

Lemma markInstruction_CODE_FIRST m address len a :
  hasAttr (DisMemory.getAttributeAt (markInstruction m address len) a)
          MemAttribute.CODE_FIRST = true
  ↔ hasAttr (DisMemory.getAttributeAt m a) MemAttribute.CODE_FIRST = true
    ∨ mask16 a = mask16 address.
Proof.
  unfold markInstruction. rewrite hasAttr_addAttributeAt_other by done.
  rewrite hasAttr_addAttributeAt_same by done.
  split; (intros [H|H]; [by left | right]).
  - destruct H as (i & Hi & ->). f_equal. lia.
  - exists 0. split; [lia|]. by rewrite Z.add_0_r.
Qed.

Lemma markInstruction_ASSIGNED m address len a :
  hasAttr (DisMemory.getAttributeAt (markInstruction m address len) a)
          MemAttribute.ASSIGNED
  = hasAttr (DisMemory.getAttributeAt m a) MemAttribute.ASSIGNED.
Proof.
  unfold markInstruction. by rewrite !hasAttr_addAttributeAt_other by done.
Qed.

Lemma mask16_shift (a b k : Z) :
  mask16 a = mask16 b → mask16 (a + k) = mask16 (b + k).
Proof. intros H. by rewrite <- (mask16_add a), <- (mask16_add b), H. Qed.

Lemma getAttributeAt_mask (m : DisMemory.t) (a b : Z) :
  mask16 a = mask16 b → DisMemory.getAttributeAt m a = DisMemory.getAttributeAt m b.
Proof. unfold DisMemory.getAttributeAt. by intros ->. Qed.

(** ** The two searches of pass 1 *)

(** The search for a byte of the instruction that is code already finds
    the first one. *)
Lemma findPartlyDisassembled_Some (n : nat) (m : DisMemory.t) (a j attr : Z) :
  findPartlyDisassembled n m a = Some (j, attr)
  ↔ ∃ i, 1 <= i <= Z.of_nat n ∧ j = a + i
      ∧ attr = DisMemory.getAttributeAt m j
      ∧ hasAttr attr MemAttribute.CODE = true
      ∧ ∀ k, 1 <= k < i →
          hasAttr (DisMemory.getAttributeAt m (a + k)) MemAttribute.CODE = false.
Proof.
  revert a. induction n as [|n IH]; intros a; simpl.
  - split; [done | intros (i & ? & _); lia].
  - destruct (hasAttr (DisMemory.getAttributeAt m (a + 1)) MemAttribute.CODE) eqn:E.
    + split.
      * intros [= <- <-]. exists 1. repeat split; [lia | lia | done | intros; lia].
      * intros (i & Hi & -> & -> & Hc & Hfirst).
        destruct (decide (i = 1)) as [->|Hne]; [done|].
        specialize (Hfirst 1 ltac:(lia)). congruence.
    + rewrite IH. split.
      * intros (i & Hi & -> & -> & Hc & Hfirst). exists (i + 1).
        split; [lia|]. split; [lia|]. split; [f_equal; lia|]. split; [done|].
        intros k Hk. destruct (decide (k = 1)) as [->|Hne]; [done|].
        specialize (Hfirst (k - 1) ltac:(lia)).
        by replace (a + 1 + (k - 1)) with (a + k) in Hfirst by lia.
      * intros (i & Hi & -> & -> & Hc & Hfirst).
        destruct (decide (i = 1)) as [->|Hne]; [congruence|].
        exists (i - 1). split; [lia|]. split; [lia|]. split; [f_equal; lia|].
        split; [done|]. intros k Hk. specialize (Hfirst (k + 1) ltac:(lia)).
        by replace (a + 1 + k) with (a + (k + 1)) by lia.
Qed.

Lemma findPartlyDisassembled_None (n : nat) (m : DisMemory.t) (a : Z) :
  findPartlyDisassembled n m a = None
  ↔ ∀ i, 1 <= i <= Z.of_nat n →
      hasAttr (DisMemory.getAttributeAt m (a + i)) MemAttribute.CODE = false.
Proof.
  revert a. induction n as [|n IH]; intros a; simpl.
  - split; [intros; lia | done].
  - destruct (hasAttr (DisMemory.getAttributeAt m (a + 1)) MemAttribute.CODE) eqn:E.
    + split; [done|]. intros H. specialize (H 1 ltac:(lia)). congruence.
    + rewrite IH. split.
      * intros H i Hi. destruct (decide (i = 1)) as [->|Hne]; [done|].
        specialize (H (i - 1) ltac:(lia)).
        by replace (a + 1 + (i - 1)) with (a + i) in H by lia.
      * intros H i Hi. specialize (H (i + 1) ltac:(lia)).
        by replace (a + 1 + i) with (a + (i + 1)) by lia.
Qed.

(** The backwards search returns the nearest first byte of an opcode at
    a distance of at most four, and fails if there is none. *)
Lemma findStartOfOpcode_loop_Some (rounds : nat) (m : DisMemory.t)
    (address addrStart s : Z) :
  0 <= address - addrStart →
  5 <= Z.of_nat rounds + (address - addrStart) →
  findStartOfOpcode_loop rounds m address addrStart = Some s
  ↔ ∃ k, address - addrStart < k <= 4 ∧ s = address - k
      ∧ hasAttr (DisMemory.getAttributeAt m s) MemAttribute.CODE_FIRST = true
      ∧ ∀ j, address - addrStart < j < k →
          hasAttr (DisMemory.getAttributeAt m (address - j)) MemAttribute.CODE_FIRST
          = false.
Proof.
  revert addrStart. induction rounds as [|rounds IH]; intros addrStart H0 H5; simpl.
  - split; [done|]. intros (k & Hk & _). lia.
  - case_bool_decide as Hgt.
    + split; [done|]. intros (k & Hk & _). lia.
    + destruct (hasAttr (DisMemory.getAttributeAt m (addrStart - 1))
                  MemAttribute.CODE_FIRST) eqn:E.
      * split.
        -- intros [= <-]. exists (address - (addrStart - 1)).
           split; [lia|]. split; [lia|].
           split; [by replace (address - (address - (addrStart - 1)))
                      with (addrStart - 1) by lia|].
           intros j Hj. lia.
        -- intros (k & Hk & -> & Hs & Hfirst).
           destruct (decide (k = address - (addrStart - 1))) as [->|Hne].
           ++ f_equal. lia.
           ++ specialize (Hfirst (address - (addrStart - 1)) ltac:(lia)).
              replace (address - (address - (addrStart - 1)))
                with (addrStart - 1) in Hfirst by lia. congruence.
      * rewrite IH by lia. split.
        -- intros (k & Hk & -> & Hs & Hfirst). exists k.
           split; [lia|]. split; [done|]. split; [done|].
           intros j Hj.
           destruct (decide (j = address - (addrStart - 1))) as [->|Hne].
           ++ by replace (address - (address - (addrStart - 1)))
                with (addrStart - 1) by lia.
           ++ apply Hfirst. lia.
        -- intros (k & Hk & -> & Hs & Hfirst).
           destruct (decide (k = address - (addrStart - 1))) as [->|Hne].
           ++ replace (address - (address - (addrStart - 1)))
                with (addrStart - 1) in Hs by lia. congruence.
           ++ exists k. split; [lia|]. split; [done|]. split; [done|].
              intros j Hj. apply Hfirst. lia.
Qed.

Lemma findStartOfOpcode_Some (m : DisMemory.t) (address s : Z) :
  findStartOfOpcode m address = Some s
  ↔ ∃ k, 1 <= k <= 4 ∧ s = address - k
      ∧ hasAttr (DisMemory.getAttributeAt m s) MemAttribute.CODE_FIRST = true
      ∧ ∀ j, 1 <= j < k →
          hasAttr (DisMemory.getAttributeAt m (address - j)) MemAttribute.CODE_FIRST
          = false.
Proof.
  unfold findStartOfOpcode.
  rewrite findStartOfOpcode_loop_Some by (simpl; lia).
  rewrite Z.sub_diag.
  split; intros (k & Hk & Hs & Hf & Hfirst); exists k;
    (split; [lia|]); (split; [done|]); (split; [done|]);
    intros j Hj; apply Hfirst; lia.
Qed.

Lemma findStartOfOpcode_is_Some (m : DisMemory.t) (address : Z) :
  (∃ k, 1 <= k <= 4
        ∧ hasAttr (DisMemory.getAttributeAt m (address - k)) MemAttribute.CODE_FIRST
          = true) →
  is_Some (findStartOfOpcode m address).
Proof.
  intros (k & Hk & Hf).
  destruct (findStartOfOpcode m address) as [s|] eqn:E; [done|].
  exfalso.
  assert (∀ n : nat, (∀ j, 1 <= j <= Z.of_nat n → j <= 4 →
            hasAttr (DisMemory.getAttributeAt m (address - j)) MemAttribute.CODE_FIRST
            = false) ∨
          ∃ s, findStartOfOpcode m address = Some s) as Hall.
  { induction n as [|n IH]; [left; intros; lia|].
    destruct IH as [IH|IH]; [|by right].
    destruct (decide (Z.of_nat (S n) <= 4)) as [Hle|Hgt];
      [|left; intros j Hj1 Hj2; apply IH; lia].
    destruct (hasAttr (DisMemory.getAttributeAt m (address - Z.of_nat (S n)))
                MemAttribute.CODE_FIRST) eqn:Ef.
    - right. exists (address - Z.of_nat (S n)). apply findStartOfOpcode_Some.
      exists (Z.of_nat (S n)). split; [lia|]. split; [done|]. split; [done|].
      intros j Hj. apply IH; lia.
    - left. intros j Hj1 Hj2.
      destruct (decide (j = Z.of_nat (S n))) as [->|Hne]; [done|].
      apply IH; lia. }
  destruct (Hall 4%nat) as [Hnone|[s Hs]]; [|congruence].
  specialize (Hnone k ltac:(lia) ltac:(lia)). congruence.
Qed.

(** ** The consistency of the attributes *)

(** A byte of code that follows a byte that is no code starts an opcode. *)
Definition codeRunsStartWithFirst (m : DisMemory.t) : Prop :=
  ∀ a, hasAttr (DisMemory.getAttributeAt m (a + 1)) MemAttribute.CODE = true →
       hasAttr (DisMemory.getAttributeAt m a) MemAttribute.CODE = false →
       hasAttr (DisMemory.getAttributeAt m (a + 1)) MemAttribute.CODE_FIRST = true.

(** A byte of code that starts no opcode has the start of one at most
    four bytes before it. *)
Definition opcodeStartWithin4 (m : DisMemory.t) : Prop :=
  ∀ b, hasAttr (DisMemory.getAttributeAt m b) MemAttribute.CODE = true →
       hasAttr (DisMemory.getAttributeAt m b) MemAttribute.CODE_FIRST = false →
       ∃ k, 1 <= k <= 4
            ∧ hasAttr (DisMemory.getAttributeAt m (b - k)) MemAttribute.CODE_FIRST
              = true.

Definition attributesConsistent (m : DisMemory.t) : Prop :=
  codeRunsStartWithFirst m ∧ opcodeStartWithin4 m.

Lemma attributesConsistent_markInstruction (m : DisMemory.t) (address len : Z) :
  len <= 5 →
  attributesConsistent m →
  attributesConsistent (markInstruction m address len).
Proof.
  intros Hlen [Hruns Hnear]. split.
  - intros a Hc Hn.
    apply markInstruction_CODE_FIRST.
    apply markInstruction_CODE in Hc.
    assert (hasAttr (DisMemory.getAttributeAt m a) MemAttribute.CODE = false) as Hn'.
    { destruct (hasAttr (DisMemory.getAttributeAt m a) MemAttribute.CODE) eqn:E; [|done].
      assert (hasAttr (DisMemory.getAttributeAt (markInstruction m address len) a)
                MemAttribute.CODE = true) by (apply markInstruction_CODE; by left).
      congruence. }
    destruct Hc as [Hc|(i & Hi & Hx)]; [left; by apply Hruns|].
    destruct (decide (i = 0)) as [->|Hne].
    + right. by rewrite Z.add_0_r in Hx.
    + exfalso.
      assert (hasAttr (DisMemory.getAttributeAt (markInstruction m address len) a)
                MemAttribute.CODE = true) as Hc'; [|congruence].
      apply markInstruction_CODE. right. exists (i - 1). split; [lia|].
      apply (mask16_shift _ _ (-1)) in Hx.
      replace (a + 1 + -1) with a in Hx by lia.
      by replace (address + i + -1) with (address + (i - 1)) in Hx by lia.
  - intros b Hc Hnf.
    assert (hasAttr (DisMemory.getAttributeAt m b) MemAttribute.CODE_FIRST = false
            ∧ mask16 b ≠ mask16 address) as [Hnf' Hb].
    { split.
      - destruct (hasAttr (DisMemory.getAttributeAt m b) MemAttribute.CODE_FIRST) eqn:E;
          [|done].
        assert (hasAttr (DisMemory.getAttributeAt (markInstruction m address len) b)
                  MemAttribute.CODE_FIRST = true)
          by (apply markInstruction_CODE_FIRST; by left).
        congruence.
      - intros Heq.
        assert (hasAttr (DisMemory.getAttributeAt (markInstruction m address len) b)
                  MemAttribute.CODE_FIRST = true)
          by (apply markInstruction_CODE_FIRST; by right).
        congruence. }
    apply markInstruction_CODE in Hc. destruct Hc as [Hc|(i & Hi & Hx)].
    + destruct (Hnear b Hc Hnf') as (k & Hk & Hf). exists k. split; [done|].
      apply markInstruction_CODE_FIRST. by left.
    + assert (i ≠ 0) by (intros ->; by rewrite Z.add_0_r in Hx).
      exists i. split; [lia|]. apply markInstruction_CODE_FIRST. right.
      apply (mask16_shift _ _ (- i)) in Hx.
      replace (b + - i) with (b - i) in Hx by lia.
      by replace (address + i + - i) with address in Hx by lia.
Qed.

(** ** C4: the type of a branch target and the queue *)

(** The rule of the specification for the label type of a branch target:
    the default kind of the decoder, a [CODE_LOCAL_LBL] whose target is
    not after the instruction becomes a [CODE_LOCAL_LOOP], a [CODE_LBL]
    whose target byte is not assigned becomes a [CODE_SUB]. *)
Definition targetLabelType (defaultKind : NumberType) (target opcodeAddress : Z)
    (assigned : bool) : NumberType :=
  match defaultKind with
  | CODE_LOCAL_LBL =>
      if bool_decide (target <= opcodeAddress) then CODE_LOCAL_LOOP else CODE_LOCAL_LBL
  | CODE_LBL => if assigned then CODE_LBL else CODE_SUB
  | kind => kind
  end.

Section Pass1Facts.
Context {table : OpcodeTable}.

Lemma branchLabelType_rule (opcodeAddress : Z) (opcode : Opcode) (attr : Z) :
  branchLabelType opcodeAddress opcode attr
  = targetLabelType (valueType opcode) (value opcode) opcodeAddress
      (hasAttr attr MemAttribute.ASSIGNED).
Proof.
  unfold branchLabelType, targetLabelType.
  destruct (valueType opcode); simpl; try reflexivity.
  destruct (hasAttr attr MemAttribute.ASSIGNED); reflexivity.
Qed.

(** C4. For an instruction with [BRANCH_ADDRESS], [disassembleForLabel]
    passes to [setFoundLabel] the type that the rule gives (so the label
    of the target has this type, or the higher type it had before), and
    it appends the target to the queue exactly when the target byte is
    assigned and not yet code. The call fails an assertion only when the
    target is code, starts no opcode and has no start of an opcode within
    four bytes before it. *)
Theorem disassembleForLabel_branch (d : Disassembler) (opcodeAddress : Z)
    (opcode : Opcode) :
  hasFlag BRANCH_ADDRESS opcode = true →
  let target := value opcode in
  let attr := DisMemory.getAttributeAt (memory d) target in
  let type' := targetLabelType (valueType opcode) target opcodeAddress
                 (hasAttr attr MemAttribute.ASSIGNED) in
  let queued := hasAttr attr MemAttribute.ASSIGNED
                && negb (hasAttr attr MemAttribute.CODE) in
  match disassembleForLabel d opcodeAddress opcode with
  | Ok (d', ok) =>
      labels d' = setFoundLabel (labels d) target {[opcodeAddress]} type' attr
      ∧ (∃ l', JsMap.get target (labels d') = Some l'
               ∧ type l' = match JsMap.get target (labels d) with
                           | None => type'
                           | Some l => NumberType_max (type l) type'
                           end)
      ∧ addressQueue d'
        = (if queued then addressQueue d ++ [target] else addressQueue d)
      ∧ memory d' = memory d
      ∧ ok = negb (hasAttr attr MemAttribute.CODE
                   && negb (hasAttr attr MemAttribute.CODE_FIRST))
  | AssertionError _ =>
      hasAttr attr MemAttribute.CODE = true
      ∧ hasAttr attr MemAttribute.CODE_FIRST = false
      ∧ findStartOfOpcode (memory d) target = None
  | OutOfFuel => False
  end.
Proof.
  intros Hbranch. cbv zeta. unfold disassembleForLabel. rewrite Hbranch.
  rewrite branchLabelType_rule.
  set (target := value opcode).
  set (attr := DisMemory.getAttributeAt (memory d) target).
  set (type' := targetLabelType _ _ _ _).
  assert (∃ l', JsMap.get target
                  (setFoundLabel (labels d) target {[opcodeAddress]} type' attr)
                = Some l'
                ∧ type l' = match JsMap.get target (labels d) with
                            | None => type'
                            | Some l => NumberType_max (type l) type'
                            end) as Hlabel.
  { eexists. split; [apply setFoundLabel_get_eq|].
    by destruct (JsMap.get target (labels d)). }
  destruct (hasAttr attr MemAttribute.CODE) eqn:Hcode; simpl.
  - destruct (hasAttr attr MemAttribute.CODE_FIRST) eqn:Hfirst; simpl.
    + rewrite andb_false_r. done.
    + destruct (findStartOfOpcode (memory d) target) eqn:Hstart; simpl.
      * rewrite andb_false_r. done.
      * done.
  - destruct (hasAttr attr MemAttribute.ASSIGNED) eqn:Hassigned; simpl; done.
Qed.

(** What [disassembleForLabel] leaves alone or only extends. *)
Lemma disassembleForLabel_frame (d d' : Disassembler) (a : Z) (opcode : Opcode)
    (ok : bool) :
  disassembleForLabel d a opcode = Ok (d', ok) →
  memory d' = memory d
  ∧ (∃ extra, addressQueue d' = addressQueue d ++ extra)
  ∧ (∃ extra, events d' = events d ++ extra).
Proof.
  unfold disassembleForLabel.
  destruct (hasFlag BRANCH_ADDRESS opcode).
  - set (attr := DisMemory.getAttributeAt (memory d) (value opcode)).
    destruct (hasAttr attr MemAttribute.CODE); simpl.
    + destruct (hasAttr attr MemAttribute.CODE_FIRST); simpl.
      * intros [= <- <-]. simpl. split; [done|].
        split; exists []; by rewrite app_nil_r.
      * destruct (findStartOfOpcode _ _); [|done].
        intros [= <- <-]. simpl. split; [done|].
        split; [exists []; by rewrite app_nil_r | by eexists].
    + destruct (hasAttr attr MemAttribute.ASSIGNED); intros [= <- <-]; simpl;
        (split; [done|]); (split; [|exists []; by rewrite app_nil_r]).
      * by eexists.
      * exists []; by rewrite app_nil_r.
  - case_bool_decide; intros [= <- <-]; simpl; (split; [done|]);
      split; exists []; by rewrite app_nil_r.
Qed.

End Pass1Facts.

(** The loop of scenario 2 of the specification, [LD B,3; DJNZ -2], before
    pass 1 has decoded anything. *)
Definition scenario2 : Disassembler :=
  newDisassembler (Sample.setMemory Sample.emptyMemory 0 [0x06; 0x03; 0x10; 0xFE]).

Lemma disassembleForLabel_branch_witness :
  match disassembleForLabel (table := Sample.table) scenario2 2
          (Sample.table (memory scenario2) 2) with
  | Ok (d', ok) =>
      (∃ l', JsMap.get 2 (labels d') = Some l' ∧ type l' = CODE_LOCAL_LOOP)
      ∧ addressQueue d' = [2] ∧ ok = true
  | _ => False
  end.
Proof.
  pose proof (disassembleForLabel_branch (table := Sample.table) scenario2 2
                (Sample.table (memory scenario2) 2) eq_refl) as H.
  cbv zeta in H.
  destruct (disassembleForLabel scenario2 2 (Sample.table (memory scenario2) 2))
    as [[d' ok]|msg|].
  - destruct H as (_ & (l' & Hg & Ht) & Hq & _ & Hok).
    split; [exists l'; split; [exact Hg | rewrite Ht; reflexivity]|].
    split; [rewrite Hq; reflexivity | rewrite Hok; reflexivity].
  - destruct H as (Hc & _). vm_compute in Hc. discriminate Hc.
  - exact H.
Defined.

(** ** C3: what ends pass 1 *)

(** The state a round of the inner loop of [collectLabels] leaves. *)
Definition stepState (s : TraceStep) : Disassembler :=
  match s with
  | StepNext d _ => d
  | StepBreak d => d
  | StepReturn d => d
  end.

(** A message names [s] when [s] is a part of it. *)
Definition mentions (msg s : string) : Prop := ∃ pre post, msg = pre +:+ s +:+ post.

Lemma append_assoc (a b c : string) : (a +:+ b) +:+ c = a +:+ (b +:+ c).
Proof.
  induction a as [|x a IH]; [reflexivity|].
  change (String x ((a +:+ b) +:+ c) = String x (a +:+ (b +:+ c))).
  by rewrite IH.
Qed.

Lemma mentions_here (s post : string) : mentions (s +:+ post) s.
Proof. by exists "", post. Qed.

Lemma mentions_later (pre msg s : string) : mentions msg s → mentions (pre +:+ msg) s.
Proof.
  intros (p & q & ->). exists (pre +:+ p), q. by rewrite append_assoc.
Qed.

Lemma msgAmbiguous_mentions (opcode otherOpcode : Opcode) (address memAddress : Z) :
  let msg := msgAmbiguous opcode address memAddress otherOpcode in
  mentions msg (name opcode) ∧ mentions msg (toString16 address)
  ∧ mentions msg (name otherOpcode) ∧ mentions msg (toString16 memAddress).
Proof.
  cbv zeta. unfold msgAmbiguous.
  repeat split; repeat (first [apply mentions_here | apply mentions_later]).
Qed.

Lemma msgBranchIntoOpcode_mentions (opcode branchOpcode : Opcode)
    (opcodeAddress branchOpcodeAddress : Z) :
  let msg := msgBranchIntoOpcode opcode opcodeAddress branchOpcode branchOpcodeAddress in
  mentions msg (name opcode) ∧ mentions msg (toString16 opcodeAddress)
  ∧ mentions msg (name branchOpcode) ∧ mentions msg (toString16 branchOpcodeAddress).
Proof.
  cbv zeta. unfold msgBranchIntoOpcode.
  repeat split; repeat (first [apply mentions_here | apply mentions_later]).
Qed.

Section Pass1Steps.
Context {table : OpcodeTable}.

Lemma collectLabels_step_code (d : Disassembler) (address : Z) :
  hasAttr (DisMemory.getAttributeAt (memory d) address) MemAttribute.CODE = true →
  collectLabels_step d address = Ok (StepBreak d).
Proof. intros H. unfold collectLabels_step. by rewrite H. Qed.

Lemma collectLabels_step_unassigned (d : Disassembler) (address : Z) :
  hasAttr (DisMemory.getAttributeAt (memory d) address) MemAttribute.CODE = false →
  hasAttr (DisMemory.getAttributeAt (memory d) address) MemAttribute.ASSIGNED = false →
  collectLabels_step d address
  = Ok (StepBreak (emit "warning" (msgUnassigned address) d)).
Proof. intros H1 H2. unfold collectLabels_step. by rewrite H1, H2. Qed.

(** The instruction at [address] has a byte after its first that is code
    already; [i] is the offset of the first such byte. *)
Definition overlapsAt (d : Disassembler) (address i : Z) : Prop :=
  1 <= i < length (getOpcodeAt (memory d) address)
  ∧ hasAttr (DisMemory.getAttributeAt (memory d) (address + i)) MemAttribute.CODE = true
  ∧ ∀ k, 1 <= k < i →
      hasAttr (DisMemory.getAttributeAt (memory d) (address + k)) MemAttribute.CODE
      = false.

Definition overlapFree (d : Disassembler) (address : Z) : Prop :=
  ∀ i, 1 <= i < length (getOpcodeAt (memory d) address) →
    hasAttr (DisMemory.getAttributeAt (memory d) (address + i)) MemAttribute.CODE
    = false.

(** The instruction at [address] branches to a byte that is code, and no
    first byte of an opcode, once the instruction itself is marked. *)
Definition branchesIntoOpcode (d : Disassembler) (address : Z) : Prop :=
  let opcode := getOpcodeAt (memory d) address in
  let marked := markInstruction (memory d) address (length opcode) in
  hasFlag BRANCH_ADDRESS opcode = true
  ∧ hasAttr (DisMemory.getAttributeAt marked (value opcode)) MemAttribute.CODE = true
  ∧ hasAttr (DisMemory.getAttributeAt marked (value opcode)) MemAttribute.CODE_FIRST
    = false.

Lemma collectLabels_step_found (d : Disassembler) (address i : Z) :
  hasAttr (DisMemory.getAttributeAt (memory d) address) MemAttribute.CODE = false →
  hasAttr (DisMemory.getAttributeAt (memory d) address) MemAttribute.ASSIGNED = true →
  overlapsAt d address i →
  collectLabels_step d address
  = if hasAttr (DisMemory.getAttributeAt (memory d) (address + i))
         MemAttribute.CODE_FIRST
    then Ok (StepReturn
           (emit "warning"
              (msgAmbiguous (getOpcodeAt (memory d) address) address (address + i)
                 (getOpcodeAt (memory d) (address + i))) d))
    else AssertionError "Internal error: Expected CODE_FIRST".
Proof.
  intros H1 H2 (Hi & Hc & Hfirst). unfold collectLabels_step. rewrite H1, H2. simpl.
  assert (findPartlyDisassembled
            (Z.to_nat (length (getOpcodeAt (memory d) address) - 1)) (memory d) address
          = Some (address + i, DisMemory.getAttributeAt (memory d) (address + i)))
    as ->.
  { apply findPartlyDisassembled_Some. exists i. split; [lia|]. done. }
  done.
Qed.

Lemma collectLabels_step_overlap (d : Disassembler) (address i : Z) :
  codeRunsStartWithFirst (memory d) →
  hasAttr (DisMemory.getAttributeAt (memory d) address) MemAttribute.CODE = false →
  hasAttr (DisMemory.getAttributeAt (memory d) address) MemAttribute.ASSIGNED = true →
  overlapsAt d address i →
  collectLabels_step d address
  = Ok (StepReturn
          (emit "warning"
             (msgAmbiguous (getOpcodeAt (memory d) address) address (address + i)
                (getOpcodeAt (memory d) (address + i))) d)).
Proof.
  intros Hruns H1 H2 Hov. rewrite (collectLabels_step_found d address i) by done.
  destruct Hov as (Hi & Hc & Hfirst).
  assert (hasAttr (DisMemory.getAttributeAt (memory d) (address + i))
            MemAttribute.CODE_FIRST = true) as ->; [|done].
  replace (address + i) with (address + (i - 1) + 1) in Hc |- * by lia.
  apply Hruns; [done|].
  destruct (decide (i = 1)) as [->|Hne].
  - by rewrite Z.sub_diag, Z.add_0_r.
  - apply Hfirst. lia.
Qed.

Lemma collectLabels_step_decoded (d : Disassembler) (address : Z) :
  hasAttr (DisMemory.getAttributeAt (memory d) address) MemAttribute.CODE = false →
  hasAttr (DisMemory.getAttributeAt (memory d) address) MemAttribute.ASSIGNED = true →
  overlapFree d address →
  let opcode := getOpcodeAt (memory d) address in
  collectLabels_step d address
  = ('(d', ok) ← disassembleForLabel
        (with_memory (markInstruction (memory d) address (length opcode)) d)
        address opcode;
     if negb ok then Ok (StepReturn d')
     else if hasFlag STOP opcode then Ok (StepBreak d')
     else Ok (StepNext d' (address + length opcode))).
Proof.
  intros H1 H2 Hfree. cbv zeta. unfold collectLabels_step. rewrite H1, H2. simpl.
  assert (findPartlyDisassembled
            (Z.to_nat (length (getOpcodeAt (memory d) address) - 1)) (memory d) address
          = None) as ->; [|done].
  apply findPartlyDisassembled_None. intros i Hi. apply Hfree. lia.
Qed.

(** Either some byte after the first is code already, or none is. *)
Lemma overlap_cases (d : Disassembler) (address : Z) :
  (∃ i, overlapsAt d address i) ∨ overlapFree d address.
Proof.
  destruct (findPartlyDisassembled
              (Z.to_nat (length (getOpcodeAt (memory d) address) - 1)) (memory d) address)
    as [[j attr]|] eqn:E.
  - apply findPartlyDisassembled_Some in E as (i & Hi & -> & -> & Hc & Hfirst).
    left. exists i. split; [lia|]. done.
  - right. intros i Hi.
    apply (proj1 (findPartlyDisassembled_None _ _ _) E). lia.
Qed.

Lemma overlap_exclusive (d : Disassembler) (address i : Z) :
  overlapsAt d address i → overlapFree d address → False.
Proof. intros (Hi & Hc & _) Hfree. specialize (Hfree i Hi). congruence. Qed.

End Pass1Steps.

Section Pass1Theorem.
Context {table : OpcodeTable}.

(** The length of an instruction is at most four bytes (section 4.2 of
    the specification). *)
Hypothesis length_le_4 : ∀ m a, length (getOpcodeAt m a) <= 4.

(** What [disassembleForLabel] returns: [false] with the warning exactly
    for a branch into the middle of an opcode, [true] otherwise. *)
Lemma disassembleForLabel_result (d : Disassembler) (a : Z) (opcode : Opcode) :
  opcodeStartWithin4 (memory d) →
  let attr := DisMemory.getAttributeAt (memory d) (value opcode) in
  let into := hasFlag BRANCH_ADDRESS opcode
              && hasAttr attr MemAttribute.CODE
              && negb (hasAttr attr MemAttribute.CODE_FIRST) in
  if into then
    ∃ start, findStartOfOpcode (memory d) (value opcode) = Some start
      ∧ disassembleForLabel d a opcode
        = Ok (emit "warning"
                (msgBranchIntoOpcode opcode a (getOpcodeAt (memory d) start) start)
                (with_labels
                   (setFoundLabel (labels d) (value opcode) {[a]}
                      (branchLabelType a opcode attr) attr) d),
              false)
  else ∃ d', disassembleForLabel d a opcode = Ok (d', true).
Proof.
  intros Hnear. cbv zeta. unfold disassembleForLabel.
  destruct (hasFlag BRANCH_ADDRESS opcode); simpl.
  - set (attr := DisMemory.getAttributeAt (memory d) (value opcode)).
    destruct (hasAttr attr MemAttribute.CODE) eqn:Hc; simpl.
    + destruct (hasAttr attr MemAttribute.CODE_FIRST) eqn:Hf; simpl.
      * by eexists.
      * destruct (findStartOfOpcode_is_Some (memory d) (value opcode)) as [s Hs].
        { apply Hnear; done. }
        rewrite Hs. by exists s.
    + destruct (hasAttr attr MemAttribute.ASSIGNED); by eexists.
  - case_bool_decide; by eexists.
Qed.

(** One round of the inner loop: it ends normally, keeps the attributes
    consistent, only appends to the queue, and returns from
    [collectLabels] only for an overlap or a branch into an opcode. *)
Lemma collectLabels_step_cases (d : Disassembler) (address : Z) :
  attributesConsistent (memory d) →
  ∃ s, collectLabels_step d address = Ok s
    ∧ attributesConsistent (memory (stepState s))
    ∧ (∃ extra, addressQueue (stepState s) = addressQueue d ++ extra)
    ∧ (∀ d', s = StepReturn d' →
         hasAttr (DisMemory.getAttributeAt (memory d) address) MemAttribute.CODE = false
         ∧ hasAttr (DisMemory.getAttributeAt (memory d) address) MemAttribute.ASSIGNED
           = true
         ∧ ((∃ i, overlapsAt d address i)
            ∨ (overlapFree d address ∧ branchesIntoOpcode d address))).
Proof.
  intros Hcons.
  destruct (hasAttr (DisMemory.getAttributeAt (memory d) address) MemAttribute.CODE)
    eqn:Hc.
  { exists (StepBreak d). rewrite collectLabels_step_code by done.
    split; [done|]. split; [done|]. split; [exists []; by rewrite app_nil_r|]. done. }
  destruct (hasAttr (DisMemory.getAttributeAt (memory d) address) MemAttribute.ASSIGNED)
    eqn:Ha.
  2:{ eexists. rewrite collectLabels_step_unassigned by done.
      split; [done|]. split; [done|]. split; [exists []; by rewrite app_nil_r|]. done. }
  destruct (overlap_cases d address) as [[i Hov]|Hfree].
  { eexists. rewrite (collectLabels_step_overlap d address i) by (done || apply Hcons).
    split; [done|]. split; [done|]. split; [exists []; by rewrite app_nil_r|].
    intros d' _. split; [done|]. split; [done|]. left. by exists i. }
  rewrite collectLabels_step_decoded by done. cbv zeta.
  set (opcode := getOpcodeAt (memory d) address).
  set (marked := markInstruction (memory d) address (length opcode)).
  assert (attributesConsistent marked) as Hcons'.
  { apply attributesConsistent_markInstruction; [|done].
    specialize (length_le_4 (memory d) address). fold opcode in length_le_4. lia. }
  pose proof (disassembleForLabel_result (with_memory marked d) address opcode
                (proj2 Hcons')) as Hres.
  cbv zeta in Hres. simpl memory in Hres.
  destruct (hasFlag BRANCH_ADDRESS opcode
            && hasAttr (DisMemory.getAttributeAt marked (value opcode)) MemAttribute.CODE
            && negb (hasAttr (DisMemory.getAttributeAt marked (value opcode))
                       MemAttribute.CODE_FIRST)) eqn:Hinto.
  - destruct Hres as (start & Hstart & ->). simpl. eexists. split; [done|].
    split; [done|]. split; [exists []; by rewrite app_nil_r|].
    intros d' _. split; [done|]. split; [done|]. right. split; [done|].
    apply andb_true_iff in Hinto as [Hinto Hf].
    apply andb_true_iff in Hinto as [Hb Hcode].
    apply negb_true_iff in Hf. done.
  - destruct Hres as (d' & Hd').
    destruct (disassembleForLabel_frame _ _ _ _ _ Hd') as (Hmem & Hq & _).
    rewrite Hd'. simpl.
    destruct (hasFlag STOP opcode); eexists; (split; [done|]); simpl;
      rewrite Hmem; (split; [done|]); (split; [exact Hq | done]).
Qed.

(** The inner loop never fails an assertion, keeps the attributes
    consistent and only appends to the queue. *)
Lemma collectLabels_trace_cases (fuel : nat) (d : Disassembler) (address : Z) :
  attributesConsistent (memory d) →
  collectLabels_trace fuel d address = OutOfFuel
  ∨ ∃ d' goOn, collectLabels_trace fuel d address = Ok (d', goOn)
      ∧ attributesConsistent (memory d')
      ∧ ∃ extra, addressQueue d' = addressQueue d ++ extra.
Proof.
  revert d address. induction fuel as [|fuel IH]; intros d address Hcons; simpl.
  { by left. }
  destruct (collectLabels_step_cases d address Hcons) as (s & -> & Hs & [extra Hq] & _).
  simpl. destruct s as [d1 a1|d1|d1]; simpl in *.
  - destruct (IH d1 a1 Hs) as [->|(d' & goOn & -> & Hc' & [extra' Hq'])]; [by left|].
    right. exists d', goOn. split; [done|]. split; [done|].
    exists (extra ++ extra'). by rewrite Hq', Hq, app_assoc.
  - right. exists d1, true. split; [done|]. split; [done|]. by exists extra.
  - right. exists d1, false. split; [done|]. split; [done|]. by exists extra.
Qed.

Lemma collectLabels_never_fails_assertion (fuel : nat) (d : Disassembler) (msg : string) :
  attributesConsistent (memory d) →
  collectLabels fuel d ≠ AssertionError msg.
Proof.
  revert d. induction fuel as [|fuel IH]; intros d Hcons; simpl; [done|].
  destruct (addressQueue d) as [|address queue]; [done|].
  destruct (collectLabels_trace_cases fuel (with_addressQueue queue d) address Hcons)
    as [->|(d' & goOn & -> & Hc' & _)]; [done|].
  simpl. destruct goOn; [by apply IH | done].
Qed.

(** A return from inside the inner loop ends [collectLabels] at once; the
    addresses that were still queued stay in the queue. *)
Lemma collectLabels_aborts (fuel : nat) (d d' : Disassembler) (address : Z)
    (queue : list Z) :
  attributesConsistent (memory d) →
  collectLabels_trace fuel (with_addressQueue queue d) address = Ok (d', false) →
  collectLabels (S fuel) (with_addressQueue (address :: queue) d) = Ok (Aborted d')
  ∧ ∃ extra, addressQueue d' = queue ++ extra.
Proof.
  intros Hcons Htrace. simpl.
  replace (with_addressQueue queue (with_addressQueue (address :: queue) d))
    with (with_addressQueue queue d) by done.
  rewrite Htrace. simpl. split; [done|].
  destruct (collectLabels_trace_cases fuel (with_addressQueue queue d) address Hcons)
    as [E|(d1 & g & E & _ & Hq)]; [congruence|].
  rewrite Htrace in E. injection E as <- <-. exact Hq.
Qed.

(** A trace that ends otherwise hands over to the next queued address. *)
Lemma collectLabels_goes_on (fuel : nat) (d d' : Disassembler) (address : Z)
    (queue : list Z) :
  collectLabels_trace fuel (with_addressQueue queue d) address = Ok (d', true) →
  collectLabels (S fuel) (with_addressQueue (address :: queue) d)
  = collectLabels fuel d'.
Proof.
  intros Htrace. simpl.
  replace (with_addressQueue queue (with_addressQueue (address :: queue) d))
    with (with_addressQueue queue d) by done.
  by rewrite Htrace.
Qed.

End Pass1Theorem.

(** C3. In pass 1, with instructions of at most four bytes and consistent
    attributes (as they are before pass 1 and after each of its rounds):
    - at a byte that is neither code nor assigned, the round emits one
      warning and only ends the trace: [collectLabels] goes on with the
      next queued address;
    - if a byte after the first of the decoded instruction is code
      already, or the instruction branches to a byte that is code but not
      the first byte of an opcode, the round emits a warning that names
      both mnemonics and both addresses and returns from [collectLabels]:
      no queued address is processed any more, and everything found so far
      is still in the state;
    - a round returns from [collectLabels] in no other case, and no
      assertion of pass 1 ever fails. *)
Theorem collectLabels_fatal_only_when_ambiguous {table : OpcodeTable}
    (d : Disassembler) (address : Z) :
  (∀ m a, length (getOpcodeAt m a) <= 4) →
  attributesConsistent (memory d) →
  let attr := DisMemory.getAttributeAt (memory d) address in
  let opcode := getOpcodeAt (memory d) address in
  let marked := markInstruction (memory d) address (length opcode) in
  (hasAttr attr MemAttribute.CODE = false →
   hasAttr attr MemAttribute.ASSIGNED = false →
   collectLabels_step d address
   = Ok (StepBreak (emit "warning" (msgUnassigned address) d)))
  ∧ (hasAttr attr MemAttribute.CODE = false →
     hasAttr attr MemAttribute.ASSIGNED = true →
     ∀ i, overlapsAt d address i →
       let other := getOpcodeAt (memory d) (address + i) in
       let msg := msgAmbiguous opcode address (address + i) other in
       collectLabels_step d address = Ok (StepReturn (emit "warning" msg d))
       ∧ mentions msg (name opcode) ∧ mentions msg (toString16 address)
       ∧ mentions msg (name other) ∧ mentions msg (toString16 (address + i)))
  ∧ (hasAttr attr MemAttribute.CODE = false →
     hasAttr attr MemAttribute.ASSIGNED = true →
     overlapFree d address →
     branchesIntoOpcode d address →
     ∃ start d1,
       let other := getOpcodeAt marked start in
       let msg := msgBranchIntoOpcode opcode address other start in
       findStartOfOpcode marked (value opcode) = Some start
       ∧ collectLabels_step d address = Ok (StepReturn (emit "warning" msg d1))
       ∧ mentions msg (name opcode) ∧ mentions msg (toString16 address)
       ∧ mentions msg (name other) ∧ mentions msg (toString16 start)
       ∧ memory d1 = marked
       ∧ labels d1
         = setFoundLabel (labels d) (value opcode) {[address]}
             (branchLabelType address opcode
                (DisMemory.getAttributeAt marked (value opcode)))
             (DisMemory.getAttributeAt marked (value opcode))
       ∧ addressQueue d1 = addressQueue d)
  ∧ (∀ d', collectLabels_step d address = Ok (StepReturn d') →
       hasAttr attr MemAttribute.CODE = false
       ∧ hasAttr attr MemAttribute.ASSIGNED = true
       ∧ ((∃ i, overlapsAt d address i)
          ∨ (overlapFree d address ∧ branchesIntoOpcode d address)))
  ∧ (∀ msg, collectLabels_step d address ≠ AssertionError msg)
  ∧ (∀ fuel msg, collectLabels fuel d ≠ AssertionError msg)
  ∧ (∀ fuel queue d',
       collectLabels_trace fuel (with_addressQueue queue d) address = Ok (d', false) →
       collectLabels (S fuel) (with_addressQueue (address :: queue) d) = Ok (Aborted d')
       ∧ ∃ extra, addressQueue d' = queue ++ extra)
  ∧ (∀ fuel queue d',
       collectLabels_trace fuel (with_addressQueue queue d) address = Ok (d', true) →
       collectLabels (S fuel) (with_addressQueue (address :: queue) d)
       = collectLabels fuel d').
Proof.
  intros Hlen Hcons. cbv zeta.
  split; [intros; by apply collectLabels_step_unassigned|].
  split.
  { intros Hc Ha i Hov. split.
    - apply collectLabels_step_overlap; [apply Hcons | done..].
    - apply msgAmbiguous_mentions. }
  split.
  { intros Hc Ha Hfree Hinto.
    set (opcode := getOpcodeAt (memory d) address).
    set (marked := markInstruction (memory d) address (length opcode)).
    assert (attributesConsistent marked) as Hcons'.
    { apply attributesConsistent_markInstruction; [|done].
      specialize (Hlen (memory d) address). fold opcode in Hlen. lia. }
    pose proof (disassembleForLabel_result (with_memory marked d) address opcode
                  (proj2 Hcons')) as Hres.
    cbv zeta in Hres. simpl memory in Hres.
    destruct Hinto as (Hb & Hcode & Hfirst). fold opcode marked in Hb, Hcode, Hfirst.
    rewrite Hb, Hcode, Hfirst in Hres. simpl in Hres.
    destruct Hres as (start & Hstart & Hres).
    exists start. eexists. split; [done|].
    split.
    { rewrite collectLabels_step_decoded by done. cbv zeta. fold opcode marked.
      rewrite Hres. simpl. reflexivity. }
    split; [apply msgBranchIntoOpcode_mentions|].
    split; [apply msgBranchIntoOpcode_mentions|].
    split; [apply msgBranchIntoOpcode_mentions|].
    split; [apply msgBranchIntoOpcode_mentions|].
    done. }
  destruct (collectLabels_step_cases Hlen d address Hcons) as (s & Hs & _ & _ & Hret).
  split.
  { intros d' Hd'. rewrite Hs in Hd'. injection Hd' as Hd'. exact (Hret d' Hd'). }
  split; [intros msg; by rewrite Hs|].
  split; [intros fuel msg; by apply collectLabels_never_fails_assertion|].
  split.
  - intros fuel queue d' Htrace.
    exact (collectLabels_aborts Hlen fuel d d' address queue Hcons Htrace).
  - intros fuel queue d' Htrace.
    exact (collectLabels_goes_on fuel d d' address queue Htrace).
Qed.

(** The sample table has instructions of one to three bytes. *)
Lemma Sample_table_length (m : DisMemory.t) (a : Z) :
  @length (Sample.table m a) <= 4.
Proof.
  unfold Sample.table.
  repeat (match goal with |- context [if ?b then _ else _] => destruct b end);
    simpl; lia.
Qed.

(** Before pass 1 no byte is code. *)
Lemma attributesConsistent_no_code (m : DisMemory.t) :
  (∀ x, hasAttr (DisMemory.memoryAttr m x) MemAttribute.CODE = false) →
  attributesConsistent m.
Proof.
  intros Hno. split.
  - intros a Hc. unfold DisMemory.getAttributeAt in Hc. by rewrite Hno in Hc.
  - intros b Hc. unfold DisMemory.getAttributeAt in Hc. by rewrite Hno in Hc.
Qed.

Lemma Sample_setMemory_no_code (bytes : list Z) (m : DisMemory.t) (origin : Z) :
  (∀ x, hasAttr (DisMemory.memoryAttr m x) MemAttribute.CODE = false) →
  ∀ x, hasAttr (DisMemory.memoryAttr (Sample.setMemory m origin bytes) x)
         MemAttribute.CODE = false.
Proof.
  revert m origin. induction bytes as [|b bytes IH]; intros m origin Hno; simpl; [done|].
  apply IH. intros x. simpl. case_bool_decide; [|done].
  by rewrite hasAttr_lor_other.
Qed.

Lemma Sample_setMemory_consistent (bytes : list Z) (origin : Z) :
  attributesConsistent (Sample.setMemory Sample.emptyMemory origin bytes).
Proof. apply attributesConsistent_no_code, Sample_setMemory_no_code. done. Qed.

(** Scenario 5 of the specification, the bytes [3E 3E C9] at address 0,
    after the entry point 1 has been decoded ([LD A,0xC9] at 1 and 2). *)
Definition scenario5 : Disassembler :=
  let m := Sample.setMemory Sample.emptyMemory 0 [0x3E; 0x3E; 0xC9] in
  newDisassembler (markInstruction m 1 2).

Lemma collectLabels_fatal_only_when_ambiguous_witness :
  collectLabels_step (table := Sample.table) scenario5 0
  = Ok (StepReturn
          (emit "warning"
             (msgAmbiguous (Sample.table (memory scenario5) 0) 0 1
                (Sample.table (memory scenario5) 1)) scenario5))
  ∧ collectLabels (table := Sample.table) 3 (with_addressQueue [0; 2] scenario5)
    = Ok (Aborted
            (emit "warning"
               (msgAmbiguous (Sample.table (memory scenario5) 0) 0 1
                  (Sample.table (memory scenario5) 1))
               (with_addressQueue [2] scenario5))).
Proof.
  assert (attributesConsistent (memory scenario5)) as Hcons.
  { apply attributesConsistent_markInstruction; [lia|].
    apply Sample_setMemory_consistent. }
  destruct (collectLabels_fatal_only_when_ambiguous (table := Sample.table)
              scenario5 0 Sample_table_length Hcons) as (_ & Hoverlap & _).
  split.
  - apply (Hoverlap eq_refl eq_refl 1).
    split; [vm_compute; split; [discriminate | reflexivity]|].
    split; [reflexivity|]. intros k Hk. lia.
  - vm_compute. reflexivity.
Defined.

(** ** C5: labels that point into an opcode *)

Lemma NumberType_max_ge_l (x y z : NumberType) :
  NumberType_ltb x z = false → NumberType_ltb (NumberType_max x y) z = false.
Proof.
  unfold NumberType_max, NumberType_ltb.
  destruct (NumberType_value x <? NumberType_value y) eqn:E; [|done].
  rewrite !Z.ltb_ge. apply Z.ltb_lt in E. lia.
Qed.

Lemma NumberType_max_ge_r (x y : NumberType) :
  NumberType_ltb (NumberType_max x y) y = false.
Proof.
  unfold NumberType_max, NumberType_ltb.
  destruct (NumberType_value x <? NumberType_value y) eqn:E.
  - apply Z.ltb_irrefl.
  - done.
Qed.

Lemma NumberType_ltb_irrefl (x : NumberType) : NumberType_ltb x x = false.
Proof. apply Z.ltb_irrefl. Qed.

(** The label of [address] has been moved: it is gone, the offset to the
    first byte [first] of the opcode is recorded, and the label at [first]
    has at least the type and the referrers (but [first] itself) of the
    label [l0] that was moved. *)
Definition movedTo (d : Disassembler) (address first : Z) (l0 : DisLabel) : Prop :=
  JsMap.get address (labels d) = None
  ∧ offsetLabels d !! address = Some (first - address)
  ∧ ∃ anchor, JsMap.get first (labels d) = Some anchor
      ∧ NumberType_ltb (type anchor) (type l0) = false
      ∧ references l0 ∖ {[first]} ⊆ references anchor.

Section Pass5Facts.
Variable m : DisMemory.t.
Hypothesis start_near : opcodeStartWithin4 m.

Definition inOpcode (a : Z) : Prop :=
  hasAttr (DisMemory.getAttributeAt m a) MemAttribute.CODE = true
  ∧ hasAttr (DisMemory.getAttributeAt m a) MemAttribute.CODE_FIRST = false.

Lemma inOpcode_start (a : Z) :
  inOpcode a →
  ∃ first, findStartOfOpcode m a = Some first
    ∧ hasAttr (DisMemory.getAttributeAt m first) MemAttribute.CODE_FIRST = true.
Proof.
  intros [Hc Hf].
  destruct (findStartOfOpcode_is_Some m a (start_near a Hc Hf)) as [first Hs].
  exists first. split; [done|].
  apply findStartOfOpcode_Some in Hs as (k & _ & _ & H & _). done.
Qed.

Lemma not_start (a first : Z) :
  inOpcode a →
  hasAttr (DisMemory.getAttributeAt m first) MemAttribute.CODE_FIRST = true →
  a ≠ first.
Proof. intros [_ Hf] Hs ->. congruence. Qed.

(** The step of the second loop for a label that is still there. *)
Lemma adjust_step_Some (d : Disassembler) (a : Z) (l : DisLabel) :
  memory d = m → inOpcode a → JsMap.get a (labels d) = Some l →
  ∃ first d',
    findStartOfOpcode m a = Some first
    ∧ hasAttr (DisMemory.getAttributeAt m first) MemAttribute.CODE_FIRST = true
    ∧ adjustSelfModifyingLabels_step d a = Ok d'
    ∧ memory d' = m
    ∧ JsMap.get a (labels d') = None
    ∧ JsMap.get first (labels d')
      = Some (foundLabel (JsMap.get first (labels d)) first (references l) (type l)
                (DisMemory.getAttributeAt m first))
    ∧ (∀ k, k ≠ a → k ≠ first → JsMap.get k (labels d') = JsMap.get k (labels d))
    ∧ offsetLabels d' !! a = Some (first - a)
    ∧ (∀ k, k ≠ a → offsetLabels d' !! k = offsetLabels d !! k).
Proof.
  intros Hm Hin Hget.
  destruct (inOpcode_start a Hin) as (first & Hs & Hf).
  pose proof (not_start a first Hin Hf) as Hne.
  exists first. eexists. split; [done|]. split; [done|].
  unfold adjustSelfModifyingLabels_step. rewrite Hget, Hm, Hs.
  split; [reflexivity|]. simpl.
  split; [done|].
  split; [apply JsMapFacts.get_delete_eq|].
  split.
  { rewrite JsMapFacts.get_delete_ne by done. apply setFoundLabel_get_eq. }
  split.
  { intros k Hk1 Hk2. rewrite JsMapFacts.get_delete_ne by done.
    by apply setFoundLabel_get_ne. }
  split; [apply lookup_insert_eq|].
  intros k Hk. by apply lookup_insert_ne.
Qed.

Lemma adjust_step_None (d : Disassembler) (a : Z) :
  JsMap.get a (labels d) = None → adjustSelfModifyingLabels_step d a = Ok d.
Proof. intros H. unfold adjustSelfModifyingLabels_step. by rewrite H. Qed.

(** A moved label stays moved by the step for another address. *)
Lemma adjust_step_keeps (d d' : Disassembler) (a1 a first : Z) (l0 : DisLabel) :
  memory d = m → inOpcode a1 → inOpcode a →
  hasAttr (DisMemory.getAttributeAt m first) MemAttribute.CODE_FIRST = true →
  adjustSelfModifyingLabels_step d a1 = Ok d' →
  movedTo d a first l0 → movedTo d' a first l0.
Proof.
  intros Hm Hin1 Hin Hfirst Hstep (Hgone & Hoffs & anchor & Hanchor & Htype & Hrefs).
  destruct (JsMap.get a1 (labels d)) as [l1|] eqn:Hget1.
  2:{ rewrite adjust_step_None in Hstep by done. injection Hstep as <-.
      split; [done|]. split; [done|]. by exists anchor. }
  destruct (adjust_step_Some d a1 l1 Hm Hin1 Hget1)
    as (f1 & d1 & Hs1 & Hf1 & Hstep1 & _ & Hdel & Hat & Hother & _ & Hoffs').
  rewrite Hstep1 in Hstep. injection Hstep as <-.
  assert (a ≠ a1) by congruence.
  pose proof (not_start a f1 Hin Hf1).
  pose proof (not_start a1 first Hin1 Hfirst).
  split; [by rewrite Hother|]. split; [by rewrite Hoffs'|].
  destruct (decide (first = f1)) as [->|Hne].
  - rewrite Hat, Hanchor. eexists. split; [done|]. simpl.
    split; [by apply NumberType_max_ge_l | set_solver].
  - exists anchor. rewrite Hother by done. done.
Qed.

(** The second loop over the addresses [rest]: it ends normally; a label
    moved before stays moved, and every label of [rest] that is still
    there gets moved. *)
Lemma adjust_loop (rest : list Z) (d : Disassembler) :
  memory d = m → Forall inOpcode rest →
  ∃ d', foldM adjustSelfModifyingLabels_step d rest = Ok d'
    ∧ memory d' = m
    ∧ (∀ a first l0, inOpcode a →
         hasAttr (DisMemory.getAttributeAt m first) MemAttribute.CODE_FIRST = true →
         movedTo d a first l0 → movedTo d' a first l0)
    ∧ (∀ a l0, a ∈ rest → JsMap.get a (labels d) = Some l0 →
         ∃ first, findStartOfOpcode m a = Some first ∧ movedTo d' a first l0).
Proof.
  revert d. induction rest as [|a1 rest IH]; intros d Hm Hall; simpl.
  { exists d. split; [done|]. split; [done|]. split; [done|].
    intros a l0 Ha. by apply elem_of_nil in Ha. }
  apply Forall_cons in Hall as [Hin1 Hall].
  destruct (JsMap.get a1 (labels d)) as [l1|] eqn:Hget1.
  - destruct (adjust_step_Some d a1 l1 Hm Hin1 Hget1)
      as (f1 & d1 & Hs1 & Hf1 & Hstep1 & Hm1 & Hdel & Hat & Hother & Hoffs1 & Hoffs').
    rewrite Hstep1. simpl.
    destruct (IH d1 Hm1 Hall) as (d' & Hfold & Hm' & Hkeep & Hmove).
    exists d'. split; [done|]. split; [done|]. split.
    + intros a first l0 Hin Hfirst Hmoved. apply Hkeep; [done..|].
      by apply (adjust_step_keeps d d1 a1 a first l0).
    + intros a l0 Ha Hget.
      assert (movedTo d1 a1 f1 l1) as Hmoved1.
      { split; [done|]. split; [done|]. rewrite Hat. eexists. split; [done|].
        destruct (JsMap.get f1 (labels d)); simpl.
        - split; [apply NumberType_max_ge_r | set_solver].
        - split; [apply NumberType_ltb_irrefl | set_solver]. }
      destruct (decide (a = a1)) as [->|Hne].
      * assert (l0 = l1) as -> by congruence.
        exists f1. split; [done|]. by apply Hkeep.
      * apply elem_of_cons in Ha as [->|Ha]; [done|].
        assert (inOpcode a) as Hin by (by eapply Forall_forall in Hall).
        apply Hmove; [done|]. rewrite Hother; [done..|].
        by apply not_start.
  - rewrite adjust_step_None by done. simpl.
    destruct (IH d Hm Hall) as (d' & Hfold & Hm' & Hkeep & Hmove).
    exists d'. split; [done|]. split; [done|]. split; [done|].
    intros a l0 Ha Hget. apply elem_of_cons in Ha as [->|Ha]; [congruence|].
    by apply Hmove.
Qed.

End Pass5Facts.

(** The rendering of an address whose label was moved [k] bytes back. *)
Lemma convertToLabel_offset (d : Disassembler) (address k : Z) (anchor : DisLabel) :
  0 < k →
  JsMap.get address (labels d) = None →
  offsetLabels d !! address = Some (address - k - address) →
  JsMap.get (address - k) (labels d) = Some anchor →
  convertToLabel d address = Some (nameString anchor +:+ "+" +:+ toString10 k).
Proof.
  intros Hk Hgone Hoffs Hanchor. unfold convertToLabel.
  rewrite Hgone, Hoffs.
  rewrite bool_decide_eq_true_2 by lia.
  replace (address + (address - k - address)) with (address - k) by lia.
  rewrite Hanchor.
  rewrite bool_decide_eq_false_2 by lia.
  replace (- (address - k - address)) with k by lia. reflexivity.
Qed.

(** C5. With consistent attributes pass 5 ends normally, and for every
    [DATA_LBL] whose address is code but not the first byte of an opcode:
    the nearest first byte of an opcode before it is at most four bytes
    away; the label at that byte has at least the type [DATA_LBL] and the
    referrers of the moved label (as [setFoundLabel] adds them, that is
    without the byte's own address); no label is left at the address;
    [offsetLabels] at the address is the negative distance; and the address
    is rendered as the name of the label at the first byte followed by [+]
    and the distance, also after the labels have been given other names. *)
Theorem adjustSelfModifyingLabels_moves (d : Disassembler) :
  opcodeStartWithin4 (memory d) →
  ∃ d', adjustSelfModifyingLabels d = Ok d'
    ∧ memory d' = memory d
    ∧ ∀ address label,
        JsMap.get address (labels d) = Some label →
        type label = DATA_LBL →
        hasAttr (DisMemory.getAttributeAt (memory d) address) MemAttribute.CODE = true →
        hasAttr (DisMemory.getAttributeAt (memory d) address) MemAttribute.CODE_FIRST
        = false →
        ∃ k first anchor,
          1 <= k <= 4 ∧ first = address - k
          ∧ hasAttr (DisMemory.getAttributeAt (memory d) first) MemAttribute.CODE_FIRST
            = true
          ∧ (∀ j, 1 <= j < k →
               hasAttr (DisMemory.getAttributeAt (memory d) (address - j))
                 MemAttribute.CODE_FIRST = false)
          ∧ JsMap.get address (labels d') = None
          ∧ JsMap.get first (labels d') = Some anchor
          ∧ NumberType_ltb (type anchor) DATA_LBL = false
          ∧ references label ∖ {[first]} ⊆ references anchor
          ∧ offsetLabels d' !! address = Some (first - address)
          ∧ first - address < 0
          ∧ convertToLabel d' address
            = Some (nameString anchor +:+ "+" +:+ toString10 k)
          ∧ ∀ d'' anchor'',
              offsetLabels d'' = offsetLabels d' →
              JsMap.get address (labels d'') = None →
              JsMap.get first (labels d'') = Some anchor'' →
              convertToLabel d'' address
              = Some (nameString anchor'' +:+ "+" +:+ toString10 k).
Proof.
  intros Hnear. unfold adjustSelfModifyingLabels.
  set (changeMap := filter _ (labels d)).
  assert (Forall (inOpcode (memory d)) (JsMap.keys changeMap)) as Hall.
  { apply Forall_forall. intros a Ha. unfold JsMap.keys in Ha.
    apply list_elem_of_fmap in Ha as ([a' l] & -> & Hin).
    apply list_elem_of_filter in Hin as [Hp _]. simpl.
    unfold pointsIntoOpcode in Hp.
    apply andb_true_iff in Hp as [_ Hp]. apply andb_true_iff in Hp as [Hc Hf].
    apply negb_true_iff in Hf. done. }
  destruct (adjust_loop (memory d) Hnear (JsMap.keys changeMap) d eq_refl Hall)
    as (d' & Hfold & Hm & _ & Hmove).
  exists d'. split; [done|]. split; [done|].
  intros address label Hget Htype Hc Hf.
  assert (address ∈ JsMap.keys changeMap) as Hin.
  { unfold JsMap.keys. apply list_elem_of_fmap. exists (address, label).
    split; [done|]. apply list_elem_of_filter. split.
    - unfold pointsIntoOpcode. rewrite Htype, Hc, Hf.
      by rewrite bool_decide_eq_true_2.
    - by apply JsMapFacts.get_Some_elem. }
  destruct (Hmove address label Hin Hget)
    as (first & Hstart & Hgone & Hoffs & anchor & Hanchor & Hty & Hrefs).
  apply findStartOfOpcode_Some in Hstart as (k & Hk & -> & Hfirst & Hnearest).
  exists k, (address - k), anchor.
  split; [done|]. split; [done|]. split; [done|]. split; [done|].
  split; [done|]. split; [done|].
  split; [by rewrite <- Htype|]. split; [done|]. split; [done|].
  split; [lia|].
  split; [apply convertToLabel_offset; (done || lia)|].
  intros d'' anchor'' Ho Hg Ha. apply convertToLabel_offset; [lia | done | | done].
  by rewrite Ho.
Qed.

(** Scenario 4 of the specification after pass 1: [LD A,0] at 0x1000,
    [LD A,(0x1001)] at 0x1002, [RET] at 0x1005, and the data label that
    pass 1 has found at 0x1001 with the referrer 0x1002. *)
Definition scenario4 : Disassembler :=
  let m := Sample.setMemory Sample.emptyMemory 0x1000
             [0x3E; 0x00; 0x3A; 0x01; 0x10; 0xC9] in
  let m := markInstruction m 0x1000 2 in
  let m := markInstruction m 0x1002 3 in
  let m := markInstruction m 0x1005 1 in
  with_labels
    [(0x1001, {| type := DATA_LBL; labelName := None; references := {[0x1002]};
                 calls := []; isEqu := false; isFixed := false;
                 belongsToInterrupt := false |})]
    (newDisassembler m).

Lemma adjustSelfModifyingLabels_moves_witness :
  ∃ d' anchor,
    adjustSelfModifyingLabels scenario4 = Ok d'
    ∧ JsMap.get 0x1001 (labels d') = None
    ∧ JsMap.get 0x1000 (labels d') = Some anchor
    ∧ 0x1002 ∈ references anchor
    ∧ offsetLabels d' !! 0x1001 = Some (-1)
    ∧ convertToLabel d' 0x1001 = Some (nameString anchor +:+ "+1").
Proof.
  assert (opcodeStartWithin4 (memory scenario4)) as Hnear.
  { apply attributesConsistent_markInstruction; [lia|].
    apply attributesConsistent_markInstruction; [lia|].
    apply attributesConsistent_markInstruction; [lia|].
    apply Sample_setMemory_consistent. }
  destruct (adjustSelfModifyingLabels_moves scenario4 Hnear) as (d' & Hrun & _ & Hall).
  destruct (Hall 0x1001 _ eq_refl eq_refl eq_refl eq_refl)
    as (k & first & anchor & Hk & -> & Hf & Hnearest & Hgone & Hanchor & _ & Hrefs
        & Hoffs & _ & Hconv & _).
  assert (k = 1) as ->.
  { destruct (decide (k = 1)) as [|Hne]; [done|].
    specialize (Hnearest 1 ltac:(lia)). vm_compute in Hnearest. discriminate. }
  exists d', anchor. split; [exact Hrun|]. split; [exact Hgone|].
  split; [exact Hanchor|]. split; [|split; [exact Hoffs | exact Hconv]].
  apply Hrefs. set_solver.
Defined.

(** After the names have been assigned, the label at 0x1000 being the only
    self-modifying one, the address 0x1001 is rendered as [SELF_MOD1+1]. *)
Example convertToLabel_scenario4 :
  let named := {| type := DATA_LBL; labelName := Some "SELF_MOD1";
                  references := {[0x1002]}; calls := []; isEqu := false;
                  isFixed := false; belongsToInterrupt := false |} in
  match adjustSelfModifyingLabels scenario4 with
  | Ok d' =>
      convertToLabel (with_labels (JsMap.set 0x1000 named (labels d')) d') 0x1001
      = Some "SELF_MOD1+1"
      ∧ offsetLabels d' !! 0x1001 = Some (-1)
      ∧ JsMap.keys (labels d') = [0x1000]
  | _ => False
  end.
Proof. vm_compute. repeat split; reflexivity. Qed.

(** ** C6: local labels *)

Lemma existsb_elements (p : Z → bool) (refs : gset Z) :
  existsb p (elements refs) = true ↔ ∃ r, r ∈ refs ∧ p r = true.
Proof.
  rewrite existsb_exists. split; intros (r & Hr & Hp); exists r; (split; [|done]).
  - by apply elem_of_elements, list_elem_of_In.
  - by apply list_elem_of_In, elem_of_elements.
Qed.

(** No referrer lies outside the array. *)
Lemma outsideFound_false (addrsArray : list Z) (refs : gset Z) :
  existsb (λ ref, negb (bool_decide (ref ∈ addrsArray))) (elements refs) = false
  ↔ ∀ r, r ∈ refs → r ∈ addrsArray.
Proof.
  rewrite <- not_true_iff_false, existsb_elements. split.
  - intros Hno r Hr. destruct (decide (r ∈ addrsArray)) as [|Hout]; [done|].
    exfalso. apply Hno. exists r. split; [done|].
    by rewrite bool_decide_eq_false_2.
  - intros Hall (r & Hr & Hout). apply negb_true_iff, bool_decide_eq_false in Hout.
    by apply Hout, Hall.
Qed.

(** Some referrer is at most 128 bytes after the label. *)
Lemma nearReferrer_true (addr : Z) (refs : gset Z) :
  existsb (λ ref, let diff := ref - addr in
                  bool_decide (diff >= 0) && bool_decide (diff <= 128))
          (elements refs) = true
  ↔ ∃ r, r ∈ refs ∧ 0 <= r - addr <= 128.
Proof.
  rewrite existsb_elements. split; intros (r & Hr & H); exists r; (split; [done|]).
  - cbv zeta in H. apply andb_true_iff in H as [H1 H2].
    apply bool_decide_eq_true in H1, H2. lia.
  - cbv zeta. apply andb_true_iff. split; apply bool_decide_eq_true; lia.
Qed.

(** What the loop body makes of the label [l] stored under an address of
    the array other than the start address. *)
Definition localizedLabel (addrsArray : list Z) (addr : Z) (l : DisLabel) : DisLabel :=
  if bool_decide (type l ≠ CODE_LBL) && bool_decide (type l ≠ CODE_SUB) then l
  else if isFixed l then l
  else
    let refs := elements (references l) in
    if negb (existsb (λ ref, negb (bool_decide (ref ∈ addrsArray))) refs) then
      set_type
        (if existsb (λ ref, let diff := ref - addr in
                            bool_decide (diff >= 0) && bool_decide (diff <= 128)) refs
         then CODE_LOCAL_LOOP else CODE_LOCAL_LBL) l
    else l.

Lemma localizedLabel_cases (addrsArray : list Z) (addr : Z) (l : DisLabel) :
  localizedLabel addrsArray addr l = l
  ∨ localizedLabel addrsArray addr l = set_type CODE_LOCAL_LOOP l
  ∨ localizedLabel addrsArray addr l = set_type CODE_LOCAL_LBL l.
Proof.
  unfold localizedLabel. cbv zeta.
  destruct (bool_decide (type l ≠ CODE_LBL) && bool_decide (type l ≠ CODE_SUB));
    [by left|].
  destruct (isFixed l); [by left|].
  destruct (negb (existsb _ (elements (references l)))); [|by left].
  destruct (existsb _ (elements (references l))); [right; by left | right; by right].
Qed.

Lemma localizedLabel_local (addrsArray : list Z) (addr : Z) (l : DisLabel) :
  type l = CODE_LOCAL_LOOP ∨ type l = CODE_LOCAL_LBL →
  localizedLabel addrsArray addr l = l.
Proof. intros [H|H]; unfold localizedLabel; by rewrite H. Qed.

Lemma localizedLabel_idemp (addrsArray : list Z) (addr : Z) (l : DisLabel) :
  localizedLabel addrsArray addr (localizedLabel addrsArray addr l)
  = localizedLabel addrsArray addr l.
Proof.
  destruct (localizedLabel_cases addrsArray addr l) as [E|[E|E]]; rewrite E.
  - exact E.
  - apply localizedLabel_local. by left.
  - apply localizedLabel_local. by right.
Qed.

Lemma localizeLabel_get (address : Z) (addrsArray : list Z)
    (labels : JsMap.t DisLabel) (addr k : Z) :
  JsMap.get k (localizeLabel address addrsArray labels addr)
  = if bool_decide (k = addr ∧ addr ≠ address)
    then localizedLabel addrsArray addr <$> JsMap.get k labels
    else JsMap.get k labels.
Proof.
  unfold localizeLabel.
  destruct (decide (addr = address)) as [->|Hne].
  { rewrite bool_decide_eq_true_2 by done.
    rewrite bool_decide_eq_false_2; [done | tauto]. }
  rewrite (bool_decide_eq_false_2 (addr = address)) by done.
  destruct (decide (k = addr)) as [->|Hk].
  - rewrite bool_decide_eq_true_2 by done.
    destruct (JsMap.get addr labels) as [l|] eqn:Hget; simpl; [|by rewrite Hget].
    unfold localizedLabel. cbv zeta.
    destruct (bool_decide (type l ≠ CODE_LBL) && bool_decide (type l ≠ CODE_SUB));
      [done|].
    destruct (isFixed l); [done|].
    destruct (negb (existsb _ (elements (references l)))); [|done].
    apply JsMapFacts.get_set_eq.
  - rewrite bool_decide_eq_false_2 by tauto.
    destruct (JsMap.get addr labels) as [l|]; [|done].
    destruct (bool_decide (type l ≠ CODE_LBL) && bool_decide (type l ≠ CODE_SUB));
      [done|].
    destruct (isFixed l); [done|].
    destruct (negb (existsb _ (elements (references l)))); [|done].
    by apply JsMapFacts.get_set_ne.
Qed.

(** The loop over the addresses [xs], checked against [addrsArray]. *)
Lemma localize_loop_get (address : Z) (addrsArray xs : list Z)
    (labels : JsMap.t DisLabel) (k : Z) :
  JsMap.get k (foldl (localizeLabel address addrsArray) labels xs)
  = if bool_decide (k ∈ xs ∧ k ≠ address)
    then localizedLabel addrsArray k <$> JsMap.get k labels
    else JsMap.get k labels.
Proof.
  revert labels. induction xs as [|x xs IH]; intros labels.
  { rewrite bool_decide_eq_false_2; [done|]. intros [H _]. by apply elem_of_nil in H. }
  change (foldl (localizeLabel address addrsArray) labels (x :: xs))
    with (foldl (localizeLabel address addrsArray)
            (localizeLabel address addrsArray labels x) xs).
  rewrite IH, localizeLabel_get.
  destruct (decide (k = x ∧ x ≠ address)) as [[-> Hne]|Hx].
  - rewrite (bool_decide_eq_true_2 (x = x ∧ _)) by done.
    rewrite (bool_decide_eq_true_2 (x ∈ x :: xs ∧ _)) by (split; [left | done]).
    case_bool_decide; [|done].
    destruct (JsMap.get x labels) as [l|]; simpl; [|done].
    by rewrite localizedLabel_idemp.
  - rewrite (bool_decide_eq_false_2 (k = x ∧ _)) by done.
    rewrite (bool_decide_ext (k ∈ x :: xs ∧ k ≠ address) (k ∈ xs ∧ k ≠ address));
      [done|].
    rewrite elem_of_cons. split; [|tauto].
    intros [[->|H] Hne]; [tauto | done].
Qed.

(** What the loop over [addrsArray] makes of the label [l] stored under
    [addr]. *)
Lemma localizedLabel_spec (addrsArray : list Z) (addr : Z) (l : DisLabel) :
  let eligible := (type l = CODE_LBL ∨ type l = CODE_SUB) ∧ isFixed l = false in
  let inside := ∀ r, r ∈ references l → r ∈ addrsArray in
  let near := ∃ r, r ∈ references l ∧ 0 <= r - addr <= 128 in
  (eligible → inside → near →
   localizedLabel addrsArray addr l = set_type CODE_LOCAL_LOOP l)
  ∧ (eligible → inside → ¬ near →
     localizedLabel addrsArray addr l = set_type CODE_LOCAL_LBL l)
  ∧ (¬ (eligible ∧ inside) → localizedLabel addrsArray addr l = l).
Proof.
  cbv zeta. unfold localizedLabel. cbv zeta.
  destruct (bool_decide (type l ≠ CODE_LBL) && bool_decide (type l ≠ CODE_SUB)) eqn:E1.
  { apply andb_true_iff in E1 as [H1 H2]. apply bool_decide_eq_true in H1, H2.
    split; [tauto|]. split; [tauto | done]. }
  assert (type l = CODE_LBL ∨ type l = CODE_SUB) as Htype.
  { apply andb_false_iff in E1 as [H|H]; apply bool_decide_eq_false in H;
      apply dec_stable in H; tauto. }
  destruct (isFixed l) eqn:E2.
  { split; [intros [_ ?]; done|]. split; [intros [_ ?]; done | done]. }
  destruct (existsb _ (elements (references l))) eqn:E3; simpl.
  { assert (¬ ∀ r, r ∈ references l → r ∈ addrsArray) as Hout.
    { intros Hin. apply outsideFound_false in Hin. congruence. }
    split; [tauto|]. split; [tauto | done]. }
  pose proof (proj1 (outsideFound_false _ _) E3) as Hinside.
  match goal with |- context [existsb ?f ?refs] => destruct (existsb f refs) eqn:E4 end.
  - pose proof (proj1 (nearReferrer_true addr (references l)) E4) as Hnear.
    split; [done|]. split; [tauto | tauto].
  - assert (¬ ∃ r, r ∈ references l ∧ 0 <= r - addr <= 128) as Hfar.
    { intros Hn. pose proof (proj2 (nearReferrer_true addr (references l)) Hn) as Hn'.
      cbv zeta in Hn'. congruence. }
    split; [tauto|]. split; [done | tauto].
Qed.

(** C6. For a top-level code label at [address] whose reachable set is
    [addrsArray], the round of pass 8 for this label changes exactly the
    labels that are stored under an address of the set other than
    [address], have the type [CODE_LBL] or [CODE_SUB], are not fixed and
    have all their referrers in the set: such a label becomes a
    [CODE_LOCAL_LOOP] if a referrer is 0 to 128 bytes after it, and a
    [CODE_LOCAL_LBL] otherwise. All other labels, among them those with a
    referrer outside the set and the fixed ones, stay as they are, and no
    label is added or removed. *)
Theorem findLocalLabels_body_demotes {table : OpcodeTable} (fuel : nat)
    (m : DisMemory.t) (labels : JsMap.t DisLabel) (address : Z) (label : DisLabel)
    (addrsArray : list Z) :
  JsMap.get address labels = Some label →
  isSubOrRstOrLbl (type label) = true →
  getSubroutineAddresses fuel m address [] = Ok addrsArray →
  ∃ labels',
    findLocalLabels_body fuel m labels address = Ok labels'
    ∧ ∀ addr,
        match JsMap.get addr labels with
        | None => JsMap.get addr labels' = None
        | Some l =>
            let candidate :=
              addr ∈ addrsArray ∧ addr ≠ address
              ∧ (type l = CODE_LBL ∨ type l = CODE_SUB) ∧ isFixed l = false in
            let inside := ∀ r, r ∈ references l → r ∈ addrsArray in
            let near := ∃ r, r ∈ references l ∧ 0 <= r - addr <= 128 in
            (candidate → inside → near →
             JsMap.get addr labels' = Some (set_type CODE_LOCAL_LOOP l))
            ∧ (candidate → inside → ¬ near →
               JsMap.get addr labels' = Some (set_type CODE_LOCAL_LBL l))
            ∧ (¬ (candidate ∧ inside) → JsMap.get addr labels' = Some l)
        end.
Proof.
  intros Hget Htop Hreach. unfold findLocalLabels_body.
  rewrite Hget, Htop, Hreach. simpl. eexists. split; [reflexivity|].
  intros addr. rewrite localize_loop_get.
  destruct (JsMap.get addr labels) as [l|] eqn:Hl; [|by case_bool_decide].
  cbv zeta.
  destruct (localizedLabel_spec addrsArray addr l) as (Hloop & Hlbl & Hsame).
  case_bool_decide as Hin; simpl.
  - split; [intros (_ & _ & He) Hi Hn; f_equal; by apply Hloop|].
    split; [intros (_ & _ & He) Hi Hn; f_equal; by apply Hlbl|].
    intros Hnot. f_equal. apply Hsame. tauto.
  - split; [tauto|]. split; [tauto | done].
Qed.

(** A subroutine with a loop: [LD B,3] at 0, [NOP] at 2, [JP NZ,2] at 3,
    [RET] at 6. The jump target 2 has the referrer 3; the label at 6 has
    the referrer 7, which lies outside the subroutine. *)
Definition plainLabel (t : NumberType) (refs : gset Z) : DisLabel :=
  {| type := t; labelName := None; references := refs; calls := [];
     isEqu := false; isFixed := false; belongsToInterrupt := false |}.

Definition loopSubroutine : JsMap.t DisLabel :=
  [(0, plainLabel CODE_SUB ∅); (2, plainLabel CODE_LBL {[3]});
   (6, plainLabel CODE_LBL {[7]})].

Definition loopSubroutineMemory : DisMemory.t :=
  Sample.setMemory Sample.emptyMemory 0 [0x06; 0x03; 0x00; 0xC2; 0x02; 0x00; 0xC9].

Lemma findLocalLabels_body_demotes_witness :
  ∃ labels',
    findLocalLabels_body (table := Sample.table) 10 loopSubroutineMemory
      loopSubroutine 0 = Ok labels'
    ∧ JsMap.get 0 labels' = Some (plainLabel CODE_SUB ∅)
    ∧ JsMap.get 2 labels' = Some (plainLabel CODE_LOCAL_LOOP {[3]})
    ∧ JsMap.get 6 labels' = Some (plainLabel CODE_LBL {[7]}).
Proof.
  assert (getSubroutineAddresses (table := Sample.table) 10 loopSubroutineMemory 0 []
          = Ok [0; 2; 3; 6]) as Hreach by (vm_compute; reflexivity).
  pose proof (findLocalLabels_body_demotes (table := Sample.table) 10
              loopSubroutineMemory loopSubroutine 0 (plainLabel CODE_SUB ∅)
              [0; 2; 3; 6] eq_refl eq_refl Hreach) as HH.
  destruct HH as (labels' & Hrun & Hall).
  exists labels'. split; [exact Hrun|].
  pose proof (Hall 0) as H0. pose proof (Hall 2) as H2. pose proof (Hall 6) as H6.
  change (JsMap.get 0 loopSubroutine) with (Some (plainLabel CODE_SUB ∅)) in H0.
  change (JsMap.get 2 loopSubroutine) with (Some (plainLabel CODE_LBL {[3]})) in H2.
  change (JsMap.get 6 loopSubroutine) with (Some (plainLabel CODE_LBL {[7]})) in H6.
  cbv zeta in H0, H2, H6.
  destruct H0 as (_ & _ & H0). destruct H2 as (H2 & _ & _).
  destruct H6 as (_ & _ & H6).
  split; [|split].
  - apply H0. intros [(_ & Hne & _) _]. exact (Hne eq_refl).
  - apply H2.
    + split; [apply list_elem_of_In; simpl; tauto|]. split; [lia|].
      split; [left; reflexivity | reflexivity].
    + intros r Hr. change (r ∈ ({[3]} : gset Z)) in Hr.
      apply elem_of_singleton in Hr as ->.
      apply list_elem_of_In; simpl; tauto.
    + exists 3. split; [change (3 ∈ ({[3]} : gset Z)); by apply elem_of_singleton | lia].
  - apply H6. intros [_ Hin]. specialize (Hin 7).
    assert (7 ∈ [0; 2; 3; 6]) as H7 by (apply Hin; change (7 ∈ ({[7]} : gset Z)); by apply elem_of_singleton).
    apply list_elem_of_In in H7. simpl in H7. lia.
Defined.

(** ** C8: the cyclomatic complexity *)

(** The sum of [f] over the addresses of a list. *)
Fixpoint sumOver (f : Z → Z) (l : list Z) : Z :=
  match l with
  | [] => 0
  | x :: l' => f x + sumOver f l'
  end.

Lemma sumOver_app (f : Z → Z) (l1 l2 : list Z) :
  sumOver f (l1 ++ l2) = sumOver f l1 + sumOver f l2.
Proof. induction l1 as [|x l1 IH]; simpl; [done | rewrite IH; lia]. Qed.

(** The number of addresses of a list that satisfy [p]. *)
Definition countIf (p : Z → bool) (l : list Z) : Z :=
  sumOver (λ x, if p x then 1 else 0) l.

Lemma countIf_nonneg (p : Z → bool) (l : list Z) : 0 <= countIf p l.
Proof.
  unfold countIf. induction l as [|x l IH]; simpl; [done|]. destruct (p x); lia.
Qed.

Lemma sumOver_split (f g h : Z → Z) (l : list Z) :
  (∀ x, f x = g x + h x) → sumOver f l = sumOver g l + sumOver h l.
Proof. intros H. induction l as [|x l IH]; simpl; [done | rewrite IH, H; lia]. Qed.

Section Pass10Facts.
Context {table : OpcodeTable}.
Variable m : DisMemory.t.
Variable labels : JsMap.t DisLabel.

(** A conditional branch: an instruction with a branch address whose
    mnemonic contains a comma. *)
Definition conditionalBranch (a : Z) : bool :=
  hasFlag BRANCH_ADDRESS (getOpcodeAt m a) && containsComma (name (getOpcodeAt m a)).

(** A conditional return: an instruction whose mnemonic starts with
    ["RET "]. *)
Definition conditionalReturn (a : Z) : bool :=
  String.prefix "RET " (name (getOpcodeAt m a)).

(** What the walk adds: the addresses it visits are appended to the
    array, and the three statistics grow by the lengths, the number and
    the complexities of the instructions at these addresses. *)
Lemma countAddressStatistic_loop_adds (fuel : nat) (a : Z) (addresses : list Z)
    (s s' : SubroutineStatistics) (addresses' : list Z) :
  countAddressStatistic_loop fuel m labels a addresses s = Ok (s', addresses') →
  ∃ new, addresses' = addresses ++ new
    ∧ sizeInBytes s' = sizeInBytes s + sumOver (λ x, length (getOpcodeAt m x)) new
    ∧ countOfInstructions s' = countOfInstructions s + Z.of_nat (List.length new)
    ∧ CyclomaticComplexity s'
      = CyclomaticComplexity s + sumOver (λ x, complexityOf (getOpcodeAt m x)) new.
Proof.
  revert a addresses s s' addresses'.
  induction fuel as [|fuel IH]; intros a addresses s s' addresses'; simpl; [done|].
  destruct (hasAttr (DisMemory.getAttributeAt m a) MemAttribute.ASSIGNED); simpl.
  2:{ intros [= <- <-]. exists []. rewrite app_nil_r. simpl.
    repeat split; lia || done. }
  case_bool_decide as Hvisited.
  { intros [= <- <-]. exists []. rewrite app_nil_r. simpl.
    repeat split; lia || done. }
  set (opcode := getOpcodeAt m a).
  set (s1 := {| sizeInBytes := sizeInBytes s + length opcode;
                countOfInstructions := countOfInstructions s + 1;
                CyclomaticComplexity := CyclomaticComplexity s + complexityOf opcode |}).
  assert (∀ (s2 : SubroutineStatistics) (addresses2 new2 : list Z),
            addresses2 = (addresses ++ [a]) ++ new2 →
            sizeInBytes s2
            = sizeInBytes s1 + sumOver (λ x, length (getOpcodeAt m x)) new2 →
            countOfInstructions s2
            = countOfInstructions s1 + Z.of_nat (List.length new2) →
            CyclomaticComplexity s2
            = CyclomaticComplexity s1
              + sumOver (λ x, complexityOf (getOpcodeAt m x)) new2 →
            (let address := a + length opcode in
             let enteringSub :=
               match JsMap.get address labels with
               | Some nextLabel =>
                   bool_decide (type nextLabel = CODE_SUB)
                   || bool_decide (type nextLabel = CODE_RST)
               | None => false
               end in
             if enteringSub then Ok (s2, addresses2)
             else if hasFlag STOP opcode then Ok (s2, addresses2)
             else countAddressStatistic_loop fuel m labels address addresses2 s2)
            = Ok (s', addresses') →
            ∃ new, addresses' = addresses ++ new
              ∧ sizeInBytes s'
                = sizeInBytes s + sumOver (λ x, length (getOpcodeAt m x)) new
              ∧ countOfInstructions s'
                = countOfInstructions s + Z.of_nat (List.length new)
              ∧ CyclomaticComplexity s'
                = CyclomaticComplexity s
                  + sumOver (λ x, complexityOf (getOpcodeAt m x)) new) as Hrest.
  { intros s2 addresses2 new2 -> Hsize Hcount Hcc. cbv zeta.
    assert (∃ new, (addresses ++ [a]) ++ new2 = addresses ++ new
              ∧ sizeInBytes s2
                = sizeInBytes s + sumOver (λ x, length (getOpcodeAt m x)) new
              ∧ countOfInstructions s2
                = countOfInstructions s + Z.of_nat (List.length new)
              ∧ CyclomaticComplexity s2
                = CyclomaticComplexity s
                  + sumOver (λ x, complexityOf (getOpcodeAt m x)) new) as Hhere.
    { exists (a :: new2). rewrite <- app_assoc. split; [done|].
      rewrite Hsize, Hcount, Hcc. subst s1. simpl. fold opcode.
      rewrite Nat2Z.inj_succ. lia. }
    destruct (match JsMap.get (a + length opcode) labels with
              | Some nextLabel => _ | None => false end).
    { intros [= <- <-]. exact Hhere. }
    destruct (hasFlag STOP opcode).
    { intros [= <- <-]. exact Hhere. }
    intros Hloop. apply IH in Hloop as (new3 & -> & Hs3 & Hc3 & Hcc3).
    destruct Hhere as (new & Hn & Hs & Hc & Hcc').
    exists (new ++ new3). rewrite app_assoc, <- Hn. split; [done|].
    rewrite Hs3, Hc3, Hcc3, Hs, Hc, Hcc', !sumOver_app, length_app, Nat2Z.inj_add.
    lia. }
  destruct (hasFlag BRANCH_ADDRESS opcode && negb (hasFlag CALL opcode)); simpl.
  2:{ apply (Hrest s1 (addresses ++ [a]) []); [by rewrite app_nil_r | simpl; lia..]. }
  destruct (negb match JsMap.get (value opcode) labels with
                 | Some branchLabel => _ | None => false end); simpl.
  2:{ apply (Hrest s1 (addresses ++ [a]) []); [by rewrite app_nil_r | simpl; lia..]. }
  destruct (countAddressStatistic_loop fuel m labels (value opcode) (addresses ++ [a])
              (mkStats 0 0 0)) as [[addStat addresses2]| |] eqn:Hbranch; simpl;
    [|done..].
  apply IH in Hbranch as (new2 & -> & Hs2 & Hc2 & Hcc2). simpl in Hs2, Hc2, Hcc2.
  apply (Hrest _ _ new2); [done | simpl; lia..].
Qed.

End Pass10Facts.

Section Pass10Termination.
Context {table : OpcodeTable}.
Variable m : DisMemory.t.
Variable labels : JsMap.t DisLabel.

(** The walks do not leave the set [U] of addresses: the instruction after
    one at an address of [U], and the target of a branch there, is in [U]
    again or not assigned. *)
Definition walkClosed (U : gset Z) : Prop :=
  ∀ a, a ∈ U →
    let opcode := getOpcodeAt m a in
    (a + length opcode ∈ U
     ∨ hasAttr (DisMemory.getAttributeAt m (a + length opcode)) MemAttribute.ASSIGNED
       = false)
    ∧ (hasFlag BRANCH_ADDRESS opcode = true →
       value opcode ∈ U
       ∨ hasAttr (DisMemory.getAttributeAt m (value opcode)) MemAttribute.ASSIGNED
         = false).

Lemma unvisited_less (U : gset Z) (addresses : list Z) (a : Z) :
  a ∈ U → a ∉ addresses →
  (size (U ∖ list_to_set (addresses ++ [a])) < size (U ∖ list_to_set addresses))%nat.
Proof.
  intros Ha Hnew. apply subset_size. rewrite list_to_set_app_L.
  assert (a ∉ (list_to_set addresses : gset Z)) by (by rewrite elem_of_list_to_set).
  set_solver.
Qed.

Lemma unvisited_mono (U : gset Z) (addresses new : list Z) :
  (size (U ∖ list_to_set (addresses ++ new)) ≤ size (U ∖ list_to_set addresses))%nat.
Proof. apply subseteq_size. rewrite list_to_set_app_L. set_solver. Qed.

(** With more fuel than [U] has unvisited addresses the walk returns. *)
Lemma countAddressStatistic_loop_returns (U : gset Z) (fuel : nat) (a : Z)
    (addresses : list Z) (s : SubroutineStatistics) :
  walkClosed U →
  a ∈ U ∨ hasAttr (DisMemory.getAttributeAt m a) MemAttribute.ASSIGNED = false →
  (size (U ∖ list_to_set addresses) < fuel)%nat →
  ∃ s' addresses', countAddressStatistic_loop fuel m labels a addresses s
                   = Ok (s', addresses').
Proof.
  intros Hclosed. revert a addresses s.
  induction fuel as [|fuel IH]; intros a addresses s Ha Hfuel; [lia|]. simpl.
  destruct (hasAttr (DisMemory.getAttributeAt m a) MemAttribute.ASSIGNED) eqn:Hassigned;
    simpl; [|by eexists _, _].
  destruct Ha as [Ha|Ha]; [|done].
  case_bool_decide as Hvisited; [by eexists _, _|].
  pose proof (unvisited_less U addresses a Ha Hvisited) as Hless.
  destruct (Hclosed a Ha) as [Hnext Htarget].
  set (opcode := getOpcodeAt m a) in *.
  assert (∀ (s2 : SubroutineStatistics) (addresses2 new2 : list Z),
            addresses2 = (addresses ++ [a]) ++ new2 →
            ∃ s' addresses',
              (let address := a + length opcode in
               let enteringSub :=
                 match JsMap.get address labels with
                 | Some nextLabel =>
                     bool_decide (type nextLabel = CODE_SUB)
                     || bool_decide (type nextLabel = CODE_RST)
                 | None => false
                 end in
               if enteringSub then Ok (s2, addresses2)
               else if hasFlag STOP opcode then Ok (s2, addresses2)
               else countAddressStatistic_loop fuel m labels address addresses2 s2)
              = Ok (s', addresses')) as Hrest.
  { intros s2 addresses2 new2 ->. cbv zeta.
    destruct (match JsMap.get (a + length opcode) labels with
              | Some nextLabel => _ | None => false end); [by eexists _, _|].
    destruct (hasFlag STOP opcode); [by eexists _, _|].
    apply IH; [done|].
    pose proof (unvisited_mono U (addresses ++ [a]) new2). lia. }
  destruct (hasFlag BRANCH_ADDRESS opcode) eqn:Hbranch; simpl.
  2:{ apply (Hrest _ _ []). by rewrite app_nil_r. }
  destruct (negb (hasFlag CALL opcode)); simpl.
  2:{ apply (Hrest _ _ []). by rewrite app_nil_r. }
  destruct (negb match JsMap.get (value opcode) labels with
                 | Some branchLabel => _ | None => false end); simpl.
  2:{ apply (Hrest _ _ []). by rewrite app_nil_r. }
  destruct (IH (value opcode) (addresses ++ [a]) (mkStats 0 0 0) (Htarget eq_refl)
              ltac:(lia)) as (addStat & addresses2 & Hcall).
  rewrite Hcall. simpl.
  apply countAddressStatistic_loop_adds in Hcall as (new2 & -> & _).
  by apply (Hrest _ _ new2).
Qed.

End Pass10Termination.

(** The statistics [countStatistics] stores for a walk result. *)
Definition addDefault (s : SubroutineStatistics) : SubroutineStatistics :=
  {| sizeInBytes := sizeInBytes s;
     countOfInstructions := countOfInstructions s;
     CyclomaticComplexity := CyclomaticComplexity s + 1 |}.

(** The labels [countStatistics] counts. *)
Definition counted (l : DisLabel) : Prop :=
  isEqu l = false ∧ isSubOrRstOrLbl (type l) = true.

Section Pass10Statistics.
Context {table : OpcodeTable}.

(** The mnemonics of the table are in upper case where it matters here,
    and no instruction with a branch address is a return. *)
Hypothesis mnemonic_case : ∀ m a,
  String.prefix "RET " (toUpperCase (name (getOpcodeAt m a)))
  = String.prefix "RET " (name (getOpcodeAt m a)).
Hypothesis branch_is_no_return : ∀ m a,
  hasFlag BRANCH_ADDRESS (getOpcodeAt m a) = true →
  String.prefix "RET " (name (getOpcodeAt m a)) = false.

Lemma complexityOf_split (m : DisMemory.t) (a : Z) :
  complexityOf (getOpcodeAt m a)
  = (if conditionalBranch m a then 1 else 0) + (if conditionalReturn m a then 1 else 0).
Proof.
  unfold complexityOf, conditionalBranch, conditionalReturn.
  rewrite mnemonic_case.
  destruct (hasFlag BRANCH_ADDRESS (getOpcodeAt m a)) eqn:Hb; simpl.
  - rewrite branch_is_no_return by done. destruct (containsComma _); reflexivity.
  - destruct (String.prefix _ _); reflexivity.
Qed.

Lemma walk_complexity (fuel : nat) (d : Disassembler) (a : Z)
    (s0 : SubroutineStatistics) (reachable : list Z) :
  countAddressStatistic fuel d a [] = Ok (s0, reachable) →
  CyclomaticComplexity (addDefault s0)
  = 1 + countIf (conditionalBranch (memory d)) reachable
    + countIf (conditionalReturn (memory d)) reachable.
Proof.
  intros Hwalk. unfold countAddressStatistic in Hwalk.
  apply countAddressStatistic_loop_adds in Hwalk as (new & -> & _ & _ & Hcc).
  simpl in *. rewrite Hcc. unfold countIf.
  rewrite (sumOver_split _
             (λ x, if conditionalBranch (memory d) x then 1 else 0)
             (λ x, if conditionalReturn (memory d) x then 1 else 0)).
  - lia.
  - intros x. apply complexityOf_split.
Qed.

(** The loop of [countStatistics] over [entries], started in a state [d]
    that has the memory and the labels of [d0]. *)
Lemma countStatistics_loop (fuel : nat) (d0 : Disassembler)
    (entries : list (Z * DisLabel)) (d : Disassembler) :
  memory d = memory d0 → labels d = labels d0 →
  (∀ a l, (a, l) ∈ entries → counted l →
     ∃ s0 reachable, countAddressStatistic fuel d0 a [] = Ok (s0, reachable)) →
  ∃ d', foldM (countStatistics_body fuel) d entries = Ok d'
    ∧ (∀ a s0 reachable,
         countAddressStatistic fuel d0 a [] = Ok (s0, reachable) →
         subroutineStatistics d !! a = Some (addDefault s0) →
         subroutineStatistics d' !! a = Some (addDefault s0))
    ∧ (∀ a l s0 reachable,
         (a, l) ∈ entries → counted l →
         countAddressStatistic fuel d0 a [] = Ok (s0, reachable) →
         subroutineStatistics d' !! a = Some (addDefault s0)).
Proof.
  revert d. induction entries as [|[a1 l1] entries IH]; intros d Hm Hl Hwalks; simpl.
  { exists d. split; [done|]. split; [done|].
    intros a l s0 r Hin. by apply elem_of_nil in Hin. }
  assert (∀ a l, (a, l) ∈ entries → counted l →
            ∃ s0 reachable, countAddressStatistic fuel d0 a [] = Ok (s0, reachable))
    as Hwalks'.
  { intros a l Hin. apply Hwalks. by right. }
  assert (∀ d1, memory d1 = memory d0 → labels d1 = labels d0 →
            (∀ a s0 reachable,
               countAddressStatistic fuel d0 a [] = Ok (s0, reachable) →
               subroutineStatistics d !! a = Some (addDefault s0) →
               subroutineStatistics d1 !! a = Some (addDefault s0)) →
            (counted l1 → ∀ s0 reachable,
               countAddressStatistic fuel d0 a1 [] = Ok (s0, reachable) →
               subroutineStatistics d1 !! a1 = Some (addDefault s0)) →
            ∃ d', foldM (countStatistics_body fuel) d1 entries = Ok d'
              ∧ (∀ a s0 reachable,
                   countAddressStatistic fuel d0 a [] = Ok (s0, reachable) →
                   subroutineStatistics d !! a = Some (addDefault s0) →
                   subroutineStatistics d' !! a = Some (addDefault s0))
              ∧ (∀ a l s0 reachable,
                   (a, l) ∈ (a1, l1) :: entries → counted l →
                   countAddressStatistic fuel d0 a [] = Ok (s0, reachable) →
                   subroutineStatistics d' !! a = Some (addDefault s0))) as Hgo.
  { intros d1 Hm1 Hl1 Hkeep1 Hhere.
    destruct (IH d1 Hm1 Hl1 Hwalks') as (d' & Hfold & Hkeep & Hnew).
    exists d'. split; [done|]. split.
    - intros a s0 r Hw Hs. eapply Hkeep; [done|]. by eapply Hkeep1.
    - intros a l s0 r Hin Hc Hw. apply elem_of_cons in Hin as [[= -> ->]|Hin].
      + eapply Hkeep; [done|]. by eapply Hhere.
      + by eapply Hnew. }
  destruct (isEqu l1) eqn:Hequ.
  { simpl. apply Hgo; [done..|]. intros [? _]. congruence. }
  destruct (isSubOrRstOrLbl (type l1)) eqn:Htop.
  2:{ simpl. apply Hgo; [done..|]. intros [_ ?]. congruence. }
  destruct (Hwalks a1 l1 ltac:(left) ltac:(done)) as (s1 & r1 & Hw1).
  assert (countAddressStatistic fuel d a1 [] = Ok (s1, r1)) as Hw1'.
  { unfold countAddressStatistic in *. by rewrite Hm, Hl. }
  rewrite Hw1'. simpl. apply Hgo; [done | done | |].
  - intros a s0 r Hw Hs. simpl.
    destruct (decide (a = a1)) as [->|Hne].
    + rewrite Hw1 in Hw. injection Hw as <- <-. apply lookup_insert_eq.
    + by rewrite lookup_insert_ne.
  - intros _ s0 r Hw. rewrite Hw1 in Hw. injection Hw as <- <-. simpl.
    apply lookup_insert_eq.
Qed.

End Pass10Statistics.

(** C8. Let the mnemonics of the table be in upper case where ["RET "] is
    looked for and let no instruction with a branch address be a return,
    let the walks of pass 10 stay inside a finite set [U] of addresses and
    let the fuel exceed the size of [U]. Then [countStatistics] ends
    normally, and for every label that is no EQU and has the type
    [CODE_SUB], [CODE_RST] or [CODE_LBL] the cyclomatic complexity it
    stores is 1 plus the number of conditional branches plus the number of
    conditional returns among the instructions the walk from the label
    reaches; so it is at least 1. *)
Theorem countStatistics_complexity {table : OpcodeTable} (fuel : nat)
    (d : Disassembler) (U : gset Z) :
  (∀ m a, String.prefix "RET " (toUpperCase (name (getOpcodeAt m a)))
          = String.prefix "RET " (name (getOpcodeAt m a))) →
  (∀ m a, hasFlag BRANCH_ADDRESS (getOpcodeAt m a) = true →
          String.prefix "RET " (name (getOpcodeAt m a)) = false) →
  walkClosed (memory d) U →
  (∀ a l, (a, l) ∈ labels d →
     a ∈ U
     ∨ hasAttr (DisMemory.getAttributeAt (memory d) a) MemAttribute.ASSIGNED = false) →
  (size U < fuel)%nat →
  ∃ d', countStatistics fuel d = Ok d'
    ∧ ∀ a l, (a, l) ∈ labels d → isEqu l = false →
        isSubOrRstOrLbl (type l) = true →
        ∃ stats s0 reachable,
          countAddressStatistic fuel d a [] = Ok (s0, reachable)
          ∧ subroutineStatistics d' !! a = Some stats
          ∧ stats = addDefault s0
          ∧ CyclomaticComplexity stats
            = 1 + countIf (conditionalBranch (memory d)) reachable
              + countIf (conditionalReturn (memory d)) reachable
          ∧ 1 <= CyclomaticComplexity stats.
Proof.
  intros Hcase Hnoret Hclosed Hstart Hfuel.
  assert (∀ a l, (a, l) ∈ labels d →
            ∃ s0 reachable, countAddressStatistic fuel d a [] = Ok (s0, reachable))
    as Hwalks.
  { intros a l Hin. unfold countAddressStatistic.
    apply (countAddressStatistic_loop_returns (memory d) (labels d) U);
      [done | by eapply Hstart|].
    assert (U ∖ list_to_set [] = U) as -> by set_solver. done. }
  destruct (countStatistics_loop fuel d (labels d) d eq_refl eq_refl)
    as (d' & Hrun & _ & Hstats).
  { intros a l Hin _. by eapply Hwalks. }
  exists d'. split; [exact Hrun|].
  intros a l Hin Hequ Htop.
  destruct (Hwalks a l Hin) as (s0 & reachable & Hwalk).
  exists (addDefault s0), s0, reachable.
  split; [done|]. split; [by eapply (Hstats a l)|]. split; [done|].
  pose proof (walk_complexity Hcase Hnoret fuel d a s0 reachable Hwalk) as Hcc.
  split; [exact Hcc|]. rewrite Hcc.
  pose proof (countIf_nonneg (conditionalBranch (memory d)) reachable).
  pose proof (countIf_nonneg (conditionalReturn (memory d)) reachable).
  lia.
Qed.

Lemma Sample_table_case (m : DisMemory.t) (a : Z) :
  String.prefix "RET " (toUpperCase (name (Sample.table m a)))
  = String.prefix "RET " (name (Sample.table m a)).
Proof.
  unfold Sample.table.
  repeat (match goal with |- context [if ?b then _ else _] => destruct b end);
    reflexivity.
Qed.

Lemma Sample_table_no_return (m : DisMemory.t) (a : Z) :
  hasFlag BRANCH_ADDRESS (Sample.table m a) = true →
  String.prefix "RET " (name (Sample.table m a)) = false.
Proof.
  unfold Sample.table.
  repeat (match goal with |- context [if ?b then _ else _] => destruct b end);
    (reflexivity || discriminate).
Qed.

(** A subroutine with a conditional jump and a conditional return:
    [LD B,3] at 0, [NOP] at 2, [JP NZ,2] at 3, [RET NZ] at 6, [RET] at 7. *)
Definition twoConditions : Disassembler :=
  with_labels [(0, plainLabel CODE_SUB ∅)]
    (newDisassembler
       (Sample.setMemory Sample.emptyMemory 0
          [0x06; 0x03; 0x00; 0xC2; 0x02; 0x00; 0xC0; 0xC9])).

Lemma twoConditions_closed :
  walkClosed (table := Sample.table) (memory twoConditions) {[0; 2; 3; 6; 7]}.
Proof.
  intros a Ha.
  assert (a = 0 ∨ a = 2 ∨ a = 3 ∨ a = 6 ∨ a = 7) as Hcases.
  { clear -Ha. set_solver. }
  destruct Hcases as [->|[->|[->|[->| ->]]]]; cbv zeta.
  - split; [left; vm_compute; set_solver | discriminate].
  - split; [left; vm_compute; set_solver | discriminate].
  - split; [left; vm_compute; set_solver | intros _; left; vm_compute; set_solver].
  - split; [left; vm_compute; set_solver | discriminate].
  - split; [right; vm_compute; reflexivity | discriminate].
Qed.

Lemma countStatistics_complexity_witness :
  ∃ d' stats,
    countStatistics (table := Sample.table) 6 twoConditions = Ok d'
    ∧ subroutineStatistics d' !! 0 = Some stats
    ∧ CyclomaticComplexity stats = 3.
Proof.
  destruct (countStatistics_complexity (table := Sample.table) 6 twoConditions
              {[0; 2; 3; 6; 7]} Sample_table_case Sample_table_no_return
              twoConditions_closed) as (d' & Hrun & Hall).
  { intros a l Hin. apply list_elem_of_singleton in Hin as [= -> ->].
    left. clear. set_solver. }
  { vm_compute. lia. }
  destruct (Hall 0 (plainLabel CODE_SUB ∅)) as (stats & s0 & reachable & Hwalk & Hs & _ & Hcc & _).
  { apply list_elem_of_singleton. reflexivity. }
  { reflexivity. }
  { reflexivity. }
  exists d', stats. split; [exact Hrun|]. split; [exact Hs|].
  rewrite Hcc.
  assert (countAddressStatistic (table := Sample.table) 6 twoConditions 0 []
          = Ok (mkStats 8 5 2, [0; 2; 3; 6; 7])) as Hwalk'
    by (vm_compute; reflexivity).
  rewrite Hwalk' in Hwalk. injection Hwalk as <- <-.
  vm_compute. reflexivity.
Defined.

(** ** C7: the addresses of a trace file *)

Lemma prefix_char (c b : ascii) (s : string) :
  String.prefix (String c "") (String b s) = bool_decide (c = b).
Proof.
  simpl. destruct (Ascii.ascii_dec c b) as [->|Hne].
  - rewrite bool_decide_eq_true_2 by done. by destruct s.
  - by rewrite bool_decide_eq_false_2.
Qed.

(** [indexOf] of one character finds its first occurrence from [k] on. *)
Lemma index_char_Some (c : ascii) (s : string) (k m : nat) :
  String.index k (String c "") s = Some m →
  (k ≤ m)%nat ∧ String.get m s = Some c
  ∧ ∀ p, (k ≤ p < m)%nat → String.get p s ≠ Some c.
Proof.
  revert k m. induction s as [|b s IH]; intros k m.
  - destruct k; discriminate.
  - destruct k as [|k].
    + change (String.index 0 (String c "") (String b s))
        with (if String.prefix (String c "") (String b s) then Some 0%nat
              else match String.index 0 (String c "") s with
                   | Some n => Some (S n)
                   | None => None
                   end).
      rewrite prefix_char. case_bool_decide as Hc.
      * intros [= <-]. subst b. split; [lia|]. split; [done|]. intros p Hp. lia.
      * destruct (String.index 0 (String c "") s) as [n|] eqn:E; [|discriminate].
        intros [= <-]. destruct (IH 0%nat n E) as (_ & Hget & Hfirst).
        split; [lia|]. split; [done|].
        intros [|p] Hp; simpl; [congruence|]. apply Hfirst. lia.
    + change (String.index (S k) (String c "") (String b s))
        with (match String.index k (String c "") s with
              | Some n => Some (S n)
              | None => None
              end).
      destruct (String.index k (String c "") s) as [n|] eqn:E; [|discriminate].
      intros [= <-]. destruct (IH k n E) as (Hle & Hget & Hfirst).
      split; [lia|]. split; [done|].
      intros [|p] Hp; [lia|]. simpl. apply Hfirst. lia.
Qed.

Lemma index_char_None (c : ascii) (s : string) (k : nat) :
  String.index k (String c "") s = None →
  ∀ p, (k ≤ p)%nat → String.get p s ≠ Some c.
Proof.
  revert k. induction s as [|b s IH]; intros k.
  - intros _ p _. by destruct p.
  - destruct k as [|k].
    + change (String.index 0 (String c "") (String b s))
        with (if String.prefix (String c "") (String b s) then Some 0%nat
              else match String.index 0 (String c "") s with
                   | Some n => Some (S n)
                   | None => None
                   end).
      rewrite prefix_char. case_bool_decide as Hc; [discriminate|].
      destruct (String.index 0 (String c "") s) as [n|] eqn:E; [discriminate|].
      intros _ [|p] Hp; simpl; [congruence|]. apply (IH 0%nat E). lia.
    + change (String.index (S k) (String c "") (String b s))
        with (match String.index k (String c "") s with
              | Some n => Some (S n)
              | None => None
              end).
      destruct (String.index k (String c "") s) as [n|] eqn:E; [discriminate|].
      intros _ [|p] Hp; [lia|]. simpl. apply (IH k E). lia.
Qed.

Lemma get_Some_lt (s : string) (n : nat) (c : ascii) :
  String.get n s = Some c → (n < String.length s)%nat.
Proof.
  revert n. induction s as [|b s IH]; intros n; simpl.
  - by destruct n.
  - destruct n as [|n]; [lia|]. intros H. apply IH in H. lia.
Qed.

(** A position [k] starts a line: it is the start of the text or follows a
    line feed. *)
Definition lineStart (trace : string) (k : nat) : Prop :=
  k = 0%nat ∨ ∃ j, k = S j ∧ String.get j trace = Some LF.

(** The five characters from [k] on hold no line feed: they belong to the
    line that starts at [k]. *)
Definition withinLine (trace : string) (k : nat) : Prop :=
  ∀ j, (j < 5)%nat → String.get (k + j) trace ≠ Some LF.

(** The five characters from [k] on are five, the fifth is a colon, and
    [parseInt] reads them as [a]. *)
Definition fieldAddress (trace : string) (k : nat) (a : Z) : Prop :=
  isAddressField (String.substring k 5 trace) = true
  ∧ parseInt16 (String.substring k 5 trace) = Some a.

(** No five characters that start a line and end in a colon run across a
    line feed. *)
Definition fieldsWithinLines (trace : string) : Prop :=
  ∀ k, lineStart trace k →
    isAddressField (String.substring k 5 trace) = true → withinLine trace k.

Lemma scanTrace_step (trace : string) (k : nat) (buffer : gset Z) :
  scanTrace trace k buffer
  = match String.index (positionAfterField trace k) (String LF "") trace with
    | Some idx => scanTrace trace (S idx) (bufferAfterField trace k buffer)
    | None => bufferAfterField trace k buffer
    end.
Proof.
  rewrite scanTrace_equation_1.
  destruct (inspect (String.index (positionAfterField trace k) (String LF "") trace))
    as [[idx|] Heq]; simpl; by rewrite Heq.
Qed.

Lemma bufferAfterField_elem (trace : string) (k : nat) (buffer : gset Z) (a : Z) :
  a ∈ bufferAfterField trace k buffer ↔ a ∈ buffer ∨ fieldAddress trace k a.
Proof.
  unfold bufferAfterField, fieldAddress. cbv zeta.
  destruct (isAddressField (String.substring k 5 trace)).
  - destruct (parseInt16 (String.substring k 5 trace)) as [b|]; simpl.
    + rewrite elem_of_union, elem_of_singleton. split.
      * intros [->|H]; [right; done | by left].
      * intros [H|[_ [= ->]]]; [by right | by left].
    + split; [by left | intros [H|[_ H]]; done].
  - split; [by left | intros [H|[H _]]; done].
Qed.

(** Between a line start and the position where the search for the next
    line feed begins there is no line feed, if fields lie within lines. *)
Lemma no_LF_before_search (trace : string) (k j : nat) :
  fieldsWithinLines trace → lineStart trace k →
  (k ≤ j < positionAfterField trace k)%nat → String.get j trace ≠ Some LF.
Proof.
  intros Hwf Hk Hj. unfold positionAfterField in Hj. cbv zeta in Hj.
  destruct (isAddressField (String.substring k 5 trace)) eqn:E; [|lia].
  specialize (Hwf k Hk E (j - k)%nat ltac:(lia)).
  by replace (k + (j - k))%nat with j in Hwf by lia.
Qed.

(** The loop from a line start [k] on records the fields of the lines that
    start at [k] or later. *)
Lemma scanTrace_elem (trace : string) :
  fieldsWithinLines trace →
  ∀ (n k : nat) (buffer : gset Z) (a : Z),
    (String.length trace - k ≤ n)%nat → lineStart trace k →
    a ∈ scanTrace trace k buffer
    ↔ a ∈ buffer ∨ ∃ k', (k ≤ k')%nat ∧ lineStart trace k' ∧ fieldAddress trace k' a.
Proof.
  intros Hwf. induction n as [|n IH]; intros k buffer a Hn Hk;
    rewrite scanTrace_step;
    pose proof (positionAfterField_ge trace k) as Hpos;
    destruct (String.index (positionAfterField trace k) (String LF "") trace)
      as [idx|] eqn:Hidx.
  - pose proof (index_bounds _ _ _ _ Hidx). lia.
  - rewrite bufferAfterField_elem. split.
    + intros [H|H]; [by left | right; exists k; done].
    + intros [H|(k' & Hle & Hstart & Hfield)]; [by left|].
      destruct (decide (k' = k)) as [->|Hne]; [by right|]. exfalso.
      destruct Hstart as [->|(j & -> & Hj)]; [lia|].
      destruct (decide (j < positionAfterField trace k)%nat).
      * by apply (no_LF_before_search trace k j Hwf Hk ltac:(lia)).
      * by apply (index_char_None _ _ _ Hidx j ltac:(lia)).
  - pose proof (index_bounds _ _ _ _ Hidx) as Hb.
    destruct (index_char_Some _ _ _ _ Hidx) as (_ & Hget & Hfirst).
    rewrite IH; [|lia | right; by exists idx].
    rewrite bufferAfterField_elem. split.
    + intros [[H|H]|(k' & Hle & Hstart & Hfield)].
      * by left.
      * right. by exists k.
      * right. exists k'. split; [lia | done].
    + intros [H|(k' & Hle & Hstart & Hfield)]; [left; by left|].
      destruct (decide (k' = k)) as [->|Hne]; [left; by right|].
      right. exists k'. split; [|done].
      destruct Hstart as [->|(j & -> & Hj)]; [lia|].
      destruct (decide (idx ≤ j)%nat); [lia|]. exfalso.
      destruct (decide (j < positionAfterField trace k)%nat).
      * by apply (no_LF_before_search trace k j Hwf Hk ltac:(lia)).
      * by apply (Hfirst j ltac:(lia)).
  - rewrite bufferAfterField_elem. split.
    + intros [H|H]; [by left | right; exists k; done].
    + intros [H|(k' & Hle & Hstart & Hfield)]; [by left|].
      destruct (decide (k' = k)) as [->|Hne]; [by right|]. exfalso.
      destruct Hstart as [->|(j & -> & Hj)]; [lia|].
      destruct (decide (j < positionAfterField trace k)%nat).
      * by apply (no_LF_before_search trace k j Hwf Hk ltac:(lia)).
      * by apply (index_char_None _ _ _ Hidx j ltac:(lia)).
Qed.

(** The loop that pushes: the addresses of the buffer in its range, in
    ascending order. *)
Lemma pushBuffer_elem (rounds : nat) (addr : Z) (buffer : gset Z) (a : Z) :
  a ∈ pushBuffer rounds addr buffer
  ↔ a ∈ buffer ∧ addr <= a < addr + Z.of_nat rounds.
Proof.
  revert addr. induction rounds as [|rounds IH]; intros addr; simpl pushBuffer.
  - split; [intros H; by apply elem_of_nil in H | lia].
  - case_bool_decide as Hin.
    + rewrite elem_of_cons, IH. split.
      * intros [->|[H1 H2]]; [split; [done | lia] | split; [done | lia]].
      * intros [H1 H2]. destruct (decide (a = addr)); [by left | right].
        split; [done | lia].
    + rewrite IH. split.
      * intros [H1 H2]. split; [done | lia].
      * intros [H1 H2]. split; [done|].
        assert (a ≠ addr) by congruence. lia.
Qed.

Lemma pushBuffer_sorted (rounds : nat) (addr : Z) (buffer : gset Z) :
  Sorted.StronglySorted Z.lt (pushBuffer rounds addr buffer).
Proof.
  revert addr. induction rounds as [|rounds IH]; intros addr; simpl pushBuffer.
  - constructor.
  - case_bool_decide; [|apply IH].
    constructor; [apply IH|]. apply Forall_forall. intros a Ha.
    apply pushBuffer_elem in Ha. lia.
Qed.

Lemma isAddressField_length (trace : string) (k : nat) :
  isAddressField (String.substring k 5 trace) = true →
  (k + 5 ≤ String.length trace)%nat.
Proof.
  unfold isAddressField. intros H. apply andb_prop in H as [_ H].
  apply bool_decide_eq_true_1 in H.
  rewrite (String.substring_correct1 trace k 5 4) in H by lia.
  apply get_Some_lt in H. lia.
Qed.

(** The addresses that the text gives as worded: [pushed] is ascending
    without repetition and holds the addresses read from the lines whose
    first five characters end in a colon. *)
Definition tracePrefixAddresses (trace : string) (pushed : list Z) : Prop :=
  Sorted.StronglySorted Z.lt pushed
  ∧ ∀ a, a ∈ pushed
      ↔ 0 <= a < MAX_MEM_SIZE
        ∧ ∃ k, lineStart trace k ∧ withinLine trace k ∧ fieldAddress trace k a.

Lemma traceAddresses_sorted (trace : string) :
  Sorted.StronglySorted Z.lt (traceAddresses trace).
Proof.
  unfold traceAddresses. case_bool_decide; [constructor|].
  apply pushBuffer_sorted.
Qed.

Lemma traceAddresses_short (trace : string) :
  (String.length trace < 5)%nat → traceAddresses trace = [].
Proof. intros H. unfold traceAddresses. by rewrite bool_decide_eq_true_2. Qed.

Lemma traceAddresses_elem (trace : string) (a : Z) :
  fieldsWithinLines trace →
  a ∈ traceAddresses trace
  ↔ 0 <= a < MAX_MEM_SIZE
    ∧ ∃ k, lineStart trace k ∧ withinLine trace k ∧ fieldAddress trace k a.
Proof.
  intros Hwf. unfold traceAddresses. case_bool_decide as Hshort.
  - split; [intros H; by apply elem_of_nil in H|].
    intros (_ & k & _ & _ & Hfield & _).
    apply isAddressField_length in Hfield. lia.
  - cbv zeta. rewrite pushBuffer_elem.
    rewrite (scanTrace_elem trace Hwf (String.length trace) 0 ∅ a);
      [|lia | by left].
    rewrite Z2Nat.id by done. split.
    + intros [[H|(k & _ & Hk & Hfield)] Hrange]; [by apply elem_of_empty in H|].
      split; [lia|]. exists k. split; [done|]. split; [|done].
      apply Hwf; [done | apply Hfield].
    + intros (Hrange & k & Hk & _ & Hfield). split; [|lia].
      right. exists k. split; [lia | done].
Qed.

(** The text of two lines, [zz] and [1:xy:]. *)
Definition shortFirstLine : string :=
  String "z" (String "z" (String LF
    (String "1" (String ":" (String "x" (String "y" (String ":"
      (String LF "")))))))).

(** C7, as worded, fails: in the text of the lines [zz] and [1:xy:] the
    second line starts with five characters whose fifth is a colon, and
    [parseInt] reads them as 1, but nothing is pushed: the first five
    characters of the text, [zz], the line feed and [1:], end in a colon
    too, so that the search for the next line feed starts after them, in
    the middle of the second line. *)
Lemma useMameTraceFile_as_worded_fails :
  useMameTraceFile (newDisassembler Sample.emptyMemory) shortFirstLine
  = newDisassembler Sample.emptyMemory
  ∧ lineStart shortFirstLine 3 ∧ withinLine shortFirstLine 3
  ∧ fieldAddress shortFirstLine 3 1
  ∧ ¬ ∃ pushed,
      addressQueue (useMameTraceFile (newDisassembler Sample.emptyMemory)
                      shortFirstLine)
      = addressQueue (newDisassembler Sample.emptyMemory) ++ pushed
      ∧ tracePrefixAddresses shortFirstLine pushed.
Proof.
  assert (traceAddresses shortFirstLine = []) as Hnone
    by (vm_compute; reflexivity).
  assert (lineStart shortFirstLine 3) as Hstart
    by (right; exists 2%nat; split; reflexivity).
  assert (withinLine shortFirstLine 3) as Hin.
  { intros j Hj. do 5 (destruct j as [|j]; [vm_compute; discriminate|]). lia. }
  assert (fieldAddress shortFirstLine 3 1) as Hfield
    by (split; vm_compute; reflexivity).
  split; [unfold useMameTraceFile; rewrite Hnone; reflexivity|].
  do 3 (split; [assumption|]).
  intros (pushed & Hq & _ & Hiff).
  unfold useMameTraceFile in Hq. rewrite Hnone in Hq.
  change ([] = pushed) in Hq. subst pushed.
  assert ((1 : Z) ∈ ([] : list Z)) as Habs.
  { apply Hiff. split; [split; vm_compute; congruence|].
    exists 3%nat. repeat split; assumption || apply Hfield. }
  exact (proj1 (elem_of_nil 1) Habs).
Qed.

(** C7, amended: for a text in which no five characters that start a line
    and end in a colon run across a line feed, [useMameTraceFile] changes
    the address queue only, appending to it, in ascending order and
    without repetition, the addresses from 0 to 65535 that [parseInt]
    with radix 16 reads from the first five characters of the lines where
    these are five and the fifth is a colon; for a text shorter than five
    characters nothing is appended. *)
Theorem useMameTraceFile_spec (d : Disassembler) (trace : string) :
  fieldsWithinLines trace →
  ∃ pushed,
    useMameTraceFile d trace = with_addressQueue (addressQueue d ++ pushed) d
    ∧ tracePrefixAddresses trace pushed
    ∧ ((String.length trace < 5)%nat → pushed = []).
Proof.
  intros Hwf. exists (traceAddresses trace). split; [done|]. split.
  - split; [apply traceAddresses_sorted|].
    intros a. by apply traceAddresses_elem.
  - apply traceAddresses_short.
Qed.

(** A trace of three lines, the first and the last of the same address. *)
Definition threeLines : string :=
  String "0" (String "1" (String "0" (String "0" (String ":" (String " "
    (String "x" (String LF
  (String "0" (String "0" (String "3" (String "8" (String ":" (String " "
    (String "y" (String LF
  (String "0" (String "1" (String "0" (String "0" (String ":" (String " "
    (String "z" (String LF ""))))))))))))))))))))))).

Lemma threeLines_fieldsWithinLines : fieldsWithinLines threeLines.
Proof.
  intros k [->|(j & -> & Hj)] Hfield i Hi.
  - do 5 (destruct i as [|i]; [vm_compute; discriminate|]). lia.
  - pose proof (get_Some_lt _ _ _ Hj) as Hlt. vm_compute in Hlt.
    do 24 (destruct j as [|j];
      [first [ vm_compute in Hj; discriminate Hj
             | vm_compute in Hfield; discriminate Hfield
             | do 5 (destruct i as [|i]; [vm_compute; discriminate|]); lia ]|]).
    lia.
Defined.

Lemma useMameTraceFile_spec_witness :
  fieldsWithinLines threeLines
  ∧ traceAddresses threeLines = [56; 256]
  ∧ ∃ pushed,
      useMameTraceFile (newDisassembler Sample.emptyMemory) threeLines
      = with_addressQueue
          (addressQueue (newDisassembler Sample.emptyMemory) ++ pushed)
          (newDisassembler Sample.emptyMemory)
      ∧ tracePrefixAddresses threeLines pushed
      ∧ ((String.length threeLines < 5)%nat → pushed = []).
Proof.
  split; [exact threeLines_fieldsWithinLines|].
  split; [vm_compute; reflexivity|].
  exact (useMameTraceFile_spec (newDisassembler Sample.emptyMemory) threeLines
           threeLines_fieldsWithinLines).
Defined.

(* ===================================================================== *)
(** * Part III: further properties of the code                            *)
(* ===================================================================== *)

(** Whether a call returned normally. *)
Definition isOk {A} (r : result A) : bool :=
  match r with
  | Ok _ => true
  | _ => false
  end.

Lemma isOk_Ok {A} (r : result A) : isOk r = true → ∃ a, r = Ok a.
Proof. destruct r; [by eexists | done..]. Qed.

(** ** basememory.ts: writes and reads *)

Lemma BaseMemory_wf_new (startAddress size : Z) :
  BaseMemory.wf (BaseMemory.new startAddress size).
Proof.
  split; simpl.
  - by rewrite length_replicate.
  - apply Forall_replicate. lia.
Qed.

Lemma BaseMemory_wf_setValueAtIndex (m : BaseMemory.t) (index value : Z) :
  BaseMemory.wf m → BaseMemory.wf (BaseMemory.setValueAtIndex m index value).
Proof.
  intros [Hlen Hbytes]. unfold BaseMemory.setValueAtIndex.
  case_bool_decide; [|done]. split; simpl.
  - by rewrite length_insert.
  - apply Forall_insert; [done|]. apply Z.mod_pos_bound. lia.
Qed.

Lemma BaseMemory_wf_writes (writes : list (Z * Z)) (m : BaseMemory.t) :
  BaseMemory.wf m →
  BaseMemory.wf
    (foldl (λ m w, BaseMemory.setValueAtIndex m (fst w) (snd w)) m writes).
Proof.
  revert m. induction writes as [|w writes IH]; intros m Hwf; simpl; [done|].
  apply IH. by apply BaseMemory_wf_setValueAtIndex.
Qed.

Lemma BaseMemory_fields_writes (writes : list (Z * Z)) (m : BaseMemory.t) :
  let m' := foldl (λ m w, BaseMemory.setValueAtIndex m (fst w) (snd w)) m writes in
  BaseMemory.startAddress m' = BaseMemory.startAddress m
  ∧ BaseMemory.size m' = BaseMemory.size m.
Proof.
  revert m. induction writes as [|w writes IH]; intros m; simpl; [done|].
  destruct (IH (BaseMemory.setValueAtIndex m (fst w) (snd w))) as [-> ->].
  unfold BaseMemory.setValueAtIndex. by case_bool_decide.
Qed.

(** The address is inside the area of the memory. *)
Definition BaseMemory_covers (m : BaseMemory.t) (address : Z) : Prop :=
  BaseMemory.startAddress m <= mask16 address
  < BaseMemory.startAddress m + BaseMemory.size m.

Lemma BaseMemory_getValueAt_inside (m : BaseMemory.t) (address : Z) :
  BaseMemory.wf m → BaseMemory_covers m address →
  ∃ b, BaseMemory.getValueAt m address = Some b ∧ 0 <= b < 256.
Proof.
  intros [Hlen Hbytes] Hin. unfold BaseMemory_covers in Hin.
  unfold BaseMemory.getValueAt. cbv zeta.
  rewrite !bool_decide_eq_true_2 by lia.
  destruct (BaseMemory.memory m !! Z.to_nat (mask16 address - BaseMemory.startAddress m))
    as [b|] eqn:E.
  - exists b. split; [done|].
    rewrite Forall_forall in Hbytes. apply Hbytes. by eapply list_elem_of_lookup_2.
  - apply lookup_ge_None in E. lia.
Qed.

Lemma BaseMemory_getValueAt_outside (m : BaseMemory.t) (address : Z) :
  ¬ BaseMemory_covers m address → BaseMemory.getValueAt m address = None.
Proof.
  intros Hout. unfold BaseMemory_covers in Hout.
  unfold BaseMemory.getValueAt. cbv zeta.
  case_bool_decide; [|done]. case_bool_decide; [lia | done].
Qed.

(** X1. A read after a write: [getValueAt] returns the low eight bits of
    the value written last at the index of the address, every other
    address reads as before, and a write at an index outside the array
    changes no read. *)
Theorem BaseMemory_read_after_write (m : BaseMemory.t) (index value address : Z) :
  BaseMemory.wf m →
  BaseMemory.getValueAt (BaseMemory.setValueAtIndex m index value) address
  = if bool_decide (0 <= index < BaseMemory.size m
                    ∧ mask16 address - BaseMemory.startAddress m = index)
    then Some (value `mod` 256)
    else BaseMemory.getValueAt m address.
Proof.
  intros [Hlen Hbytes]. unfold BaseMemory.getValueAt, BaseMemory.setValueAtIndex.
  cbv zeta. destruct (bool_decide (0 <= index)) eqn:Hindex; simpl.
  - apply bool_decide_eq_true_1 in Hindex.
    case_bool_decide as Hlow; [|by rewrite bool_decide_eq_false_2 by lia].
    case_bool_decide as Hhigh; [|by rewrite bool_decide_eq_false_2 by lia].
    case_bool_decide as Hhit.
    + destruct Hhit as [Hrange <-]. apply list_lookup_insert_eq. lia.
    + destruct (decide (mask16 address - BaseMemory.startAddress m = index))
        as [<-|Hne]; [lia|].
      apply list_lookup_insert_ne. lia.
  - apply bool_decide_eq_false_1 in Hindex.
    by rewrite (bool_decide_eq_false_2 (_ ∧ _)) by lia.
Qed.

Lemma BaseMemory_read_after_write_witness :
  BaseMemory.getValueAt
    (BaseMemory.setValueAtIndex (BaseMemory.new 0x4000 16) 3 0x1FF) 0x14003
  = Some 255.
Proof.
  rewrite (BaseMemory_read_after_write (BaseMemory.new 0x4000 16) 3 0x1FF 0x14003
             (BaseMemory_wf_new 0x4000 16)).
  reflexivity.
Defined.

(** X2. Bounds: on a memory made by the constructor and any writes,
    [getValueAt] returns a byte for an address inside the area (taken
    modulo 64K) and fails its assertion for every other address. *)
Theorem BaseMemory_read_bounds (startAddress size : Z) (writes : list (Z * Z))
    (address : Z) :
  let m := foldl (λ m w, BaseMemory.setValueAtIndex m (fst w) (snd w))
                 (BaseMemory.new startAddress size) writes in
  (startAddress <= mask16 address < startAddress + size →
   ∃ b, BaseMemory.getValueAt m address = Some b ∧ 0 <= b < 256)
  ∧ (¬ startAddress <= mask16 address < startAddress + size →
     BaseMemory.getValueAt m address = None).
Proof.
  cbv zeta.
  pose proof (BaseMemory_wf_writes writes _ (BaseMemory_wf_new startAddress size))
    as Hwf.
  destruct (BaseMemory_fields_writes writes (BaseMemory.new startAddress size))
    as [Hstart Hsize]. simpl in Hstart, Hsize.
  split; intros Hrange.
  - apply BaseMemory_getValueAt_inside; [done|].
    unfold BaseMemory_covers. by rewrite Hstart, Hsize.
  - apply BaseMemory_getValueAt_outside.
    unfold BaseMemory_covers. by rewrite Hstart, Hsize.
Qed.

(** X3. The big-endian word is the little-endian word with its two bytes
    exchanged: both reads fail for the same addresses, and where they do
    not, both are 16-bit numbers. *)
Theorem BaseMemory_big_endian_swaps (m : BaseMemory.t) (address : Z) :
  BaseMemory.wf m →
  match BaseMemory.getWordValueAt m address with
  | Some w =>
      0 <= w < 65536
      ∧ BaseMemory.getBigEndianWordValueAt m address
        = Some (256 * (w `mod` 256) + w `div` 256)
  | None => BaseMemory.getBigEndianWordValueAt m address = None
  end.
Proof.
  intros Hwf. unfold BaseMemory.getWordValueAt, BaseMemory.getBigEndianWordValueAt.
  destruct (decide (BaseMemory_covers m address)) as [Hlo|Hlo].
  2:{ by rewrite (BaseMemory_getValueAt_outside m address Hlo). }
  destruct (BaseMemory_getValueAt_inside m address Hwf Hlo) as (lo & -> & Hlo').
  destruct (decide (BaseMemory_covers m (address + 1))) as [Hhi|Hhi].
  2:{ by rewrite (BaseMemory_getValueAt_outside m (address + 1) Hhi). }
  destruct (BaseMemory_getValueAt_inside m (address + 1) Hwf Hhi) as (hi & -> & Hhi').
  simpl. split; [lia|]. f_equal.
  rewrite <- (Z.mod_unique_pos (lo + 256 * hi) 256 hi lo) by lia.
  rewrite <- (Z.div_unique_pos (lo + 256 * hi) 256 hi lo) by lia.
  reflexivity.
Qed.

Lemma BaseMemory_big_endian_swaps_witness :
  let m := BaseMemory.setValueAtIndex
             (BaseMemory.setValueAtIndex (BaseMemory.new 0 MAX_MEM_SIZE) 0xFFFF 0x12)
             0 0x34 in
  BaseMemory.getWordValueAt m 0xFFFF = Some 0x3412
  ∧ BaseMemory.getBigEndianWordValueAt m 0xFFFF = Some 0x1234.
Proof.
  cbv zeta.
  pose proof (BaseMemory_big_endian_swaps
                (BaseMemory.setValueAtIndex
                   (BaseMemory.setValueAtIndex (BaseMemory.new 0 MAX_MEM_SIZE) 0xFFFF 0x12)
                   0 0x34) 0xFFFF
                (BaseMemory_wf_setValueAtIndex _ _ _
                   (BaseMemory_wf_setValueAtIndex _ _ _
                      (BaseMemory_wf_new 0 MAX_MEM_SIZE)))) as H.
  assert (BaseMemory.getWordValueAt
            (BaseMemory.setValueAtIndex
               (BaseMemory.setValueAtIndex (BaseMemory.new 0 MAX_MEM_SIZE) 0xFFFF 0x12)
               0 0x34) 0xFFFF = Some 0x3412) as Hw by (vm_compute; reflexivity).
  rewrite Hw in H. destruct H as [_ H]. split; [exact Hw | exact H].
Defined.

(** ** memory.ts: [setMemory] and [getValueAt] *)

(** What the constructor establishes: both arrays have 64K entries. *)
Definition Memory_sized (m : Memory.t) : Prop :=
  List.length (Memory.memory m) = Z.to_nat MAX_MEM_SIZE
  ∧ List.length (Memory.memoryAttr m) = Z.to_nat MAX_MEM_SIZE.

Lemma Memory_sized_new : Memory_sized Memory.new.
Proof. split; apply length_replicate. Qed.

Lemma Memory_setMemory_snoc (m : Memory.t) (origin : Z) (bytes : list Z) (b : Z) :
  Memory.setMemory m origin (bytes ++ [b])
  = Memory.setMemory_step origin (Memory.setMemory m origin bytes)
      (List.length bytes) b.
Proof.
  unfold Memory.setMemory. rewrite imap_app, foldl_app. simpl.
  by rewrite Nat.add_0_r.
Qed.

Lemma Memory_sized_setMemory (m : Memory.t) (origin : Z) (bytes : list Z) :
  Memory_sized m → Memory_sized (Memory.setMemory m origin bytes).
Proof.
  intros Hm. induction bytes as [|b bytes IH] using rev_ind; [done|].
  rewrite Memory_setMemory_snoc. destruct IH as [IH1 IH2].
  split; simpl; by rewrite length_insert.
Qed.

(** Two bytes of an area of at most 64K bytes have different addresses. *)
Lemma mask16_apart (origin i j : Z) :
  0 <= i < j → j < 65536 → mask16 (origin + i) ≠ mask16 (origin + j).
Proof.
  intros Hi Hj. rewrite !mask16_mod. intros Heq.
  assert ((origin + j - (origin + i)) `mod` 65536 = 0) as Hdiff.
  { rewrite Zminus_mod, Heq, Z.sub_diag. reflexivity. }
  replace (origin + j - (origin + i)) with (j - i) in Hdiff by lia.
  rewrite Z.mod_small in Hdiff by lia. lia.
Qed.

(** The place of an address in the two arrays. *)
Definition Memory_slot (address : Z) : nat := Z.to_nat (mask16 address).

Lemma Memory_slot_inj (a b : Z) : Memory_slot a = Memory_slot b → mask16 a = mask16 b.
Proof.
  unfold Memory_slot. intros H.
  pose proof (mask16_range a). pose proof (mask16_range b). lia.
Qed.

Lemma Memory_slot_lt (m : Memory.t) (a : Z) :
  Memory_sized m → (Memory_slot a < List.length (Memory.memory m))%nat
                   ∧ (Memory_slot a < List.length (Memory.memoryAttr m))%nat.
Proof.
  intros [H1 H2]. rewrite H1, H2. unfold Memory_slot, MAX_MEM_SIZE.
  pose proof (mask16_range a). lia.
Qed.

(** X4. [setMemory] followed by reads: each byte of an area of at most
    64K bytes is read back (its low eight bits) at its address, which
    wraps around at 64K, and is marked as assigned; every address outside
    the area reads as before and keeps its attribute. *)
Theorem Memory_read_after_setMemory (m : Memory.t) (origin : Z) (bytes : list Z) :
  Memory_sized m → Z.of_nat (List.length bytes) <= MAX_MEM_SIZE →
  let m' := Memory.setMemory m origin bytes in
  Memory_sized m'
  ∧ (∀ (i : nat) (b : Z), bytes !! i = Some b →
       Memory.getValueAt m' (origin + Z.of_nat i) = b `mod` 256
       ∧ Memory.memoryAttr m' !! Memory_slot (origin + Z.of_nat i)
         = Some Memory.ASSIGNED)
  ∧ (∀ a, (∀ i : nat, (i < List.length bytes)%nat →
             mask16 (origin + Z.of_nat i) ≠ mask16 a) →
       Memory.getValueAt m' a = Memory.getValueAt m a
       ∧ Memory.memoryAttr m' !! Memory_slot a = Memory.memoryAttr m !! Memory_slot a).
Proof.
  intros Hm. cbv zeta.
  induction bytes as [|b0 bytes IH] using rev_ind; intros Hlen.
  { split; [done|]. split; [intros i b Hi; by rewrite lookup_nil in Hi | done]. }
  rewrite length_app in Hlen. simpl in Hlen. unfold MAX_MEM_SIZE in Hlen.
  destruct IH as (Hsized & Hin & Hout); [unfold MAX_MEM_SIZE; lia|].
  rewrite Memory_setMemory_snoc.
  set (m1 := Memory.setMemory m origin bytes) in *.
  split.
  { destruct Hsized. split; simpl; by rewrite length_insert. }
  pose proof (Memory_slot_lt m1 (origin + Z.of_nat (List.length bytes)) Hsized)
    as [Hslot1 Hslot2].
  split.
  - intros i b Hi. apply lookup_app_Some in Hi as [Hi|[Hge Hi]].
    + destruct (Hin i b Hi) as [Hval Hattr].
      pose proof (lookup_lt_Some _ _ _ Hi) as Hlt.
      assert (Memory_slot (origin + Z.of_nat (List.length bytes))
              ≠ Memory_slot (origin + Z.of_nat i)) as Hne.
      { intros Heq. apply Memory_slot_inj in Heq. symmetry in Heq. revert Heq.
        apply mask16_apart; lia. }
      unfold Memory.getValueAt, Memory.setMemory_step. simpl.
      fold (Memory_slot (origin + Z.of_nat (List.length bytes))).
      fold (Memory_slot (origin + Z.of_nat i)).
      rewrite !list_lookup_insert_ne by done. split; [exact Hval | exact Hattr].
    + apply list_lookup_singleton_Some in Hi as [Hi <-].
      assert (i = List.length bytes) as -> by lia.
      unfold Memory.getValueAt, Memory.setMemory_step. simpl.
      fold (Memory_slot (origin + Z.of_nat (List.length bytes))).
      rewrite !list_lookup_insert_eq by done. done.
  - intros a Ha.
    assert (Memory_slot (origin + Z.of_nat (List.length bytes)) ≠ Memory_slot a) as Hne.
    { intros Heq. apply Memory_slot_inj in Heq. revert Heq. apply Ha.
      rewrite length_app. simpl. lia. }
    destruct (Hout a) as [Hval Hattr].
    { intros i Hi. apply Ha. rewrite length_app. simpl. lia. }
    unfold Memory.getValueAt, Memory.setMemory_step. simpl.
    fold (Memory_slot (origin + Z.of_nat (List.length bytes))). fold (Memory_slot a).
    rewrite !list_lookup_insert_ne by done. split; [exact Hval | exact Hattr].
Qed.

Lemma Memory_read_after_setMemory_witness :
  let m' := Memory.setMemory Memory.new 0xFFFE [1; 2; 3; 4] in
  Memory.getValueAt m' 0xFFFF = 2
  ∧ Memory.getValueAt m' 1 = 4
  ∧ Memory.getValueAt m' 2 = 0.
Proof.
  cbv zeta.
  destruct (Memory_read_after_setMemory Memory.new 0xFFFE [1; 2; 3; 4]
              Memory_sized_new ltac:(simpl; unfold MAX_MEM_SIZE; lia))
    as (_ & Hin & Hout).
  split; [exact (proj1 (Hin 1%nat 2 eq_refl))|].
  split; [exact (proj1 (Hin 3%nat 4 eq_refl))|].
  rewrite (proj1 (Hout 2 ltac:(intros i Hi; simpl in Hi;
             do 4 (destruct i as [|i]; [vm_compute; discriminate|]); lia))).
  vm_compute. reflexivity.
Defined.

(** ** [sortLabels] *)

Lemma insertEntry_get {V} (e : Z * V) (sorted : list (Z * V)) (k : Z) :
  JsMap.get k (insertEntry e sorted) = JsMap.get k (e :: sorted).
Proof.
  destruct e as [k0 v0]. induction sorted as [|[k1 v1] sorted IH]; simpl; [done|].
  case_bool_decide as Hle; [done|]. simpl in *. rewrite IH.
  destruct (decide (k1 = k)) as [->|H1].
  - rewrite (bool_decide_eq_true_2 (k = k)) by done.
    by rewrite (bool_decide_eq_false_2 (k0 = k)) by lia.
  - by rewrite (bool_decide_eq_false_2 (k1 = k)) by done.
Qed.

Lemma insertEntry_perm {V} (e : Z * V) (sorted : list (Z * V)) :
  insertEntry e sorted ≡ₚ e :: sorted.
Proof.
  induction sorted as [|e' sorted IH]; simpl; [done|].
  case_bool_decide; [done|]. rewrite IH. apply Permutation_swap.
Qed.

Lemma insertEntry_sorted {V} (e : Z * V) (sorted : list (Z * V)) :
  Sorted.StronglySorted Z.le (JsMap.keys sorted) →
  Sorted.StronglySorted Z.le (JsMap.keys (insertEntry e sorted)).
Proof.
  unfold JsMap.keys. induction sorted as [|e' sorted IH]; simpl; intros Hs.
  - constructor; [constructor | constructor].
  - inversion Hs as [|? ? Hs' Hall]; subst.
    case_bool_decide as Hle; simpl.
    + constructor; [done|]. constructor; [lia|].
      eapply List.Forall_impl; [|exact Hall]. simpl. intros. lia.
    + constructor; [by apply IH|].
      apply Forall_forall. intros k Hk.
      apply list_elem_of_fmap in Hk as (e2 & -> & Hin).
      rewrite insertEntry_perm in Hin. apply elem_of_cons in Hin as [->|Hin]; [lia|].
      rewrite Forall_forall in Hall. apply Hall.
      apply list_elem_of_fmap. by exists e2.
Qed.

Lemma sortEntries_get {V} (entries : list (Z * V)) (k : Z) :
  JsMap.get k (sortEntries entries) = JsMap.get k entries.
Proof.
  induction entries as [|[k0 v0] entries IH]; simpl; [done|].
  rewrite insertEntry_get. simpl. by rewrite IH.
Qed.

Lemma sortEntries_perm {V} (entries : list (Z * V)) : sortEntries entries ≡ₚ entries.
Proof.
  induction entries as [|e entries IH]; simpl; [done|].
  by rewrite insertEntry_perm, IH.
Qed.

Lemma sortEntries_sorted {V} (entries : list (Z * V)) :
  Sorted.StronglySorted Z.le (JsMap.keys (sortEntries entries)).
Proof.
  induction entries as [|e entries IH]; simpl; [constructor|].
  by apply insertEntry_sorted.
Qed.

Lemma sorted_strict (keys : list Z) :
  NoDup keys → Sorted.StronglySorted Z.le keys → Sorted.StronglySorted Z.lt keys.
Proof.
  induction keys as [|k keys IH]; intros Hnd Hs; [constructor|].
  apply NoDup_cons in Hnd as [Hk Hnd]. inversion Hs as [|? ? Hs' Hall]; subst.
  constructor; [by apply IH|].
  apply Forall_forall. intros k' Hk'. rewrite Forall_forall in Hall.
  specialize (Hall k' Hk'). assert (k ≠ k') by (intros ->; done). lia.
Qed.

(** The keys of a [Map] are different from each other; [set] keeps it
    so. *)
Lemma JsMap_keys_set_NoDup {V} (k : Z) (v : V) (m : JsMap.t V) :
  NoDup (JsMap.keys m) → NoDup (JsMap.keys (JsMap.set k v m)).
Proof.
  unfold JsMap.keys. induction m as [|[k' v'] m IH]; simpl; intros Hnd.
  - apply NoDup_singleton.
  - apply NoDup_cons in Hnd as [Hk Hnd]. case_bool_decide as E; simpl.
    + subst k'. by apply NoDup_cons.
    + apply NoDup_cons. split; [|by apply IH].
      intros Hin. apply Hk. apply list_elem_of_fmap in Hin as ([k2 v2] & -> & Hin).
      simpl. apply list_elem_of_fmap.
      assert (JsMap.get k2 (JsMap.set k v m) ≠ None) as Hget.
      { clear -Hin. induction (JsMap.set k v m) as [|[k3 v3] l IHl]; simpl.
        - by apply elem_of_nil in Hin.
        - case_bool_decide; [done|]. apply IHl.
          apply elem_of_cons in Hin as [[= -> ->]|Hin]; [done | done]. }
      assert (k2 ≠ k) as Hne.
      { intros ->. apply Hk. simpl in *. congruence. }
      rewrite JsMapFacts.get_set_ne in Hget by done.
      destruct (JsMap.get k2 m) as [v4|] eqn:E4; [|done].
      exists (k2, v4). split; [done|]. by apply JsMapFacts.get_Some_elem.
Qed.

(** X5. [sortLabels] keeps every entry, puts the entries in ascending
    order of their addresses (strictly ascending, as the keys of a [Map]
    are different from each other), and changes no lookup and nothing else
    of the disassembler. *)
Theorem sortLabels_sorts (d : Disassembler) :
  let d' := sortLabels d in
  labels d' ≡ₚ labels d
  ∧ Sorted.StronglySorted Z.le (JsMap.keys (labels d'))
  ∧ (NoDup (JsMap.keys (labels d)) →
     Sorted.StronglySorted Z.lt (JsMap.keys (labels d')))
  ∧ (∀ k, JsMap.get k (labels d') = JsMap.get k (labels d))
  ∧ d' = with_labels (labels d') d.
Proof.
  cbv zeta. unfold sortLabels. simpl.
  split; [apply sortEntries_perm|].
  split; [apply sortEntries_sorted|].
  split.
  - intros Hnd. apply sorted_strict; [|apply sortEntries_sorted].
    unfold JsMap.keys. by rewrite sortEntries_perm.
  - split; [intros k; apply sortEntries_get | done].
Qed.

(** ** [getNumberTypeAsString] *)

(** X6. [getNumberTypeAsString] never reaches its [assert(false)], and
    different types have different texts. *)
Theorem getNumberTypeAsString_injective (t1 t2 : NumberType) :
  (∃ s, getNumberTypeAsString t1 = Ok s)
  ∧ (getNumberTypeAsString t1 = getNumberTypeAsString t2 ↔ t1 = t2).
Proof.
  split; [destruct t1; by eexists|].
  split; [|by intros ->].
  destruct t1, t2; simpl; intros H; try reflexivity; discriminate H.
Qed.

(** ** [getSubroutineAddresses]: the addresses of a subroutine *)

Section WalkFacts.
Context {table : OpcodeTable}.
Variable m : DisMemory.t.

(** The byte at the address belongs to the memory to disassemble. *)
Definition assignedAt (a : Z) : Prop :=
  hasAttr (DisMemory.getAttributeAt m a) MemAttribute.ASSIGNED = true.

(** The program flow that the walk follows from an instruction: to the
    target of a branch that is no call, and to the next instruction unless
    the instruction stops the flow. *)
Inductive flowsTo (a : Z) : Z → Prop :=
  | flows_branch :
      assignedAt a →
      hasFlag BRANCH_ADDRESS (getOpcodeAt m a) = true →
      hasFlag CALL (getOpcodeAt m a) = false →
      flowsTo a (value (getOpcodeAt m a))
  | flows_next :
      assignedAt a →
      hasFlag STOP (getOpcodeAt m a) = false →
      flowsTo a (a + length (getOpcodeAt m a)).

(** Every assigned address that the flow reaches from [x] is in [res]. *)
Definition closedAt (res : list Z) (x : Z) : Prop :=
  ∀ y, flowsTo x y → assignedAt y → y ∈ res.

(** What a call of the walk at [a] makes of the array [arr]. *)
Definition walked (a : Z) (arr res : list Z) : Prop :=
  ∃ new, res = arr ++ new
    ∧ (assignedAt a → a ∈ res)
    ∧ (∀ x, x ∈ new → assignedAt x ∧ rtc flowsTo a x ∧ closedAt res x)
    ∧ (NoDup arr → NoDup res).

Lemma walked_nothing (a : Z) (arr : list Z) :
  (assignedAt a → a ∈ arr) → walked a arr arr.
Proof.
  intros Ha. exists []. rewrite app_nil_r. split; [done|]. split; [done|].
  split; [intros x Hx; by apply elem_of_nil in Hx | done].
Qed.

Lemma closedAt_mono (res more : list Z) (x : Z) :
  closedAt res x → closedAt (res ++ more) x.
Proof. intros H y Hflow Hy. apply elem_of_app. left. by apply H. Qed.

Lemma getSubroutineAddresses_walked (fuel : nat) (a : Z) (arr res : list Z) :
  getSubroutineAddresses fuel m a arr = Ok res → walked a arr res.
Proof.
  revert a arr res. induction fuel as [|fuel IH]; intros a arr res; simpl; [done|].
  destruct (hasAttr (DisMemory.getAttributeAt m a) MemAttribute.ASSIGNED) eqn:Ha; simpl.
  2:{ intros [= <-]. apply walked_nothing. unfold assignedAt. congruence. }
  case_bool_decide as Hseen.
  { intros [= <-]. by apply walked_nothing. }
  set (opcode := getOpcodeAt m a).
  assert (NoDup arr → NoDup (arr ++ [a])) as Hnd1.
  { intros Hnd. apply NoDup_app. split; [done|]. split; [|apply NoDup_singleton].
    intros x Hx Hx'. apply list_elem_of_singleton in Hx'. by subst. }
  assert (∀ new2,
            (∀ x, x ∈ new2 →
               assignedAt x ∧ rtc flowsTo a x ∧ closedAt ((arr ++ [a]) ++ new2) x) →
            (hasFlag BRANCH_ADDRESS opcode = true → hasFlag CALL opcode = false →
             assignedAt (value opcode) → value opcode ∈ (arr ++ [a]) ++ new2) →
            (NoDup (arr ++ [a]) → NoDup ((arr ++ [a]) ++ new2)) →
            (if hasFlag STOP opcode then Ok ((arr ++ [a]) ++ new2)
             else getSubroutineAddresses fuel m (a + length opcode)
                    ((arr ++ [a]) ++ new2)) = Ok res →
            walked a arr res) as Htail.
  { intros new2 Hnew2 Htarget Hnd2.
    destruct (hasFlag STOP opcode) eqn:Hstop.
    - intros [= <-]. exists (a :: new2).
      split; [by rewrite <- app_assoc|].
      split; [intros _; rewrite !elem_of_app, list_elem_of_singleton; tauto|].
      split; [|intros Hnd; by apply Hnd2, Hnd1].
      intros x Hx. apply elem_of_cons in Hx as [->|Hx]; [|by apply Hnew2].
      split; [done|]. split; [done|].
      intros y Hflow Hy. inversion Hflow; subst.
      + by apply Htarget.
      + subst opcode. congruence.
    - intros Hrec. apply IH in Hrec as (new3 & -> & Hstart3 & Hnew3 & Hnd3).
      exists (a :: new2 ++ new3).
      split; [by rewrite <- !app_assoc|].
      split; [intros _; rewrite !elem_of_app, list_elem_of_singleton; tauto|].
      split; [|intros Hnd; by apply Hnd3, Hnd2, Hnd1].
      intros x Hx. apply elem_of_cons in Hx as [->|Hx].
      + split; [done|]. split; [done|].
        intros y Hflow Hy. inversion Hflow; subst.
        * apply elem_of_app. left. by apply Htarget.
        * by apply Hstart3.
      + apply elem_of_app in Hx as [Hx|Hx].
        * destruct (Hnew2 x Hx) as (H1 & H2 & H3).
          split; [done|]. split; [done|]. by apply closedAt_mono.
        * destruct (Hnew3 x Hx) as (H1 & H2 & H3).
          split; [done|]. split; [|done].
          eapply rtc_l; [|exact H2]. by apply flows_next. }
  destruct (hasFlag BRANCH_ADDRESS opcode && negb (hasFlag CALL opcode)) eqn:Hb.
  - apply andb_true_iff in Hb as [Hb1 Hb2]. apply negb_true_iff in Hb2.
    destruct (getSubroutineAddresses fuel m (value opcode) (arr ++ [a]))
      as [arr2| |] eqn:Hrec; simpl; [|done..].
    apply IH in Hrec as (new2 & -> & Hstart2 & Hnew2 & Hnd2).
    apply Htail; [|intros _ _; exact Hstart2 | exact Hnd2].
    intros x Hx. destruct (Hnew2 x Hx) as (H1 & H2 & H3).
    split; [done|]. split; [|done].
    eapply rtc_l; [|exact H2]. by apply flows_branch.
  - simpl. intros Hrest. apply (Htail []).
    + intros x Hx. by apply elem_of_nil in Hx.
    + intros H1 H2. rewrite H1, H2 in Hb. discriminate Hb.
    + by rewrite app_nil_r.
    + by rewrite app_nil_r.
Qed.

(** With more fuel than [U] has addresses not yet in the array, the walk
    returns. *)
Lemma getSubroutineAddresses_returns (U : gset Z) (fuel : nat) (a : Z)
    (arr : list Z) :
  walkClosed m U →
  a ∈ U ∨ hasAttr (DisMemory.getAttributeAt m a) MemAttribute.ASSIGNED = false →
  (size (U ∖ list_to_set arr) < fuel)%nat →
  ∃ res, getSubroutineAddresses fuel m a arr = Ok res.
Proof.
  intros Hclosed. revert a arr.
  induction fuel as [|fuel IH]; intros a arr Ha Hfuel; [lia|]. simpl.
  destruct (hasAttr (DisMemory.getAttributeAt m a) MemAttribute.ASSIGNED) eqn:Hassigned;
    simpl; [|by eexists].
  destruct Ha as [Ha|Ha]; [|done].
  case_bool_decide as Hseen; [by eexists|].
  pose proof (unvisited_less U arr a Ha Hseen) as Hless.
  destruct (Hclosed a Ha) as [Hnext Htarget].
  set (opcode := getOpcodeAt m a) in *.
  assert (∀ new2,
            ∃ res, (if hasFlag STOP opcode then Ok ((arr ++ [a]) ++ new2)
                    else getSubroutineAddresses fuel m (a + length opcode)
                           ((arr ++ [a]) ++ new2)) = Ok res) as Htail.
  { intros new2. destruct (hasFlag STOP opcode); [by eexists|].
    apply IH; [done|].
    pose proof (unvisited_mono U (arr ++ [a]) new2). lia. }
  destruct (hasFlag BRANCH_ADDRESS opcode) eqn:Hb; simpl.
  2:{ specialize (Htail []). by rewrite app_nil_r in Htail. }
  destruct (negb (hasFlag CALL opcode)); simpl.
  2:{ specialize (Htail []). by rewrite app_nil_r in Htail. }
  destruct (IH (value opcode) (arr ++ [a]) (Htarget eq_refl) ltac:(lia))
    as (arr2 & Hrec).
  rewrite Hrec. simpl.
  apply getSubroutineAddresses_walked in Hrec as (new2 & -> & _).
  apply Htail.
Qed.

End WalkFacts.

(** X7. [getSubroutineAddresses] from an empty array returns, without
    repetition, exactly the assigned addresses that the program flow
    reaches from the start address: through the targets of the branches
    that are no calls and through the instructions that follow those that
    do not stop the flow. It returns when the walk stays inside a finite
    set [U] of addresses and the fuel exceeds the size of [U]. *)
Theorem getSubroutineAddresses_reachable {table : OpcodeTable} (m : DisMemory.t)
    (U : gset Z) (fuel : nat) (address : Z) :
  walkClosed m U →
  address ∈ U
  ∨ hasAttr (DisMemory.getAttributeAt m address) MemAttribute.ASSIGNED = false →
  (size U < fuel)%nat →
  ∃ res, getSubroutineAddresses fuel m address [] = Ok res
    ∧ NoDup res
    ∧ ∀ x, x ∈ res
        ↔ assignedAt m address ∧ assignedAt m x ∧ rtc (flowsTo m) address x.
Proof.
  intros Hclosed Hstart Hfuel.
  destruct (getSubroutineAddresses_returns m U fuel address [] Hclosed Hstart)
    as (res & Hres).
  { assert (U ∖ list_to_set [] = U) as -> by set_solver. done. }
  exists res. split; [exact Hres|].
  apply getSubroutineAddresses_walked in Hres as (new & -> & Hin & Hnew & Hnd).
  simpl in *. split; [apply Hnd; constructor|].
  intros x. split.
  - intros Hx. destruct (Hnew x Hx) as (H1 & H2 & _).
    split; [|done]. inversion H2 as [|? y ? Hflow]; subst; [done|].
    by inversion Hflow.
  - intros (Ha & Hx & Hreach). revert x Hreach Hx.
    apply (rtc_ind_r (λ x, assignedAt m x → x ∈ new)).
    + intros _. by apply Hin.
    + intros y z Hreach Hflow IH Hz.
      assert (assignedAt m y) as Hy by (by inversion Hflow).
      destruct (Hnew y (IH Hy)) as (_ & _ & Hcl). by apply Hcl.
Qed.

Lemma getSubroutineAddresses_reachable_witness :
  ∃ res,
    getSubroutineAddresses (table := Sample.table) 6 (memory twoConditions) 0 []
    = Ok res
    ∧ NoDup res
    ∧ ∀ x, x ∈ res
        ↔ assignedAt (memory twoConditions) 0 ∧ assignedAt (memory twoConditions) x
          ∧ rtc (flowsTo (table := Sample.table) (memory twoConditions)) 0 x.
Proof.
  apply (getSubroutineAddresses_reachable (table := Sample.table)
           (memory twoConditions) {[0; 2; 3; 6; 7]} 6 0 twoConditions_closed).
  - left. clear. set_solver.
  - vm_compute. lia.
Defined.

(** ** [findLocalLabelsInSubroutines]: what the whole pass leaves alone *)

(** An invariant of a loop whose body can fail. *)
Lemma foldM_invariant {A B} (P : A → Prop) (f : A → B → result A)
    (l : list B) (a a' : A) :
  P a → (∀ x b x', P x → b ∈ l → f x b = Ok x' → P x') →
  foldM f a l = Ok a' → P a'.
Proof.
  revert a. induction l as [|b l IH]; intros a Ha Hstep; simpl.
  - by intros [= <-].
  - destruct (f a b) as [a1| |] eqn:E; simpl; [|done..].
    apply IH.
    + eapply Hstep; [done | left | done].
    + intros x b' x' Hx Hb'. apply Hstep; [done | by right].
Qed.

(** A label after pass 8, compared with the label [l] before it. *)
Definition demotedOrSame (l l' : DisLabel) : Prop :=
  l' = l
  ∨ ((type l = CODE_LBL ∨ type l = CODE_SUB) ∧ isFixed l = false
     ∧ (l' = set_type CODE_LOCAL_LBL l ∨ l' = set_type CODE_LOCAL_LOOP l)).

Lemma localizedLabel_demotedOrSame (addrsArray : list Z) (addr : Z) (l : DisLabel) :
  demotedOrSame l (localizedLabel addrsArray addr l).
Proof.
  unfold demotedOrSame, localizedLabel. cbv zeta.
  destruct (bool_decide (type l ≠ CODE_LBL) && bool_decide (type l ≠ CODE_SUB)) eqn:E1;
    [by left|].
  assert (type l = CODE_LBL ∨ type l = CODE_SUB) as Htype.
  { apply andb_false_iff in E1 as [H|H]; apply bool_decide_eq_false in H;
      apply dec_stable in H; tauto. }
  destruct (isFixed l) eqn:E2; [by left|].
  destruct (negb (existsb _ (elements (references l)))); [|by left].
  right. split; [done|]. split; [done|].
  destruct (existsb _ (elements (references l))); [by right | by left].
Qed.

Lemma demotedOrSame_again (addrsArray : list Z) (addr : Z) (l l' : DisLabel) :
  demotedOrSame l l' → demotedOrSame l (localizedLabel addrsArray addr l').
Proof.
  intros [->|(Htype & Hfixed & [->| ->])].
  - apply localizedLabel_demotedOrSame.
  - rewrite localizedLabel_local by (by right). right. tauto.
  - rewrite localizedLabel_local by (by left). right. tauto.
Qed.

Lemma localize_loop_keys (address : Z) (addrsArray xs : list Z)
    (labels : JsMap.t DisLabel) :
  JsMap.keys (foldl (localizeLabel address addrsArray) labels xs) = JsMap.keys labels.
Proof.
  revert labels. induction xs as [|x xs IH]; intros labels; [done|].
  change (foldl (localizeLabel address addrsArray) labels (x :: xs))
    with (foldl (localizeLabel address addrsArray)
            (localizeLabel address addrsArray labels x) xs).
  rewrite IH. unfold localizeLabel.
  case_bool_decide; [done|].
  destruct (JsMap.get x labels) as [l|] eqn:Hget; [|done].
  destruct (bool_decide (type l ≠ CODE_LBL) && bool_decide (type l ≠ CODE_SUB));
    [done|].
  destruct (isFixed l); [done|].
  destruct (negb (existsb _ (elements (references l)))); [|done].
  apply JsMapFacts.keys_set. by rewrite Hget.
Qed.

(** The labels of the disassembler [d'] compared with those of [d]. *)
Definition onlyDemoted (labels labels' : JsMap.t DisLabel) : Prop :=
  JsMap.keys labels' = JsMap.keys labels
  ∧ ∀ addr,
      match JsMap.get addr labels with
      | None => JsMap.get addr labels' = None
      | Some l => ∃ l', JsMap.get addr labels' = Some l' ∧ demotedOrSame l l'
      end.

(** X8. Pass 8 as a whole neither adds nor removes nor moves a label, and
    changes nothing but types: a label it changes was a [CODE_LBL] or a
    [CODE_SUB] that is not fixed and is a [CODE_LOCAL_LBL] or a
    [CODE_LOCAL_LOOP] afterwards; fixed labels, labels of other types,
    names, referrers and callees stay, as does the rest of the
    disassembler. *)
Theorem findLocalLabelsInSubroutines_only_demotes {table : OpcodeTable}
    (fuel : nat) (d d' : Disassembler) :
  findLocalLabelsInSubroutines fuel d = Ok d' →
  d' = with_labels (labels d') d ∧ onlyDemoted (labels d) (labels d').
Proof.
  unfold findLocalLabelsInSubroutines. intros Hrun.
  destruct (foldM (findLocalLabels_body fuel (memory d)) (labels d)
              (JsMap.keys (labels d))) as [labels'| |] eqn:Hloop; simpl in Hrun;
    [|done..].
  injection Hrun as <-. split; [done|]. simpl.
  revert Hloop. apply foldM_invariant.
  - split; [done|]. intros addr.
    destruct (JsMap.get addr (labels d)) as [l|]; [|done].
    exists l. split; [done | by left].
  - intros labels1 address labels2 [Hkeys Hinv] _ Hbody.
    unfold findLocalLabels_body in Hbody.
    destruct (JsMap.get address labels1) as [label|]; [|by injection Hbody as <-].
    destruct (isSubOrRstOrLbl (type label)); [|by injection Hbody as <-].
    destruct (getSubroutineAddresses fuel (memory d) address []) as [addrsArray| |];
      simpl in Hbody; [|done..].
    injection Hbody as <-. split; [by rewrite localize_loop_keys|].
    intros addr. rewrite localize_loop_get. specialize (Hinv addr).
    destruct (JsMap.get addr (labels d)) as [l|].
    + destruct Hinv as (l1 & -> & Hl1). case_bool_decide; simpl.
      * eexists. split; [done|]. by apply demotedOrSame_again.
      * by exists l1.
    + rewrite Hinv. by case_bool_decide.
Qed.

Lemma findLocalLabelsInSubroutines_only_demotes_witness :
  ∃ d', findLocalLabelsInSubroutines (table := Sample.table) 6
          (with_labels loopSubroutine (newDisassembler loopSubroutineMemory))
        = Ok d'
    ∧ onlyDemoted loopSubroutine (labels d').
Proof.
  destruct (isOk_Ok (findLocalLabelsInSubroutines (table := Sample.table) 6
                       (with_labels loopSubroutine
                          (newDisassembler loopSubroutineMemory))))
    as [d' Hrun]; [vm_compute; reflexivity|].
  exists d'. split; [exact Hrun|].
  exact (proj2 (findLocalLabelsInSubroutines_only_demotes (table := Sample.table)
                  6 _ d' Hrun)).
Defined.

(** ** [countStatistics]: sizes, instruction counts, and the bounds *)

Section Pass10Visits.
Context {table : OpcodeTable}.
Variable m : DisMemory.t.
Variable labels : JsMap.t DisLabel.

(** The array [res] is [arr] with assigned addresses appended that were
    not in it. *)
Definition extendedBy (arr res : list Z) : Prop :=
  ∃ new, res = arr ++ new
    ∧ (NoDup arr → NoDup res)
    ∧ ∀ x, x ∈ new → assignedAt m x.

Lemma extendedBy_refl (arr : list Z) : extendedBy arr arr.
Proof.
  exists []. rewrite app_nil_r. split; [done|]. split; [done|].
  intros x Hx. by apply elem_of_nil in Hx.
Qed.

Lemma extendedBy_trans (arr1 arr2 arr3 : list Z) :
  extendedBy arr1 arr2 → extendedBy arr2 arr3 → extendedBy arr1 arr3.
Proof.
  intros (new1 & -> & Hnd1 & Ha1) (new2 & -> & Hnd2 & Ha2).
  exists (new1 ++ new2). split; [by rewrite app_assoc|].
  split; [auto|]. intros x Hx. apply elem_of_app in Hx as [Hx|Hx]; auto.
Qed.

Lemma extendedBy_visit (arr : list Z) (a : Z) :
  assignedAt m a → a ∉ arr → extendedBy arr (arr ++ [a]).
Proof.
  intros Ha Hnew. exists [a]. split; [done|]. split.
  - intros Hnd. apply NoDup_app. split; [done|]. split; [|apply NoDup_singleton].
    intros x Hx Hx'. apply list_elem_of_singleton in Hx'. by subst.
  - intros x Hx. apply list_elem_of_singleton in Hx. by subst.
Qed.

(** The walk of [countAddressStatistic] visits assigned addresses only,
    and each one once. *)
Lemma countAddressStatistic_loop_visits (fuel : nat) (a : Z) (addresses : list Z)
    (s s' : SubroutineStatistics) (addresses' : list Z) :
  countAddressStatistic_loop fuel m labels a addresses s = Ok (s', addresses') →
  extendedBy addresses addresses'.
Proof.
  revert a addresses s s' addresses'.
  induction fuel as [|fuel IH]; intros a addresses s s' addresses'; simpl; [done|].
  destruct (hasAttr (DisMemory.getAttributeAt m a) MemAttribute.ASSIGNED) eqn:Ha; simpl.
  2:{ intros [= <- <-]. apply extendedBy_refl. }
  case_bool_decide as Hvisited.
  { intros [= <- <-]. apply extendedBy_refl. }
  pose proof (extendedBy_visit addresses a Ha Hvisited) as Hhere.
  set (opcode := getOpcodeAt m a).
  assert (∀ (s2 : SubroutineStatistics) (addresses2 : list Z),
            extendedBy addresses addresses2 →
            (let address := a + length opcode in
             let enteringSub :=
               match JsMap.get address labels with
               | Some nextLabel =>
                   bool_decide (type nextLabel = CODE_SUB)
                   || bool_decide (type nextLabel = CODE_RST)
               | None => false
               end in
             if enteringSub then Ok (s2, addresses2)
             else if hasFlag STOP opcode then Ok (s2, addresses2)
             else countAddressStatistic_loop fuel m labels address addresses2 s2)
            = Ok (s', addresses') →
            extendedBy addresses addresses') as Hrest.
  { intros s2 addresses2 H2. cbv zeta.
    destruct (match JsMap.get (a + length opcode) labels with
              | Some nextLabel => _ | None => false end).
    { by intros [= <- <-]. }
    destruct (hasFlag STOP opcode).
    { by intros [= <- <-]. }
    intros Hloop. apply IH in Hloop. by eapply extendedBy_trans. }
  destruct (hasFlag BRANCH_ADDRESS opcode && negb (hasFlag CALL opcode)); simpl.
  2:{ by apply Hrest. }
  destruct (negb match JsMap.get (value opcode) labels with
                 | Some branchLabel => _ | None => false end); simpl.
  2:{ by apply Hrest. }
  destruct (countAddressStatistic_loop fuel m labels (value opcode) (addresses ++ [a])
              (mkStats 0 0 0)) as [[addStat addresses2]| |] eqn:Hbranch; simpl;
    [|done..].
  apply IH in Hbranch. apply Hrest. by eapply extendedBy_trans.
Qed.

End Pass10Visits.

(** X9. [countStatistics] ends normally when the walks stay inside a
    finite set [U] of addresses and the fuel exceeds the size of [U]; for
    every label that is no EQU and has the type [CODE_SUB], [CODE_RST] or
    [CODE_LBL] the walk visits assigned addresses only and each one once,
    the stored size in bytes is the sum of the lengths of the instructions
    at the visited addresses, and the stored count of instructions is the
    number of visited addresses. *)
Theorem countStatistics_size_and_count {table : OpcodeTable} (fuel : nat)
    (d : Disassembler) (U : gset Z) :
  walkClosed (memory d) U →
  (∀ a l, (a, l) ∈ labels d →
     a ∈ U
     ∨ hasAttr (DisMemory.getAttributeAt (memory d) a) MemAttribute.ASSIGNED = false) →
  (size U < fuel)%nat →
  ∃ d', countStatistics fuel d = Ok d'
    ∧ ∀ a l, (a, l) ∈ labels d → isEqu l = false →
        isSubOrRstOrLbl (type l) = true →
        ∃ stats s0 visited,
          countAddressStatistic fuel d a [] = Ok (s0, visited)
          ∧ subroutineStatistics d' !! a = Some stats
          ∧ NoDup visited
          ∧ (∀ x, x ∈ visited → assignedAt (memory d) x)
          ∧ sizeInBytes stats
            = sumOver (λ x, length (getOpcodeAt (memory d) x)) visited
          ∧ countOfInstructions stats = Z.of_nat (List.length visited).
Proof.
  intros Hclosed Hstart Hfuel.
  assert (∀ a l, (a, l) ∈ labels d →
            ∃ s0 visited, countAddressStatistic fuel d a [] = Ok (s0, visited))
    as Hwalks.
  { intros a l Hin. unfold countAddressStatistic.
    apply (countAddressStatistic_loop_returns (memory d) (labels d) U);
      [done | by eapply Hstart|].
    assert (U ∖ list_to_set [] = U) as -> by set_solver. done. }
  destruct (countStatistics_loop fuel d (labels d) d eq_refl eq_refl)
    as (d' & Hrun & _ & Hstats).
  { intros a l Hin _. by eapply Hwalks. }
  exists d'. split; [exact Hrun|].
  intros a l Hin Hequ Htop.
  destruct (Hwalks a l Hin) as (s0 & visited & Hwalk).
  exists (addDefault s0), s0, visited.
  split; [done|]. split; [by eapply (Hstats a l)|].
  unfold countAddressStatistic in Hwalk.
  pose proof (countAddressStatistic_loop_visits _ _ _ _ _ _ _ _ Hwalk)
    as (new & Hnew & Hnd & Hassigned).
  apply countAddressStatistic_loop_adds in Hwalk as (new' & Hnew' & Hsize & Hcount & _).
  simpl in *. subst. split; [apply Hnd; constructor|]. split; [done|].
  split; [exact Hsize | exact Hcount].
Qed.

Lemma countStatistics_size_and_count_witness :
  ∃ d' stats,
    countStatistics (table := Sample.table) 6 twoConditions = Ok d'
    ∧ subroutineStatistics d' !! 0 = Some stats
    ∧ sizeInBytes stats = 8
    ∧ countOfInstructions stats = 5.
Proof.
  destruct (countStatistics_size_and_count (table := Sample.table) 6 twoConditions
              {[0; 2; 3; 6; 7]} twoConditions_closed) as (d' & Hrun & Hall).
  { intros a l Hin. apply list_elem_of_singleton in Hin as [= -> ->].
    left. clear. set_solver. }
  { vm_compute. lia. }
  destruct (Hall 0 (plainLabel CODE_SUB ∅))
    as (stats & s0 & visited & Hwalk & Hs & _ & _ & Hsize & Hcount).
  { apply list_elem_of_singleton. reflexivity. }
  { reflexivity. }
  { reflexivity. }
  exists d', stats. split; [exact Hrun|]. split; [exact Hs|].
  rewrite Hsize, Hcount.
  assert (countAddressStatistic (table := Sample.table) 6 twoConditions 0 []
          = Ok (mkStats 8 5 2, [0; 2; 3; 6; 7])) as Hwalk'
    by (vm_compute; reflexivity).
  rewrite Hwalk' in Hwalk. injection Hwalk as <- <-.
  split; vm_compute; reflexivity.
Defined.

(** The three statistics of [s] lie between those of [lo] and [hi]. *)
Definition statsWithin (lo s hi : SubroutineStatistics) : Prop :=
  sizeInBytes lo <= sizeInBytes s <= sizeInBytes hi
  ∧ countOfInstructions lo <= countOfInstructions s <= countOfInstructions hi
  ∧ CyclomaticComplexity lo <= CyclomaticComplexity s <= CyclomaticComplexity hi.

(** The stored statistics lie between the stored minimum and maximum. *)
Definition statisticsBounded (d : Disassembler) : Prop :=
  ∀ a s, subroutineStatistics d !! a = Some s →
    statsWithin (statisticsMin d) s (statisticsMax d).

Lemma statsWithin_update (lo s hi s1 : SubroutineStatistics) :
  statsWithin lo s hi → statsWithin (updateMin lo s1) s (updateMax hi s1).
Proof.
  unfold statsWithin, updateMin, updateMax. simpl. intros (H1 & H2 & H3).
  repeat case_bool_decide; lia.
Qed.

Lemma statsWithin_new (lo hi s1 : SubroutineStatistics) :
  statsWithin (updateMin lo s1) s1 (updateMax hi s1).
Proof.
  unfold statsWithin, updateMin, updateMax. simpl.
  repeat case_bool_decide; lia.
Qed.

(** X10. [countStatistics] keeps the statistics it stores between
    [statisticsMin] and [statisticsMax], each of the three numbers on its
    own; a disassembler that has stored none yet is in this state. So the
    cyclomatic complexity of every node of the call graph lies between the
    two bounds of the font size interpolation. *)
Theorem countStatistics_min_max {table : OpcodeTable} (fuel : nat)
    (d d' : Disassembler) :
  countStatistics fuel d = Ok d' → statisticsBounded d → statisticsBounded d'.
Proof.
  unfold countStatistics. intros Hrun Hd. revert Hrun.
  apply (foldM_invariant statisticsBounded); [exact Hd|].
  intros d1 [a l] d2 Hd1 _ Hbody. unfold countStatistics_body in Hbody.
  destruct (isEqu l); [by injection Hbody as <-|].
  destruct (isSubOrRstOrLbl (type l)); [|by injection Hbody as <-].
  destruct (countAddressStatistic fuel d1 a []) as [[s0 visited]| |];
    simpl in Hbody; [|done..].
  injection Hbody as <-. intros a' s Hs. simpl in *.
  destruct (decide (a' = a)) as [->|Hne].
  - rewrite lookup_insert_eq in Hs. injection Hs as <-. apply statsWithin_new.
  - rewrite lookup_insert_ne in Hs by done.
    apply statsWithin_update. by eapply Hd1.
Qed.

Lemma countStatistics_min_max_witness :
  ∃ d', countStatistics (table := Sample.table) 6 twoConditions = Ok d'
    ∧ statisticsBounded d'.
Proof.
  destruct (isOk_Ok (countStatistics (table := Sample.table) 6 twoConditions))
    as [d' Hrun]; [vm_compute; reflexivity|].
  exists d'. split; [exact Hrun|].
  apply (countStatistics_min_max (table := Sample.table) 6 twoConditions d' Hrun).
  intros a s Hs. vm_compute in Hs. discriminate Hs.
Defined.

(** ** Pass 1: what [collectLabels] never does *)

(** The label [l'] is [l] with, at most, a higher type and more
    referrers. *)
Definition labelGrows (l l' : DisLabel) : Prop :=
  NumberType_ltb (type l') (type l) = false
  ∧ references l ⊆ references l'
  ∧ labelName l' = labelName l
  ∧ calls l' = calls l
  ∧ isEqu l' = isEqu l
  ∧ isFixed l' = isFixed l
  ∧ belongsToInterrupt l' = belongsToInterrupt l.

(** Every label is still there, grown at most. *)
Definition labelsGrow (ls ls' : JsMap.t DisLabel) : Prop :=
  ∀ k l, JsMap.get k ls = Some l →
    ∃ l', JsMap.get k ls' = Some l' ∧ labelGrows l l'.

(** The bytes and the [ASSIGNED] flags are the same, and no flag of an
    attribute has been cleared. *)
Definition attributesGrow (m m' : DisMemory.t) : Prop :=
  DisMemory.memory m' = DisMemory.memory m
  ∧ (∀ a, hasAttr (DisMemory.getAttributeAt m' a) MemAttribute.ASSIGNED
          = hasAttr (DisMemory.getAttributeAt m a) MemAttribute.ASSIGNED)
  ∧ (∀ a flag, hasAttr (DisMemory.getAttributeAt m a) flag = true →
               hasAttr (DisMemory.getAttributeAt m' a) flag = true).

(** The state [d'] of the disassembler compared with an earlier state
    [d] of pass 1. *)
Definition pass1Grows (d d' : Disassembler) : Prop :=
  attributesGrow (memory d) (memory d')
  ∧ labelsGrow (labels d) (labels d')
  ∧ (∃ extra, events d' = events d ++ extra)
  ∧ offsetLabels d' = offsetLabels d
  ∧ subroutineStatistics d' = subroutineStatistics d
  ∧ statisticsMax d' = statisticsMax d
  ∧ statisticsMin d' = statisticsMin d
  ∧ disassembledLines d' = disassembledLines d
  ∧ snaStartAddress d' = snaStartAddress d.

Lemma labelGrows_refl (l : DisLabel) : labelGrows l l.
Proof. unfold labelGrows. by rewrite NumberType_ltb_irrefl. Qed.

Lemma labelGrows_trans (l1 l2 l3 : DisLabel) :
  labelGrows l1 l2 → labelGrows l2 l3 → labelGrows l1 l3.
Proof.
  unfold labelGrows, NumberType_ltb. rewrite !Z.ltb_ge.
  intros (H1 & H2 & H3 & H4 & H5 & H6 & H7) (G1 & G2 & G3 & G4 & G5 & G6 & G7).
  split; [lia|]. split; [set_solver|]. repeat split; congruence.
Qed.

Lemma labelsGrow_refl (ls : JsMap.t DisLabel) : labelsGrow ls ls.
Proof. intros k l H. exists l. split; [done | apply labelGrows_refl]. Qed.

Lemma labelsGrow_trans (ls1 ls2 ls3 : JsMap.t DisLabel) :
  labelsGrow ls1 ls2 → labelsGrow ls2 ls3 → labelsGrow ls1 ls3.
Proof.
  intros H12 H23 k l1 H1. destruct (H12 k l1 H1) as (l2 & H2 & G12).
  destruct (H23 k l2 H2) as (l3 & H3 & G23).
  exists l3. split; [done | by eapply labelGrows_trans].
Qed.

Lemma labelsGrow_setFoundLabel (ls : JsMap.t DisLabel) (address : Z)
    (refs : gset Z) (type' : NumberType) (attr : Z) :
  labelsGrow ls (setFoundLabel ls address refs type' attr).
Proof.
  intros k l Hget. destruct (decide (k = address)) as [->|Hne].
  - rewrite setFoundLabel_get_eq, Hget. eexists. split; [done|]. simpl.
    unfold labelGrows. simpl.
    split; [apply NumberType_max_ge_l, NumberType_ltb_irrefl|].
    split; [set_solver | done].
  - rewrite setFoundLabel_get_ne by done. exists l.
    split; [done | apply labelGrows_refl].
Qed.

Lemma attributesGrow_refl (m : DisMemory.t) : attributesGrow m m.
Proof. done. Qed.

Lemma attributesGrow_trans (m1 m2 m3 : DisMemory.t) :
  attributesGrow m1 m2 → attributesGrow m2 m3 → attributesGrow m1 m3.
Proof.
  intros (H1 & H2 & H3) (G1 & G2 & G3).
  split; [congruence|]. split; [intros a; by rewrite G2|]. auto.
Qed.

Lemma attributesGrow_markInstruction (m : DisMemory.t) (address len : Z) :
  attributesGrow m (markInstruction m address len).
Proof.
  split; [done|]. split; [intros a; apply markInstruction_ASSIGNED|].
  intros a flag H. unfold markInstruction. by do 2 apply hasAttr_addAttributeAt_mono.
Qed.

Lemma pass1Grows_refl (d : Disassembler) : pass1Grows d d.
Proof.
  split; [apply attributesGrow_refl|]. split; [apply labelsGrow_refl|].
  split; [exists []; by rewrite app_nil_r | done].
Qed.

Lemma pass1Grows_trans (d1 d2 d3 : Disassembler) :
  pass1Grows d1 d2 → pass1Grows d2 d3 → pass1Grows d1 d3.
Proof.
  intros (H1 & H2 & [e1 H3] & H4 & H5 & H6 & H7 & H8 & H9)
         (G1 & G2 & [e2 G3] & G4 & G5 & G6 & G7 & G8 & G9).
  split; [by eapply attributesGrow_trans|].
  split; [by eapply labelsGrow_trans|].
  split; [exists (e1 ++ e2); by rewrite G3, H3, app_assoc|].
  repeat split; congruence.
Qed.

Lemma pass1Grows_emit (d : Disassembler) (event msg : string) :
  pass1Grows d (emit event msg d).
Proof.
  split; [apply attributesGrow_refl|]. split; [apply labelsGrow_refl|].
  split; [by eexists | done].
Qed.

Lemma pass1Grows_queue (d : Disassembler) (queue : list Z) :
  pass1Grows d (with_addressQueue queue d).
Proof.
  split; [apply attributesGrow_refl|]. split; [apply labelsGrow_refl|].
  split; [exists []; by rewrite app_nil_r | done].
Qed.

Lemma pass1Grows_found (d : Disassembler) (address : Z) (refs : gset Z)
    (type' : NumberType) (attr : Z) :
  pass1Grows d (with_labels (setFoundLabel (labels d) address refs type' attr) d).
Proof.
  split; [apply attributesGrow_refl|]. split; [apply labelsGrow_setFoundLabel|].
  split; [exists []; by rewrite app_nil_r | done].
Qed.

Lemma pass1Grows_marked (d : Disassembler) (address len : Z) :
  pass1Grows d (with_memory (markInstruction (memory d) address len) d).
Proof.
  split; [apply attributesGrow_markInstruction|]. split; [apply labelsGrow_refl|].
  split; [exists []; by rewrite app_nil_r | done].
Qed.

(** The final state of [collectLabels], however it ended. *)
Definition endState (e : CollectEnd) : Disassembler :=
  match e with
  | Finished d => d
  | Aborted d => d
  end.

Section Pass1Invariants.
Context {table : OpcodeTable}.

Lemma disassembleForLabel_grows (d d' : Disassembler) (a : Z) (opcode : Opcode)
    (ok : bool) :
  disassembleForLabel d a opcode = Ok (d', ok) → pass1Grows d d'.
Proof.
  unfold disassembleForLabel.
  destruct (hasFlag BRANCH_ADDRESS opcode).
  - set (attr := DisMemory.getAttributeAt (memory d) (value opcode)).
    set (d1 := with_labels _ d).
    assert (pass1Grows d d1) as H1 by apply pass1Grows_found.
    destruct (hasAttr attr MemAttribute.CODE); simpl.
    + destruct (hasAttr attr MemAttribute.CODE_FIRST); simpl.
      * by intros [= <- <-].
      * destruct (findStartOfOpcode _ _); [|done].
        intros [= <- <-]. eapply pass1Grows_trans; [exact H1|].
        apply pass1Grows_emit.
    + destruct (hasAttr attr MemAttribute.ASSIGNED); intros [= <- <-]; [|done].
      eapply pass1Grows_trans; [exact H1|]. apply pass1Grows_queue.
  - case_bool_decide; intros [= <- <-]; [apply pass1Grows_found|].
    apply pass1Grows_refl.
Qed.

Lemma collectLabels_step_grows (d : Disassembler) (address : Z) (s : TraceStep) :
  collectLabels_step d address = Ok s → pass1Grows d (stepState s).
Proof.
  unfold collectLabels_step. cbv zeta.
  destruct (hasAttr (DisMemory.getAttributeAt (memory d) address) MemAttribute.CODE).
  { intros [= <-]. apply pass1Grows_refl. }
  destruct (hasAttr (DisMemory.getAttributeAt (memory d) address) MemAttribute.ASSIGNED);
    simpl.
  2:{ intros [= <-]. apply pass1Grows_emit. }
  destruct (findPartlyDisassembled _ _ _) as [[memAddress attr]|].
  { destruct (hasAttr attr MemAttribute.CODE_FIRST); [|done].
    intros [= <-]. apply pass1Grows_emit. }
  set (opcode := getOpcodeAt (memory d) address).
  fold (markInstruction (memory d) address (length opcode)).
  destruct (disassembleForLabel _ address opcode) as [[d1 ok]| |] eqn:Hd; simpl;
    [|done..].
  apply disassembleForLabel_grows in Hd.
  assert (pass1Grows d d1) as H1.
  { eapply pass1Grows_trans; [|exact Hd]. apply pass1Grows_marked. }
  destruct ok; simpl; [|by intros [= <-]].
  destruct (hasFlag STOP opcode); by intros [= <-].
Qed.

Lemma collectLabels_trace_grows (fuel : nat) (d d' : Disassembler) (address : Z)
    (goOn : bool) :
  collectLabels_trace fuel d address = Ok (d', goOn) → pass1Grows d d'.
Proof.
  revert d address. induction fuel as [|fuel IH]; intros d address; simpl; [done|].
  destruct (collectLabels_step d address) as [s| |] eqn:Hs; simpl; [|done..].
  apply collectLabels_step_grows in Hs.
  destruct s as [d1 a1|d1|d1]; simpl in Hs.
  - intros Hrec. apply IH in Hrec. by eapply pass1Grows_trans.
  - by intros [= <- <-].
  - by intros [= <- <-].
Qed.

Lemma collectLabels_grows (fuel : nat) (d : Disassembler) (e : CollectEnd) :
  collectLabels fuel d = Ok e → pass1Grows d (endState e).
Proof.
  revert d. induction fuel as [|fuel IH]; intros d; simpl; [done|].
  destruct (addressQueue d) as [|address queue] eqn:Hq.
  { intros [= <-]. apply pass1Grows_refl. }
  destruct (collectLabels_trace fuel (with_addressQueue queue d) address)
    as [[d1 goOn]| |] eqn:Ht; simpl; [|done..].
  apply collectLabels_trace_grows in Ht.
  assert (pass1Grows d d1) as H1.
  { eapply pass1Grows_trans; [|exact Ht]. apply pass1Grows_queue. }
  destruct goOn.
  - intros Hrec. apply IH in Hrec. by eapply pass1Grows_trans.
  - by intros [= <-].
Qed.

End Pass1Invariants.

(** X11. What pass 1 never does, whether it finishes or aborts: it
    changes no byte of the memory and no [ASSIGNED] flag and clears no
    flag of an attribute; it removes no label, lowers no type, drops no
    referrer and changes no name, callee list or flag of a label; it only
    appends to the events, and leaves the offset labels, the statistics,
    the lines and the SNA start address alone. *)
Theorem collectLabels_only_grows {table : OpcodeTable} (fuel : nat)
    (d : Disassembler) (e : CollectEnd) :
  collectLabels fuel d = Ok e → pass1Grows d (endState e).
Proof. apply collectLabels_grows. Qed.

Lemma collectLabels_only_grows_witness :
  ∃ e, collectLabels (table := Sample.table) 10 (with_addressQueue [0] twoConditions)
       = Ok e
    ∧ pass1Grows (with_addressQueue [0] twoConditions) (endState e).
Proof.
  destruct (isOk_Ok (collectLabels (table := Sample.table) 10
                       (with_addressQueue [0] twoConditions)))
    as [e Hrun]; [vm_compute; reflexivity|].
  exists e. split; [exact Hrun|].
  exact (collectLabels_only_grows (table := Sample.table) 10 _ e Hrun).
Defined.

(** ** Pass 1: [collectLabels] returns *)

Section Pass1Termination.
Context {table : OpcodeTable}.

(** Every instruction has one to four bytes. *)
Hypothesis length_1_to_4 : ∀ m a, 1 <= length (getOpcodeAt m a) <= 4.

(** [U] holds the addresses (below 64K) of the assigned bytes that are
    not yet code. *)
Variable U : gset Z.

Definition coversUncoded (m : DisMemory.t) : Prop :=
  ∀ a, hasAttr (DisMemory.getAttributeAt m a) MemAttribute.ASSIGNED = true →
       hasAttr (DisMemory.getAttributeAt m a) MemAttribute.CODE = false →
       mask16 a ∈ U.

(** The addresses of [U] that are not yet code. *)
Definition uncoded (m : DisMemory.t) : gset Z :=
  filter (λ a, hasAttr (DisMemory.getAttributeAt m a) MemAttribute.CODE = false) U.

(** What bounds the rounds that are left: the queued addresses, and two
    for each byte that can still be decoded. *)
Definition potential (d : Disassembler) : nat :=
  (List.length (addressQueue d) + 2 * size (uncoded (memory d)))%nat.

Lemma uncoded_size (m : DisMemory.t) : (size (uncoded m) ≤ size U)%nat.
Proof. apply subseteq_size. unfold uncoded. set_solver. Qed.

Lemma uncoded_mono (m m' : DisMemory.t) :
  attributesGrow m m' → (size (uncoded m') ≤ size (uncoded m))%nat.
Proof.
  intros (_ & _ & Hmono). apply subseteq_size. intros a Ha.
  unfold uncoded in *. apply elem_of_filter in Ha as [Hc HU].
  apply elem_of_filter. split; [|done].
  destruct (hasAttr (DisMemory.getAttributeAt m a) MemAttribute.CODE) eqn:E; [|done].
  apply Hmono in E. congruence.
Qed.

Lemma coversUncoded_grow (m m' : DisMemory.t) :
  attributesGrow m m' → coversUncoded m → coversUncoded m'.
Proof.
  intros (_ & Hassigned & Hmono) Hcov a Ha Hc. apply Hcov.
  - by rewrite <- Hassigned.
  - destruct (hasAttr (DisMemory.getAttributeAt m a) MemAttribute.CODE) eqn:E; [|done].
    apply Hmono in E. congruence.
Qed.

Lemma getAttributeAt_mask16 (m : DisMemory.t) (a : Z) :
  DisMemory.getAttributeAt m (mask16 a) = DisMemory.getAttributeAt m a.
Proof. unfold DisMemory.getAttributeAt. by rewrite mask16_idemp. Qed.

Lemma uncoded_less (m : DisMemory.t) (address len : Z) :
  1 <= len → coversUncoded m →
  hasAttr (DisMemory.getAttributeAt m address) MemAttribute.ASSIGNED = true →
  hasAttr (DisMemory.getAttributeAt m address) MemAttribute.CODE = false →
  (size (uncoded (markInstruction m address len)) < size (uncoded m))%nat.
Proof.
  intros Hlen Hcov Ha Hc. apply subset_size.
  assert (uncoded (markInstruction m address len) ⊆ uncoded m) as Hsub.
  { intros a Hin. unfold uncoded in *. apply elem_of_filter in Hin as [Hc' HU].
    apply elem_of_filter. split; [|done].
    destruct (hasAttr (DisMemory.getAttributeAt m a) MemAttribute.CODE) eqn:E; [|done].
    assert (hasAttr (DisMemory.getAttributeAt (markInstruction m address len) a)
              MemAttribute.CODE = true) by (apply markInstruction_CODE; by left).
    congruence. }
  apply (strict_spec_alt (R := (⊆))). split; [exact Hsub|].
  intros Heq.
  assert (mask16 address ∈ uncoded m) as Hin.
  { unfold uncoded. apply elem_of_filter. rewrite getAttributeAt_mask16.
    split; [done | by apply Hcov]. }
  assert (mask16 address ∉ uncoded (markInstruction m address len)) as Hout.
  { unfold uncoded. rewrite elem_of_filter, getAttributeAt_mask16. intros [Hc' _].
    assert (hasAttr (DisMemory.getAttributeAt (markInstruction m address len) address)
              MemAttribute.CODE = true) as Hc''; [|congruence].
    apply markInstruction_CODE. right. exists 0. split; [lia|].
    by rewrite Z.add_0_r. }
  apply Hout. set_solver.
Qed.

Lemma disassembleForLabel_queue (d d' : Disassembler) (a : Z) (opcode : Opcode)
    (ok : bool) :
  disassembleForLabel d a opcode = Ok (d', ok) →
  memory d' = memory d
  ∧ (List.length (addressQueue d') ≤ S (List.length (addressQueue d)))%nat.
Proof.
  unfold disassembleForLabel.
  destruct (hasFlag BRANCH_ADDRESS opcode).
  - set (attr := DisMemory.getAttributeAt (memory d) (value opcode)).
    destruct (hasAttr attr MemAttribute.CODE); simpl.
    + destruct (hasAttr attr MemAttribute.CODE_FIRST); simpl.
      * intros [= <- <-]. simpl. split; [done | lia].
      * destruct (findStartOfOpcode _ _); [|done].
        intros [= <- <-]. simpl. split; [done | lia].
    + destruct (hasAttr attr MemAttribute.ASSIGNED); intros [= <- <-]; simpl;
        (split; [done|]); [rewrite length_app; simpl; lia | lia].
  - case_bool_decide; intros [= <- <-]; simpl; (split; [done | lia]).
Qed.

(** One round of the inner loop does not raise the potential, and lowers
    it, with the number of bytes to decode, when the loop goes on. *)
Lemma collectLabels_step_potential (d : Disassembler) (address : Z) (s : TraceStep) :
  coversUncoded (memory d) →
  collectLabels_step d address = Ok s →
  (potential (stepState s) ≤ potential d)%nat
  ∧ (size (uncoded (memory (stepState s))) ≤ size (uncoded (memory d)))%nat
  ∧ (∀ d' a', s = StepNext d' a' →
       (potential d' < potential d)%nat
       ∧ (size (uncoded (memory d')) < size (uncoded (memory d)))%nat).
Proof.
  intros Hcov. unfold collectLabels_step. cbv zeta.
  destruct (hasAttr (DisMemory.getAttributeAt (memory d) address) MemAttribute.CODE)
    eqn:Hc.
  { intros [= <-]. simpl. split; [lia|]. split; [lia | done]. }
  destruct (hasAttr (DisMemory.getAttributeAt (memory d) address) MemAttribute.ASSIGNED)
    eqn:Ha; simpl.
  2:{ intros [= <-]. simpl. split; [unfold potential; simpl; lia|].
      split; [lia | done]. }
  destruct (findPartlyDisassembled _ _ _) as [[memAddress attr]|].
  { destruct (hasAttr attr MemAttribute.CODE_FIRST); [|done].
    intros [= <-]. simpl. split; [unfold potential; simpl; lia|].
    split; [lia | done]. }
  set (opcode := getOpcodeAt (memory d) address).
  fold (markInstruction (memory d) address (length opcode)).
  pose proof (uncoded_less (memory d) address (length opcode)
                (proj1 (length_1_to_4 (memory d) address)) Hcov Ha Hc) as Hless.
  destruct (disassembleForLabel _ address opcode) as [[d1 ok]| |] eqn:Hd; simpl;
    [|done..].
  apply disassembleForLabel_queue in Hd as [Hmem Hq]. simpl in Hmem, Hq.
  assert ((potential d1 < potential d)%nat
          ∧ (size (uncoded (memory d1)) < size (uncoded (memory d)))%nat) as Hd1.
  { unfold potential. rewrite Hmem. lia. }
  destruct ok; simpl.
  - destruct (hasFlag STOP opcode); intros [= <-]; simpl;
      (split; [lia|]); (split; [lia|]); [done|].
    by intros d' a' [= <- <-].
  - intros [= <-]. simpl. split; [lia|]. split; [lia | done].
Qed.

(** The inner loop returns when the fuel exceeds the number of bytes that
    can still be decoded. *)
Lemma collectLabels_trace_returns (fuel : nat) (d : Disassembler) (address : Z) :
  attributesConsistent (memory d) → coversUncoded (memory d) →
  (size (uncoded (memory d)) < fuel)%nat →
  ∃ d' goOn, collectLabels_trace fuel d address = Ok (d', goOn)
    ∧ attributesConsistent (memory d') ∧ coversUncoded (memory d')
    ∧ (potential d' ≤ potential d)%nat.
Proof.
  assert (∀ m a, length (getOpcodeAt m a) <= 4) as Hle
    by (intros m a; apply length_1_to_4).
  revert d address. induction fuel as [|fuel IH]; intros d address Hcons Hcov Hfuel;
    [lia|]. simpl.
  destruct (collectLabels_step_cases Hle d address Hcons) as (s & Hs & Hcons' & _).
  rewrite Hs. simpl.
  pose proof (collectLabels_step_grows d address s Hs) as (Hgrow & _).
  pose proof (coversUncoded_grow _ _ Hgrow Hcov) as Hcov'.
  destruct (collectLabels_step_potential d address s Hcov Hs) as (Hpot & Hsize & Hnext).
  destruct s as [d1 a1|d1|d1]; simpl in *.
  - destruct (Hnext d1 a1 eq_refl) as [Hp Hu].
    destruct (IH d1 a1 Hcons' Hcov' ltac:(lia))
      as (d' & goOn & -> & Hc2 & Hv2 & Hp2).
    exists d', goOn. split; [done|]. split; [done|]. split; [done | lia].
  - exists d1, true. done.
  - exists d1, false. done.
Qed.

(** [collectLabels] returns when the fuel exceeds the potential. *)
Lemma collectLabels_returns (fuel : nat) (d : Disassembler) :
  attributesConsistent (memory d) → coversUncoded (memory d) →
  (potential d < fuel)%nat →
  ∃ e, collectLabels fuel d = Ok e
    ∧ attributesConsistent (memory (endState e))
    ∧ (∀ d', e = Finished d' → addressQueue d' = []).
Proof.
  revert d. induction fuel as [|fuel IH]; intros d Hcons Hcov Hfuel; [lia|]. simpl.
  destruct (addressQueue d) as [|address queue] eqn:Hq.
  { exists (Finished d). split; [done|]. split; [done|]. by intros d' [= <-]. }
  assert (potential (with_addressQueue queue d) = pred (potential d)) as Hpot.
  { unfold potential. simpl. rewrite Hq. simpl. lia. }
  assert (0 < potential d)%nat as Hpos.
  { unfold potential. rewrite Hq. simpl. lia. }
  destruct (collectLabels_trace_returns fuel (with_addressQueue queue d) address
              Hcons Hcov) as (d1 & goOn & -> & Hcons1 & Hcov1 & Hpot1).
  { simpl. unfold potential in Hfuel. rewrite Hq in Hfuel. simpl in Hfuel. lia. }
  simpl. destruct goOn.
  - apply IH; [done | done | lia].
  - exists (Aborted d1). split; [done|]. split; [done | done].
Qed.

End Pass1Termination.

(** X12. Pass 1 returns, without a failed assertion and with consistent
    attributes, whenever the instructions have one to four bytes, the
    attributes are consistent at the start, and the fuel exceeds the
    length of the queue plus twice the number of assigned bytes that are
    not yet code; when it returns without an abort the queue is empty. *)
Theorem collectLabels_terminates {table : OpcodeTable} (U : gset Z) (fuel : nat)
    (d : Disassembler) :
  (∀ m a, 1 <= length (getOpcodeAt m a) <= 4) →
  attributesConsistent (memory d) →
  (∀ a, hasAttr (DisMemory.getAttributeAt (memory d) a) MemAttribute.ASSIGNED = true →
        hasAttr (DisMemory.getAttributeAt (memory d) a) MemAttribute.CODE = false →
        mask16 a ∈ U) →
  (List.length (addressQueue d) + 2 * size U < fuel)%nat →
  ∃ e, collectLabels fuel d = Ok e
    ∧ attributesConsistent (memory (endState e))
    ∧ (∀ d', e = Finished d' → addressQueue d' = []).
Proof.
  intros Hlen Hcons Hcov Hfuel.
  apply (collectLabels_returns Hlen U); [done | done|].
  unfold potential. pose proof (uncoded_size Hlen U (memory d)). lia.
Qed.

Lemma Sample_table_length_1_4 (m : DisMemory.t) (a : Z) :
  1 <= @length (Sample.table m a) <= 4.
Proof.
  unfold Sample.table.
  repeat (match goal with |- context [if ?b then _ else _] => destruct b end);
    simpl; lia.
Qed.

(** The bytes that [Sample.setMemory] marks as assigned. *)
Lemma Sample_setMemory_assigned (bytes : list Z) (m : DisMemory.t) (origin x : Z) :
  hasAttr (DisMemory.memoryAttr (Sample.setMemory m origin bytes) x)
    MemAttribute.ASSIGNED = true →
  hasAttr (DisMemory.memoryAttr m x) MemAttribute.ASSIGNED = true
  ∨ ∃ i : nat, (i < List.length bytes)%nat ∧ x = mask16 (origin + Z.of_nat i).
Proof.
  revert m origin. induction bytes as [|b bytes IH]; intros m origin; simpl; [by left|].
  intros H. apply IH in H as [H|(i & Hi & ->)].
  - simpl in H. case_bool_decide as Hx; [|by left].
    right. exists 0%nat. split; [lia|]. by rewrite Z.add_0_r.
  - right. exists (S i). split; [lia|]. f_equal. lia.
Qed.

Lemma collectLabels_terminates_witness :
  ∃ e, collectLabels (table := Sample.table) 18 (with_addressQueue [0] twoConditions)
       = Ok e
    ∧ attributesConsistent (memory (endState e))
    ∧ (∀ d', e = Finished d' → addressQueue d' = []).
Proof.
  apply (collectLabels_terminates (table := Sample.table) {[0; 1; 2; 3; 4; 5; 6; 7]}).
  - apply Sample_table_length_1_4.
  - exact (Sample_setMemory_consistent _ 0).
  - intros a Ha _.
    change (hasAttr
              (DisMemory.memoryAttr
                 (Sample.setMemory Sample.emptyMemory 0
                    [0x06; 0x03; 0x00; 0xC2; 0x02; 0x00; 0xC0; 0xC9]) (mask16 a))
              MemAttribute.ASSIGNED = true) in Ha.
    apply Sample_setMemory_assigned in Ha as [Ha|(i & Hi & ->)]; [discriminate Ha|].
    simpl in Hi. rewrite mask16_small by lia.
    do 8 (destruct i as [|i]; [clear; set_solver|]). lia.
  - vm_compute. lia.
Defined.

(** ** Labels set by the user: [setFixedCodeLabel], [setJmpTable],
    [addAddress0000] *)

(** The label [setFixedCodeLabel] stores. *)
Definition fixedCodeLabel (name : option string) (assigned : bool) : DisLabel :=
  {| type := CODE_LBL; labelName := name; references := ∅; calls := [];
     isEqu := negb assigned; isFixed := true; belongsToInterrupt := false |}.

Lemma setFixedCodeLabel_spec (d : Disassembler) (address : Z) (name : option string) :
  let assigned :=
    hasAttr (DisMemory.getAttributeAt (memory d) address) MemAttribute.ASSIGNED in
  setFixedCodeLabel d address name
  = with_addressQueue (addressQueue d ++ (if assigned then [address] else []))
      (with_labels (JsMap.set address (fixedCodeLabel name assigned) (labels d)) d).
Proof.
  cbv zeta. unfold setFixedCodeLabel. cbv zeta.
  destruct (hasAttr _ MemAttribute.ASSIGNED); simpl; [done|].
  unfold with_addressQueue, with_labels. simpl. by rewrite app_nil_r.
Qed.

(** The words of a table of [rounds] entries at [address]. *)
Fixpoint jmpTargets (m : DisMemory.t) (address : Z) (rounds : nat) : list Z :=
  match rounds with
  | O => []
  | S rounds' =>
      DisMemory_getWordValueAt m address :: jmpTargets m (address + 2) rounds'
  end.

Lemma jmpTargets_lookup (m : DisMemory.t) (rounds : nat) (address : Z) (i : nat) :
  (i < rounds)%nat →
  jmpTargets m address rounds !! i
  = Some (DisMemory_getWordValueAt m (address + 2 * Z.of_nat i)).
Proof.
  revert address i. induction rounds as [|rounds IH]; intros address i Hi; [lia|].
  destruct i as [|i]; simpl.
  - by rewrite Z.add_0_r.
  - rewrite IH by lia. do 2 f_equal. lia.
Qed.

Lemma jmpTargets_length (m : DisMemory.t) (rounds : nat) (address : Z) :
  List.length (jmpTargets m address rounds) = rounds.
Proof.
  revert address. induction rounds as [|rounds IH]; intros address; simpl; [done|].
  by rewrite IH.
Qed.

(** The byte at the address is assigned, as a decidable test. *)
Definition isAssigned (m : DisMemory.t) (a : Z) : bool :=
  hasAttr (DisMemory.getAttributeAt m a) MemAttribute.ASSIGNED.

Lemma setJmpTable_loop_spec (rounds : nat) (d : Disassembler) (address : Z) :
  let d' := setJmpTable_loop rounds d address in
  let targets := jmpTargets (memory d) address rounds in
  memory d' = memory d
  ∧ (∀ k, JsMap.get k (labels d')
          = if bool_decide (k ∈ targets)
            then Some (fixedCodeLabel None (isAssigned (memory d) k))
            else JsMap.get k (labels d))
  ∧ addressQueue d'
    = addressQueue d ++ filter (λ k, isAssigned (memory d) k = true) targets
  ∧ d' = with_addressQueue (addressQueue d') (with_labels (labels d') d).
Proof.
  revert d address. induction rounds as [|rounds IH]; intros d address; cbv zeta.
  { cbn [setJmpTable_loop jmpTargets]. split; [done|]. split.
    - intros k. rewrite bool_decide_eq_false_2; [done|]. apply not_elem_of_nil.
    - split; [by rewrite filter_nil, app_nil_r | by destruct d]. }
  cbn [setJmpTable_loop jmpTargets].
  set (target := DisMemory_getWordValueAt (memory d) address).
  set (d1 := setFixedCodeLabel d target None).
  assert (d1 = with_addressQueue
                 (addressQueue d ++ (if isAssigned (memory d) target
                                     then [target] else []))
                 (with_labels
                    (JsMap.set target
                       (fixedCodeLabel None (isAssigned (memory d) target))
                       (labels d)) d)) as Hd1
    by apply setFixedCodeLabel_spec.
  assert (memory d1 = memory d) as Hm1 by (by rewrite Hd1).
  destruct (IH d1 (address + 2)) as (Hm & Hget & Hq & Hrest).
  rewrite Hm1 in Hget, Hq.
  split; [congruence|]. split; [|split].
  - intros k. rewrite Hget.
    destruct (decide (k = target)) as [->|Hne].
    + rewrite (bool_decide_eq_true_2 (target ∈ target :: _)) by left.
      case_bool_decide; [done|]. rewrite Hd1. simpl.
      apply JsMapFacts.get_set_eq.
    + rewrite (bool_decide_ext (k ∈ target :: jmpTargets (memory d) (address + 2) rounds)
                 (k ∈ jmpTargets (memory d) (address + 2) rounds)).
      2:{ rewrite elem_of_cons. tauto. }
      case_bool_decide; [done|]. rewrite Hd1. simpl.
      by apply JsMapFacts.get_set_ne.
  - rewrite Hq, Hd1. simpl. rewrite <- app_assoc. f_equal.
    rewrite filter_cons. unfold isAssigned at 1.
    fold (isAssigned (memory d) target).
    by destruct (isAssigned (memory d) target).
  - rewrite Hrest at 1. rewrite Hd1. reflexivity.
Qed.

(** X13. [setJmpTable(address, count)] reads [count] words from the
    table; afterwards every address that is a word of the table has a
    fixed [CODE_LBL] without name or referrers, which is an EQU exactly
    when the address is not assigned, whatever label was there before;
    every other label is as before; the assigned ones among the words are
    appended to the queue in the order of the table; the memory and the
    rest of the disassembler are unchanged. *)
Theorem setJmpTable_labels (d : Disassembler) (address count : Z) :
  let d' := setJmpTable d address count in
  let targets := jmpTargets (memory d) address (Z.to_nat count) in
  (∀ i : nat, Z.of_nat i < count →
     targets !! i
     = Some (DisMemory_getWordValueAt (memory d) (address + 2 * Z.of_nat i)))
  ∧ List.length targets = Z.to_nat count
  ∧ (∀ k, k ∈ targets →
       JsMap.get k (labels d')
       = Some (fixedCodeLabel None (isAssigned (memory d) k)))
  ∧ (∀ k, k ∉ targets → JsMap.get k (labels d') = JsMap.get k (labels d))
  ∧ addressQueue d'
    = addressQueue d ++ filter (λ k, isAssigned (memory d) k = true) targets
  ∧ memory d' = memory d
  ∧ d' = with_addressQueue (addressQueue d') (with_labels (labels d') d).
Proof.
  cbv zeta. unfold setJmpTable.
  destruct (setJmpTable_loop_spec (Z.to_nat count) d address)
    as (Hm & Hget & Hq & Hrest).
  split; [intros i Hi; apply jmpTargets_lookup; lia|].
  split; [apply jmpTargets_length|].
  split; [intros k Hk; by rewrite Hget, bool_decide_eq_true_2|].
  split; [intros k Hk; by rewrite Hget, bool_decide_eq_false_2|].
  done.
Qed.

Lemma JsMap_set_set {V} (k : Z) (v w : V) (m : JsMap.t V) :
  JsMap.set k w (JsMap.set k v m) = JsMap.set k w m.
Proof.
  induction m as [|[k' v'] m IH]; simpl.
  - by rewrite bool_decide_eq_true_2.
  - case_bool_decide as E; simpl.
    + by rewrite bool_decide_eq_true_2.
    + rewrite bool_decide_eq_false_2 by done. by rewrite IH.
Qed.

(** [addAddress0000] when address 0 is assigned. *)
Lemma addAddress0000_assigned (d : Disassembler) :
  isAssigned (memory d) 0 = true →
  ∃ l queue, type l = CODE_LBL
    ∧ addAddress0000 d
      = with_addressQueue queue (with_labels (JsMap.set 0 l (labels d)) d).
Proof.
  unfold isAssigned, addAddress0000. intros Ha. rewrite Ha.
  destruct (JsMap.get 0 (labels d)) as [l0|]; cbv zeta.
  - exists (set_type CODE_LBL l0). eexists. split; [done|]. reflexivity.
  - rewrite setFixedCodeLabel_spec. cbv zeta. eexists _, _.
    split; [|reflexivity]. done.
Qed.

(** X14. A second call of [addAddress0000] changes nothing but the
    queue, to which it appends address 0 once more if that address is
    assigned: the label at address 0 that the first call made or turned
    into a [CODE_LBL] stays as it is. *)
Theorem addAddress0000_again (d : Disassembler) :
  let d1 := addAddress0000 d in
  let assigned := isAssigned (memory d) 0 in
  addAddress0000 d1
  = with_addressQueue (addressQueue d1 ++ (if assigned then [0] else [])) d1
  ∧ (assigned = true →
     ∃ l, JsMap.get 0 (labels d1) = Some l ∧ type l = CODE_LBL)
  ∧ (assigned = false → d1 = d).
Proof.
  cbv zeta. destruct (isAssigned (memory d) 0) eqn:Ha.
  2:{ assert (addAddress0000 d = d) as Hd.
      { unfold addAddress0000. unfold isAssigned in Ha. by rewrite Ha. }
      rewrite !Hd. split; [|done]. rewrite app_nil_r. by destruct d. }
  destruct (addAddress0000_assigned d Ha) as (l & queue & Ht & ->).
  set (d1 := with_addressQueue queue _).
  assert (JsMap.get 0 (labels d1) = Some l) as Hl by apply JsMapFacts.get_set_eq.
  split; [|split; [by exists l | done]].
  unfold addAddress0000.
  change (memory d1) with (memory d). unfold isAssigned in Ha. rewrite Ha, Hl.
  cbv zeta.
  assert (set_type CODE_LBL l = l) as -> by (destruct l; simpl in *; by subst).
  assert (JsMap.set 0 l (labels d1) = labels d1) as Hset by apply JsMap_set_set.
  unfold with_labels at 1 2. rewrite Hset. by destruct d1.
Qed.

(** ** [setSpecialLabels]: the starts of the memory areas *)

Lemma hasAttr_ASSIGNED_testbit (a : Z) :
  hasAttr a MemAttribute.ASSIGNED = Z.testbit a 0.
Proof.
  unfold hasAttr, MemAttribute.ASSIGNED. change 1 with (Z.ones 1).
  rewrite Z.land_ones by lia. change (2 ^ 1) with 2.
  rewrite Z.bit0_odd, Zmod_odd. by destruct (Z.odd a).
Qed.

Lemma hasAttr_lxor_ASSIGNED (p q : Z) :
  hasAttr (Z.lxor p q) MemAttribute.ASSIGNED
  = xorb (hasAttr p MemAttribute.ASSIGNED) (hasAttr q MemAttribute.ASSIGNED).
Proof. rewrite !hasAttr_ASSIGNED_testbit. apply Z.lxor_spec. Qed.

Section SpecialLabelsFacts.
Context {format : FormatLib}.

(** The label that marks the start of a memory area. *)
Definition binStartLabel (addr : Z) : DisLabel :=
  set_labelName (Some ("BIN_START_" +:+ toUpperCase (getHexString addr)))
    (newDisLabel DATA_LBL).

(** The attribute the loop remembers when it is at [k], having started at
    [addr] with [prevAttr]. *)
Definition prevAttrAt (m : DisMemory.t) (addr prevAttr k : Z) : Z :=
  if bool_decide (k = addr) then prevAttr else DisMemory.getAttributeAt m (k - 1).

(** The byte at [k] is assigned and [prev] is the attribute of a byte
    that is not. *)
Definition startsArea (m : DisMemory.t) (prev k : Z) : bool :=
  hasAttr (Z.lxor prev (DisMemory.getAttributeAt m k)) MemAttribute.ASSIGNED
  && hasAttr (DisMemory.getAttributeAt m k) MemAttribute.ASSIGNED.

Lemma setSpecialLabels_loop_spec (rounds : nat) (d : Disassembler) (addr prevAttr : Z) :
  let d' := setSpecialLabels_loop rounds d addr prevAttr in
  d' = with_labels (labels d') d
  ∧ ∀ k, JsMap.get k (labels d')
         = match JsMap.get k (labels d) with
           | Some l => Some l
           | None =>
               if bool_decide (addr <= k < addr + Z.of_nat rounds)
                  && startsArea (memory d) (prevAttrAt (memory d) addr prevAttr k) k
               then Some (binStartLabel k)
               else None
           end.
Proof.
  revert d addr prevAttr. induction rounds as [|rounds IH]; intros d addr prevAttr;
    cbv zeta.
  { cbn [setSpecialLabels_loop]. split; [by destruct d|]. intros k.
    rewrite bool_decide_eq_false_2 by lia. by destruct (JsMap.get k (labels d)). }
  cbn [setSpecialLabels_loop]. cbv zeta.
  set (memAttr := DisMemory.getAttributeAt (memory d) addr).
  set (d1 := if hasAttr (Z.lxor prevAttr memAttr) MemAttribute.ASSIGNED then _ else d).
  assert (d1 = with_labels (labels d1) d
          ∧ ∀ k, JsMap.get k (labels d1)
                 = match JsMap.get k (labels d) with
                   | Some l => Some l
                   | None =>
                       if bool_decide (k = addr) && startsArea (memory d) prevAttr k
                       then Some (binStartLabel k)
                       else None
                   end) as [Hd1 Hget1].
  { unfold d1, startsArea. fold memAttr.
    assert (d = with_labels (labels d) d) as Hsame by (by destruct d).
    destruct (hasAttr (Z.lxor prevAttr memAttr) MemAttribute.ASSIGNED) eqn:Hx.
    2:{ split; [done|]. intros k. destruct (JsMap.get k (labels d)); [done|].
        case_bool_decide as Hk; [|done]. subst k. fold memAttr. by rewrite Hx. }
    destruct (hasAttr memAttr MemAttribute.ASSIGNED) eqn:Ha.
    2:{ split; [done|]. intros k. destruct (JsMap.get k (labels d)); [done|].
        case_bool_decide as Hk; [|done]. subst k. fold memAttr.
        by rewrite Ha, andb_false_r. }
    destruct (JsMap.get addr (labels d)) as [l0|] eqn:Hl0.
    { split; [done|]. intros k. destruct (JsMap.get k (labels d)) eqn:Hk; [done|].
      case_bool_decide as Hk'; [|done]. subst k. congruence. }
    unfold setLabel. cbv zeta. fold memAttr. rewrite Ha. simpl.
    split; [done|]. intros k. destruct (decide (k = addr)) as [->|Hne].
    - rewrite JsMapFacts.get_set_eq, Hl0, bool_decide_eq_true_2 by done.
      fold memAttr. by rewrite Hx, Ha.
    - rewrite JsMapFacts.get_set_ne by done.
      destruct (JsMap.get k (labels d)); [done|].
      by rewrite bool_decide_eq_false_2. }
  assert (memory d1 = memory d) as Hm1 by (by rewrite Hd1).
  destruct (IH d1 (addr + 1) memAttr) as [Hd' Hget'].
  split.
  { rewrite Hd' at 1. rewrite Hd1. reflexivity. }
  intros k. rewrite Hget', Hget1, Hm1.
  destruct (JsMap.get k (labels d)) as [l|]; [done|].
  destruct (decide (k = addr)) as [->|Hne].
  - rewrite (bool_decide_eq_true_2 (addr = addr)) by done.
    rewrite (bool_decide_eq_true_2 (addr <= addr < _)) by lia.
    unfold prevAttrAt at 2. rewrite (bool_decide_eq_true_2 (addr = addr)) by done.
    simpl. destruct (startsArea (memory d) prevAttr addr); [done|].
    by rewrite (bool_decide_eq_false_2 (addr + 1 <= addr < _)) by lia.
  - rewrite (bool_decide_eq_false_2 (k = addr)) by done. simpl.
    rewrite (bool_decide_ext (addr + 1 <= k < addr + 1 + Z.of_nat rounds)
               (addr <= k < addr + Z.of_nat (S rounds))) by lia.
    assert (prevAttrAt (memory d) (addr + 1) memAttr k
            = prevAttrAt (memory d) addr prevAttr k) as ->; [|done].
    unfold prevAttrAt. rewrite (bool_decide_eq_false_2 (k = addr)) by done.
    case_bool_decide as Hk; [|done]. subst k. unfold memAttr. f_equal. lia.
Qed.

End SpecialLabelsFacts.

(** X15. [setSpecialLabels] leaves the memory and every label that
    exists alone. Afterwards every assigned address from 0 to 65535 whose
    predecessor is not assigned (or that is address 0) has a label. A
    label it creates is the [CODE_LBL] at the SNA start address, if that
    is set, or a [DATA_LBL] named [BIN_START_] and the address in
    hexadecimal at such a start of an area; only the former can add an
    address to the queue. *)
Theorem setSpecialLabels_marks_areas {format : FormatLib} (d : Disassembler) :
  let d' := setSpecialLabels d in
  let m := memory d in
  let areaStart a :=
    0 <= a < MAX_MEM_SIZE ∧ isAssigned m a = true
    ∧ (a = 0 ∨ isAssigned m (a - 1) = false) in
  d' = with_addressQueue (addressQueue d') (with_labels (labels d') d)
  ∧ (∀ k l, JsMap.get k (labels d) = Some l → JsMap.get k (labels d') = Some l)
  ∧ (∀ a, areaStart a → is_Some (JsMap.get a (labels d')))
  ∧ (∀ k l', JsMap.get k (labels d) = None → JsMap.get k (labels d') = Some l' →
       (k = snaStartAddress d ∧ 0 <= k ∧ type l' = CODE_LBL)
       ∨ (areaStart k ∧ l' = binStartLabel k))
  ∧ (addressQueue d' = addressQueue d
     ∨ addressQueue d' = addressQueue d ++ [snaStartAddress d]).
Proof.
  cbv zeta. unfold setSpecialLabels.
  set (d0 := if bool_decide (snaStartAddress d >= 0) then _ else d).
  assert (memory d0 = memory d
          ∧ d0 = with_addressQueue (addressQueue d0) (with_labels (labels d0) d)
          ∧ (∀ k l, JsMap.get k (labels d) = Some l → JsMap.get k (labels d0) = Some l)
          ∧ (∀ k l', JsMap.get k (labels d) = None → JsMap.get k (labels d0) = Some l' →
               k = snaStartAddress d ∧ 0 <= k ∧ type l' = CODE_LBL)
          ∧ (addressQueue d0 = addressQueue d
             ∨ addressQueue d0 = addressQueue d ++ [snaStartAddress d]))
    as (Hm0 & Hd0 & Hkeep0 & Hnew0 & Hq0).
  { unfold d0.
    assert (d = with_addressQueue (addressQueue d) (with_labels (labels d) d)) as Hsame
      by (by destruct d).
    case_bool_decide as Hsna.
    2:{ split; [done|]. split; [done|]. split; [done|].
        split; [intros k l' H1 H2; congruence | by left]. }
    destruct (JsMap.get (snaStartAddress d) (labels d)) as [l0|] eqn:Hl0.
    { split; [done|]. split; [done|]. split; [done|].
      split; [intros k l' H1 H2; congruence | by left]. }
    unfold setLabel. cbv zeta.
    destruct (hasAttr _ MemAttribute.ASSIGNED); simpl.
    - split; [done|]. split; [done|]. split.
      + intros k l Hk. rewrite JsMapFacts.get_set_ne; [done|]. congruence.
      + split; [|by right]. intros k l' Hk Hk'.
        destruct (decide (k = snaStartAddress d)) as [->|Hne].
        * rewrite JsMapFacts.get_set_eq in Hk'. injection Hk' as <-.
          split; [done|]. split; [lia | done].
        * rewrite JsMapFacts.get_set_ne in Hk' by done. congruence.
    - split; [done|]. split; [done|]. split.
      + intros k l Hk. rewrite JsMapFacts.get_set_ne; [done|]. congruence.
      + split; [|by left]. intros k l' Hk Hk'.
        destruct (decide (k = snaStartAddress d)) as [->|Hne].
        * rewrite JsMapFacts.get_set_eq in Hk'. injection Hk' as <-.
          split; [done|]. split; [lia | done].
        * rewrite JsMapFacts.get_set_ne in Hk' by done. congruence. }
  assert (∃ R, R = Z.to_nat MAX_MEM_SIZE ∧ Z.of_nat R = MAX_MEM_SIZE)
    as (R & HR & HRz)
    by (eexists; split; [reflexivity | rewrite Z2Nat.id; unfold MAX_MEM_SIZE; lia]).
  rewrite <- HR. clear HR.
  destruct (setSpecialLabels_loop_spec R d0 0 0) as [Hd' Hget].
  set (d' := setSpecialLabels_loop _ d0 0 0) in *.
  rewrite Hm0, Z.add_0_l, HRz in Hget.
  assert (∀ k, 0 <= k < MAX_MEM_SIZE →
            startsArea (memory d) (prevAttrAt (memory d) 0 0 k) k = true
            ↔ isAssigned (memory d) k = true
              ∧ (k = 0 ∨ isAssigned (memory d) (k - 1) = false)) as Hstart.
  { intros k Hk. unfold startsArea, prevAttrAt, isAssigned.
    rewrite hasAttr_lxor_ASSIGNED, andb_true_iff.
    case_bool_decide as Hk0.
    - subst k. change (hasAttr 0 MemAttribute.ASSIGNED) with false.
      rewrite xorb_false_l. tauto.
    - destruct (hasAttr (DisMemory.getAttributeAt (memory d) (k - 1))
                  MemAttribute.ASSIGNED);
        destruct (hasAttr (DisMemory.getAttributeAt (memory d) k)
                    MemAttribute.ASSIGNED); simpl; intuition (done || lia). }
  assert (addressQueue d' = addressQueue d0) as Hq' by (by rewrite Hd').
  split.
  { rewrite Hq'. rewrite Hd' at 1. rewrite Hd0 at 1. reflexivity. }
  split.
  { intros k l Hk. rewrite Hget. by rewrite (Hkeep0 k l Hk). }
  split.
  { intros a (Hrange & Ha & Hprev). rewrite Hget.
    destruct (JsMap.get a (labels d0)); [done|].
    rewrite bool_decide_eq_true_2 by done.
    rewrite (proj2 (Hstart a Hrange)) by done. done. }
  split; [|by rewrite Hq'].
  intros k l' Hk Hk'. rewrite Hget in Hk'.
  destruct (JsMap.get k (labels d0)) as [l0|] eqn:Hl0.
  - injection Hk' as <-. left. by apply Hnew0.
  - destruct (bool_decide (0 <= k < MAX_MEM_SIZE)) eqn:Hr; simpl in Hk'; [|done].
    apply bool_decide_eq_true_1 in Hr. rename Hr into Hrange.
    destruct (startsArea (memory d) (prevAttrAt (memory d) 0 0 k) k) eqn:Hs; [|done].
    injection Hk' as <-. right. split; [|done].
    split; [done|]. by apply Hstart.
Qed.

(** ** [addFlowThroughReferences] *)


Lemma JsMap_get_keys {V} (k : Z) (m : JsMap.t V) :
  is_Some (JsMap.get k m) ↔ k ∈ JsMap.keys m.
Proof.
  unfold JsMap.keys. induction m as [|[k' v'] m IH]; simpl.
  - split; [intros [? [=]] | intros H; by apply elem_of_nil in H].
  - case_bool_decide as E.
    + subst. split; [intros _; left | by eexists].
    + rewrite IH, elem_of_cons. split; [by right | intros [->|H]; done].
Qed.

Section FlowThroughFacts.
Context {table : OpcodeTable}.
Variable m : DisMemory.t.






Variable fuel : nat.
Variable labels0 : JsMap.t DisLabel.







End FlowThroughFacts.




(** ** [turnLBLintoSUB] and [findRET] *)

Section FindRetFacts.
Context {table : OpcodeTable}.
Variable m : DisMemory.t.
Variable labels : JsMap.t DisLabel.

(** The address has a label that is a subroutine already. *)
Definition subAt (a : Z) : bool :=
  match JsMap.get a labels with
  | Some addrLabel =>
      bool_decide (type addrLabel = CODE_SUB) || bool_decide (type addrLabel = CODE_RST)
  | None => false
  end.

(** The mnemonic of the instruction at the address starts with [RET],
    whatever the case of its letters. *)
Definition retAt (a : Z) : bool :=
  String.prefix "RET" (toUpperCase (name (getOpcodeAt m a))).

(** Where the walk answers [true]. *)
Definition retTarget (a : Z) : Prop :=
  assignedAt m a ∧ (subAt a = true ∨ retAt a = true).

(** Where the walk goes on. *)
Definition passesAt (a : Z) : Prop :=
  assignedAt m a ∧ subAt a = false ∧ retAt a = false.

(** The flow the walk follows. *)
Inductive retFlow (a : Z) : Z → Prop :=
  | retFlow_branch :
      passesAt a →
      hasFlag BRANCH_ADDRESS (getOpcodeAt m a) = true →
      hasFlag CALL (getOpcodeAt m a) = false →
      retFlow a (value (getOpcodeAt m a))
  | retFlow_next :
      passesAt a →
      hasFlag STOP (getOpcodeAt m a) = false →
      retFlow a (a + length (getOpcodeAt m a)).

(** What a call of [findRET] at [a] with the array [V] returns. *)
Definition retWalked (a : Z) (V : list Z) (b : bool) (V' : list Z) : Prop :=
  ∃ new, V' = V ++ new
    ∧ (∀ x, x ∈ new → passesAt x ∧ rtc retFlow a x)
    ∧ (b = true → ∃ x, rtc retFlow a x ∧ retTarget x)
    ∧ (b = false →
       (assignedAt m a → a ∈ V')
       ∧ ∀ x, x ∈ new → ∀ y, retFlow x y → assignedAt m y → y ∈ V').

Lemma findRET_walked (fuel : nat) (a : Z) (V : list Z) (b : bool) (V' : list Z) :
  (∀ v, v ∈ V → passesAt v) →
  findRET fuel m labels a V = Ok (b, V') → retWalked a V b V'.
Proof.
  revert a V b V'. induction fuel as [|fuel IH]; intros a V b V' HV; simpl; [done|].
  destruct (hasAttr (DisMemory.getAttributeAt m a) MemAttribute.ASSIGNED) eqn:Ha; simpl.
  2:{ intros [= <- <-]. exists []. rewrite app_nil_r. split; [done|].
      split; [intros x Hx; by apply elem_of_nil in Hx|]. split; [done|].
      intros _. split; [unfold assignedAt; congruence|].
      intros x Hx. by apply elem_of_nil in Hx. }
  case_bool_decide as Hseen.
  { intros [= <- <-]. exists []. rewrite app_nil_r. split; [done|].
    split; [intros x Hx; by apply elem_of_nil in Hx|]. split; [done|].
    intros _. split; [done|]. intros x Hx. by apply elem_of_nil in Hx. }
  fold (subAt a). destruct (subAt a) eqn:Hsub.
  { intros [= <- <-]. exists []. rewrite app_nil_r. split; [done|].
    split; [intros x Hx; by apply elem_of_nil in Hx|]. split; [|done].
    intros _. exists a. split; [done|]. split; [done | by left]. }
  fold (retAt a). destruct (retAt a) eqn:Hret.
  { intros [= <- <-]. exists []. rewrite app_nil_r. split; [done|].
    split; [intros x Hx; by apply elem_of_nil in Hx|]. split; [|done].
    intros _. exists a. split; [done|]. split; [done | by right]. }
  assert (passesAt a) as Hpass by done.
  set (opcode := getOpcodeAt m a).
  assert (∀ new2,
            (∀ x, x ∈ new2 → passesAt x ∧ rtc retFlow a x) →
            (∀ x, x ∈ new2 → ∀ y, retFlow x y → assignedAt m y →
                  y ∈ (V ++ [a]) ++ new2) →
            (hasFlag BRANCH_ADDRESS opcode = true → hasFlag CALL opcode = false →
             assignedAt m (value opcode) → value opcode ∈ (V ++ [a]) ++ new2) →
            (if hasFlag STOP opcode then Ok (false, (V ++ [a]) ++ new2)
             else findRET fuel m labels (a + length opcode) ((V ++ [a]) ++ new2))
            = Ok (b, V') →
            retWalked a V b V') as Htail.
  { intros new2 Hnew2 Hclosed2 Htarget.
    assert (∀ y, retFlow a y → assignedAt m y →
              y = value opcode ∧ hasFlag BRANCH_ADDRESS opcode = true
              ∧ hasFlag CALL opcode = false
              ∨ y = a + length opcode ∧ hasFlag STOP opcode = false) as Hsucc.
    { intros y Hflow _. inversion Hflow; subst; [left | right]; done. }
    destruct (hasFlag STOP opcode) eqn:Hstop.
    - intros [= <- <-]. exists (a :: new2).
      split; [by rewrite <- app_assoc|].
      split.
      { intros x Hx. apply elem_of_cons in Hx as [->|Hx]; [done | by apply Hnew2]. }
      split; [done|]. intros _. split.
      { intros _. rewrite !elem_of_app, list_elem_of_singleton. tauto. }
      intros x Hx y Hflow Hy. apply elem_of_cons in Hx as [->|Hx];
        [|by eapply Hclosed2].
      destruct (Hsucc y Hflow Hy) as [(-> & H1 & H2)|(-> & H1)]; [|congruence].
      by apply Htarget.
    - intros Hrec. apply IH in Hrec as (new3 & -> & Hnew3 & Htrue & Hfalse).
      2:{ intros v Hv. apply elem_of_app in Hv as [Hv|Hv]; [|by apply Hnew2].
          apply elem_of_app in Hv as [Hv|Hv]; [by apply HV|].
          apply list_elem_of_singleton in Hv. by subst. }
      exists (a :: new2 ++ new3).
      split; [by rewrite <- !app_assoc|].
      split.
      { intros x Hx. apply elem_of_cons in Hx as [->|Hx]; [done|].
        apply elem_of_app in Hx as [Hx|Hx]; [by apply Hnew2|].
        destruct (Hnew3 x Hx) as [H1 H2]. split; [done|].
        eapply rtc_l; [|exact H2]. by apply retFlow_next. }
      split.
      { intros Hb. destruct (Htrue Hb) as (x & Hx & Ht). exists x. split; [|done].
        eapply rtc_l; [|exact Hx]. by apply retFlow_next. }
      intros Hb. destruct (Hfalse Hb) as [Hstart3 Hclosed3]. split.
      { intros _. rewrite !elem_of_app, list_elem_of_singleton. tauto. }
      intros x Hx y Hflow Hy. apply elem_of_cons in Hx as [->|Hx].
      + destruct (Hsucc y Hflow Hy) as [(-> & H1 & H2)|(-> & H1)].
        * apply elem_of_app. left. by apply Htarget.
        * by apply Hstart3.
      + apply elem_of_app in Hx as [Hx|Hx].
        * apply elem_of_app. left. by eapply Hclosed2.
        * by eapply Hclosed3. }
  destruct (hasFlag BRANCH_ADDRESS opcode && negb (hasFlag CALL opcode)) eqn:Hb.
  - apply andb_true_iff in Hb as [Hb1 Hb2]. apply negb_true_iff in Hb2.
    destruct (findRET fuel m labels (value opcode) (V ++ [a]))
      as [[res V2]| |] eqn:Hrec; simpl; [|done..].
    apply IH in Hrec as (new2 & -> & Hnew2 & Htrue & Hfalse).
    2:{ intros v Hv. apply elem_of_app in Hv as [Hv|Hv]; [by apply HV|].
        apply list_elem_of_singleton in Hv. by subst. }
    assert (∀ x, x ∈ new2 → passesAt x ∧ rtc retFlow a x) as Hnew2'.
    { intros x Hx. destruct (Hnew2 x Hx) as [H1 H2]. split; [done|].
      eapply rtc_l; [|exact H2]. by apply retFlow_branch. }
    destruct res.
    + intros [= <- <-]. exists (a :: new2).
      split; [by rewrite <- app_assoc|].
      split.
      { intros x Hx. apply elem_of_cons in Hx as [->|Hx]; [done | by apply Hnew2']. }
      split; [|done]. intros _. destruct (Htrue eq_refl) as (x & Hx & Ht).
      exists x. split; [|done]. eapply rtc_l; [|exact Hx]. by apply retFlow_branch.
    + destruct (Hfalse eq_refl) as [Hstart2 Hclosed2].
      apply Htail; [done | done|]. intros _ _. exact Hstart2.
  - simpl. intros Hrest. apply (Htail []).
    + intros x Hx. by apply elem_of_nil in Hx.
    + intros x Hx. by apply elem_of_nil in Hx.
    + intros H1 H2. rewrite H1, H2 in Hb. discriminate Hb.
    + by rewrite app_nil_r.
Qed.

(** [findRET] answers [true] exactly when the flow reaches a [RET] or a
    label that is a subroutine. *)
Lemma findRET_finds (fuel : nat) (a : Z) (b : bool) (V' : list Z) :
  findRET fuel m labels a [] = Ok (b, V') →
  b = true ↔ ∃ x, rtc retFlow a x ∧ retTarget x.
Proof.
  intros Hrun. apply findRET_walked in Hrun as (new & -> & Hnew & Htrue & Hfalse).
  2:{ intros v Hv. by apply elem_of_nil in Hv. }
  split; [exact Htrue|]. intros (x & Hreach & Hx & Htarget).
  destruct b; [done|]. exfalso.
  destruct (Hfalse eq_refl) as [Hstart Hclosed]. simpl in *.
  assert (∀ z, rtc retFlow a z → assignedAt m z → z ∈ new) as Hall.
  { apply (rtc_ind_r (λ z, assignedAt m z → z ∈ new)).
    - exact Hstart.
    - intros y z _ Hflow IHy Hz. eapply Hclosed; [|exact Hflow | exact Hz].
      apply IHy. by inversion Hflow as [[? _]|[? _]]. }
  destruct (Hnew x (Hall x Hreach Hx)) as [(_ & H1 & H2) _].
  destruct Htarget; congruence.
Qed.

Lemma findRET_extends (fuel : nat) (a : Z) (V : list Z) (b : bool) (V' : list Z) :
  findRET fuel m labels a V = Ok (b, V') → ∃ new, V' = V ++ new.
Proof.
  revert a V b V'. induction fuel as [|fuel IH]; intros a V b V'; simpl; [done|].
  destruct (negb _); [intros [= <- <-]; exists []; by rewrite app_nil_r|].
  case_bool_decide; [intros [= <- <-]; exists []; by rewrite app_nil_r|].
  destruct (match JsMap.get a labels with Some _ => _ | None => false end);
    [intros [= <- <-]; exists []; by rewrite app_nil_r|].
  destruct (String.prefix _ _); [intros [= <- <-]; exists []; by rewrite app_nil_r|].
  set (opcode := getOpcodeAt m a).
  assert (∀ new2,
            (if hasFlag STOP opcode then Ok (false, (V ++ [a]) ++ new2)
             else findRET fuel m labels (a + length opcode) ((V ++ [a]) ++ new2))
            = Ok (b, V') → ∃ new, V' = V ++ new) as Htail.
  { intros new2. destruct (hasFlag STOP opcode).
    - intros [= <- <-]. exists ([a] ++ new2). by rewrite app_assoc.
    - intros Hrec. apply IH in Hrec as (new3 & ->).
      exists (([a] ++ new2) ++ new3). by rewrite !app_assoc. }
  destruct (hasFlag BRANCH_ADDRESS opcode && negb (hasFlag CALL opcode)); simpl.
  - destruct (findRET fuel m labels (value opcode) (V ++ [a]))
      as [[res V2]| |] eqn:Hrec; simpl; [|done..].
    apply IH in Hrec as (new2 & ->). destruct res; [|apply Htail].
    intros [= <- <-]. exists ([a] ++ new2). by rewrite app_assoc.
  - intros Hrest. apply (Htail []). by rewrite app_nil_r.
Qed.

Lemma findRET_returns (U : gset Z) (fuel : nat) (a : Z) (V : list Z) :
  walkClosed m U →
  a ∈ U ∨ hasAttr (DisMemory.getAttributeAt m a) MemAttribute.ASSIGNED = false →
  (size (U ∖ list_to_set V) < fuel)%nat →
  ∃ b V', findRET fuel m labels a V = Ok (b, V').
Proof.
  intros Hclosed. revert a V.
  induction fuel as [|fuel IH]; intros a V Ha Hfuel; [lia|]. simpl.
  destruct (hasAttr (DisMemory.getAttributeAt m a) MemAttribute.ASSIGNED) eqn:Hassigned;
    simpl; [|by eexists _, _].
  destruct Ha as [Ha|Ha]; [|done].
  case_bool_decide as Hseen; [by eexists _, _|].
  destruct (match JsMap.get a labels with Some _ => _ | None => false end);
    [by eexists _, _|].
  destruct (String.prefix _ _); [by eexists _, _|].
  pose proof (unvisited_less U V a Ha Hseen) as Hless.
  destruct (Hclosed a Ha) as [Hnext Htarget].
  set (opcode := getOpcodeAt m a) in *.
  assert (∀ new2,
            ∃ b V', (if hasFlag STOP opcode then Ok (false, (V ++ [a]) ++ new2)
                     else findRET fuel m labels (a + length opcode)
                            ((V ++ [a]) ++ new2)) = Ok (b, V')) as Htail.
  { intros new2. destruct (hasFlag STOP opcode); [by eexists _, _|].
    apply IH; [done|].
    pose proof (unvisited_mono U (V ++ [a]) new2). lia. }
  destruct (hasFlag BRANCH_ADDRESS opcode) eqn:Hb; simpl.
  2:{ specialize (Htail []). by rewrite app_nil_r in Htail. }
  destruct (negb (hasFlag CALL opcode)); simpl.
  2:{ specialize (Htail []). by rewrite app_nil_r in Htail. }
  destruct (IH (value opcode) (V ++ [a]) (Htarget eq_refl) ltac:(lia))
    as (res & V2 & Hrec).
  rewrite Hrec. simpl.
  apply findRET_extends in Hrec as (new2 & ->).
  destruct res; [by eexists _, _ | apply Htail].
Qed.

End FindRetFacts.

(** X17. The round of [turnLBLintoSUB] for a [CODE_LBL] turns it into a
    [CODE_SUB] exactly when the program flow from its address (through
    targets of branches that are no calls and through the instructions
    after those without [STOP] flag) reaches, over assigned addresses
    that have no subroutine label, an instruction whose mnemonic starts
    with [RET] in any case, or an address with a [CODE_SUB] or [CODE_RST]
    label; otherwise the labels stay as they are. The round returns when
    the walk stays inside a finite set [U] and the fuel exceeds its size. *)
Theorem turnLBLintoSUB_body_promotes {table : OpcodeTable} (fuel : nat)
    (m : DisMemory.t) (labels : JsMap.t DisLabel) (U : gset Z) (A : Z)
    (l : DisLabel) :
  walkClosed m U →
  A ∈ U ∨ hasAttr (DisMemory.getAttributeAt m A) MemAttribute.ASSIGNED = false →
  (size U < fuel)%nat →
  JsMap.get A labels = Some l → type l = CODE_LBL →
  ∃ labels', turnLBLintoSUB_body fuel m labels A = Ok labels'
    ∧ (((∃ x, rtc (retFlow m labels) A x ∧ retTarget m labels x)
        ∧ labels' = JsMap.set A (set_type CODE_SUB l) labels)
       ∨ ((¬ ∃ x, rtc (retFlow m labels) A x ∧ retTarget m labels x)
          ∧ labels' = labels)).
Proof.
  intros Hclosed HA Hfuel Hl Htype. unfold turnLBLintoSUB_body.
  rewrite Hl, Htype, bool_decide_eq_true_2 by done.
  destruct (findRET_returns m labels U fuel A [] Hclosed HA) as (b & V' & Hrun).
  { assert (U ∖ list_to_set [] = U) as -> by set_solver. done. }
  rewrite Hrun. simpl.
  pose proof (findRET_finds m labels fuel A b V' Hrun) as Hiff.
  destruct b; eexists; (split; [done|]).
  - left. split; [by apply Hiff | done].
  - right. split; [|done]. intros H. apply Hiff in H. discriminate H.
Qed.

Lemma turnLBLintoSUB_body_promotes_witness :
  ∃ labels',
    turnLBLintoSUB_body (table := Sample.table) 6 (memory twoConditions)
      [(0, plainLabel CODE_LBL ∅)] 0 = Ok labels'
    ∧ (((∃ x, rtc (retFlow (table := Sample.table) (memory twoConditions)
                     [(0, plainLabel CODE_LBL ∅)]) 0 x
              ∧ retTarget (table := Sample.table) (memory twoConditions)
                  [(0, plainLabel CODE_LBL ∅)] x)
        ∧ labels' = JsMap.set 0 (set_type CODE_SUB (plainLabel CODE_LBL ∅))
                      [(0, plainLabel CODE_LBL ∅)])
       ∨ ((¬ ∃ x, rtc (retFlow (table := Sample.table) (memory twoConditions)
                         [(0, plainLabel CODE_LBL ∅)]) 0 x
                  ∧ retTarget (table := Sample.table) (memory twoConditions)
                      [(0, plainLabel CODE_LBL ∅)] x)
          ∧ labels' = [(0, plainLabel CODE_LBL ∅)])).
Proof.
  apply (turnLBLintoSUB_body_promotes (table := Sample.table) 6
           (memory twoConditions) [(0, plainLabel CODE_LBL ∅)] {[0; 2; 3; 6; 7]} 0
           (plainLabel CODE_LBL ∅) twoConditions_closed).
  - left. clear. set_solver.
  - vm_compute. lia.
  - reflexivity.
  - reflexivity.
Defined.

(** A label after [turnLBLintoSUB], compared with the label [l] before. *)
Definition promotedOrSame (l l' : DisLabel) : Prop :=
  l' = l ∨ (type l = CODE_LBL ∧ l' = set_type CODE_SUB l).

(** X18. The whole pass [turnLBLintoSUB] neither adds nor removes nor
    moves a label and changes nothing but the type of labels that were
    [CODE_LBL], which it makes [CODE_SUB]; every other label, every name,
    referrer and flag, and the rest of the disassembler stay. *)
Theorem turnLBLintoSUB_only_promotes {table : OpcodeTable} (fuel : nat)
    (d d' : Disassembler) :
  turnLBLintoSUB fuel d = Ok d' →
  d' = with_labels (labels d') d
  ∧ JsMap.keys (labels d') = JsMap.keys (labels d)
  ∧ ∀ k, match JsMap.get k (labels d) with
         | None => JsMap.get k (labels d') = None
         | Some l => ∃ l', JsMap.get k (labels d') = Some l' ∧ promotedOrSame l l'
         end.
Proof.
  unfold turnLBLintoSUB. intros Hrun.
  destruct (foldM (turnLBLintoSUB_body fuel (memory d)) (labels d)
              (JsMap.keys (labels d))) as [labels'| |] eqn:Hloop; simpl in Hrun;
    [|done..].
  injection Hrun as <-. split; [done|]. simpl.
  revert Hloop.
  apply (foldM_invariant
           (λ ls, JsMap.keys ls = JsMap.keys (labels d)
                  ∧ ∀ k, match JsMap.get k (labels d) with
                         | None => JsMap.get k ls = None
                         | Some l => ∃ l', JsMap.get k ls = Some l'
                                       ∧ promotedOrSame l l'
                         end)).
  - split; [done|]. intros k. destruct (JsMap.get k (labels d)) as [l|]; [|done].
    exists l. split; [done | by left].
  - intros ls A ls' [Hkeys Hinv] _ Hbody. unfold turnLBLintoSUB_body in Hbody.
    destruct (JsMap.get A ls) as [label|] eqn:Hlabel; [|by injection Hbody as <-].
    case_bool_decide as Htype; [|by injection Hbody as <-].
    destruct (findRET fuel (memory d) ls A []) as [[retFound V]| |];
      simpl in Hbody; [|done..].
    destruct retFound; injection Hbody as <-; [|done].
    split.
    { rewrite <- Hkeys. apply JsMapFacts.keys_set. by rewrite Hlabel. }
    intros k. specialize (Hinv k). destruct (decide (k = A)) as [->|Hne].
    + rewrite JsMapFacts.get_set_eq. rewrite Hlabel in Hinv.
      destruct (JsMap.get A (labels d)) as [l|]; [|done].
      destruct Hinv as (l' & [= <-] & [->|[Hl ->]]).
      * eexists. split; [done|]. right. done.
      * simpl in Htype. discriminate Htype.
    + by rewrite JsMapFacts.get_set_ne.
Qed.

Lemma turnLBLintoSUB_only_promotes_witness :
  ∃ d', turnLBLintoSUB (table := Sample.table) 6
          (with_labels [(0, plainLabel CODE_LBL ∅)] twoConditions) = Ok d'
    ∧ ∃ l', JsMap.get 0 (labels d') = Some l'
        ∧ promotedOrSame (plainLabel CODE_LBL ∅) l'.
Proof.
  destruct (isOk_Ok (turnLBLintoSUB (table := Sample.table) 6
                       (with_labels [(0, plainLabel CODE_LBL ∅)] twoConditions)))
    as [d' Hrun]; [vm_compute; reflexivity|].
  exists d'. split; [exact Hrun|].
  destruct (turnLBLintoSUB_only_promotes (table := Sample.table) 6 _ d' Hrun)
    as (_ & _ & Hall).
  exact (Hall 0).
Defined.

(** ** Pass 1: the code found is closed under the program flow *)

Section Pass1Closure.
Context {table : OpcodeTable}.

(** Every instruction has at least one byte. *)
Hypothesis length_ge_1 : ∀ m a, 1 <= length (getOpcodeAt m a).

(** The decoder reads the bytes of the memory, not its attributes. *)
Hypothesis decoder_reads_bytes : ∀ m m' a,
  DisMemory.memory m = DisMemory.memory m' → getOpcodeAt m a = getOpcodeAt m' a.

(** An address and the same address modulo 64K give the same instruction,
    with a target that is the same modulo 64K. *)
Hypothesis decoder_wraps : ∀ m a,
  length (getOpcodeAt m a) = length (getOpcodeAt m (mask16 a))
  ∧ flags (getOpcodeAt m a) = flags (getOpcodeAt m (mask16 a))
  ∧ mask16 (value (getOpcodeAt m a)) = mask16 (value (getOpcodeAt m (mask16 a))).

(** The address [y] needs no decoding any more, or is pending: it is not
    assigned, or is code, or is one of [pending] (modulo 64K). *)
Definition settled (m : DisMemory.t) (pending : list Z) (y : Z) : Prop :=
  hasAttr (DisMemory.getAttributeAt m y) MemAttribute.ASSIGNED = false
  ∨ hasAttr (DisMemory.getAttributeAt m y) MemAttribute.CODE = true
  ∨ ∃ q, q ∈ pending ∧ mask16 q = mask16 y.

(** Where an instruction has been decoded, the address after it (unless
    the instruction stops the flow) and its branch target are settled. *)
Definition codeClosed (m : DisMemory.t) (pending : list Z) : Prop :=
  ∀ x, hasAttr (DisMemory.getAttributeAt m x) MemAttribute.CODE_FIRST = true →
    (hasFlag STOP (getOpcodeAt m x) = false →
     settled m pending (x + length (getOpcodeAt m x)))
    ∧ (hasFlag BRANCH_ADDRESS (getOpcodeAt m x) = true →
       settled m pending (value (getOpcodeAt m x))).

Lemma settled_grow (m m' : DisMemory.t) (pending pending' : list Z) (y : Z) :
  attributesGrow m m' → (∀ q, q ∈ pending → q ∈ pending') →
  settled m pending y → settled m' pending' y.
Proof.
  intros (_ & Hassigned & Hmono) Hsub [H|[H|(q & Hq & Hm)]].
  - left. by rewrite Hassigned.
  - right. left. by apply Hmono.
  - right. right. exists q. split; [by apply Hsub | done].
Qed.

Lemma settled_same_mask (m : DisMemory.t) (pending : list Z) (y y' : Z) :
  mask16 y = mask16 y' → settled m pending y → settled m pending y'.
Proof.
  intros Hm [H|[H|(q & Hq & Hq')]].
  - left. by rewrite <- (getAttributeAt_mask m y y').
  - right. left. by rewrite <- (getAttributeAt_mask m y y').
  - right. right. exists q. split; [done | congruence].
Qed.

(** The instructions at two addresses that are the same modulo 64K. *)
Lemma decoder_aliases (m : DisMemory.t) (a x : Z) :
  mask16 x = mask16 a →
  length (getOpcodeAt m x) = length (getOpcodeAt m a)
  ∧ flags (getOpcodeAt m x) = flags (getOpcodeAt m a)
  ∧ mask16 (value (getOpcodeAt m x)) = mask16 (value (getOpcodeAt m a)).
Proof.
  intros Hm. destruct (decoder_wraps m x) as (H1 & H2 & H3).
  destruct (decoder_wraps m a) as (G1 & G2 & G3).
  rewrite Hm in H1, H2, H3. split; [congruence|]. split; congruence.
Qed.

(** A pending address that is code or not assigned is settled. *)
Lemma codeClosed_drop (m : DisMemory.t) (a : Z) (pending : list Z) :
  hasAttr (DisMemory.getAttributeAt m a) MemAttribute.CODE = true
  ∨ hasAttr (DisMemory.getAttributeAt m a) MemAttribute.ASSIGNED = false →
  codeClosed m (a :: pending) → codeClosed m pending.
Proof.
  intros Ha Hclosed x Hx. destruct (Hclosed x Hx) as [Hnext Htarget].
  assert (∀ y, settled m (a :: pending) y → settled m pending y) as Hdrop.
  { intros y [H|[H|(q & Hq & Hm)]]; [by left | right; by left|].
    apply elem_of_cons in Hq as [->|Hq]; [|right; right; by exists q].
    rewrite (getAttributeAt_mask m a y Hm) in Ha.
    destruct Ha as [Ha|Ha]; [right; by left | by left]. }
  split; intros H; apply Hdrop; auto.
Qed.

(** What [disassembleForLabel] does to the queue when it returns [true]. *)
Lemma disassembleForLabel_target (d d' : Disassembler) (a : Z) (opcode : Opcode) :
  disassembleForLabel d a opcode = Ok (d', true) →
  memory d' = memory d
  ∧ (∀ q, q ∈ addressQueue d → q ∈ addressQueue d')
  ∧ (hasFlag BRANCH_ADDRESS opcode = true →
     settled (memory d) (addressQueue d') (value opcode)).
Proof.
  unfold disassembleForLabel.
  destruct (hasFlag BRANCH_ADDRESS opcode).
  - set (attr := DisMemory.getAttributeAt (memory d) (value opcode)).
    destruct (hasAttr attr MemAttribute.CODE) eqn:Hc; simpl.
    + destruct (hasAttr attr MemAttribute.CODE_FIRST); simpl.
      * intros [= <-]. simpl. split; [done|]. split; [done|]. intros _. right. by left.
      * destruct (findStartOfOpcode _ _); done.
    + destruct (hasAttr attr MemAttribute.ASSIGNED) eqn:Ha; intros [= <-]; simpl.
      * split; [done|]. split; [intros q Hq; apply elem_of_app; by left|].
        intros _. right. right. exists (value opcode).
        split; [apply elem_of_app; right; by left | done].
      * split; [done|]. split; [done|]. intros _. by left.
  - case_bool_decide; intros [= <-]; simpl; (split; [done|]); (split; [done|]); done.
Qed.

(** One round of the inner loop at the pending address [a]. *)
Lemma collectLabels_step_closed (d : Disassembler) (a : Z) (s : TraceStep) :
  codeClosed (memory d) (a :: addressQueue d) →
  collectLabels_step d a = Ok s →
  match s with
  | StepNext d' a' => codeClosed (memory d') (a' :: addressQueue d')
  | StepBreak d' => codeClosed (memory d') (addressQueue d')
  | StepReturn _ => True
  end
  ∧ (∀ q, q ∈ addressQueue d → q ∈ addressQueue (stepState s))
  ∧ ((∃ d', s = StepReturn d')
     ∨ hasAttr (DisMemory.getAttributeAt (memory d) a) MemAttribute.ASSIGNED = false
     ∨ hasAttr (DisMemory.getAttributeAt (memory (stepState s)) a) MemAttribute.CODE
       = true).
Proof.
  intros Hclosed. unfold collectLabels_step. cbv zeta.
  destruct (hasAttr (DisMemory.getAttributeAt (memory d) a) MemAttribute.CODE) eqn:Hc.
  { intros [= <-]. simpl. split; [|split; [done | right; by right]].
    eapply codeClosed_drop; [|exact Hclosed]. by left. }
  destruct (hasAttr (DisMemory.getAttributeAt (memory d) a) MemAttribute.ASSIGNED)
    eqn:Ha; simpl.
  2:{ intros [= <-]. simpl. split; [|split; [done | right; by left]].
      eapply codeClosed_drop; [|exact Hclosed]. by right. }
  destruct (findPartlyDisassembled _ _ _) as [[memAddress attr]|].
  { destruct (hasAttr attr MemAttribute.CODE_FIRST); [|done].
    intros [= <-]. split; [done|]. split; [done|]. left. by eexists. }
  set (opcode := getOpcodeAt (memory d) a).
  fold (markInstruction (memory d) a (length opcode)).
  set (marked := markInstruction (memory d) a (length opcode)).
  destruct (disassembleForLabel _ a opcode) as [[d1 ok]| |] eqn:Hd; simpl; [|done..].
  destruct ok; simpl.
  2:{ intros [= <-]. split; [done|]. split; [|left; by eexists].
      apply disassembleForLabel_frame in Hd as (_ & [extra Hq] & _).
      intros q Hq'. simpl in Hq |- *. rewrite Hq. apply elem_of_app. by left. }
  apply disassembleForLabel_target in Hd as (Hm1 & Hq1 & Htarget1).
  simpl in Hm1, Hq1, Htarget1.
  pose proof (attributesGrow_markInstruction (memory d) a (length opcode)) as Hgrow.
  fold marked in Hgrow.
  assert (hasAttr (DisMemory.getAttributeAt marked a) MemAttribute.CODE = true) as Hca.
  { apply markInstruction_CODE. right. exists 0.
    split; [pose proof (length_ge_1 (memory d) a) as Hl1; subst opcode; lia|].
    by rewrite Z.add_0_r. }
  assert (∀ x, getOpcodeAt marked x = getOpcodeAt (memory d) x) as Hop.
  { intros x. apply decoder_reads_bytes. apply Hgrow. }
  (* the closure of the new state, for the pending addresses [pending'] *)
  assert (∀ pending',
            (∀ q, q ∈ addressQueue d1 → q ∈ pending') →
            (hasFlag STOP opcode = false → (a + length opcode) ∈ pending') →
            codeClosed marked pending') as Hnew.
  { intros pending' Hsub Hnext x Hx.
    apply markInstruction_CODE_FIRST in Hx as [Hx|Hx].
    - (* an instruction decoded before *)
      destruct (Hclosed x Hx) as [Hn Ht]. rewrite !Hop.
      assert (∀ y, settled (memory d) (a :: addressQueue d) y →
                   settled marked pending' y) as Hmove.
      { intros y [H|[H|(q & Hq & Hm)]].
        - left. destruct Hgrow as (_ & Hassigned & _). by rewrite Hassigned.
        - right. left. by apply Hgrow.
        - apply elem_of_cons in Hq as [->|Hq].
          + right. left. by rewrite <- (getAttributeAt_mask marked a y Hm).
          + right. right. exists q. split; [by apply Hsub, Hq1 | done]. }
      split; intros H; apply Hmove; auto.
    - (* the instruction decoded in this round *)
      rewrite !Hop. destruct (decoder_aliases (memory d) a x Hx) as (Hl & Hf & Hv).
      fold opcode in Hl, Hf, Hv.
      assert (∀ f, hasFlag f (getOpcodeAt (memory d) x) = hasFlag f opcode) as Hflag.
      { intros f. unfold hasFlag. by rewrite Hf. }
      rewrite !Hflag, Hl. split.
      + intros Hstop. right. right. exists (a + length opcode).
        split; [by apply Hnext|]. by apply mask16_shift.
      + intros Hb. apply (settled_same_mask marked pending' (value opcode)); [done|].
        specialize (Htarget1 Hb).
        destruct Htarget1 as [H|[H|(q & Hq & Hm)]];
          [by left | right; by left | right; right].
        exists q. split; [by apply Hsub | done]. }
  destruct (hasFlag STOP opcode) eqn:Hstop; intros [= <-]; simpl; rewrite Hm1.
  - split; [apply Hnew; [done | done]|]. split; [done | right; by right].
  - split.
    + apply Hnew; [intros q Hq; by right | intros _; by left].
    + split; [done | right; by right].
Qed.

(** The inner loop, when it hands over to the next queued address. *)
Lemma collectLabels_trace_closed (fuel : nat) (d d' : Disassembler) (a : Z) :
  codeClosed (memory d) (a :: addressQueue d) →
  collectLabels_trace fuel d a = Ok (d', true) →
  codeClosed (memory d') (addressQueue d')
  ∧ (∀ q, q ∈ addressQueue d → q ∈ addressQueue d')
  ∧ (hasAttr (DisMemory.getAttributeAt (memory d) a) MemAttribute.ASSIGNED = false
     ∨ hasAttr (DisMemory.getAttributeAt (memory d') a) MemAttribute.CODE = true).
Proof.
  revert d a. induction fuel as [|fuel IH]; intros d a Hclosed; simpl; [done|].
  destruct (collectLabels_step d a) as [s| |] eqn:Hs; simpl; [|done..].
  destruct (collectLabels_step_closed d a s Hclosed Hs) as (Hc & Hq & Ha).
  destruct s as [d1 a1|d1|d1]; simpl in *.
  - intros Hrec. pose proof (collectLabels_trace_grows _ _ _ _ _ Hrec) as (Hgrow & _).
    destruct (IH d1 a1 Hc Hrec) as (Hc' & Hq' & _).
    split; [done|]. split; [auto|].
    destruct Ha as [[? [=]]|[Ha|Ha]]; [by left | right]. by apply Hgrow.
  - intros [= <-]. split; [done|]. split; [done|].
    destruct Ha as [[? [=]]|[Ha|Ha]]; [by left | by right].
  - intros [=].
Qed.

Lemma collectLabels_closed (fuel : nat) (d d' : Disassembler) :
  codeClosed (memory d) (addressQueue d) →
  collectLabels fuel d = Ok (Finished d') →
  codeClosed (memory d') []
  ∧ ∀ q, q ∈ addressQueue d →
      hasAttr (DisMemory.getAttributeAt (memory d) q) MemAttribute.ASSIGNED = false
      ∨ hasAttr (DisMemory.getAttributeAt (memory d') q) MemAttribute.CODE = true.
Proof.
  revert d. induction fuel as [|fuel IH]; intros d Hclosed; simpl; [done|].
  destruct (addressQueue d) as [|a queue] eqn:Hq.
  { intros [= <-]. split; [done|]. intros q Hq'. by apply elem_of_nil in Hq'. }
  destruct (collectLabels_trace fuel (with_addressQueue queue d) a)
    as [[d1 goOn]| |] eqn:Ht; simpl; [|done..].
  destruct goOn; [|done]. intros Hrec.
  destruct (collectLabels_trace_closed fuel (with_addressQueue queue d) d1 a
              Hclosed Ht) as (Hc1 & Hq1 & Ha1).
  simpl in Hq1, Ha1.
  destruct (IH d1 Hc1 Hrec) as [Hc' Hall]. split; [done|].
  pose proof (collectLabels_grows _ _ _ Hrec) as ((_ & Hassigned' & Hmono') & _).
  pose proof (collectLabels_trace_grows _ _ _ _ _ Ht) as ((_ & Hassigned1 & _) & _).
  simpl in Hmono', Hassigned', Hassigned1.
  intros q Hq'. apply elem_of_cons in Hq' as [->|Hq'].
  - destruct Ha1 as [Ha1|Ha1]; [by left | right]. by apply Hmono'.
  - destruct (Hall q (Hq1 q Hq')) as [H|H]; [left | by right].
    by rewrite <- Hassigned1.
Qed.

End Pass1Closure.

(** X19. When pass 1 finishes without an abort, the code it has found is
    closed under the program flow: for every address where an instruction
    starts, the target of the instruction, if it has a branch address,
    and the address after it, unless it has the [STOP] flag, is code or
    not assigned; and every address that was queued and is assigned is
    code. This holds for a decoder whose instructions have at least one
    byte and that reads the bytes only and works modulo 64K, from a state
    in which it holds up to the queued addresses, such as one without
    code. *)
Theorem collectLabels_closes_code {table : OpcodeTable} (fuel : nat)
    (d d' : Disassembler) :
  (∀ m a, 1 <= length (getOpcodeAt m a)) →
  (∀ m m' a, DisMemory.memory m = DisMemory.memory m' →
             getOpcodeAt m a = getOpcodeAt m' a) →
  (∀ m a,
     length (getOpcodeAt m a) = length (getOpcodeAt m (mask16 a))
     ∧ flags (getOpcodeAt m a) = flags (getOpcodeAt m (mask16 a))
     ∧ mask16 (value (getOpcodeAt m a)) = mask16 (value (getOpcodeAt m (mask16 a)))) →
  codeClosed (memory d) (addressQueue d) →
  collectLabels fuel d = Ok (Finished d') →
  (∀ x, hasAttr (DisMemory.getAttributeAt (memory d') x) MemAttribute.CODE_FIRST = true →
     let opcode := getOpcodeAt (memory d') x in
     let done y :=
       hasAttr (DisMemory.getAttributeAt (memory d') y) MemAttribute.ASSIGNED = false
       ∨ hasAttr (DisMemory.getAttributeAt (memory d') y) MemAttribute.CODE = true in
     (hasFlag STOP opcode = false → done (x + length opcode))
     ∧ (hasFlag BRANCH_ADDRESS opcode = true → done (value opcode)))
  ∧ (∀ q, q ∈ addressQueue d →
       hasAttr (DisMemory.getAttributeAt (memory d) q) MemAttribute.ASSIGNED = true →
       hasAttr (DisMemory.getAttributeAt (memory d') q) MemAttribute.CODE = true).
Proof.
  intros Hlen Hbytes Hwrap Hclosed Hrun.
  destruct (collectLabels_closed Hlen Hbytes Hwrap fuel d d' Hclosed Hrun)
    as [Hc Hall].
  split.
  - intros x Hx. cbv zeta. destruct (Hc x Hx) as [Hn Ht].
    assert (∀ y, settled (memory d') [] y →
              hasAttr (DisMemory.getAttributeAt (memory d') y) MemAttribute.ASSIGNED
              = false
              ∨ hasAttr (DisMemory.getAttributeAt (memory d') y) MemAttribute.CODE
                = true) as Hs.
    { intros y [H|[H|(q & Hq & _)]]; [by left | by right|].
      by apply elem_of_nil in Hq. }
    split; intros H; apply Hs; auto.
  - intros q Hq Ha. destruct (Hall q Hq) as [H|H]; [congruence | done].
Qed.

(** Whether pass 1 came to its normal end. *)
Definition isFinished (r : result CollectEnd) : bool :=
  match r with Ok (Finished _) => true | _ => false end.

Lemma isFinished_Finished (r : result CollectEnd) :
  isFinished r = true → ∃ d, r = Ok (Finished d).
Proof. destruct r as [[d|d]| |]; [by exists d | done..]. Qed.

(** The sample decoder reads bytes only and works modulo 64K. *)
Lemma Sample_table_reads_bytes (m m' : DisMemory.t) (a : Z) :
  DisMemory.memory m = DisMemory.memory m' → Sample.table m a = Sample.table m' a.
Proof. intros H. unfold Sample.table, DisMemory.getValueAt. by rewrite H. Qed.

Lemma Sample_table_wraps (m : DisMemory.t) (a : Z) :
  Sample.table m a = Sample.table m (mask16 a).
Proof.
  unfold Sample.table, DisMemory.getValueAt.
  by rewrite !mask16_add, mask16_idemp, <- (Z.add_assoc (mask16 a) 2), mask16_add,
    Z.add_assoc.
Qed.

Lemma Sample_setMemory_no_code_first (bytes : list Z) (m : DisMemory.t) (origin : Z) :
  (∀ x, hasAttr (DisMemory.memoryAttr m x) MemAttribute.CODE_FIRST = false) →
  ∀ x, hasAttr (DisMemory.memoryAttr (Sample.setMemory m origin bytes) x)
         MemAttribute.CODE_FIRST = false.
Proof.
  revert m origin. induction bytes as [|b bytes IH]; intros m origin Hno; simpl; [done|].
  apply IH. intros x. simpl. case_bool_decide; [|done].
  by rewrite hasAttr_lor_other.
Qed.

Lemma collectLabels_closes_code_witness :
  ∃ d', collectLabels (table := Sample.table) 18 (with_addressQueue [0] twoConditions)
        = Ok (Finished d')
    ∧ (∀ x, hasAttr (DisMemory.getAttributeAt (memory d') x) MemAttribute.CODE_FIRST
            = true →
         let opcode := Sample.table (memory d') x in
         let done y :=
           hasAttr (DisMemory.getAttributeAt (memory d') y) MemAttribute.ASSIGNED
           = false
           ∨ hasAttr (DisMemory.getAttributeAt (memory d') y) MemAttribute.CODE = true in
         (hasFlag STOP opcode = false → done (x + length opcode))
         ∧ (hasFlag BRANCH_ADDRESS opcode = true → done (value opcode)))
    ∧ hasAttr (DisMemory.getAttributeAt (memory d') 0) MemAttribute.CODE = true.
Proof.
  destruct (isFinished_Finished (collectLabels (table := Sample.table) 18
                                   (with_addressQueue [0] twoConditions)))
    as [d' Hrun]; [vm_compute; reflexivity|].
  exists d'. split; [exact Hrun|].
  destruct (collectLabels_closes_code (table := Sample.table) 18
              (with_addressQueue [0] twoConditions) d') as [Hclosed Hqueue].
  - intros m a. apply Sample_table_length_1_4.
  - apply Sample_table_reads_bytes.
  - intros m a. unfold getOpcodeAt. rewrite <- (Sample_table_wraps m a).
    split; [reflexivity|]. split; reflexivity.
  - intros x Hx. unfold DisMemory.getAttributeAt in Hx.
    change (memory (with_addressQueue [0] twoConditions))
      with (Sample.setMemory Sample.emptyMemory 0
              [0x06; 0x03; 0x00; 0xC2; 0x02; 0x00; 0xC0; 0xC9]) in Hx.
    rewrite Sample_setMemory_no_code_first in Hx; [discriminate Hx|].
    intros y. reflexivity.
  - exact Hrun.
  - split; [exact Hclosed|]. apply (Hqueue 0); [apply list_elem_of_here | reflexivity].
Defined.

(** ** Pass 8: [addParentReferences], the parents *)

Section ParentFacts.
Context {table : OpcodeTable}.
Variable m : DisMemory.t.
Variable labels : JsMap.t DisLabel.










End ParentFacts.


(** ** Pass 8: [addParentReferences], the references *)

(** The reference [r] of the label at [a] is a jump inside the
    subroutine of the label itself. *)
Definition isSelfJump {table : OpcodeTable} (m : DisMemory.t) (parents : gmap Z Z)
    (a r : Z) : Prop :=
  parents !! r = Some a ∧ hasFlag CALL (getOpcodeAt m r) = false.

#[global] Instance isSelfJump_dec {table : OpcodeTable} (m : DisMemory.t)
    (parents : gmap Z Z) (a r : Z) : Decision (isSelfJump m parents a r) :=
  and_dec _ _.

(** The label without the jumps inside its own subroutine. *)
Definition withoutSelfJumps {table : OpcodeTable} (m : DisMemory.t)
    (parents : gmap Z Z) (a : Z) (l : DisLabel) : DisLabel :=
  set_references (filter (λ r, ¬ isSelfJump m parents a r) (references l)) l.

Section SelfReferenceFacts.
Context {table : OpcodeTable} {format : FormatDigits}.

Lemma withoutSelfJumps_again (m : DisMemory.t) (parents : gmap Z Z) (a : Z)
    (l : DisLabel) :
  withoutSelfJumps m parents a (withoutSelfJumps m parents a l)
  = withoutSelfJumps m parents a l.
Proof.
  unfold withoutSelfJumps, set_references. simpl. f_equal.
  apply set_eq. intros r. rewrite !elem_of_filter. tauto.
Qed.

Lemma removeSelfReference_fold (m : DisMemory.t) (parents : gmap Z Z) (a : Z)
    (l : list Z) (R R' : gset Z) (b b' : bool) :
  foldM (removeSelfReference m parents a) (R, b) l = Ok (R', b') →
  ∀ r, r ∈ R' ↔ r ∈ R ∧ ¬ (r ∈ l ∧ isSelfJump m parents a r).
Proof.
  revert R b. induction l as [|x l IH]; intros R b; [simpl | cbn [foldM]].
  { intros [= <- <-] r. split; [|by intros [? _]].
    intros Hr. split; [done|]. intros [H _]. by apply elem_of_nil in H. }
  destruct (removeSelfReference m parents a (R, b) x) as [[R1 b1]| |] eqn:Hx; simpl;
    [|done..].
  intros Hrec r. rewrite (IH _ _ Hrec r).
  assert (r ∈ R1 ↔ r ∈ R ∧ ¬ (r = x ∧ isSelfJump m parents a r)) as ->.
  { unfold removeSelfReference in Hx. unfold isSelfJump.
    case_bool_decide as Hp.
    - destruct (negb (hasAttr _ MemAttribute.ASSIGNED)); [done|].
      destruct (negb (hasAttr _ MemAttribute.CODE)); [done|].
      destruct (negb (hasAttr _ MemAttribute.CODE_FIRST)); [done|].
      destruct (hasFlag CALL (getOpcodeAt m x)) eqn:Hc; simpl in Hx;
        injection Hx as <- <-.
      + split; [|by intros [? _]]. intros Hr. split; [done|].
        intros [-> [_ H]]. congruence.
      + rewrite elem_of_difference, elem_of_singleton. split.
        * intros [Hr Hne]. split; [done|]. by intros [-> _].
        * intros [Hr Hne]. split; [done|]. intros ->. by apply Hne.
    - injection Hx as <- <-. split; [|by intros [? _]]. intros Hr. split; [done|].
      by intros [-> [H _]]. }
  rewrite elem_of_cons. tauto.
Qed.

Lemma addParentReferences_body_spec (parents : gmap Z Z) (d d2 : Disassembler)
    (dots dots2 : gmap Z string) (a : Z) :
  addParentReferences_body parents (d, dots) a = Ok (d2, dots2) →
  memory d2 = memory d
  ∧ labels d2
    = match JsMap.get a (labels d) with
      | Some label =>
          JsMap.set a (withoutSelfJumps (memory d) parents a label) (labels d)
      | None => labels d
      end.
Proof.
  unfold addParentReferences_body.
  destruct (JsMap.get a (labels d)) as [label|] eqn:Hl; [|by intros [= <- <-]].
  destruct (foldM _ _ _) as [[refs anyRefOutside]| |] eqn:Hf; simpl; [|done..].
  assert (refs = filter (λ r, ¬ isSelfJump (memory d) parents a r) (references label))
    as ->.
  { apply set_eq. intros r. rewrite (removeSelfReference_fold _ _ _ _ _ _ _ _ Hf r).
    rewrite elem_of_filter, elem_of_elements. tauto. }
  match goal with |- context [if ?c then _ else _] => destruct c end;
    intros [= <- <-]; by simpl.
Qed.

Lemma addParentReferences_body_fold (parents : gmap Z Z) (keys : list Z)
    (d d' : Disassembler) (dots dots' : gmap Z string) :
  foldM (addParentReferences_body parents) (d, dots) keys = Ok (d', dots') →
  memory d' = memory d
  ∧ JsMap.keys (labels d') = JsMap.keys (labels d)
  ∧ ∀ a l, JsMap.get a (labels d) = Some l →
      JsMap.get a (labels d')
      = Some (if bool_decide (a ∈ keys)
              then withoutSelfJumps (memory d) parents a l else l).
Proof.
  revert d dots. induction keys as [|k keys IH]; intros d dots; cbn [foldM].
  { intros [= <- <-]. split; [done|]. split; [done|]. intros a l Hl.
    rewrite bool_decide_eq_false_2; [done|]. intros H. by apply elem_of_nil in H. }
  destruct (addParentReferences_body parents (d, dots) k) as [[d1 dots1]| |] eqn:Hk;
    simpl; [|done..].
  apply addParentReferences_body_spec in Hk as [Hm1 Hl1].
  intros Hrec. destruct (IH _ _ Hrec) as (Hm' & Hk' & Hall).
  rewrite Hm1 in Hm', Hall.
  split; [done|]. split.
  { rewrite Hk', Hl1. destruct (JsMap.get k (labels d)) eqn:Hg; [|done].
    apply JsMapFacts.keys_set. by rewrite Hg. }
  intros a l Hl. destruct (decide (a = k)) as [->|Hne].
  - rewrite Hl in Hl1.
    rewrite (Hall k (withoutSelfJumps (memory d) parents k l))
      by (rewrite Hl1; apply JsMapFacts.get_set_eq).
    rewrite (bool_decide_eq_true_2 (k ∈ k :: keys)) by left.
    f_equal. case_bool_decide; [apply withoutSelfJumps_again | done].
  - rewrite (Hall a l).
    + f_equal. destruct (decide (a ∈ keys)) as [Hin|Hin].
      * rewrite !bool_decide_eq_true_2; [done | by right | done].
      * rewrite !bool_decide_eq_false_2; [done| |done].
        intros H. apply elem_of_cons in H as [?|?]; done.
    + rewrite Hl1. destruct (JsMap.get k (labels d)); [|done].
      by rewrite JsMapFacts.get_set_ne.
Qed.

End SelfReferenceFacts.

(** X21. [addParentReferences] takes from the references of a label the
    addresses whose parent is the label itself and whose instruction is
    not a call, and no other; it keeps the keys, the other fields of the
    labels and the memory. *)
Theorem addParentReferences_references {table : OpcodeTable} {format : FormatDigits}
    (fuel : nat) (d d' : Disassembler) (p p' : Parents) :
  addParentReferences fuel d p = Ok (d', p') →
  memory d' = memory d
  ∧ JsMap.keys (labels d') = JsMap.keys (labels d)
  ∧ ∀ a l, JsMap.get a (labels d) = Some l →
      JsMap.get a (labels d')
      = Some (set_references
                (filter (λ r, ¬ (addressParents p' !! r = Some a
                                 ∧ hasFlag CALL (getOpcodeAt (memory d) r) = false))
                        (references l))
                l).
Proof.
  unfold addParentReferences.
  destruct (foldM (addParentReferences_parent fuel (memory d) (labels d)) _ _)
    as [parents| |]; simpl; [|done..].
  destruct (foldM (addParentReferences_body parents) _ _) as [[d2 dots]| |] eqn:H2;
    simpl; [|done..].
  intros [= <- <-]. simpl.
  destruct (addParentReferences_body_fold parents _ _ _ _ _ H2) as (Hm & Hk & Hall).
  split; [done|]. split; [done|]. intros a l Hl.
  rewrite (Hall a l Hl). rewrite bool_decide_eq_true_2; [done|].
  apply JsMap_get_keys. by exists l.
Qed.

(** A formatter for the examples: the hexadecimal digits of the number. *)
Definition plainHex : FormatDigits :=
  λ value _, HexadecimalString.NilZero.string_of_uint (N.to_hex_uint (Z.to_N value)).

(** A subroutine at 0 that jumps to itself and calls itself: [LD B,3] at
    0, [NOP] at 2, [JP NZ,0] at 3, [CALL 0] at 6, [RET] at 9, after pass 1.
    The label has the two references and one from the address 32. *)
Definition selfJumping : Disassembler :=
  let m := Sample.setMemory Sample.emptyMemory 0
             [0x06; 0x03; 0x00; 0xC2; 0x00; 0x00; 0xCD; 0x00; 0x00; 0xC9] in
  let m := markInstruction m 0 2 in
  let m := markInstruction m 2 1 in
  let m := markInstruction m 3 3 in
  let m := markInstruction m 6 3 in
  let m := markInstruction m 9 1 in
  with_labels [(0, plainLabel CODE_SUB {[3; 6; 32]})] (newDisassembler m).


Lemma addParentReferences_references_witness :
  ∃ d' p',
    addParentReferences (table := Sample.table) (format := plainHex) 12 selfJumping
      (mkParents ∅ ∅) = Ok (d', p')
    ∧ JsMap.get 0 (labels d')
      = Some (set_references
                (filter (λ r, ¬ (addressParents p' !! r = Some 0
                                 ∧ hasFlag CALL
                                     (getOpcodeAt (OpcodeTable := Sample.table)
                                        (memory selfJumping) r) = false))
                        (references (plainLabel CODE_SUB {[3; 6; 32]})))
                (plainLabel CODE_SUB {[3; 6; 32]})).
Proof.
  destruct (isOk_Ok (addParentReferences (table := Sample.table) (format := plainHex)
                       12 selfJumping (mkParents ∅ ∅))) as [[d' p'] Hrun];
    [vm_compute; reflexivity|].
  exists d', p'. split; [exact Hrun|].
  destruct (addParentReferences_references (table := Sample.table) (format := plainHex)
              12 selfJumping d' (mkParents ∅ ∅) p' Hrun) as (_ & _ & Hall).
  apply Hall. reflexivity.
Defined.

(** ** Pass 8: [addParentReferences], the warning *)


Section WarningFacts.
Context {table : OpcodeTable} {format : FormatDigits}.





End WarningFacts.




(** ** Pass 9: [addCallsListToLabels] *)

Lemma size_filter_elements (P : Z → Prop) `{!∀ x, Decision (P x)} (X : gset Z) :
  size (filter P X) = List.length (filter P (elements X)).
Proof.
  unfold size, set_size. simpl. apply Permutation_length.
  apply NoDup_Permutation; [apply NoDup_elements | apply NoDup_filter, NoDup_elements|].
  intros x. by rewrite elem_of_elements, elem_of_filter, list_elem_of_filter,
    elem_of_elements.
Qed.

Lemma count_occ_replicate (n : nat) (x y : Z) :
  count_occ Z.eq_dec (replicate n x) y = if decide (y = x) then n else 0%nat.
Proof.
  induction n as [|n IH]; simpl; [by destruct (decide (y = x))|].
  rewrite IH. destruct (Z.eq_dec x y) as [->|Hne].
  - rewrite !decide_True by done. reflexivity.
  - rewrite !decide_False by (intros ->; by apply Hne). reflexivity.
Qed.

Section CallsFacts.
Variable parents : gmap Z Z.

(** The pushes for the references [refs] of the label stored under
    [callee]. *)
Lemma push_call_fold (callee : Z) (refs : list Z) (cur : JsMap.t DisLabel) :
  let cur' :=
    foldl (λ labels ref,
             match parents !! ref with
             | Some parent => push_call callee parent labels
             | None => labels
             end) cur refs in
  JsMap.keys cur' = JsMap.keys cur
  ∧ ∀ P lP, JsMap.get P cur = Some lP →
      JsMap.get P cur'
      = Some (set_calls
                (calls lP
                 ++ replicate (List.length (filter (λ r, parents !! r = Some P) refs))
                      callee)
                lP).
Proof.
  revert cur. induction refs as [|ref refs IH]; intros cur; simpl.
  { split; [done|]. intros P lP HP. rewrite HP, app_nil_r. by destruct lP. }
  set (cur1 := match parents !! ref with
               | Some parent => push_call callee parent cur
               | None => cur
               end).
  destruct (IH cur1) as [Hk Hall]. cbv zeta in Hk, Hall.
  assert (JsMap.keys cur1 = JsMap.keys cur
          ∧ ∀ P lP, JsMap.get P cur = Some lP →
              JsMap.get P cur1
              = Some (if bool_decide (parents !! ref = Some P)
                      then set_calls (calls lP ++ [callee]) lP else lP))
    as [Hk1 Hall1].
  { unfold cur1, push_call. destruct (parents !! ref) as [parent|] eqn:Hp.
    2:{ split; [done|]. intros P lP HP. by rewrite bool_decide_eq_false_2. }
    destruct (JsMap.get parent cur) as [pl|] eqn:Hpl.
    - split; [apply JsMapFacts.keys_set; by rewrite Hpl|].
      intros P lP HP. destruct (decide (parent = P)) as [->|Hne].
      + rewrite JsMapFacts.get_set_eq, bool_decide_eq_true_2 by done. congruence.
      + rewrite JsMapFacts.get_set_ne by done.
        rewrite bool_decide_eq_false_2; [done | congruence].
    - split; [done|]. intros P lP HP.
      rewrite bool_decide_eq_false_2; [done|]. intros [= ->]. congruence. }
  split; [congruence|]. intros P lP HP.
  rewrite (Hall P _ (Hall1 P lP HP)). f_equal.
  rewrite filter_cons. case_bool_decide as Hp.
  - rewrite decide_True by done. simpl. by rewrite <- app_assoc.
  - by rewrite decide_False.
Qed.

Lemma addCallsListToLabels_body_spec (cur : JsMap.t DisLabel) (k : Z) :
  let cur' := addCallsListToLabels_body parents cur k in
  JsMap.keys cur' = JsMap.keys cur
  ∧ ∀ P lP, JsMap.get P cur = Some lP →
      JsMap.get P cur'
      = Some (set_calls
                (calls lP
                 ++ replicate
                      match JsMap.get k cur with
                      | Some l =>
                          if isSubroutineLabelType (type l)
                          then size (filter (λ r, parents !! r = Some P) (references l))
                          else 0%nat
                      | None => 0%nat
                      end k)
                lP).
Proof.
  unfold addCallsListToLabels_body.
  assert (∀ P lP, JsMap.get P cur = Some lP →
                  JsMap.get P cur = Some (set_calls (calls lP ++ replicate 0 k) lP))
    as Hnone.
  { intros P lP HP. rewrite HP. simpl. rewrite app_nil_r. by destruct lP. }
  destruct (JsMap.get k cur) as [l|]; [|by split].
  destruct (isSubroutineLabelType (type l)); [|by split].
  destruct (push_call_fold k (elements (references l)) cur) as [Hk Hall].
  split; [done|]. intros P lP HP. rewrite (Hall P lP HP).
  by rewrite size_filter_elements.
Qed.

(** The calls that the rounds for [keys] add to the label at [P]. *)
Lemma addCallsListToLabels_fold (keys : list Z) (cur : JsMap.t DisLabel) :
  NoDup keys →
  let cur' := foldl (addCallsListToLabels_body parents) cur keys in
  JsMap.keys cur' = JsMap.keys cur
  ∧ ∀ P lP, JsMap.get P cur = Some lP →
      ∃ added,
        JsMap.get P cur' = Some (set_calls (calls lP ++ added) lP)
        ∧ ∀ L, count_occ Z.eq_dec added L
               = if bool_decide (L ∈ keys) then
                   match JsMap.get L cur with
                   | Some l =>
                       if isSubroutineLabelType (type l)
                       then size (filter (λ r, parents !! r = Some P) (references l))
                       else 0%nat
                   | None => 0%nat
                   end
                 else 0%nat.
Proof.
  revert cur. induction keys as [|k keys IH]; intros cur Hnd; cbn [foldl].
  { split; [done|]. intros P lP HP. exists []. rewrite app_nil_r. split.
    - rewrite HP. by destruct lP.
    - intros L. cbn [count_occ].
      by rewrite bool_decide_eq_false_2 by by intros ?%elem_of_nil. }
  apply NoDup_cons in Hnd as [Hk Hnd].
  destruct (addCallsListToLabels_body_spec cur k) as [Hk1 Hall1].
  cbv zeta in Hk1, Hall1.
  set (cur1 := addCallsListToLabels_body parents cur k) in *.
  destruct (IH cur1 Hnd) as [Hk' Hall']. cbv zeta in Hk', Hall'.
  split; [congruence|]. intros P lP HP.
  destruct (Hall' P _ (Hall1 P lP HP)) as (added & Hget & Hcount).
  eexists (replicate _ k ++ added). split.
  { rewrite Hget. simpl. by rewrite <- app_assoc. }
  intros L. rewrite count_occ_app, count_occ_replicate, Hcount.
  (* the type and the references of the label at [L] are as before *)
  assert (match JsMap.get L cur1 with
          | Some l =>
              if isSubroutineLabelType (type l)
              then size (filter (λ r, parents !! r = Some P) (references l))
              else 0%nat
          | None => 0%nat
          end
          = match JsMap.get L cur with
            | Some l =>
                if isSubroutineLabelType (type l)
                then size (filter (λ r, parents !! r = Some P) (references l))
                else 0%nat
            | None => 0%nat
            end) as ->.
  { destruct (JsMap.get L cur) as [l|] eqn:HL.
    - by rewrite (Hall1 L l HL).
    - assert (JsMap.get L cur1 = None) as ->; [|done].
      apply eq_None_not_Some. rewrite JsMap_get_keys, Hk1, <- JsMap_get_keys.
      rewrite HL. by intros [? [=]]. }
  destruct (decide (L = k)) as [->|Hne].
  - rewrite (bool_decide_eq_true_2 (k ∈ k :: keys)) by left.
    rewrite (bool_decide_eq_false_2 (k ∈ keys)) by done. lia.
  - destruct (decide (L ∈ keys)) as [Hin|Hin].
    + rewrite !bool_decide_eq_true_2; [done | by right | done].
    + rewrite !bool_decide_eq_false_2; [done| |done].
      intros H. apply elem_of_cons in H as [?|?]; done.
Qed.

End CallsFacts.

(** X23. [addCallsListToLabels] leaves the keys, and adds to the calls of
    a label, behind those it has, each [CODE_SUB], [CODE_RST] and
    [CODE_LBL] label as many times as that label has references whose
    parent is the first label; it changes nothing else of a label. *)
Theorem addCallsListToLabels_counts (d : Disassembler) (p : Parents) :
  NoDup (JsMap.keys (labels d)) →
  JsMap.keys (labels (addCallsListToLabels d p)) = JsMap.keys (labels d)
  ∧ ∀ P lP, JsMap.get P (labels d) = Some lP →
      ∃ added,
        JsMap.get P (labels (addCallsListToLabels d p))
        = Some (set_calls (calls lP ++ added) lP)
        ∧ ∀ L, count_occ Z.eq_dec added L
               = match JsMap.get L (labels d) with
                 | Some l =>
                     if isSubroutineLabelType (type l)
                     then size (filter (λ r, addressParents p !! r = Some P)
                                       (references l))
                     else 0%nat
                 | None => 0%nat
                 end.
Proof.
  intros Hnd.
  destruct (addCallsListToLabels_fold (addressParents p) (JsMap.keys (labels d))
              (labels d) Hnd) as [Hk Hall].
  cbv zeta in Hk, Hall. split; [exact Hk|]. intros P lP HP.
  destruct (Hall P lP HP) as (added & Hget & Hcount).
  exists added. split; [exact Hget|]. intros L. rewrite Hcount.
  case_bool_decide as Hin; [done|].
  destruct (JsMap.get L (labels d)) as [l|] eqn:HL; [|done].
  exfalso. apply Hin, JsMap_get_keys. by exists l.
Qed.

Lemma addCallsListToLabels_counts_witness :
  ∃ added,
    JsMap.get 0 (labels (addCallsListToLabels selfJumping
                           (mkParents {[3 := 0; 6 := 0]} ∅)))
    = Some (set_calls added (plainLabel CODE_SUB {[3; 6; 32]}))
    ∧ count_occ Z.eq_dec added 0
      = size (filter (λ r, ({[3 := 0; 6 := 0]} : gmap Z Z) !! r = Some 0)
                     ({[3; 6; 32]} : gset Z)).
Proof.
  destruct (addCallsListToLabels_counts selfJumping (mkParents {[3 := 0; 6 := 0]} ∅))
    as [_ Hall].
  { simpl. apply NoDup_singleton. }
  destruct (Hall 0 (plainLabel CODE_SUB {[3; 6; 32]}) eq_refl)
    as (added & Hget & Hcount).
  exists added. split; [exact Hget|]. exact (Hcount 0).
Defined.

(** ** Pass 2: [findInterruptLabels] *)

Section InterruptFacts.
Context {table : OpcodeTable}.
Variable prefix : string.
Variable m : DisMemory.t.
Variable L : JsMap.t DisLabel.
Variable sna : Z.

(** The bytes from [a] up to [k] are code in which no instruction
    starts. *)
Definition insideCode (a k : Z) : Prop :=
  ∀ c, a <= c < k →
    hasAttr (DisMemory.getAttributeAt m c) MemAttribute.CODE = true
    ∧ hasAttr (DisMemory.getAttributeAt m c) MemAttribute.CODE_FIRST = false.

(** The loop, started at [a] with [prevCodeAddr], has [b] as
    [prevCodeAddr] at [k], and [b] is an address. *)
Definition remembered (a prevCodeAddr k b : Z) : Prop :=
  0 <= b
  ∧ ((b = prevCodeAddr ∧ insideCode a k)
     ∨ (a <= b < k
        ∧ hasAttr (DisMemory.getAttributeAt m b) MemAttribute.CODE_FIRST = true
        ∧ insideCode (b + 1) k)).

(** The loop, started at [a], gives the address [k] a label. *)
Definition interruptAt (a prevAttr prevCodeAddr k : Z) : Prop :=
  k ≠ sna
  ∧ hasAttr (DisMemory.getAttributeAt m k) MemAttribute.CODE_FIRST = true
  ∧ hasAttr (DisMemory.getAttributeAt m k) MemAttribute.ASSIGNED = true
  ∧ JsMap.get k L = None
  ∧ (hasAttr (prevAttrAt m a prevAttr k) MemAttribute.ASSIGNED = false
     ∨ hasAttr (prevAttrAt m a prevAttr k) MemAttribute.CODE = false
     ∨ ∃ b, remembered a prevCodeAddr k b ∧ hasFlag STOP (getOpcodeAt m b) = true).

(** The test of one round, and the addresses that the rounds find. *)
Definition interruptHere (a prevAttr prevCodeAddr : Z) : bool :=
  let memAttr := DisMemory.getAttributeAt m a in
  bool_decide (a ≠ sna)
  && hasAttr memAttr MemAttribute.CODE_FIRST
  && hasAttr memAttr MemAttribute.ASSIGNED
  && match JsMap.get a L with Some _ => false | None => true end
  && (negb (hasAttr prevAttr MemAttribute.ASSIGNED)
      || negb (hasAttr prevAttr MemAttribute.CODE)
      || (bool_decide (prevCodeAddr >= 0)
          && hasFlag STOP (getOpcodeAt m prevCodeAddr))).

Definition nextCodeAddr (a prevCodeAddr : Z) : Z :=
  let memAttr := DisMemory.getAttributeAt m a in
  let prevCodeAddr :=
    if negb (hasAttr memAttr MemAttribute.CODE) then -1 else prevCodeAddr in
  if hasAttr memAttr MemAttribute.CODE_FIRST then a else prevCodeAddr.

Fixpoint scanInterrupts (rounds : nat) (a prevAttr prevCodeAddr : Z) : list Z :=
  match rounds with
  | O => []
  | S rounds' =>
      (if interruptHere a prevAttr prevCodeAddr then [a] else [])
      ++ scanInterrupts rounds' (a + 1) (DisMemory.getAttributeAt m a)
           (nextCodeAddr a prevCodeAddr)
  end.

(** The loop gives the addresses of [scanInterrupts] a label, one after
    the other. *)
Lemma findInterruptLabels_loop_scan (rounds : nat) (d : Disassembler)
    (a prevAttr prevCodeAddr : Z) (found : list Z) :
  memory d = m → snaStartAddress d = sna →
  (∀ k, a <= k → JsMap.get k (labels d) = JsMap.get k L) →
  findInterruptLabels_loop prefix rounds d a prevAttr prevCodeAddr found
  = (foldl (λ d k, setFixedCodeLabel d k (Some prefix)) d
       (scanInterrupts rounds a prevAttr prevCodeAddr),
     found ++ scanInterrupts rounds a prevAttr prevCodeAddr).
Proof.
  revert d a prevAttr prevCodeAddr found.
  induction rounds as [|rounds IH]; intros d a prevAttr prevCodeAddr found Hm Hsna Hl.
  { simpl. by rewrite app_nil_r. }
  cbn [findInterruptLabels_loop scanInterrupts]. cbv zeta.
  rewrite Hm, Hsna, (Hl a) by lia.
  fold (nextCodeAddr a prevCodeAddr).
  set (step := if bool_decide (a ≠ sna) then _ else (d, found)).
  assert (step = if interruptHere a prevAttr prevCodeAddr
                 then (setFixedCodeLabel d a (Some prefix), found ++ [a])
                 else (d, found)) as ->.
  { unfold step, interruptHere. cbv zeta.
    destruct (bool_decide (a ≠ sna)); [|done]. simpl.
    destruct (hasAttr (DisMemory.getAttributeAt m a) MemAttribute.CODE_FIRST
              && hasAttr (DisMemory.getAttributeAt m a) MemAttribute.ASSIGNED); [|done].
    simpl. destruct (JsMap.get a L); [done|]. simpl.
    destruct (negb (hasAttr prevAttr MemAttribute.ASSIGNED)
              || negb (hasAttr prevAttr MemAttribute.CODE)); [done|]. simpl.
    destruct (bool_decide (prevCodeAddr >= 0)); [|done]. simpl.
    by destruct (hasFlag STOP (getOpcodeAt m prevCodeAddr)). }
  destruct (interruptHere a prevAttr prevCodeAddr).
  - rewrite IH.
    + simpl. by rewrite <- app_assoc.
    + rewrite setFixedCodeLabel_spec. cbv zeta. done.
    + rewrite setFixedCodeLabel_spec. cbv zeta. done.
    + intros k Hk. rewrite setFixedCodeLabel_spec. cbv zeta. simpl.
      rewrite JsMapFacts.get_set_ne by lia. apply Hl. lia.
  - rewrite IH; [done..|]. intros k Hk. apply Hl. lia.
Qed.

Lemma remembered_next (a prevCodeAddr k b : Z) :
  a < k →
  remembered (a + 1) (nextCodeAddr a prevCodeAddr) k b ↔ remembered a prevCodeAddr k b.
Proof.
  intros Hk. unfold remembered, nextCodeAddr, insideCode.
  destruct (hasAttr (DisMemory.getAttributeAt m a) MemAttribute.CODE_FIRST) eqn:Hf;
    [|destruct (hasAttr (DisMemory.getAttributeAt m a) MemAttribute.CODE) eqn:Hc];
    simpl.
  - split; intros [Hb H]; (split; [done|]).
    + destruct H as [[-> H]|(Hr & Hfb & H)]; right.
      * split; [lia|]. split; [done|]. intros c Hc. apply H. lia.
      * split; [lia|]. by split.
    + destruct H as [[-> H]|(Hr & Hfb & H)].
      * destruct (H a ltac:(lia)) as [_ Hno]. congruence.
      * destruct (decide (b = a)) as [->|Hne].
        -- left. split; [done|]. intros c Hc. apply H. lia.
        -- right. split; [lia|]. by split.
  - split; intros [Hb H]; (split; [done|]).
    + destruct H as [[-> H]|(Hr & Hfb & H)]; [left | right].
      * split; [done|]. intros c Hc'. destruct (decide (c = a)) as [->|Hne]; [done|].
        apply H. lia.
      * split; [lia|]. by split.
    + destruct H as [[-> H]|(Hr & Hfb & H)]; [left | right].
      * split; [done|]. intros c Hc'. apply H. lia.
      * split; [|by split]. destruct (decide (b = a)) as [->|Hne]; [congruence | lia].
  - split; intros [Hb H]; (split; [done|]).
    + destruct H as [[-> H]|(Hr & Hfb & H)]; [lia | right].
      split; [lia|]. by split.
    + destruct H as [[-> H]|(Hr & Hfb & H)].
      * destruct (H a ltac:(lia)) as [Hyes _]. congruence.
      * right. split; [|by split].
        destruct (decide (b = a)) as [->|Hne]; [congruence | lia].
Qed.

Lemma scanInterrupts_elem (rounds : nat) (a prevAttr prevCodeAddr k : Z) :
  k ∈ scanInterrupts rounds a prevAttr prevCodeAddr
  ↔ a <= k < a + Z.of_nat rounds ∧ interruptAt a prevAttr prevCodeAddr k.
Proof.
  revert a prevAttr prevCodeAddr.
  induction rounds as [|rounds IH]; intros a prevAttr prevCodeAddr.
  { simpl. split; [by intros ?%elem_of_nil | lia]. }
  cbn [scanInterrupts]. rewrite elem_of_app, IH.
  destruct (decide (k = a)) as [->|Hne].
  - (* the round for [k] itself *)
    assert (interruptHere a prevAttr prevCodeAddr = true
            ↔ interruptAt a prevAttr prevCodeAddr a) as Hhere.
    { unfold interruptHere, interruptAt, prevAttrAt, remembered. cbv zeta.
      rewrite (bool_decide_eq_true_2 (a = a)) by done.
      rewrite !andb_true_iff, !orb_true_iff, !negb_true_iff, bool_decide_eq_true.
      split.
      - intros ((((Hs & Hf) & Ha) & Hl) & Hp).
        split; [done|]. split; [done|]. split; [done|].
        split; [by destruct (JsMap.get a L)|].
        destruct Hp as [[Hp|Hp]|Hp]; [by left | right; by left | right; right].
        apply andb_true_iff in Hp as [Hpc Hstop]. apply bool_decide_eq_true in Hpc.
        exists prevCodeAddr. split; [|done]. split; [lia|]. left. split; [done|].
        intros c Hc. lia.
      - intros (Hs & Hf & Ha & Hl & Hp).
        split; [split; [split; [by split | done]|by rewrite Hl]|].
        destruct Hp as [Hp|[Hp|(b & [Hb [[-> _]|(Hr & _)]] & Hstop)]];
          [left; by left | left; by right | right | lia].
        apply andb_true_iff. split; [|done]. apply bool_decide_eq_true. lia. }
    split.
    + intros [Hin|[Hr _]]; [|lia]. split; [lia|]. apply Hhere.
      destruct (interruptHere a prevAttr prevCodeAddr); [done|].
      by apply elem_of_nil in Hin.
    + intros [_ Hi]. left. apply Hhere in Hi. rewrite Hi. by left.
  - (* the rounds after *)
    assert (k ∈ (if interruptHere a prevAttr prevCodeAddr then [a] else []) ↔ False)
      as ->.
    { split; [|done]. destruct (interruptHere a prevAttr prevCodeAddr); intros H.
      - by apply list_elem_of_singleton in H.
      - by apply elem_of_nil in H. }
    assert (a < k →
            (interruptAt (a + 1) (DisMemory.getAttributeAt m a)
               (nextCodeAddr a prevCodeAddr) k
             ↔ interruptAt a prevAttr prevCodeAddr k)) as Hsame.
    { intros Hk. unfold interruptAt, prevAttrAt.
      rewrite (bool_decide_eq_false_2 (k = a)) by done.
      destruct (decide (k = a + 1)) as [->|Hne1].
      - rewrite bool_decide_eq_true_2 by done.
        replace (a + 1 - 1) with a by lia.
        by setoid_rewrite (remembered_next a prevCodeAddr (a + 1)).
      - rewrite bool_decide_eq_false_2 by done.
        by setoid_rewrite (remembered_next a prevCodeAddr k). }
    split.
    + intros [[]|[Hr Hi]]. split; [lia|]. apply Hsame; [lia | done].
    + intros [Hr Hi]. right. split; [lia|]. apply Hsame; [lia | done].
Qed.

Lemma scanInterrupts_sorted (rounds : nat) (a prevAttr prevCodeAddr : Z) :
  Sorted.StronglySorted Z.lt (scanInterrupts rounds a prevAttr prevCodeAddr).
Proof.
  revert a prevAttr prevCodeAddr.
  induction rounds as [|rounds IH]; intros a prevAttr prevCodeAddr; [constructor|].
  cbn [scanInterrupts]. destruct (interruptHere a prevAttr prevCodeAddr); [|apply IH].
  simpl. constructor; [apply IH|]. apply List.Forall_forall. intros k Hk.
  apply list_elem_of_In in Hk. apply scanInterrupts_elem in Hk. lia.
Qed.

(** The labels that the first loop sets. *)
Lemma setFixedCodeLabel_fold (new : list Z) (d : Disassembler) :
  memory d = m →
  (∀ k, k ∈ new →
     hasAttr (DisMemory.getAttributeAt m k) MemAttribute.ASSIGNED = true) →
  let d' := foldl (λ d k, setFixedCodeLabel d k (Some prefix)) d new in
  d' = with_addressQueue (addressQueue d ++ new) (with_labels (labels d') d)
  ∧ ∀ k, JsMap.get k (labels d')
         = if bool_decide (k ∈ new) then Some (fixedCodeLabel (Some prefix) true)
           else JsMap.get k (labels d).
Proof.
  revert d. induction new as [|x new IH]; intros d Hm Hassigned; cbv zeta.
  { cbn [foldl]. split; [rewrite app_nil_r; by destruct d|]. intros k.
    by rewrite bool_decide_eq_false_2 by by intros ?%elem_of_nil. }
  cbn [foldl]. rewrite setFixedCodeLabel_spec. cbv zeta.
  rewrite Hm, (Hassigned x) by left.
  set (d1 := with_addressQueue _ _).
  destruct (IH d1) as [Hd' Hget]; [done | intros k Hk; apply Hassigned; by right|].
  cbv zeta in Hd', Hget. split.
  { rewrite Hd' at 1. unfold d1. simpl. unfold with_addressQueue, with_labels. simpl.
    by rewrite <- app_assoc. }
  intros k. rewrite Hget. unfold d1. simpl.
  destruct (decide (k ∈ new)) as [Hin|Hin].
  - rewrite !bool_decide_eq_true_2; [done | by right | done].
  - rewrite (bool_decide_eq_false_2 (k ∈ new)) by done.
    destruct (decide (k = x)) as [->|Hne].
    + rewrite JsMapFacts.get_set_eq. by rewrite bool_decide_eq_true_2 by left.
    + rewrite JsMapFacts.get_set_ne by done.
      rewrite bool_decide_eq_false_2; [done|].
      intros H. apply elem_of_cons in H as [?|?]; done.
Qed.

(** The numbers that the second loop adds. *)
Lemma findInterruptLabels_number_spec (new : list Z) (labels : JsMap.t DisLabel)
    (index : Z) :
  NoDup new →
  (∀ k, k ∈ new → JsMap.get k labels = Some (fixedCodeLabel (Some prefix) true)) →
  ∃ labels',
    findInterruptLabels_number labels new index = Ok labels'
    ∧ (∀ k, k ∉ new → JsMap.get k labels' = JsMap.get k labels)
    ∧ ∀ (i : nat) k, new !! i = Some k →
        JsMap.get k labels'
        = Some (fixedCodeLabel
                  (Some (prefix +:+ toString10 (index + Z.of_nat i + 1))) true).
Proof.
  revert labels index. induction new as [|x new IH]; intros labels index Hnd Hall.
  { exists labels. split; [done|]. split; [done|]. intros i k Hi. done. }
  apply NoDup_cons in Hnd as [Hx Hnd].
  cbn [findInterruptLabels_number]. rewrite (Hall x) by left. cbv zeta.
  set (labels1 := JsMap.set x _ labels).
  destruct (IH labels1 (index + 1) Hnd) as (labels' & Hrun & Hother & Hnum).
  { intros k Hk. unfold labels1. rewrite JsMapFacts.get_set_ne by (intros ->; done).
    apply Hall. by right. }
  exists labels'. split; [exact Hrun|]. split.
  - intros k Hk. rewrite Hother by (intros H; apply Hk; by right).
    unfold labels1. apply JsMapFacts.get_set_ne. intros ->. apply Hk. left.
  - intros [|i] k Hi; simpl in Hi.
    + injection Hi as <-. rewrite (Hother x Hx). unfold labels1.
      rewrite JsMapFacts.get_set_eq. by rewrite Z.add_0_r.
    + rewrite (Hnum i k Hi).
      by replace (index + Z.of_nat (S i) + 1) with (index + 1 + Z.of_nat i + 1) by lia.
Qed.

End InterruptFacts.

(** An instruction starts at [k], which has no label and is not the start
    address of a snapshot, and the byte before it is not assigned or no
    code, or the instruction before it, whose bytes reach up to [k], has
    the [STOP] flag. *)
Definition interruptStart {table : OpcodeTable} (d : Disassembler) (k : Z) : Prop :=
  let attr := DisMemory.getAttributeAt (memory d) in
  0 <= k < MAX_MEM_SIZE
  ∧ k ≠ snaStartAddress d
  ∧ hasAttr (attr k) MemAttribute.CODE_FIRST = true
  ∧ hasAttr (attr k) MemAttribute.ASSIGNED = true
  ∧ JsMap.get k (labels d) = None
  ∧ (k = 0
     ∨ hasAttr (attr (k - 1)) MemAttribute.ASSIGNED = false
     ∨ hasAttr (attr (k - 1)) MemAttribute.CODE = false
     ∨ ∃ b, 0 <= b < k
            ∧ hasAttr (attr b) MemAttribute.CODE_FIRST = true
            ∧ (∀ c, b < c < k →
                 hasAttr (attr c) MemAttribute.CODE = true
                 ∧ hasAttr (attr c) MemAttribute.CODE_FIRST = false)
            ∧ hasFlag STOP (getOpcodeAt (memory d) b) = true).

(** X24. [findInterruptLabels] always returns. It gives a fixed
    [CODE_LBL] label to exactly the addresses of [interruptStart] and
    queues them, in ascending order; the label of the only such address
    has the prefix as its name, and if there are more, the label of the
    i-th address has the prefix followed by the number i, counted from 1.
    The other labels and the memory are unchanged. *)
Theorem findInterruptLabels_labels {table : OpcodeTable} (prefix : string)
    (d : Disassembler) :
  ∃ found d',
    findInterruptLabels prefix d = Ok d'
    ∧ Sorted.StronglySorted Z.lt found
    ∧ (∀ k, k ∈ found ↔ interruptStart d k)
    ∧ d' = with_addressQueue (addressQueue d ++ found) (with_labels (labels d') d)
    ∧ (∀ k, k ∉ found → JsMap.get k (labels d') = JsMap.get k (labels d))
    ∧ ∀ (i : nat) k, found !! i = Some k →
        JsMap.get k (labels d')
        = Some (fixedCodeLabel
                  (Some (if bool_decide (Z.of_nat (List.length found) > 1)
                         then prefix +:+ toString10 (Z.of_nat i + 1) else prefix))
                  true).
Proof.
  assert (∃ R, R = Z.to_nat MAX_MEM_SIZE ∧ Z.of_nat R = MAX_MEM_SIZE)
    as (R & HR & HRZ).
  { eexists. split; [reflexivity|]. unfold MAX_MEM_SIZE. lia. }
  unfold findInterruptLabels. rewrite <- HR. clear HR.
  rewrite (findInterruptLabels_loop_scan prefix (memory d) (labels d)
             (snaStartAddress d)) by done.
  set (found := scanInterrupts (memory d) (labels d) (snaStartAddress d) R 0 0 (-1)).
  assert (∀ k, k ∈ found ↔ interruptStart d k) as Helem.
  { intros k. unfold found. rewrite scanInterrupts_elem, HRZ.
    unfold interruptAt, interruptStart, prevAttrAt, remembered, insideCode. cbv zeta.
    split.
    - intros (Hr & Hs & Hf & Ha & Hl & Hp).
      split; [lia|]. split; [done|]. split; [done|]. split; [done|]. split; [done|].
      destruct (decide (k = 0)) as [->|Hne]; [by left | right].
      rewrite bool_decide_eq_false_2 in Hp by done.
      destruct Hp as [Hp|[Hp|(b & [Hb [[-> _]|(Hrb & Hfb & Hin)]] & Hstop)]];
        [by left | right; by left | lia | right; right].
      exists b. split; [lia|]. split; [done|]. split; [|done].
      intros c Hc. apply Hin. lia.
    - intros (Hr & Hs & Hf & Ha & Hl & Hp).
      split; [lia|]. split; [done|]. split; [done|]. split; [done|]. split; [done|].
      destruct (decide (k = 0)) as [->|Hne].
      { rewrite bool_decide_eq_true_2 by done. by left. }
      rewrite bool_decide_eq_false_2 by done.
      destruct Hp as [?|[Hp|[Hp|(b & Hb & Hfb & Hin & Hstop)]]];
        [done | by left | right; by left | right; right].
      exists b. split; [|done]. split; [lia|]. right. split; [lia|].
      split; [done|]. intros c Hc. apply Hin. lia. }
  assert (Sorted.StronglySorted Z.lt found) as Hsorted
    by apply scanInterrupts_sorted.
  assert (NoDup found) as Hnd.
  { clear -Hsorted. induction Hsorted as [|x l Hs IH Hall]; [constructor|].
    apply NoDup_cons. split; [|done]. intros Hx.
    apply list_elem_of_In in Hx. rewrite List.Forall_forall in Hall.
    specialize (Hall x Hx). lia. }
  destruct (setFixedCodeLabel_fold prefix (memory d) found d eq_refl)
    as [Hd1 Hget1].
  { intros k Hk. apply Helem in Hk. apply Hk. }
  cbv zeta in Hd1, Hget1.
  set (d1 := foldl (λ d k, setFixedCodeLabel d k (Some prefix)) d found) in *.
  exists found. cbn [app]. cbv beta iota zeta. fold d1.
  destruct (bool_decide (Z.of_nat (List.length found) > 1)) eqn:Hcount.
  - destruct (findInterruptLabels_number_spec prefix found (labels d1) 0 Hnd)
      as (labels' & Hrun & Hother & Hnum).
    { intros k Hk. rewrite Hget1. by rewrite bool_decide_eq_true_2. }
    rewrite Hrun. simpl. eexists. split; [done|]. split; [done|]. split; [done|].
    simpl. split; [|split].
    + rewrite Hd1 at 1. done.
    + intros k Hk. rewrite (Hother k Hk), Hget1. by rewrite bool_decide_eq_false_2.
    + intros i k Hi. rewrite (Hnum i k Hi). by rewrite Z.add_0_l.
  - exists d1. split; [done|]. split; [done|]. split; [done|]. split; [done|]. split.
    + intros k Hk. rewrite Hget1. by rewrite bool_decide_eq_false_2.
    + intros i k Hi. rewrite Hget1. rewrite bool_decide_eq_true_2; [done|].
      by apply list_elem_of_lookup_2 in Hi.
Qed.

(** ** [getIndex] *)

Lemma length_append (s t : string) :
  String.length (s +:+ t) = (String.length s + String.length t)%nat.
Proof.
  induction s as [|c s IH]; [reflexivity|].
  change (S (String.length (s +:+ t)) = S (String.length s + String.length t)).
  by rewrite IH.
Qed.

Lemma length_copies_0 (n : nat) : String.length (copies "0" n) = n.
Proof.
  induction n as [|n IH]; [reflexivity|].
  change (S (String.length (copies "0" n)) = S n). by rewrite IH.
Qed.

(** Zeros in front of a numeral do not change the number it reads as. *)
Lemma uint_of_string_zeros (n : nat) (s : string) (u : Decimal.uint) :
  DecimalString.NilEmpty.uint_of_string s = Some u →
  ∃ u', DecimalString.NilEmpty.uint_of_string (copies "0" n +:+ s) = Some u'
        ∧ Z.of_uint u' = Z.of_uint u.
Proof.
  intros Hs. induction n as [|n (u' & Hu' & Hz)]; [by exists u|].
  exists (Decimal.D0 u'). split; [|exact Hz].
  change (DecimalString.uint_of_char "0"
            (DecimalString.NilEmpty.uint_of_string (copies "0" n +:+ s))
          = Some (Decimal.D0 u')).
  by rewrite Hu'.
Qed.

(** X25. [getIndex(index, countDigits)] throws exactly when the decimal
    numeral of [index] has more than [countDigits] characters. Otherwise
    its result has [countDigits] characters, and for an index that is not
    negative it reads as the decimal numeral of [index]. *)
Theorem getIndex_pads (index countDigits : Z) :
  (getIndex index countDigits = None
   ↔ countDigits < Z.of_nat (String.length (toString10 index)))
  ∧ ∀ s, getIndex index countDigits = Some s →
      Z.of_nat (String.length s) = countDigits
      ∧ (0 <= index →
         Z.of_int <$> DecimalString.NilZero.int_of_string s = Some index).
Proof.
  unfold getIndex, repeatString. cbv zeta.
  set (str := toString10 index). case_bool_decide as Hneg.
  { split; [split; [lia | done] | done]. }
  split; [split; [done | lia]|].
  intros s [= <-]. split.
  { rewrite length_append, length_copies_0. lia. }
  intros Hindex.
  set (n := Z.to_nat (countDigits - Z.of_nat (String.length str))).
  assert (∃ u, str = DecimalString.NilZero.string_of_uint u
               ∧ DecimalString.NilEmpty.uint_of_string str = Some u
               ∧ u ≠ Decimal.Nil ∧ Z.of_uint u = index) as (u & Hstr & Hu & Hnil & Hz).
  { unfold str, toString10.
    pose proof (DecimalZ.of_to index) as Hback.
    destruct (Z.to_int index) as [u|u] eqn:Hi.
    - assert (u ≠ Decimal.Nil) as Hnil.
      { intros ->. destruct index as [|p|p]; simpl in Hi; [done| |done].
        injection Hi as Hp. by apply DecimalPos.Unsigned.to_uint_nonnil in Hp. }
      exists u. split; [done|]. split; [|done].
      pose proof (DecimalString.NilZero.usu u Hnil) as Husu.
      unfold DecimalString.NilZero.uint_of_string in Husu.
      change (DecimalString.NilZero.string_of_int (Decimal.Pos u))
        with (DecimalString.NilZero.string_of_uint u).
      by destruct (DecimalString.NilZero.string_of_uint u).
    - exfalso. destruct index as [|p|p]; simpl in Hi; [done | done | lia]. }
  destruct (uint_of_string_zeros n str u Hu) as (u' & Hu' & Hz').
  unfold DecimalString.NilZero.int_of_string.
  assert (∃ c t, copies "0" n +:+ str = String c t
                 ∧ c ≠ "-"%char
                 ∧ DecimalString.NilZero.uint_of_string (String c t) = Some u')
    as (c & t & -> & Hc & Hparse).
  { destruct n as [|n'].
    - change (copies "0" 0 +:+ str) with str in *.
      destruct str as [|c t] eqn:Hs.
      + exfalso. clear -Hstr Hnil. unfold DecimalString.NilZero.string_of_uint in Hstr.
        destruct u; [done|discriminate..].
      + exists c, t. split; [done|]. split; [|exact Hu'].
        intros ->. clear -Hstr Hnil.
        unfold DecimalString.NilZero.string_of_uint in Hstr.
        destruct u; [done|discriminate..].
    - exists "0"%char, (copies "0" n' +:+ str).
      split; [reflexivity|]. split; [done | exact Hu']. }
  cbv beta iota. rewrite (proj2 (Ascii.eqb_neq c "-") Hc), Hparse.
  simpl. f_equal. congruence.
Qed.
